(** * loggerhead history_db: the persistent incremental merge-sort indexer

    A shallow embedding of [loggerhead/history_db.py] (classes [Importer],
    [_MergeSortNode], [_IncrementalMergeSort] and [Querier]) and the
    statements of its specification that were checked against it.

    Conventions of the embedding
    - Python [int] is [Z]; revision identifiers (byte strings) are [string];
      database ids are [Z]; [None] is [option].
    - A Python [dict] is a [gmap], a [set] a [gset]; iterating one of them
      uses the order of [map_to_list] / [elements] (Python leaves it
      unspecified).
    - A Python list used as a stack ([append] / [pop] at the end) is a list
      whose head is the top of the stack.
    - A method that can raise or loop returns a [res]: [Ok], [Raise] with
      the exception, or [OutOfFuel] when the loop budget given to the model
      ran out (the Python code has no such budget).
    - The [_stats] counters, [trace.note] calls and the progress bar have no
      effect on any value that is modelled, and are left out. *)

From stdpp Require Import gmap strings list.
From Stdlib Require Import ZArith Ascii DecimalString.
From Stdlib Require DecimalPos DecimalZ Sorted.

Local Open Scope Z_scope.

(** ** Exceptions and results *)

Inductive exn : Type :=
  | KeyError
  | IndexError
  | ValueError
  | NameError (name : string)
  | AssertionError
  | AttributeError
  | TypeError
  | IntegrityError.

Inductive res (A : Type) : Type :=
  | Ok (a : A)
  | Raise (e : exn)
  | OutOfFuel.
Arguments Ok {A} a.
Arguments Raise {A} e.
Arguments OutOfFuel {A}.

#[global] Instance res_ret : MRet res := λ A a, Ok a.
#[global] Instance res_bind : MBind res := λ A B f m,
  match m with
  | Ok a => f a
  | Raise e => Raise e
  | OutOfFuel => OutOfFuel
  end.

#[global] Instance res_fmap : FMap res := λ A B f m,
  match m with
  | Ok a => Ok (f a)
  | Raise e => Raise e
  | OutOfFuel => OutOfFuel
  end.

(** [d[k]] on a dict: [KeyError] when the key is absent. *)
Definition getitem `{Countable K} {V} (d : gmap K V) (k : K) : res V :=
  match d !! k with
  | Some v => Ok v
  | None => Raise KeyError
  end.

(** [l[i]] on a tuple or list, for an index [i >= 0]. *)
Definition index {A} (l : list A) (i : nat) : res A :=
  match l !! i with
  | Some v => Ok v
  | None => Raise IndexError
  end.

(** [d.update(pairs)]: later pairs win. *)
Definition dict_update `{Countable K} {V} (d : gmap K V) (kvs : list (K * V))
  : gmap K V :=
  foldl (λ m kv, <[kv.1 := kv.2]> m) d kvs.

(** A monadic left fold: a [for] loop whose body can raise. *)
Fixpoint for_each {A S} (body : S → A → res S) (l : list A) (s : S) : res S :=
  match l with
  | [] => Ok s
  | x :: r => s' ← body s x; for_each body r s'
  end.

(** ** Strings: [str(int)], [int(str)], [str.split] and [str.join] *)

Definition str (z : Z) : string := NilZero.string_of_int (Z.to_int z).

(** [int(s)] for the decimal strings [str] produces; [ValueError] otherwise. *)
Definition int (s : string) : res Z :=
  match NilZero.int_of_string s with
  | Some d => Ok (Z.of_int d)
  | None => Raise ValueError
  end.

Fixpoint split (sep : Ascii.ascii) (s : string) : list string :=
  match s with
  | EmptyString => [EmptyString]
  | String c s' =>
      if Ascii.eqb c sep then EmptyString :: split sep s'
      else match split sep s' with
           | [] => [String c EmptyString]
           | w :: ws => String c w :: ws
           end
  end.

Fixpoint join (sep : string) (l : list string) : string :=
  match l with
  | [] => EmptyString
  | [x] => x
  | x :: r => x +:+ sep +:+ join sep r
  end.

(** ['.'.join(map(str, revno))] *)
Definition revno_str (revno : list Z) : string := join "." (str <$> revno).

(** [map(int, s.split('.'))] *)
Definition parse_revno (s : string) : res (list Z) :=
  for_each (λ acc w, z ← int w; Ok (acc ++ [z])) (split "."%char s) [].

(** The number of dot-separated components of a stored revno. *)
Definition components (s : string) : nat := length (split "."%char s).

(** ** The store *)

Module schema.

(** Modelled from the spec: the tables of the database (section 4.1); the
    module [history_db_schema] that creates them is not among the sources.
    A table is the list of its rows in insertion order. *)
Record revision_row := mk_revision
  { db_id : Z; revision_id : string; gdfo : Z }.
Record parent_row := mk_parent
  { child : Z; parent : Z; parent_idx : Z }.
Record dotted_revno_row := mk_dotted
  { tip_revision : Z; merged_revision : Z; revno : string;
    end_of_merge : bool; merge_depth : Z; dist : Z }.
Record mainline_parent_range_row := mk_range
  { pkey : Z; head : Z; tail : option Z; count : Z }.
Record mainline_parent_row := mk_member
  { range : Z; revision : Z; mp_dist : Z }.

Record db := mk_db
  { t_revision : list revision_row;
    t_ghost : list Z;
    t_parent : list parent_row;
    t_dotted_revno : list dotted_revno_row;
    t_mainline_parent_range : list mainline_parent_range_row;
    t_mainline_parent : list mainline_parent_row }.

Definition empty : db := mk_db [] [] [] [] [] [].

Definition with_revision (v : list revision_row) (d : db) : db :=
  mk_db v (t_ghost d) (t_parent d) (t_dotted_revno d)
        (t_mainline_parent_range d) (t_mainline_parent d).
Definition with_ghost (v : list Z) (d : db) : db :=
  mk_db (t_revision d) v (t_parent d) (t_dotted_revno d)
        (t_mainline_parent_range d) (t_mainline_parent d).
Definition with_parent (v : list parent_row) (d : db) : db :=
  mk_db (t_revision d) (t_ghost d) v (t_dotted_revno d)
        (t_mainline_parent_range d) (t_mainline_parent d).
Definition with_dotted_revno (v : list dotted_revno_row) (d : db) : db :=
  mk_db (t_revision d) (t_ghost d) (t_parent d) v
        (t_mainline_parent_range d) (t_mainline_parent d).
Definition with_mainline_parent_range
    (v : list mainline_parent_range_row) (d : db) : db :=
  mk_db (t_revision d) (t_ghost d) (t_parent d) (t_dotted_revno d)
        v (t_mainline_parent d).
Definition with_mainline_parent (v : list mainline_parent_row) (d : db) : db :=
  mk_db (t_revision d) (t_ghost d) (t_parent d) (t_dotted_revno d)
        (t_mainline_parent_range d) v.

(** [INSERT INTO revision (revision_id, gdfo) VALUES (?, ?)]: [db_id] is
    the next integer; [revision_id] is UNIQUE. *)
Definition insert_revision (rev_id : string) (g : Z) (d : db) : res db :=
  if bool_decide (Exists (λ r, revision_id r = rev_id) (t_revision d))
  then Raise IntegrityError
  else Ok (with_revision
             (t_revision d
              ++ [mk_revision (Z.of_nat (length (t_revision d)) + 1) rev_id g])
             d).

(** [SELECT gdfo FROM revision WHERE revision_id = ?] and
    [SELECT db_id FROM revision WHERE revision_id = ?] *)
Definition select_revision (d : db) (rev_id : string)
  : option revision_row :=
  hd_error (filter (λ r, revision_id r = rev_id) (t_revision d)).

(** [INSERT INTO ghost (db_id) SELECT db_id FROM revision
     WHERE revision_id = ?]; [db_id] is the primary key of [ghost]. *)
Definition insert_ghost (rev_id : string) (d : db) : res db :=
  let ids := db_id <$> filter (λ r, revision_id r = rev_id) (t_revision d) in
  if bool_decide (Exists (λ i, i ∈ t_ghost d) ids) then Raise IntegrityError
  else Ok (with_ghost (t_ghost d ++ ids) d).

(** [INSERT OR IGNORE INTO parent (child, parent, parent_idx)]: a row whose
    [(child, parent_idx)] is already there is dropped. *)
Definition insert_or_ignore_parent (row : parent_row) (d : db) : db :=
  if bool_decide (Exists (λ r, child r = child row
                               ∧ parent_idx r = parent_idx row) (t_parent d))
  then d
  else with_parent (t_parent d ++ [row]) d.

(** Modelled from the spec: [schema.create_dotted_revnos], absent from the
    sources, inserts the given rows into [dotted_revno], whose
    [(tip, merged)] is UNIQUE (section 4.1).  The rows go in one at a
    time; at the first one that breaks uniqueness [IntegrityError] is
    raised, which the second component reports ([false]), the first being
    the table as the statement left it. *)
Fixpoint create_dotted_revnos (d : db) (revno_entries : list dotted_revno_row)
  : db * bool :=
  match revno_entries with
  | [] => (d, true)
  | e :: rest =>
      if bool_decide (Exists (λ r, tip_revision r = tip_revision e
                                   ∧ merged_revision r = merged_revision e)
                             (t_dotted_revno d))
      then (d, false)
      else create_dotted_revnos
             (with_dotted_revno (t_dotted_revno d ++ [e]) d) rest
  end.

(** Modelled from the spec: [schema.ensure_revisions], absent from the
    sources, is the interning of section 4.2: it gives every revision id a
    [db_id], reading the ones the [revision] table has and allocating a
    row for the others, and records them in the two in-memory maps.  A new
    row needs a [gdfo], which only the graph of a non-incremental import
    provides ([graph_gdfo]); without a graph a revision that is not in
    the table cannot be interned. *)
Definition ensure_revisions (revision_ids : list string)
    (graph_gdfo : option (string → Z))
    (st : db * gmap string Z * gmap Z string)
  : res (db * gmap string Z * gmap Z string) :=
  for_each (λ '(d, rev_id_to_db_id, db_id_to_rev_id) rev_id,
    match rev_id_to_db_id !! rev_id with
    | Some _ => Ok (d, rev_id_to_db_id, db_id_to_rev_id)
    | None =>
        d ← match select_revision d rev_id, graph_gdfo with
            | Some _, _ => Ok d
            | None, Some g => insert_revision rev_id (g rev_id) d
            | None, None => Raise AttributeError
            end;
        match select_revision d rev_id with
        | Some r =>
            Ok (d, <[rev_id := db_id r]> rev_id_to_db_id,
                <[db_id r := rev_id]> db_id_to_rev_id)
        | None => Raise KeyError
        end
    end) revision_ids st.

End schema.


(** A bound SQL parameter that is [None] is NULL, and [col = NULL] holds for
    no row. *)
Definition eq_param (col : Z) (p : option Z) : Prop := p = Some col.
#[global] Instance eq_param_dec col p : Decision (eq_param col p).
Proof. unfold eq_param. apply _. Defined.

(** Stable insertion sort for a strict order given as a boolean test; it
    stands for [ORDER BY] and for [list.sort]. *)
Fixpoint insert_sorted {A} (lt : A → A → bool) (x : A) (l : list A) : list A :=
  match l with
  | [] => [x]
  | y :: r => if lt x y then x :: y :: r else y :: insert_sorted lt x r
  end.
Definition sort_with {A} (lt : A → A → bool) (l : list A) : list A :=
  foldr (insert_sorted lt) [] l.

(** [ORDER BY k] (ascending) and [ORDER BY k DESC]. *)
Definition order_by {A} (k : A → Z) (l : list A) : list A :=
  sort_with (λ x y, k x <? k y) l.
Definition order_by_desc {A} (k : A → Z) (l : list A) : list A :=
  sort_with (λ x y, k y <? k x) l.

(** [SELECT parent, gdfo FROM parent, revision WHERE parent = db_id AND ...]:
    the join of the parent rows that satisfy [P] with their revision rows. *)
Definition parent_join_gdfo (d : schema.db) (P : schema.parent_row → Prop)
    `{∀ r, Decision (P r)} : list (Z * Z) :=
  p ← filter P (schema.t_parent d);
  r ← filter (λ r, schema.db_id r = schema.parent p) (schema.t_revision d);
  [(schema.parent p, schema.gdfo r)].

(** [_get_result_for_many]: the parameters are passed 200 at a time and the
    results concatenated. *)
Definition MAX_COUNT : nat := 200.

Fixpoint chunks {A} (fuel : nat) (n : nat) (l : list A) : list (list A) :=
  match fuel, l with
  | _, [] => []
  | O, _ => []
  | S f, _ => take n l :: chunks f n (drop n l)
  end.

Definition _get_result_for_many {A B} (query : list A → list B)
    (params : list A) : list B :=
  next_params ← chunks (length params) MAX_COUNT params; query next_params.

(** [Importer._get_lh_parent_db_id] (the [Querier] has its own copy of it):
    [SELECT parent FROM parent WHERE child = ? AND parent_idx = 0]. *)
Definition _get_lh_parent_db_id (d : schema.db) (revision_db_id : Z)
  : option Z :=
  match filter (λ r, schema.child r = revision_db_id ∧ schema.parent_idx r = 0)
               (schema.t_parent d) with
  | [] => None
  | r :: _ => Some (schema.parent r)
  end.

(** [_is_imported_db_id] of [_IncrementalMergeSort] and of [Querier]:
    [SELECT count( * ) FROM dotted_revno WHERE tip_revision = ?
     AND tip_revision = merged_revision] is positive. *)
Definition _is_imported_db_id (d : schema.db) (tip_db_id : option Z) : bool :=
  bool_decide (0 < length (filter
    (λ r, eq_param (schema.tip_revision r) tip_db_id
          ∧ schema.tip_revision r = schema.merged_revision r)
    (schema.t_dotted_revno d)))%nat.

(** ** [_MergeSortNode] *)

Module MergeSortNode.

(** [_pending_parents] is set to [None] once the node is numbered; [None]
    and the empty tuple are both false and the field is not read again, so
    both are the empty list here. *)
Record t := mk
  { key : Z;
    merge_depth : Z;
    revno : option (list Z);
    end_of_merge : option bool;
    _left_parent : option Z;
    _left_pending_parent : option Z;
    _pending_parents : list Z;
    _is_first : bool }.

(** [__init__] *)
Definition init (key merge_depth : Z) (left_parent : option Z)
    (pending_parents : list Z) (is_first : bool) : t :=
  mk key merge_depth None None left_parent left_parent pending_parents
     is_first.

End MergeSortNode.

(** The keys of [_branch_to_child_count]: the sentinel [0] of the mainline,
    or the pair [revno[:2]] of a merged branch. *)
Inductive branch_key : Type :=
  | mainline_key
  | branch (base_revno branch_num : Z).

#[global] Instance branch_key_eq_dec : EqDecision branch_key.
Proof. solve_decision. Defined.

#[global] Instance branch_key_countable : Countable branch_key :=
  inj_countable'
    (λ k, match k with
          | mainline_key => None
          | branch b n => Some (b, n)
          end)
    (λ o, match o with
          | None => mainline_key
          | Some (b, n) => branch b n
          end)
    (λ k, match k with mainline_key => eq_refl | branch _ _ => eq_refl end).

(** [x >= y] where [y] may still be [None] (smaller than every number). *)
Definition ge_opt (x : Z) (y : option Z) : bool :=
  match y with
  | None => true
  | Some y => y <=? x
  end.

(** The branch and the number on that branch a revno stands for:
    [(revno[:2], revno[2])] for a dotted revno and [(0, revno[0])] for a
    mainline one. *)
Definition branch_of (revno : list Z) : res (branch_key * Z) :=
  if bool_decide (1 < length revno)%nat then
    base_revno ← index revno 0;
    branch_num ← index revno 1;
    mini_revno ← index revno 2;
    Ok (branch base_revno branch_num, mini_revno)
  else
    mini_revno ← index revno 0;
    Ok (mainline_key, mini_revno).

(** ** [_IncrementalMergeSort] *)

Module IncrementalMergeSort.

Abbreviation node := MergeSortNode.t.

(** The fields of the object.  Those that [__init__] sets to [None] and a
    method assigns before any use ([_mainline_db_ids], [_search_tips], the
    two stacks, [_seen_parents], [_ghosts]) start empty.  [_cursor] is the
    database, which this class only reads: it is the argument [d] of the
    methods. *)
Record t := mk
  { _tip_db_id : Z;
    _mainline_db_ids : list Z;
    _imported_mainline_id : option Z;
    _known_gdfo : gmap Z Z;
    _interesting_ancestor_ids : gset Z;
    _imported_dotted_revno : gmap Z (list Z * bool * Z);
    _known_dotted : gset (list Z);
    _imported_gdfo : option Z;
    _search_tips : gset Z;
    _revno_to_branch_count : gmap Z Z;
    _branch_to_child_count : gmap branch_key Z;
    _depth_first_stack : list MergeSortNode.t;
    _scheduled_stack : list MergeSortNode.t;
    _seen_parents : gset Z;
    _parent_map : gmap Z (list Z);
    _ghosts : gset Z }.

Definition set_tip_db_id (v : Z) (s : t) : t :=
  mk v (_mainline_db_ids s) (_imported_mainline_id s) (_known_gdfo s)
     (_interesting_ancestor_ids s) (_imported_dotted_revno s)
     (_known_dotted s) (_imported_gdfo s) (_search_tips s)
     (_revno_to_branch_count s) (_branch_to_child_count s)
     (_depth_first_stack s) (_scheduled_stack s) (_seen_parents s)
     (_parent_map s) (_ghosts s).
Definition set_mainline_db_ids (v : list Z) (s : t) : t :=
  mk (_tip_db_id s) v (_imported_mainline_id s) (_known_gdfo s)
     (_interesting_ancestor_ids s) (_imported_dotted_revno s)
     (_known_dotted s) (_imported_gdfo s) (_search_tips s)
     (_revno_to_branch_count s) (_branch_to_child_count s)
     (_depth_first_stack s) (_scheduled_stack s) (_seen_parents s)
     (_parent_map s) (_ghosts s).
Definition set_imported_mainline_id (v : option Z) (s : t) : t :=
  mk (_tip_db_id s) (_mainline_db_ids s) v (_known_gdfo s)
     (_interesting_ancestor_ids s) (_imported_dotted_revno s)
     (_known_dotted s) (_imported_gdfo s) (_search_tips s)
     (_revno_to_branch_count s) (_branch_to_child_count s)
     (_depth_first_stack s) (_scheduled_stack s) (_seen_parents s)
     (_parent_map s) (_ghosts s).
Definition set_known_gdfo (v : gmap Z Z) (s : t) : t :=
  mk (_tip_db_id s) (_mainline_db_ids s) (_imported_mainline_id s) v
     (_interesting_ancestor_ids s) (_imported_dotted_revno s)
     (_known_dotted s) (_imported_gdfo s) (_search_tips s)
     (_revno_to_branch_count s) (_branch_to_child_count s)
     (_depth_first_stack s) (_scheduled_stack s) (_seen_parents s)
     (_parent_map s) (_ghosts s).
Definition set_interesting_ancestor_ids (v : gset Z) (s : t) : t :=
  mk (_tip_db_id s) (_mainline_db_ids s) (_imported_mainline_id s)
     (_known_gdfo s) v (_imported_dotted_revno s) (_known_dotted s)
     (_imported_gdfo s) (_search_tips s) (_revno_to_branch_count s)
     (_branch_to_child_count s) (_depth_first_stack s) (_scheduled_stack s)
     (_seen_parents s) (_parent_map s) (_ghosts s).
Definition set_imported_dotted_revno (v : gmap Z (list Z * bool * Z)) (s : t) : t :=
  mk (_tip_db_id s) (_mainline_db_ids s) (_imported_mainline_id s)
     (_known_gdfo s) (_interesting_ancestor_ids s) v (_known_dotted s)
     (_imported_gdfo s) (_search_tips s) (_revno_to_branch_count s)
     (_branch_to_child_count s) (_depth_first_stack s) (_scheduled_stack s)
     (_seen_parents s) (_parent_map s) (_ghosts s).
Definition set_known_dotted (v : gset (list Z)) (s : t) : t :=
  mk (_tip_db_id s) (_mainline_db_ids s) (_imported_mainline_id s)
     (_known_gdfo s) (_interesting_ancestor_ids s)
     (_imported_dotted_revno s) v (_imported_gdfo s) (_search_tips s)
     (_revno_to_branch_count s) (_branch_to_child_count s)
     (_depth_first_stack s) (_scheduled_stack s) (_seen_parents s)
     (_parent_map s) (_ghosts s).
Definition set_imported_gdfo (v : option Z) (s : t) : t :=
  mk (_tip_db_id s) (_mainline_db_ids s) (_imported_mainline_id s)
     (_known_gdfo s) (_interesting_ancestor_ids s)
     (_imported_dotted_revno s) (_known_dotted s) v (_search_tips s)
     (_revno_to_branch_count s) (_branch_to_child_count s)
     (_depth_first_stack s) (_scheduled_stack s) (_seen_parents s)
     (_parent_map s) (_ghosts s).
Definition set_search_tips (v : gset Z) (s : t) : t :=
  mk (_tip_db_id s) (_mainline_db_ids s) (_imported_mainline_id s)
     (_known_gdfo s) (_interesting_ancestor_ids s)
     (_imported_dotted_revno s) (_known_dotted s) (_imported_gdfo s) v
     (_revno_to_branch_count s) (_branch_to_child_count s)
     (_depth_first_stack s) (_scheduled_stack s) (_seen_parents s)
     (_parent_map s) (_ghosts s).
Definition set_revno_to_branch_count (v : gmap Z Z) (s : t) : t :=
  mk (_tip_db_id s) (_mainline_db_ids s) (_imported_mainline_id s)
     (_known_gdfo s) (_interesting_ancestor_ids s)
     (_imported_dotted_revno s) (_known_dotted s) (_imported_gdfo s)
     (_search_tips s) v (_branch_to_child_count s) (_depth_first_stack s)
     (_scheduled_stack s) (_seen_parents s) (_parent_map s) (_ghosts s).
Definition set_branch_to_child_count (v : gmap branch_key Z) (s : t) : t :=
  mk (_tip_db_id s) (_mainline_db_ids s) (_imported_mainline_id s)
     (_known_gdfo s) (_interesting_ancestor_ids s)
     (_imported_dotted_revno s) (_known_dotted s) (_imported_gdfo s)
     (_search_tips s) (_revno_to_branch_count s) v (_depth_first_stack s)
     (_scheduled_stack s) (_seen_parents s) (_parent_map s) (_ghosts s).
Definition set_depth_first_stack (v : list MergeSortNode.t) (s : t) : t :=
  mk (_tip_db_id s) (_mainline_db_ids s) (_imported_mainline_id s)
     (_known_gdfo s) (_interesting_ancestor_ids s)
     (_imported_dotted_revno s) (_known_dotted s) (_imported_gdfo s)
     (_search_tips s) (_revno_to_branch_count s) (_branch_to_child_count s)
     v (_scheduled_stack s) (_seen_parents s) (_parent_map s) (_ghosts s).
Definition set_scheduled_stack (v : list MergeSortNode.t) (s : t) : t :=
  mk (_tip_db_id s) (_mainline_db_ids s) (_imported_mainline_id s)
     (_known_gdfo s) (_interesting_ancestor_ids s)
     (_imported_dotted_revno s) (_known_dotted s) (_imported_gdfo s)
     (_search_tips s) (_revno_to_branch_count s) (_branch_to_child_count s)
     (_depth_first_stack s) v (_seen_parents s) (_parent_map s) (_ghosts s).
Definition set_seen_parents (v : gset Z) (s : t) : t :=
  mk (_tip_db_id s) (_mainline_db_ids s) (_imported_mainline_id s)
     (_known_gdfo s) (_interesting_ancestor_ids s)
     (_imported_dotted_revno s) (_known_dotted s) (_imported_gdfo s)
     (_search_tips s) (_revno_to_branch_count s) (_branch_to_child_count s)
     (_depth_first_stack s) (_scheduled_stack s) v (_parent_map s)
     (_ghosts s).
Definition set_parent_map (v : gmap Z (list Z)) (s : t) : t :=
  mk (_tip_db_id s) (_mainline_db_ids s) (_imported_mainline_id s)
     (_known_gdfo s) (_interesting_ancestor_ids s)
     (_imported_dotted_revno s) (_known_dotted s) (_imported_gdfo s)
     (_search_tips s) (_revno_to_branch_count s) (_branch_to_child_count s)
     (_depth_first_stack s) (_scheduled_stack s) (_seen_parents s) v
     (_ghosts s).
Definition set_ghosts (v : gset Z) (s : t) : t :=
  mk (_tip_db_id s) (_mainline_db_ids s) (_imported_mainline_id s)
     (_known_gdfo s) (_interesting_ancestor_ids s)
     (_imported_dotted_revno s) (_known_dotted s) (_imported_gdfo s)
     (_search_tips s) (_revno_to_branch_count s) (_branch_to_child_count s)
     (_depth_first_stack s) (_scheduled_stack s) (_seen_parents s)
     (_parent_map s) v.

(** [__init__]: [_parent_map] is the importer's [_db_parent_map]. *)
Definition init (db_parent_map : gmap Z (list Z)) (tip_db_id : Z) : t :=
  mk tip_db_id [] None ∅ ∅ ∅ ∅ None ∅ ∅ ∅ [] [] ∅ db_parent_map ∅.

Fixpoint find_needed_mainline_loop (fuel : nat) (d : schema.db)
    (db_id : option Z) (needed : list Z) : res (list Z * option Z) :=
  match db_id with
  | None => Ok (needed, None)
  | Some id =>
      if _is_imported_db_id d (Some id) then Ok (needed, Some id)
      else match fuel with
           | O => OutOfFuel
           | S fuel =>
               find_needed_mainline_loop fuel d (_get_lh_parent_db_id d id)
                                         (needed ++ [id])
           end
  end.

Definition _find_needed_mainline (fuel : nat) (d : schema.db) (s : t)
  : res t :=
  '(needed, db_id) ← find_needed_mainline_loop fuel d (Some (_tip_db_id s)) [];
  Ok (set_imported_mainline_id db_id
       (set_interesting_ancestor_ids
          (_interesting_ancestor_ids s ∪ list_to_set needed)
          (set_mainline_db_ids needed s))).

Definition _update_info_from_dotted_revno
    (dotted_info : list (Z * (list Z * bool * Z))) (s : t) : res t :=
  let s :=
    set_known_dotted
      (_known_dotted s ∪ list_to_set ((λ i, i.2.1.1) <$> dotted_info))
      (set_imported_dotted_revno
         (dict_update (_imported_dotted_revno s) dotted_info) s) in
  for_each (λ s '(db_id, (revno, eom, depth)),
    s ← (if bool_decide (1 < length revno)%nat then
           base_revno ← index revno 0;
           branch_num ← index revno 1;
           Ok (match _revno_to_branch_count s !! base_revno with
               | Some n =>
                   if n <? branch_num
                   then set_revno_to_branch_count
                          (<[base_revno := branch_num]>
                             (_revno_to_branch_count s)) s
                   else s
               | None =>
                   set_revno_to_branch_count
                     (<[base_revno := branch_num]>
                        (_revno_to_branch_count s)) s
               end)
         else
           Ok (match _revno_to_branch_count s !! 0 with
               | Some _ => s
               | None =>
                   set_revno_to_branch_count
                     (<[0 := 0]> (_revno_to_branch_count s)) s
               end));
    '(branch_key, mini_revno) ← branch_of revno;
    Ok (match _branch_to_child_count s !! branch_key with
        | Some n =>
            if n <? mini_revno
            then set_branch_to_child_count
                   (<[branch_key := mini_revno]> (_branch_to_child_count s)) s
            else s
        | None =>
            set_branch_to_child_count
              (<[branch_key := mini_revno]> (_branch_to_child_count s)) s
        end))
    dotted_info s.

(** The rows [_step_mainline] reads:
    [SELECT merged_revision, revno, end_of_merge, merge_depth
     FROM dotted_revno WHERE tip_revision = ? ORDER BY dist]. *)
Definition dotted_rows_of_tip (d : schema.db) (tip : option Z)
  : list schema.dotted_revno_row :=
  order_by schema.dist
    (filter (λ r, eq_param (schema.tip_revision r) tip)
            (schema.t_dotted_revno d)).

Definition _step_mainline (d : schema.db) (s : t) : res t :=
  let res := dotted_rows_of_tip d (_imported_mainline_id s) in
  dotted_info ← for_each (λ acc r,
      revno ← parse_revno (schema.revno r);
      Ok (acc ++ [(schema.merged_revision r,
                   (revno, schema.end_of_merge r, schema.merge_depth r))]))
    res [];
  s ← _update_info_from_dotted_revno dotted_info s;
  match parent_join_gdfo d
          (λ p, schema.parent_idx p = 0
                ∧ eq_param (schema.child p) (_imported_mainline_id s)) with
  | [] =>
      Ok (set_imported_gdfo (Some 0) (set_imported_mainline_id None s))
  | (parent, gdfo) :: _ =>
      Ok (set_known_gdfo (<[parent := gdfo]> (_known_gdfo s))
           (set_imported_gdfo (Some gdfo)
              (set_imported_mainline_id (Some parent) s)))
  end.

Definition _get_initial_search_tips (d : schema.db) (s : t) : res t :=
  let res := _get_result_for_many
    (λ params, parent_join_gdfo d
       (λ p, schema.parent_idx p ≠ 0 ∧ schema.child p ∈ params))
    (_mainline_db_ids s) in
  let s := set_search_tips (list_to_set (fst <$> res)) s in
  let s := set_known_gdfo (dict_update (_known_gdfo s) res) s in
  s ← _step_mainline d s;
  Ok (set_ghosts (list_to_set (schema.t_ghost d)) s).

(** [db_id in self._imported_dotted_revno
     or db_id == self._imported_mainline_id] *)
Definition already_imported (s : t) (db_id : Z) : bool :=
  bool_decide (is_Some (_imported_dotted_revno s !! db_id))
  || bool_decide (_imported_mainline_id s = Some db_id).

Definition _split_search_tips_by_gdfo (unknown : list Z) (s : t)
  : res (list Z * t) :=
  for_each (λ '(still_unknown, s) db_id,
    if already_imported s db_id then
      if bool_decide (db_id ∈ _search_tips s)
      then Ok (still_unknown,
               set_search_tips (_search_tips s ∖ {[db_id]}) s)
      else Raise KeyError
    else
      gdfo ← getitem (_known_gdfo s) db_id;
      if ge_opt gdfo (_imported_gdfo s)
      then Ok (still_unknown,
               set_interesting_ancestor_ids
                 (_interesting_ancestor_ids s ∪ {[db_id]}) s)
      else Ok (still_unknown ++ [db_id], s))
    unknown ([], s).

Definition _split_interesting_using_children (d : schema.db)
    (unknown_search_tips : list Z) (s : t) : res (list Z * t) :=
  let interesting := _interesting_ancestor_ids s in
  let parent_child_res : list (Z * Z) :=
    (λ r, (schema.parent r, schema.child r))
      <$> filter (λ r, schema.parent r ∈ unknown_search_tips)
                 (schema.t_parent d) in
  let '(parent_to_children, imported) :=
    foldl (λ '(ptc, imp) '(parent, child),
             (<[parent := default [] (ptc !! parent) ++ [child]]> ptc,
              if already_imported s child
              then imp ∪ {[parent]} ∪ {[child]} else imp))
          ((∅ : gmap Z (list Z)), (∅ : gset Z)) parent_child_res in
  let s := set_search_tips (_search_tips s ∖ imported) s in
  let possibly_merged_children : gset Z :=
    list_to_set (snd <$> filter (λ pc, (snd pc ∉ interesting) ∧ (fst pc ∉ imported))
                                parent_child_res) in
  let unknown_gdfos :=
    filter (λ c, _known_gdfo s !! c = None)
           (elements possibly_merged_children) in
  let s :=
    match unknown_gdfos with
    | [] => s
    | _ =>
        set_known_gdfo
          (dict_update (_known_gdfo s)
             ((λ r, (schema.db_id r, schema.gdfo r))
                <$> filter (λ r, schema.db_id r ∈ unknown_gdfos)
                           (schema.t_revision d))) s
    end in
  let min_gdfo := _imported_gdfo s in
  too_new ← for_each (λ acc c,
      gdfo ← getitem (_known_gdfo s) c;
      Ok (if ge_opt gdfo min_gdfo then acc ++ [c] else acc))
    (elements possibly_merged_children) [];
  let possibly_merged_children :=
    possibly_merged_children ∖ list_to_set too_new in
  for_each (λ '(still_unknown, s) parent,
    if bool_decide (parent ∈ imported) then Ok (still_unknown, s)
    else
      children ← getitem parent_to_children parent;
      if bool_decide (Exists (λ c, c ∈ possibly_merged_children) children)
      then Ok (still_unknown ++ [parent], s)
      else Ok (still_unknown,
               set_interesting_ancestor_ids
                 (_interesting_ancestor_ids s ∪ {[parent]}) s))
    unknown_search_tips ([], s).

Definition _step_search_tips (d : schema.db) (s : t) : t :=
  let res := _get_result_for_many
    (λ params, parent_join_gdfo d (λ p, schema.child p ∈ params))
    (elements (_search_tips s)) in
  let interesting := _interesting_ancestor_ids s in
  set_known_gdfo (dict_update (_known_gdfo s) res)
    (set_search_tips
       (list_to_set (filter (λ p, p ∉ interesting) (fst <$> res))) s).

(** [SELECT parent FROM parent WHERE child = ? ORDER BY parent_idx], kept
    in [_parent_map] once read. *)
Definition _get_parents (d : schema.db) (db_id : Z) (s : t) : list Z * t :=
  match _parent_map s !! db_id with
  | Some parent_ids => (parent_ids, s)
  | None =>
      let parent_ids :=
        schema.parent
          <$> order_by schema.parent_idx
                (filter (λ r, schema.child r = db_id) (schema.t_parent d)) in
      (parent_ids, set_parent_map (<[db_id := parent_ids]> (_parent_map s)) s)
  end.

Fixpoint ensure_lh_parent_info_loop (fuel : nat) (d : schema.db)
    (missing_parent_ids : gset Z) (s : t) : res t :=
  if bool_decide (missing_parent_ids = ∅) then Ok s
  else match fuel with
       | O => OutOfFuel
       | S fuel =>
           s ← _step_mainline d s;
           ensure_lh_parent_info_loop fuel d
             (missing_parent_ids ∖ dom (_imported_dotted_revno s)) s
       end.

Definition _ensure_lh_parent_info (fuel : nat) (d : schema.db) (s : t)
  : res t :=
  let '(missing_parent_ids, s) :=
    foldl (λ '(missing, s) db_id,
             let '(parent_ids, s) := _get_parents d db_id s in
             match parent_ids with
             | [] => (missing, s)
             | lh_parent :: _ =>
                 if bool_decide (lh_parent ∈ _interesting_ancestor_ids s)
                 then (missing, s)
                 else if bool_decide
                           (is_Some (_imported_dotted_revno s !! lh_parent))
                 then (missing, s)
                 else (missing ∪ {[lh_parent]}, s)
             end)
          ((∅ : gset Z), s) (elements (_interesting_ancestor_ids s)) in
  ensure_lh_parent_info_loop fuel d (missing_parent_ids ∖ _ghosts s) s.

(** The inner [while unknown:] loop of [_find_interesting_ancestry]. *)
Fixpoint classify_loop (fuel : nat) (d : schema.db) (unknown : list Z)
    (s : t) : res t :=
  match unknown with
  | [] => Ok s
  | _ =>
      match fuel with
      | O => OutOfFuel
      | S fuel =>
          '(unknown, s) ← _split_search_tips_by_gdfo unknown s;
          match unknown with
          | [] => Ok s
          | _ =>
              '(unknown, s) ← _split_interesting_using_children d unknown s;
              match unknown with
              | [] => Ok s
              | _ => s ← _step_mainline d s; classify_loop fuel d unknown s
              end
          end
      end
  end.

(** The outer [while self._search_tips:] loop. *)
Fixpoint search_loop (fuel : nat) (d : schema.db) (s : t) : res t :=
  if bool_decide (_search_tips s = ∅) then Ok s
  else match fuel with
       | O => OutOfFuel
       | S fuel' =>
           s ← classify_loop fuel d (elements (_search_tips s)) s;
           search_loop fuel' d (_step_search_tips d s)
       end.

Definition _find_interesting_ancestry (fuel : nat) (d : schema.db) (s : t)
  : res t :=
  s ← _find_needed_mainline fuel d s;
  s ← _get_initial_search_tips d s;
  s ← search_loop fuel d s;
  _ensure_lh_parent_info fuel d s.

Definition _is_first_child (parent_id : Z) (s : t) : res (bool * t) :=
  if bool_decide (parent_id ∈ _seen_parents s) then Ok (false, s)
  else
    let s := set_seen_parents (_seen_parents s ∪ {[parent_id]}) s in
    match _imported_dotted_revno s !! parent_id with
    | None => Ok (true, s)
    | Some (revno, _, _) =>
        '(branch_key, mini_revno) ← branch_of revno;
        if mini_revno <? default 0 (_branch_to_child_count s !! branch_key)
        then Ok (false, s)
        else Ok (true, s)
    end.

Definition _push_node (d : schema.db) (db_id merge_depth : Z) (s : t)
  : res t :=
  if bool_decide (db_id ∉ _interesting_ancestor_ids s) then Ok s
  else
    let '(parent_ids, s) := _get_parents d db_id s in
    '(left_parent, is_first, s) ←
      match parent_ids with
      | [] => Ok (None, true, s)
      | left_parent :: _ =>
          if bool_decide (left_parent ∈ _ghosts s) then Ok (None, true, s)
          else
            '(is_first, s) ← _is_first_child left_parent s;
            Ok (Some left_parent, is_first, s)
      end;
    let pending_parents :=
      filter (λ p, p ∉ _ghosts s) (drop 1 parent_ids) in
    Ok (set_depth_first_stack
          (MergeSortNode.init db_id merge_depth left_parent pending_parents
                              is_first :: _depth_first_stack s) s).

Fixpoint _step_to_latest_branch (fuel : nat) (d : schema.db)
    (base_revno : Z) (s : t) : res t :=
  match _imported_mainline_id s with
  | None => Ok s
  | Some _ =>
      if bool_decide ([base_revno] ∈ _known_dotted s) then Ok s
      else
        let branch_count :=
          default 0 (_revno_to_branch_count s !! base_revno) in
        let root_of_branch_revno := [base_revno; branch_count; 1] in
        if bool_decide (root_of_branch_revno ∈ _known_dotted s) then Ok s
        else match fuel with
             | O => OutOfFuel
             | S fuel =>
                 s ← _step_mainline d s;
                 _step_to_latest_branch fuel d base_revno s
             end
  end.

(** [_pop_node], first half: the revno of the node taken off the stack. *)
Definition pop_revno (fuel : nat) (d : schema.db) (node : node) (s : t)
  : res (list Z * t) :=
  match MergeSortNode._left_parent node with
  | Some left_parent =>
      '(parent_revno, _, _) ← getitem (_imported_dotted_revno s) left_parent;
      if MergeSortNode._is_first node then
        if bool_decide (length parent_revno = 1%nat) then
          parent_mini ← index parent_revno 0;
          let mini_revno := parent_mini + 1 in
          seen ← getitem (_branch_to_child_count s) mainline_key;
          Ok ([mini_revno],
              if seen <? mini_revno
              then set_branch_to_child_count
                     (<[mainline_key := mini_revno]>
                        (_branch_to_child_count s)) s
              else s)
        else
          parent_mini ← index parent_revno 2;
          Ok (take 2 parent_revno ++ [parent_mini + 1], s)
      else
        s ← (if bool_decide (1 < length parent_revno)%nat then
               base_revno ← index parent_revno 0;
               _step_to_latest_branch fuel d base_revno s
             else Ok s);
        base_revno ← index parent_revno 0;
        let branch_count :=
          default 0 (_revno_to_branch_count s !! base_revno) + 1 in
        Ok ([base_revno; branch_count; 1],
            set_revno_to_branch_count
              (<[base_revno := branch_count]> (_revno_to_branch_count s)) s)
  | None =>
      s ← _step_to_latest_branch fuel d 0 s;
      let branch_count := default (-1) (_revno_to_branch_count s !! 0) + 1 in
      let s := set_revno_to_branch_count
                 (<[0 := branch_count]> (_revno_to_branch_count s)) s in
      if branch_count =? 0 then
        Ok ([1],
            set_branch_to_child_count
              (<[mainline_key := 1]> (_branch_to_child_count s)) s)
      else Ok ([0; branch_count; 1], s)
  end.

(** [_pop_node], second half: whether the node ends a merge. *)
Definition pop_end_of_merge (node : node) (s : t) : res bool :=
  match _scheduled_stack s with
  | [] =>
      Ok (negb (bool_decide (is_Some (MergeSortNode._left_parent node))
                && (MergeSortNode.merge_depth node =? 0)))
  | prev_node :: _ =>
      if MergeSortNode.merge_depth prev_node <? MergeSortNode.merge_depth node
      then Ok true
      else if MergeSortNode.merge_depth prev_node
              =? MergeSortNode.merge_depth node
      then
        parents ← getitem (_parent_map s) (MergeSortNode.key node);
        Ok (bool_decide (MergeSortNode.key prev_node ∉ parents))
      else Ok false
  end.

(** The node as [_pop_node] leaves it. *)
Definition numbered_node (n : node) (revno : list Z) (end_of_merge : bool)
  : node :=
  MergeSortNode.mk (MergeSortNode.key n) (MergeSortNode.merge_depth n)
    (Some revno) (Some end_of_merge) (MergeSortNode._left_parent n)
    (MergeSortNode._left_pending_parent n) [] (MergeSortNode._is_first n).

Definition _pop_node (fuel : nat) (d : schema.db) (s : t) : res t :=
  match _depth_first_stack s with
  | [] => Raise IndexError
  | node :: stack =>
      let s := set_depth_first_stack stack s in
      '(revno, s) ← pop_revno fuel d node s;
      end_of_merge ← pop_end_of_merge node s;
      Ok (set_scheduled_stack
            (numbered_node node revno end_of_merge :: _scheduled_stack s)
            (set_known_dotted (_known_dotted s ∪ {[revno]})
               (set_imported_dotted_revno
                  (<[MergeSortNode.key node :=
                       (revno, end_of_merge, MergeSortNode.merge_depth node)]>
                     (_imported_dotted_revno s)) s)))
  end.

(** The inner [while] of [_compute_merge_sort], for the node [last] on top
    of the stack: take the pending left-hand parent, then the other
    pending parents from the last one backwards, skipping those already
    numbered; the result is [last] as the loop leaves it and the parent to
    push, if one was found. *)
Fixpoint skip_numbered (imported : gmap Z (list Z * bool * Z))
    (reversed_pending : list Z) : option Z * list Z :=
  match reversed_pending with
  | [] => (None, [])
  | p :: r =>
      if bool_decide (is_Some (imported !! p)) then skip_numbered imported r
      else (Some p, r)
  end.

Definition with_pending (left_pending_parent : option Z)
    (pending_parents : list Z) (n : node) : node :=
  MergeSortNode.mk (MergeSortNode.key n) (MergeSortNode.merge_depth n)
    (MergeSortNode.revno n) (MergeSortNode.end_of_merge n)
    (MergeSortNode._left_parent n) left_pending_parent pending_parents
    (MergeSortNode._is_first n).

Definition next_parent (imported : gmap Z (list Z * bool * Z)) (last : node)
  : node * option Z :=
  let scan :=
    let '(next_db_id, r) :=
      skip_numbered imported (reverse (MergeSortNode._pending_parents last)) in
    (with_pending None (reverse r) last, next_db_id) in
  match MergeSortNode._left_pending_parent last with
  | Some p =>
      if bool_decide (is_Some (imported !! p)) then scan
      else (with_pending None (MergeSortNode._pending_parents last) last,
            Some p)
  | None => scan
  end.

(** One turn of the outer [while self._depth_first_stack:] loop, for the
    node [last] on top of the stack. *)
Definition compute_step (fuel : nat) (d : schema.db) (last : node)
    (stack : list node) (s : t) : res t :=
  match MergeSortNode._left_pending_parent last,
        MergeSortNode._pending_parents last with
  | None, [] => _pop_node fuel d s
  | _, _ =>
      let '(last, next_db_id) := next_parent (_imported_dotted_revno s) last in
      let s := set_depth_first_stack (last :: stack) s in
      match next_db_id with
      | None => Ok s
      | Some next_db_id =>
          let next_merge_depth :=
            if bool_decide (MergeSortNode._left_parent last = Some next_db_id)
            then MergeSortNode.merge_depth last
            else MergeSortNode.merge_depth last + 1 in
          _push_node d next_db_id next_merge_depth s
      end
  end.

(** The loop itself. *)
Fixpoint compute_loop (fuel : nat) (d : schema.db) (s : t) : res t :=
  match _depth_first_stack s with
  | [] => Ok s
  | last :: stack =>
      match fuel with
      | O => OutOfFuel
      | S fuel' =>
          s ← compute_step fuel d last stack s; compute_loop fuel' d s
      end
  end.

(** [_compute_merge_sort]: the stacks are reset and the tip of the needed
    mainline is pushed (with no needed mainline the stack stays empty and
    the loop has nothing to do); then the loop runs. *)
Definition merge_sort_start (d : schema.db) (s : t) : res t :=
  let s := set_seen_parents ∅
             (set_scheduled_stack [] (set_depth_first_stack [] s)) in
  match _mainline_db_ids s with
  | [] => Ok s
  | tip :: _ => _push_node d tip 0 s
  end.

Definition _compute_merge_sort (fuel : nat) (d : schema.db) (s : t)
  : res t :=
  s ← merge_sort_start d s;
  compute_loop fuel d s.

(** [topo_order]: [list(reversed(self._scheduled_stack))], the stack being
    kept here with its top first. *)
Definition topo_order (fuel : nat) (d : schema.db) (s : t)
  : res (list node * t) :=
  s ← _find_interesting_ancestry fuel d s;
  s ← _compute_merge_sort fuel d s;
  Ok (_scheduled_stack s, s).

End IncrementalMergeSort.

(** ** The host version-control system

    What the importer asks of the branch it indexes.  [get_parent_map] is
    [repository.get_parent_map([rev_id]).get(rev_id)]: [None] for a ghost,
    [NULL_PARENTS] for a revision without parents.  The known graph (used
    when the import is not incremental) comes with its own merge sort. *)

Definition NULL_REVISION : string := "null:".
Definition NULL_PARENTS : list string := [NULL_REVISION].

(** An entry of a merge-sorted list, keyed by revision id: what
    [KnownGraph.merge_sort] returns, and what [_get_merge_sorted_tip] turns
    the nodes of the incremental sorter into. *)
Record merge_sorted_node := mk_merge_sorted
  { ms_key : string;
    ms_merge_depth : Z;
    ms_revno : list Z;
    ms_end_of_merge : bool }.

Record KnownGraph := mk_graph
  { merge_sort : string → list merge_sorted_node;
    get_parent_keys : string → list string;
    node_gdfo : string → Z }.

Record Branch := mk_branch
  { last_revision : string;
    get_parent_map : string → option (list string);
    get_known_graph_ancestry : string → KnownGraph }.

(** A connection to the database file: the committed content of the file
    and the content as the open transaction of this connection sees it. *)
Record connection := mk_connection
  { committed : schema.db;
    cursor : schema.db }.

Definition connect (file : schema.db) : connection := mk_connection file file.
Definition commit (c : connection) : connection :=
  mk_connection (cursor c) (cursor c).

(** ** [Importer] *)

Module Importer.

Definition _MAINLINE_PARENT_RANGE_LEN : nat := 100.

(** The fields of the object ([_validate] is always false here: the
    comparison with the graph's merge sort that it switches on stops in
    the debugger, not in the program). *)
Record t := mk
  { _incremental : bool;
    _db_conn : connection;
    _branch : Branch;
    _branch_tip_rev_id : string;
    _graph : option KnownGraph;
    _rev_id_to_db_id : gmap string Z;
    _db_id_to_rev_id : gmap Z string;
    _db_parent_map : gmap Z (list Z) }.

Definition _cursor (s : t) : schema.db := cursor (_db_conn s).

Definition set_cursor (d : schema.db) (s : t) : t :=
  mk (_incremental s) (mk_connection (committed (_db_conn s)) d) (_branch s)
     (_branch_tip_rev_id s) (_graph s) (_rev_id_to_db_id s)
     (_db_id_to_rev_id s) (_db_parent_map s).
Definition set_db_conn (c : connection) (s : t) : t :=
  mk (_incremental s) c (_branch s) (_branch_tip_rev_id s) (_graph s)
     (_rev_id_to_db_id s) (_db_id_to_rev_id s) (_db_parent_map s).
Definition set_rev_id_to_db_id (v : gmap string Z) (s : t) : t :=
  mk (_incremental s) (_db_conn s) (_branch s) (_branch_tip_rev_id s)
     (_graph s) v (_db_id_to_rev_id s) (_db_parent_map s).
Definition set_db_id_to_rev_id (v : gmap Z string) (s : t) : t :=
  mk (_incremental s) (_db_conn s) (_branch s) (_branch_tip_rev_id s)
     (_graph s) (_rev_id_to_db_id s) v (_db_parent_map s).
Definition set_db_parent_map (v : gmap Z (list Z)) (s : t) : t :=
  mk (_incremental s) (_db_conn s) (_branch s) (_branch_tip_rev_id s)
     (_graph s) (_rev_id_to_db_id s) (_db_id_to_rev_id s) v.

(** [__init__]: the tables exist in every [schema.db], so
    [_ensure_schema] has nothing to add. *)
Definition init (file : schema.db) (a_branch : Branch)
    (tip_revision_id : option string) (incremental : bool) : t :=
  let tip := default (last_revision a_branch) tip_revision_id in
  mk incremental (connect file) a_branch tip
     (if incremental then None
      else Some (get_known_graph_ancestry a_branch tip))
     ∅ ∅ ∅.

Definition _ensure_revisions (revision_ids : list string) (s : t) : res t :=
  '(d, rev_id_to_db_id, db_id_to_rev_id) ←
    schema.ensure_revisions revision_ids (node_gdfo <$> _graph s)
      (_cursor s, _rev_id_to_db_id s, _db_id_to_rev_id s);
  Ok (set_db_id_to_rev_id db_id_to_rev_id
        (set_rev_id_to_db_id rev_id_to_db_id (set_cursor d s))).

Definition _is_imported (s : t) (tip_rev_id : string) : bool :=
  bool_decide (Exists
    (λ r, Exists (λ v, schema.db_id v = schema.tip_revision r
                       ∧ schema.revision_id v = tip_rev_id)
                 (schema.t_revision (_cursor s))
          ∧ schema.tip_revision r = schema.merged_revision r)
    (schema.t_dotted_revno (_cursor s))).

(** The nested [build_revno_info] of [_insert_nodes]: the rows of the
    nodes, [dist] counting from the first of them. *)
Definition build_revno_info (tip_db_id : Z) (rev_to_db : gmap string Z)
    (nodes : list merge_sorted_node) : res (list schema.dotted_revno_row) :=
  for_each (λ acc '(dist, node),
      db_id ← getitem rev_to_db (ms_key node);
      Ok (acc ++ [schema.mk_dotted tip_db_id db_id
                    (revno_str (ms_revno node)) (ms_end_of_merge node)
                    (ms_merge_depth node) (Z.of_nat dist)]))
    (imap (λ dist node, (dist, node)) nodes) [].

Definition _insert_nodes (tip_rev_id : string)
    (nodes : list merge_sorted_node) (s : t) : res (bool * t) :=
  let rev_to_db := _rev_id_to_db_id s in
  tip_db_id ← getitem rev_to_db tip_rev_id;
  revno_entries ← build_revno_info tip_db_id rev_to_db nodes;
  let '(d, inserted) := schema.create_dotted_revnos (_cursor s) revno_entries in
  Ok (inserted, set_cursor d s).

Definition triple_lt (x y : Z * Z * Z) : bool :=
  let '(a, b, c) := x in
  let '(a', b', c') := y in
  (a <? a') || ((a =? a') && ((b <? b') || ((b =? b') && (c <? c')))).

Definition _insert_parent_map (parent_map : gmap string (list string))
    (s : t) : res t :=
  let r_to_d := _rev_id_to_db_id s in
  let rev_ids : gset string :=
    list_to_set (filter (λ r, r_to_d !! r = None)
                        (fst <$> map_to_list parent_map))
    ∪ list_to_set (filter (λ p, r_to_d !! p = None)
                          (mjoin (snd <$> map_to_list parent_map))) in
  s ← _ensure_revisions (elements rev_ids) s;
  let r_to_d := _rev_id_to_db_id s in
  '(data, s) ← for_each (λ '(data, s) '(rev_id, parent_ids),
      db_id ← getitem r_to_d rev_id;
      match _db_parent_map s !! db_id with
      | Some _ => Ok (data, s)
      | None =>
          parent_db_ids ← for_each (λ acc p_id,
              p ← getitem r_to_d p_id; Ok (acc ++ [p])) parent_ids [];
          Ok (data ++ imap (λ idx parent_db_id,
                              (db_id, parent_db_id, Z.of_nat idx))
                           parent_db_ids,
              set_db_parent_map
                (<[db_id := parent_db_ids]> (_db_parent_map s)) s)
      end)
    (map_to_list parent_map) ([], s);
  let data := sort_with triple_lt data in
  Ok (set_cursor
        (foldl (λ d '(c, p, i), schema.insert_or_ignore_parent
                                   (schema.mk_parent c p i) d)
               (_cursor s) data) s).

Definition _update_parents (nodes : list merge_sorted_node) (s : t)
  : res t :=
  match _graph s with
  | None => Raise AttributeError
  | Some g =>
      _insert_parent_map
        (list_to_map ((λ n, (ms_key n, get_parent_keys g (ms_key n)))
                        <$> reverse nodes)) s
  end.

(** The working state of [_find_known_ancestors]. *)
Record ancestors := mk_ancestors
  { needed : list string;
    all_needed : gset string;
    children : gmap string (list string);
    parent_map : gmap string (list string);
    known : gmap string Z }.

(** [set(new_tip_rev_id)]: the set of the characters of the string. *)
Definition set_of_str (s : string) : gset string :=
  list_to_set ((λ c, String c EmptyString) <$> String.list_ascii_of_string s).

Fixpoint find_known_ancestors_loop (fuel : nat) (b : Branch)
    (d : schema.db) (a : ancestors) : res (schema.db * ancestors) :=
  match needed a with
  | [] => Ok (d, a)
  | rev_id :: needed =>
      match fuel with
      | O => OutOfFuel
      | S fuel =>
          let a := mk_ancestors needed (all_needed a) (children a)
                                (parent_map a) (known a) in
          if bool_decide (is_Some (known a !! rev_id))
          then find_known_ancestors_loop fuel b d a
          else
            match schema.select_revision d rev_id with
            | Some r =>
                find_known_ancestors_loop fuel b d
                  (mk_ancestors needed (all_needed a) (children a)
                     (parent_map a) (<[rev_id := schema.gdfo r]> (known a)))
            | None =>
                let parent_ids := get_parent_map b rev_id in
                let parent_map :=
                  match parent_ids with
                  | Some ps => <[rev_id := ps]> (parent_map a)
                  | None => parent_map a
                  end in
                match parent_ids with
                | Some ps =>
                    if bool_decide (ps = NULL_PARENTS) then
                      d ← schema.insert_revision rev_id 1 d;
                      find_known_ancestors_loop fuel b d
                        (mk_ancestors (rev_id :: needed) (all_needed a)
                           (children a) (<[rev_id := []]> parent_map)
                           (known a))
                    else
                      let '(needed, all_needed, children) :=
                        foldl (λ '(needed, all_needed, children) parent_id,
                          let '(needed, all_needed) :=
                            if bool_decide (is_Some (known a !! parent_id))
                            then (needed, all_needed)
                            else if bool_decide (parent_id ∈ all_needed)
                            then (needed, all_needed)
                            else (parent_id :: needed,
                                  all_needed ∪ {[parent_id]}) in
                          (needed, all_needed,
                           <[parent_id :=
                               default [] (children !! parent_id)
                               ++ [rev_id]]> children))
                          (needed, all_needed a, children a) ps in
                      find_known_ancestors_loop fuel b d
                        (mk_ancestors needed all_needed children parent_map
                                      (known a))
                | None =>
                    d ← schema.insert_revision rev_id 1 d;
                    d ← schema.insert_ghost rev_id d;
                    find_known_ancestors_loop fuel b d
                      (mk_ancestors (rev_id :: needed) (all_needed a)
                         (children a) (<[rev_id := []]> parent_map)
                         (known a))
                end
            end
      end
  end.

Definition _find_known_ancestors (fuel : nat) (new_tip_rev_id : string)
    (s : t) : res (ancestors * t) :=
  '(d, a) ← find_known_ancestors_loop fuel (_branch s) (_cursor s)
              (mk_ancestors [new_tip_rev_id] (set_of_str new_tip_rev_id)
                            ∅ ∅ ∅);
  Ok (a, set_cursor d s).

(** The [for parent_id in parent_ids] loop of [_compute_gdfo_and_insert]:
    the largest known gdfo of the parents, from [max_gdfo] on, or [None]
    when it leaves by [break] at a parent whose gdfo is not known yet. *)
Fixpoint max_parent_gdfo (known : gmap string Z) (parent_ids : list string)
    (max_gdfo : Z) : option Z :=
  match parent_ids with
  | [] => Some max_gdfo
  | parent_id :: rest =>
      match known !! parent_id with
      | None => None
      | Some this_gdfo =>
          max_parent_gdfo known rest
            (if max_gdfo <? this_gdfo then this_gdfo else max_gdfo)
      end
  end.

Fixpoint compute_gdfo_loop (fuel : nat)
    (children parent_map : gmap string (list string))
    (st : schema.db * gmap string Z * list (Z * string))
  : res (schema.db * gmap string Z) :=
  let '(d, known, pending) := st in
  match pending with
  | [] => Ok (d, known)
  | (gdfo, rev_id) :: pending =>
      match fuel with
      | O => OutOfFuel
      | S fuel =>
          st ← for_each (λ '(d, known, pending) child_id,
              match known !! child_id with
              | Some g =>
                  if gdfo <? g then Ok (d, known, pending)
                  else Raise AssertionError
              | None =>
                  parent_ids ← getitem parent_map child_id;
                  match max_parent_gdfo known parent_ids (-1) with
                  | None => Ok (d, known, pending)
                  | Some max_gdfo =>
                      let child_gdfo := max_gdfo + 1 in
                      d ← schema.insert_revision child_id child_gdfo d;
                      Ok (d, <[child_id := child_gdfo]> known,
                          (child_gdfo, child_id) :: pending)
                  end
              end)
            (default [] (children !! rev_id)) (d, known, pending);
          compute_gdfo_loop fuel children parent_map st
      end
  end.

Definition _compute_gdfo_and_insert (fuel : nat) (a : ancestors) (s : t)
  : res (gmap string Z * t) :=
  let pending := reverse ((λ kv, (kv.2, kv.1)) <$> map_to_list (known a)) in
  '(d, known) ← compute_gdfo_loop fuel (children a) (parent_map a)
                  (_cursor s, known a, pending);
  match _graph s with
  | Some g =>
      if bool_decide (Forall (λ kv, kv.2 = node_gdfo g kv.1)
                             (map_to_list known))
      then Ok (known, set_cursor d s)
      else Raise AssertionError
  | None => Ok (known, set_cursor d s)
  end.

Definition _update_ancestry (fuel : nat) (new_tip_rev_id : string) (s : t)
  : res t :=
  '(a, s) ← _find_known_ancestors fuel new_tip_rev_id s;
  '(_, s) ← _compute_gdfo_and_insert fuel a s;
  _insert_parent_map (parent_map a) s.
(** The second half of [_get_merge_sorted_tip]: every node of the incremental
    sorter gets the revision id of its db id as its key ([db_to_rev], or the
    [revision] table for an id the map does not have). *)
Definition rekey (node : MergeSortNode.t) (s : t)
  : res (merge_sorted_node * t) :=
  '(rev_id, s) ←
    match _db_id_to_rev_id s !! MergeSortNode.key node with
    | Some rev_id => Ok (rev_id, s)
    | None =>
        match filter (λ r, schema.db_id r = MergeSortNode.key node)
                     (schema.t_revision (_cursor s)) with
        | [] => Raise TypeError
        | r :: _ =>
            let rev_id := schema.revision_id r in
            Ok (rev_id,
                set_rev_id_to_db_id
                  (<[rev_id := MergeSortNode.key node]> (_rev_id_to_db_id s))
                  (set_db_id_to_rev_id
                     (<[MergeSortNode.key node := rev_id]>
                        (_db_id_to_rev_id s)) s))
        end
    end;
  match MergeSortNode.revno node, MergeSortNode.end_of_merge node with
  | Some revno, Some end_of_merge =>
      Ok (mk_merge_sorted rev_id (MergeSortNode.merge_depth node) revno
                          end_of_merge, s)
  | _, _ => Raise TypeError
  end.

Definition _get_merge_sorted_tip (fuel : nat) (tip_revision_id : string)
    (s : t) : res (list merge_sorted_node * t) :=
  if _incremental s then
    s ← _update_ancestry fuel tip_revision_id s;
    s ← _ensure_revisions [tip_revision_id] s;
    tip_db_id ← getitem (_rev_id_to_db_id s) tip_revision_id;
    let inc_merger := IncrementalMergeSort.init (_db_parent_map s) tip_db_id in
    '(merge_sorted, inc_merger) ←
      IncrementalMergeSort.topo_order fuel (_cursor s) inc_merger;
    let s := set_db_parent_map
               (IncrementalMergeSort._parent_map inc_merger) s in
    for_each (λ '(acc, s) node,
        '(node, s) ← rekey node s; Ok (acc ++ [node], s))
      merge_sorted ([], s)
  else
    match _graph s with
    | Some g => Ok (merge_sort g tip_revision_id, s)
    | None => Raise AttributeError
    end.

(** [SELECT pkey, count, tail FROM mainline_parent_range WHERE head = ?
     ORDER BY count DESC LIMIT 1] *)
Definition _get_mainline_range_count (d : schema.db) (head_db_id : Z)
  : option schema.mainline_parent_range_row :=
  hd_error (order_by_desc schema.count
              (filter (λ r, schema.head r = head_db_id)
                      (schema.t_mainline_parent_range d))).

(** [SELECT revision FROM mainline_parent WHERE range = ?
     ORDER BY dist DESC] *)
Definition _get_mainline_range (d : schema.db) (range_key : Z) : list Z :=
  schema.revision
    <$> order_by_desc schema.mp_dist
          (filter (λ r, schema.range r = range_key)
                  (schema.t_mainline_parent d)).

Definition _insert_range (range_db_ids : list Z) (tail_db_id : option Z)
    (d : schema.db) : res schema.db :=
  head_db_id ← index range_db_ids 0;
  let range_key :=
    Z.of_nat (length (schema.t_mainline_parent_range d)) + 1 in
  let d :=
    schema.with_mainline_parent_range
      (schema.t_mainline_parent_range d
       ++ [schema.mk_range range_key head_db_id tail_db_id
                           (Z.of_nat (length range_db_ids))]) d in
  Ok (schema.with_mainline_parent
        (schema.t_mainline_parent d
         ++ imap (λ idx db_id, schema.mk_member range_key db_id (Z.of_nat idx))
                 range_db_ids) d).

(** The first [while] of [_build_one_mainline]: walk back from [cur_db_id]
    until a revision that heads a range, or the end of the mainline. *)
Fixpoint collect_mainline (fuel : nat) (d : schema.db) (cur_db_id : option Z)
    (range_db_ids : list Z) : res (list Z * option Z) :=
  match cur_db_id with
  | None => Ok (range_db_ids, None)
  | Some cur =>
      match _get_mainline_range_count d cur with
      | Some r =>
          if bool_decide (range_db_ids ≠ [])
             && (schema.count r <? Z.of_nat _MAINLINE_PARENT_RANGE_LEN)
          then Ok (range_db_ids ++ _get_mainline_range d (schema.pkey r),
                   schema.tail r)
          else Ok (range_db_ids, Some cur)
      | None =>
          match fuel with
          | O => OutOfFuel
          | S fuel =>
              collect_mainline fuel d (_get_lh_parent_db_id d cur)
                               (range_db_ids ++ [cur])
          end
      end
  end.

(** The second [while]: cut [range_db_ids] into ranges from its end. *)
Fixpoint insert_ranges (fuel : nat) (range_db_ids : list Z)
    (cur_db_id : option Z) (d : schema.db) : res schema.db :=
  match range_db_ids with
  | [] => Ok d
  | _ =>
      match fuel with
      | O => OutOfFuel
      | S fuel =>
          let keep := (length range_db_ids - _MAINLINE_PARENT_RANGE_LEN)%nat in
          let tail_db_ids := drop keep range_db_ids in
          d ← _insert_range tail_db_ids cur_db_id d;
          head_db_id ← index tail_db_ids 0;
          insert_ranges fuel (take keep range_db_ids) (Some head_db_id) d
      end
  end.

Definition _build_one_mainline (fuel : nat) (head_rev_id : string) (s : t)
  : res t :=
  s ← _ensure_revisions [head_rev_id] s;
  cur_db_id ← getitem (_rev_id_to_db_id s) head_rev_id;
  '(range_db_ids, cur_db_id) ←
    collect_mainline fuel (_cursor s) (Some cur_db_id) [];
  d ← insert_ranges (length range_db_ids) range_db_ids cur_db_id (_cursor s);
  Ok (set_cursor d s).

(** The [for] loop of [_import_tip]; it returns [new_nodes] and
    [last_mainline_rev_id] as the loop leaves them (after [break], too). *)
Fixpoint import_loop (merge_sorted : list merge_sorted_node)
    (last_mainline_rev_id : option string)
    (new_nodes : list merge_sorted_node) (s : t)
  : res (list merge_sorted_node * option string * t) :=
  match merge_sorted with
  | [] => Ok (new_nodes, last_mainline_rev_id, s)
  | node :: rest =>
      match last_mainline_rev_id with
      | None =>
          if bool_decide (new_nodes ≠ []) then Raise AssertionError
          else if negb (ms_merge_depth node =? 0) then Raise AssertionError
          else import_loop rest (Some (ms_key node)) (new_nodes ++ [node]) s
      | Some last =>
          if ms_merge_depth node =? 0 then
            '(inserted, s) ← _insert_nodes last new_nodes s;
            if (inserted : bool)
            then import_loop rest (Some (ms_key node)) [node] s
            else Ok ([], last_mainline_rev_id, s)
          else import_loop rest last_mainline_rev_id (new_nodes ++ [node]) s
      end
  end.

(** [if new_nodes: ...] after the loop of [_import_tip]. *)
Definition insert_remaining
    (st : list merge_sorted_node * option string * t) : res t :=
  let '(new_nodes, last_mainline_rev_id, s) := st in
  match new_nodes with
  | [] => Ok s
  | _ =>
      match last_mainline_rev_id with
      | None => Raise AssertionError
      | Some last => '(_, s) ← _insert_nodes last new_nodes s; Ok s
      end
  end.

(** The body of the [try] of [_import_tip] up to the mainline ranges: the
    loop, then the insertion of the nodes the loop has left. *)
Definition insert_merge_sorted (merge_sorted : list merge_sorted_node)
    (s : t) : res t :=
  st ← import_loop merge_sorted None [] s;
  insert_remaining st.

Definition _import_tip (fuel : nat) (tip_revision_id : string) (s : t)
  : res (list merge_sorted_node * t) :=
  '(merge_sorted, s) ← _get_merge_sorted_tip fuel tip_revision_id s;
  s ← (if _incremental s then Ok s
       else
         s ← _ensure_revisions (ms_key <$> merge_sorted) s;
         _update_parents merge_sorted s);
  s ← insert_merge_sorted merge_sorted s;
  s ← _build_one_mainline fuel tip_revision_id s;
  Ok (merge_sorted, s).

(** [revision.is_null] *)
Definition is_null (revision_id : string) : bool :=
  bool_decide (revision_id = NULL_REVISION).

Definition do_import (fuel : nat) (s : t) : res t :=
  if is_null (_branch_tip_rev_id s) then Ok s
  else
    '(_, s) ← _import_tip fuel (_branch_tip_rev_id s) s;
    Ok (set_db_conn (commit (_db_conn s)) s).

End Importer.

(** ** [Querier] *)

Module Querier.

(** What a method does to the outside, in the order it does it: the calls
    of [ensure_branch_tip], the importer lock, the run of an [Importer], and
    every [SELECT] it executes (with the tables it reads). *)
Inductive event : Type :=
  | Call_ensure_branch_tip
  | Lock_acquire
  | Lock_release
  | Import_done
  | Select (tables : string).

(** The fields of the object.  [_db_path] names the database file, which
    is here the committed content of that file; the connection, when open,
    reads it.  [_importer_lock] is [Some held] once a lock was set.  [log]
    is not a field of the Python object: it records the events. *)
Record t := mk
  { _db_path : schema.db;
    _db_conn : option connection;
    _importer_lock : option bool;
    _branch : Branch;
    _branch_tip_rev_id : string;
    _branch_tip_db_id : option Z;
    _tip_is_imported : bool;
    log : list event }.

Definition set_db_conn (v : option connection) (q : t) : t :=
  mk (_db_path q) v (_importer_lock q) (_branch q) (_branch_tip_rev_id q)
     (_branch_tip_db_id q) (_tip_is_imported q) (log q).
Definition set_importer_lock (lock : option bool) (q : t) : t :=
  mk (_db_path q) (_db_conn q) lock (_branch q) (_branch_tip_rev_id q)
     (_branch_tip_db_id q) (_tip_is_imported q) (log q).
Definition set_branch_tip_db_id (v : option Z) (q : t) : t :=
  mk (_db_path q) (_db_conn q) (_importer_lock q) (_branch q)
     (_branch_tip_rev_id q) v (_tip_is_imported q) (log q).
Definition set_tip_is_imported (v : bool) (q : t) : t :=
  mk (_db_path q) (_db_conn q) (_importer_lock q) (_branch q)
     (_branch_tip_rev_id q) (_branch_tip_db_id q) v (log q).
Definition set_db_path (v : schema.db) (q : t) : t :=
  mk v (_db_conn q) (_importer_lock q) (_branch q) (_branch_tip_rev_id q)
     (_branch_tip_db_id q) (_tip_is_imported q) (log q).
Definition emit (e : event) (q : t) : t :=
  mk (_db_path q) (_db_conn q) (_importer_lock q) (_branch q)
     (_branch_tip_rev_id q) (_branch_tip_db_id q) (_tip_is_imported q)
     (log q ++ [e]).

(** [_get_cursor]: the open cursor, or a new connection to the file. *)
Definition _get_cursor (q : t) : schema.db * t :=
  match _db_conn q with
  | Some c => (cursor c, q)
  | None =>
      let c := connect (_db_path q) in
      (cursor c, set_db_conn (Some c) q)
  end.

Definition close (q : t) : t := set_db_conn None q.

(** [cursor.execute("SELECT ...")] on the tables named. *)
Definition execute (tables : string) (q : t) : schema.db * t :=
  let '(d, q) := _get_cursor q in (d, emit (Select tables) q).

Definition _get_db_id (revision_id : string) (q : t) : option Z * t :=
  let '(d, q) := execute "revision" q in
  (schema.db_id <$> schema.select_revision d revision_id, q).

Definition _is_imported_db_id (tip_db_id : option Z) (q : t) : bool * t :=
  let '(d, q) := execute "dotted_revno" q in
  (_is_imported_db_id d tip_db_id, q).

(** [__init__] *)
Definition init (db_path : schema.db) (a_branch : Branch) : t :=
  let q := mk db_path None None a_branch (last_revision a_branch) None false
              [] in
  let '(db_id, q) := _get_db_id (last_revision a_branch) q in
  set_tip_is_imported false (set_branch_tip_db_id db_id q).

(** [_import_tip]: an [Importer] on the same file, run under the lock when
    one is set; a lock that is held is never acquired.  The [finally]
    releases the lock when the import raises, too, and the exception goes
    on to the caller. *)
Definition _import_tip (fuel : nat) (q : t) : res t :=
  let q := match _db_conn q with Some _ => close q | None => q end in
  q ← match _importer_lock q with
      | Some true => OutOfFuel
      | Some false => Ok (emit Lock_acquire (set_importer_lock (Some true) q))
      | None => Ok q
      end;
  let importer := Importer.init (_db_path q) (_branch q)
                                (Some (_branch_tip_rev_id q)) true in
  importer ← Importer.do_import fuel importer;
  let q := emit Import_done
             (set_db_conn (Some (Importer._db_conn importer))
                (set_db_path (committed (Importer._db_conn importer)) q)) in
  let '(db_id, q) := _get_db_id (_branch_tip_rev_id q) q in
  let q := set_tip_is_imported true (set_branch_tip_db_id db_id q) in
  Ok (match _importer_lock q with
      | Some _ => emit Lock_release (set_importer_lock (Some false) q)
      | None => q
      end).

Definition ensure_branch_tip (fuel : nat) (q : t) : res t :=
  let q := emit Call_ensure_branch_tip q in
  match _branch_tip_db_id q with
  | Some tip_db_id =>
      if _tip_is_imported q then Ok q
      else
        let '(imported, q) := _is_imported_db_id (Some tip_db_id) q in
        if imported then Ok (set_tip_is_imported true q)
        else _import_tip fuel q
  | None => _import_tip fuel q
  end.

(** The names bound at the top level of the module [history_db]. *)
Definition module_names : list string :=
  ["dbapi2"; "defaultdict"; "deque"; "time"; "debug"; "errors"; "lru_cache";
   "revision"; "static_tuple"; "trace"; "ui"; "schema"; "NULL_PARENTS";
   "_n_params"; "_add_n_params"; "_get_result_for_many"; "Importer";
   "_MergeSortNode"; "_IncrementalMergeSort"; "Querier"].

(** Reading a name inside a method: a local variable or parameter has its
    value; another name is looked up in the module (none of its names holds
    a value that can be bound to a query) and, failing that, is unbound. *)
Definition read_name {A} (locals : list (string * A)) (name : string) : res A :=
  match filter (λ b, b.1 = name) locals with
  | b :: _ => Ok b.2
  | [] =>
      if bool_decide (name ∈ module_names) then Raise TypeError
      else Raise (NameError name)
  end.

Definition get_lh_parent_rev_id (revision_id : string) (q : t)
  : option string * t :=
  let '(d, q) := execute "parent, revision" q in
  (hd_error
     (pr ← filter (λ r, schema.parent_idx r = 0) (schema.t_parent d);
      c ← filter (λ c, schema.db_id c = schema.child pr
                       ∧ schema.revision_id c = revision_id)
                 (schema.t_revision d);
      p ← filter (λ p, schema.db_id p = schema.parent pr) (schema.t_revision d);
      [schema.revision_id p]), q).

(** [get_children]: the query is given [(revid,)] as its parameters. *)
Definition get_children (revision_id : string) (q : t)
  : res (list string * t) :=
  let '(_, q) := _get_cursor q in
  revid ← read_name [("revision_id", revision_id)] "revid";
  let '(d, q) := execute "revision, parent" q in
  Ok (p ← filter (λ p, schema.revision_id p = revid) (schema.t_revision d);
      pr ← filter (λ r, schema.parent r = schema.db_id p) (schema.t_parent d);
      c ← filter (λ c, schema.db_id c = schema.child pr) (schema.t_revision d);
      [schema.revision_id c], q).

Definition _get_lh_parent_db_id (revision_db_id : Z) (q : t) : option Z * t :=
  let '(d, q) := execute "parent" q in
  (_get_lh_parent_db_id d revision_db_id, q).

(** [_get_range_key_and_tail]: the best range with this head and its tail,
    or no range and the left-hand parent. *)
Definition _get_range_key_and_tail (tip_db_id : Z) (q : t)
  : (option Z * option Z) * t :=
  let '(d, q) := execute "mainline_parent_range" q in
  match Importer._get_mainline_range_count d tip_db_id with
  | None =>
      let '(tail, q) := _get_lh_parent_db_id tip_db_id q in
      ((None, tail), q)
  | Some r => ((Some (schema.pkey r), schema.tail r), q)
  end.

(** The [dotted_revno] rows of one step of a walk along the mainline: those
    of the tip alone, or those of every member of the range ([dotted_revno]
    joined with [mainline_parent]). *)
Definition step_rows (d : schema.db) (tip_db_id : Z) (range_key : option Z)
  : list schema.dotted_revno_row :=
  match range_key with
  | None => filter (λ r, schema.tip_revision r = tip_db_id)
                   (schema.t_dotted_revno d)
  | Some k =>
      r ← schema.t_dotted_revno d;
      m ← filter (λ m, schema.range m = k
                       ∧ schema.revision m = schema.tip_revision r)
                 (schema.t_mainline_parent d);
      [r]
  end.

Definition step_tables (range_key : option Z) : string :=
  match range_key with
  | None => "dotted_revno"
  | Some _ => "dotted_revno, mainline_parent"
  end.

(** [db_ids] and [db_id_to_rev_id] of [get_dotted_revnos] and
    [get_mainline_where_merged]; an id the table lacks is [None] (the code
    stops in the debugger there and goes on). *)
Definition resolve_ids (revision_ids : list string) (q : t)
  : (gset (option Z) * gmap (option Z) string) * t :=
  foldl (λ '((db_ids, db_id_to_rev_id), q) rev_id,
           let '(db_id, q) := _get_db_id rev_id q in
           ((db_ids ∪ {[db_id]}, <[db_id := rev_id]> db_id_to_rev_id), q))
        ((∅, ∅), q) revision_ids.

Fixpoint get_dotted_revnos_loop (fuel : nat) (tip_db_id : option Z)
    (db_ids : gset (option Z)) (db_id_to_rev_id : gmap (option Z) string)
    (revnos : gmap string (list Z)) (q : t)
  : res (gmap string (list Z) * t) :=
  match tip_db_id with
  | None => Ok (revnos, q)
  | Some tip =>
      if bool_decide (db_ids = ∅) then Ok (revnos, q)
      else match fuel with
           | O => OutOfFuel
           | S fuel =>
               let '((range_key, next_db_id), q) :=
                 _get_range_key_and_tail tip q in
               let '(d, q) := execute (step_tables range_key) q in
               let revno_res :=
                 filter (λ r, Some (schema.merged_revision r) ∈ db_ids)
                        (step_rows d tip range_key) in
               '(db_ids, revnos) ← for_each (λ '(db_ids, revnos) r,
                   rev_id ← getitem db_id_to_rev_id
                                    (Some (schema.merged_revision r));
                   revno ← parse_revno (schema.revno r);
                   Ok (db_ids ∖ {[Some (schema.merged_revision r)]},
                       <[rev_id := revno]> revnos))
                 revno_res (db_ids, revnos);
               get_dotted_revnos_loop fuel next_db_id db_ids db_id_to_rev_id
                                      revnos q
           end
  end.

Definition get_dotted_revnos (fuel : nat) (revision_ids : list string) (q : t)
  : res (gmap string (list Z) * t) :=
  q ← ensure_branch_tip fuel q;
  let '(_, q) := _get_cursor q in
  match _branch_tip_db_id q with
  | None => Ok (∅, q)
  | Some tip_db_id =>
      let '((db_ids, db_id_to_rev_id), q) := resolve_ids revision_ids q in
      get_dotted_revnos_loop fuel (Some tip_db_id) db_ids db_id_to_rev_id ∅ q
  end.

Fixpoint get_revision_ids_loop (fuel : nat) (tip_db_id : option Z)
    (revno_strs : gset string) (revno_map : gmap (list Z) string) (q : t)
  : res (gmap (list Z) string * t) :=
  match tip_db_id with
  | None => Ok (revno_map, q)
  | Some tip =>
      if bool_decide (revno_strs = ∅) then Ok (revno_map, q)
      else match fuel with
           | O => OutOfFuel
           | S fuel =>
               let '((range_key, next_db_id), q) :=
                 _get_range_key_and_tail tip q in
               let '(d, q) := execute (step_tables range_key +:+ ", revision")
                                      q in
               let revision_res : list (string * string) :=
                 r ← filter (λ r, schema.revno r ∈ revno_strs)
                            (step_rows d tip range_key);
                 v ← filter (λ v, schema.db_id v = schema.merged_revision r)
                            (schema.t_revision d);
                 [(schema.revision_id v, schema.revno r)] in
               '(revno_strs, revno_map) ←
                 for_each (λ '(revno_strs, revno_map) '(revision_id, revno_str),
                   dotted ← parse_revno revno_str;
                   Ok (revno_strs ∖ {[revno_str]},
                       <[dotted := revision_id]> revno_map))
                 revision_res (revno_strs, revno_map);
               get_revision_ids_loop fuel next_db_id revno_strs revno_map q
           end
  end.

Definition get_revision_ids (fuel : nat) (revnos : list (list Z)) (q : t)
  : res (gmap (list Z) string * t) :=
  q ← ensure_branch_tip fuel q;
  let revno_strs : gset string := list_to_set (revno_str <$> revnos) in
  let '(_, q) := _get_cursor q in
  get_revision_ids_loop fuel (_branch_tip_db_id q) revno_strs ∅ q.

Fixpoint get_mainline_where_merged_loop (fuel : nat) (tip_db_id : option Z)
    (db_ids : gset (option Z)) (db_id_to_rev_id : gmap (option Z) string)
    (revision_to_mainline_map : gmap string string) (q : t)
  : res (gmap string string * t) :=
  match tip_db_id with
  | None => Ok (revision_to_mainline_map, q)
  | Some tip =>
      if bool_decide (db_ids = ∅) then Ok (revision_to_mainline_map, q)
      else match fuel with
           | O => OutOfFuel
           | S fuel =>
               let '((range_key, next_db_id), q) :=
                 _get_range_key_and_tail tip q in
               let '(d, q) := execute (step_tables range_key +:+ ", revision")
                                      q in
               let mainline_res : list (string * Z) :=
                 r ← filter (λ r, Some (schema.merged_revision r) ∈ db_ids)
                            (step_rows d tip range_key);
                 v ← filter (λ v, schema.db_id v = schema.tip_revision r)
                            (schema.t_revision d);
                 [(schema.revision_id v, schema.merged_revision r)] in
               '(db_ids, map) ←
                 for_each (λ '(db_ids, map) '(mainline_revision_id, merged),
                   rev_id ← getitem db_id_to_rev_id (Some merged);
                   Ok (db_ids ∖ {[Some merged]},
                       <[rev_id := mainline_revision_id]> map))
                 mainline_res (db_ids, revision_to_mainline_map);
               get_mainline_where_merged_loop fuel next_db_id db_ids
                                              db_id_to_rev_id map q
           end
  end.

Definition get_mainline_where_merged (fuel : nat) (revision_ids : list string)
    (q : t) : res (gmap string string * t) :=
  q ← ensure_branch_tip fuel q;
  match _branch_tip_db_id q with
  | None => Ok (∅, q)
  | Some tip_db_id =>
      let '(_, q) := _get_cursor q in
      let '((db_ids, db_id_to_rev_id), q) := resolve_ids revision_ids q in
      get_mainline_where_merged_loop fuel (Some tip_db_id) db_ids
                                     db_id_to_rev_id ∅ q
  end.

(** [_get_mainline_range_starting_at]: the range lookup is made for the
    name [tip_db_id], the parameter being [head_db_id]. *)
Definition _get_mainline_range_starting_at (head_db_id : Z) (q : t)
  : res ((option (list Z) * option Z) * t) :=
  let '(_, q) := _get_cursor q in
  tip_db_id ← read_name [("head_db_id", head_db_id)] "tip_db_id";
  let '((range_key, next_db_id), q) := _get_range_key_and_tail tip_db_id q in
  match range_key with
  | None => Ok ((None, next_db_id), q)
  | Some range_key =>
      let '(d, q) := execute "mainline_parent" q in
      let db_ids :=
        schema.revision
          <$> order_by schema.mp_dist
                (filter (λ r, schema.range r = range_key)
                        (schema.t_mainline_parent d)) in
      Ok ((Some db_ids, next_db_id), q)
  end.

Fixpoint walk_mainline_loop (fuel : nat) (db_id : option Z) (all_ids : list Z)
    (q : t) : res (list Z * t) :=
  match db_id with
  | None => Ok (all_ids, q)
  | Some id =>
      match fuel with
      | O => OutOfFuel
      | S fuel =>
          '((next_range, next_db_id), q) ←
            _get_mainline_range_starting_at id q;
          match next_range with
          | None => walk_mainline_loop fuel next_db_id (all_ids ++ [id]) q
          | Some next_range =>
              if bool_decide (hd_error next_range = Some id)
              then walk_mainline_loop fuel next_db_id (all_ids ++ next_range) q
              else match next_range with
                   | [] => Raise IndexError
                   | _ => Raise AssertionError
                   end
          end
      end
  end.

Definition walk_mainline (fuel : nat) (q : t) : res (list Z * t) :=
  let '(db_id, q) := _get_db_id (_branch_tip_rev_id q) q in
  walk_mainline_loop fuel db_id [] q.

Fixpoint walk_ancestry_loop (fuel : nat) (db_id : option Z)
    (all_ancestors : gset Z) (q : t) : res (gset Z * t) :=
  match db_id with
  | None => Ok (all_ancestors, q)
  | Some id =>
      match fuel with
      | O => OutOfFuel
      | S fuel =>
          let '((range_key, next_db_id), q) := _get_range_key_and_tail id q in
          let '(d, q) := execute (step_tables range_key) q in
          let merged_revs :=
            schema.merged_revision <$> step_rows d id range_key in
          walk_ancestry_loop fuel next_db_id
            (all_ancestors ∪ list_to_set merged_revs) q
      end
  end.

Definition walk_ancestry (fuel : nat) (q : t) : res (gset Z * t) :=
  let '(db_id, q) := _get_db_id (_branch_tip_rev_id q) q in
  let '(_, q) := _get_cursor q in
  walk_ancestry_loop fuel db_id ∅ q.

Fixpoint _find_tip_containing (fuel : nat) (tip_db_id : option Z)
    (merged_db_id : option Z) (q : t) : res (option Z * t) :=
  match tip_db_id with
  | None => Ok (None, q)
  | Some tip =>
      if bool_decide (Some tip = merged_db_id) then Ok (Some tip, q)
      else match fuel with
           | O => OutOfFuel
           | S fuel =>
               let '((range_key, next_db_id), q) :=
                 _get_range_key_and_tail tip q in
               let '(d, q) := execute (step_tables range_key) q in
               match filter (λ r, eq_param (schema.merged_revision r)
                                           merged_db_id)
                            (step_rows d tip range_key) with
               | _ :: _ => Ok (Some tip, q)
               | [] => _find_tip_containing fuel next_db_id merged_db_id q
               end
           end
  end.

(** The rows one step of [_get_merge_sorted_range] reads: the
    [dotted_revno] rows of the step joined with [revision], ordered by
    [dist] when they are those of a single tip. *)
Definition merge_sorted_rows (d : schema.db) (tip_db_id : Z)
    (range_key : option Z) : list (Z * string * Z * string * bool) :=
  r ← match range_key with
      | None => order_by schema.dist (step_rows d tip_db_id None)
      | Some _ => step_rows d tip_db_id range_key
      end;
  v ← filter (λ v, schema.db_id v = schema.merged_revision r)
             (schema.t_revision d);
  [(schema.db_id v, schema.revision_id v, schema.merge_depth r,
    schema.revno r, schema.end_of_merge r)].

(** The generator [_get_merge_sorted_range], run to its end: [found_start]
    and the rows yielded so far are the state of its loops, [stopped] tells
    that it has returned. *)
Fixpoint get_merge_sorted_range_loop (fuel : nat) (tip_db_id : option Z)
    (start_db_id stop_db_id : option Z) (found_start : bool)
    (yielded : list (string * Z * list Z * bool)) (q : t)
  : res (list (string * Z * list Z * bool) * t) :=
  match tip_db_id with
  | None => Ok (yielded, q)
  | Some tip =>
      match fuel with
      | O => OutOfFuel
      | S fuel =>
          let '((range_key, next_db_id), q) := _get_range_key_and_tail tip q in
          let '(d, q) := execute (step_tables range_key +:+ ", revision") q in
          '(found_start, yielded, stopped) ←
            for_each (λ '(found_start, yielded, stopped)
                        '(db_id, r_id, depth, revno_str, eom),
                if (stopped : bool) then Ok (found_start, yielded, stopped)
                else
                  let found_start :=
                    found_start || bool_decide (Some db_id = start_db_id) in
                  if found_start then
                    if bool_decide (Some db_id = stop_db_id)
                    then Ok (found_start, yielded, true)
                    else
                      revno ← parse_revno revno_str;
                      Ok (found_start, yielded ++ [(r_id, depth, revno, eom)],
                          false)
                  else Ok (found_start, yielded, false))
              (merge_sorted_rows d tip range_key) (found_start, yielded, false);
          if (stopped : bool) then Ok (yielded, q)
          else get_merge_sorted_range_loop fuel next_db_id start_db_id
                 stop_db_id found_start yielded q
      end
  end.

Definition _get_merge_sorted_range (fuel : nat) (tip_db_id : option Z)
    (start_db_id stop_db_id : option Z) (q : t)
  : res (list (string * Z * list Z * bool) * t) :=
  let found_start :=
    bool_decide (start_db_id = None) || bool_decide (start_db_id = tip_db_id) in
  let '(_, q) := _get_cursor q in
  get_merge_sorted_range_loop fuel tip_db_id start_db_id stop_db_id
                              found_start [] q.

Definition iter_merge_sorted_revisions (fuel : nat)
    (start_revision_id stop_revision_id : option string) (q : t)
  : res (list (string * Z * list Z * bool) * t) :=
  q ← ensure_branch_tip fuel q;
  match _branch_tip_db_id q with
  | None => Ok ([], q)
  | Some tip_db_id =>
      let '(start_db_id, q) :=
        match start_revision_id with
        | Some r => _get_db_id r q
        | None => (Some tip_db_id, q)
        end in
      let '(stop_db_id, q) :=
        match stop_revision_id with
        | Some r => _get_db_id r q
        | None => (None, q)
        end in
      '(tip_db_id, q) ←
        _find_tip_containing fuel (Some tip_db_id) start_db_id q;
      _get_merge_sorted_range fuel tip_db_id start_db_id stop_db_id q
  end.

End Querier.

(** ** Histories used as examples *)

Module Scenario.

(** A repository given by the parents of its revisions. *)
Definition repository (parents : list (string * list string))
  : string → option (list string) :=
  λ rev_id, (list_to_map parents : gmap string (list string)) !! rev_id.

(** A branch of which only the tip and the parents are used (every import
    below but the one of [reimport] is incremental). *)
Definition no_graph : string → KnownGraph :=
  λ _, mk_graph (λ _, []) (λ _, []) (λ _, 0).

Definition branch_at (parents : list (string * list string)) (tip : string)
  : Branch :=
  mk_branch tip (repository parents) no_graph.

(** One incremental import of [tip] into the database file [file], as the
    [Querier] starts it; the result is the file afterwards. *)
Definition import_tip (fuel : nat) (parents : list (string * list string))
    (tip : string) (file : schema.db) : res schema.db :=
  s ← Importer.do_import fuel
        (Importer.init file (branch_at parents tip) None true);
  Ok (committed (Importer._db_conn s)).

(** The [dotted_revno] rows of a tip, by revision id. *)
Definition rows_of_tip (d : schema.db) (tip : string)
  : list schema.dotted_revno_row :=
  r ← schema.t_dotted_revno d;
  v ← filter (λ v, schema.db_id v = schema.tip_revision r
                   ∧ schema.revision_id v = tip) (schema.t_revision d);
  [r].

(** S1: the linear history [A <- B <- C <- D]. *)
Definition S1 : list (string * list string) :=
  [("A", NULL_PARENTS); ("B", ["A"]); ("C", ["B"]); ("D", ["C"])].


(** A criss-cross: [P] is imported, then [X] with parents [[P; Y]], where
    the left-hand parent of [Y] is [P], too. *)
Definition criss_cross : list (string * list string) :=
  [("P", NULL_PARENTS); ("Y", ["P"]); ("X", ["P"; "Y"])].

(** A tip [X] whose left-hand parent [G] is a ghost and whose other parent
    [R] is a root. *)
Definition ghost_and_root : list (string * list string) :=
  [("R", NULL_PARENTS); ("X", ["G"; "R"])].

(** A linear history of [n] revisions [r1 <- r2 <- ... <- rn]. *)
Definition name (i : nat) : string := "r" +:+ str (Z.of_nat i).
Definition linear (n : nat) : list (string * list string) :=
  (λ i, (name (S i), match i with O => NULL_PARENTS | _ => [name i] end))
    <$> seq 0 n.

(** [B] merged by [C]: the left-hand parent of [B] and of [C] is [A]. *)
Definition merged_branch : list (string * list string) :=
  [("A", NULL_PARENTS); ("B", ["A"]); ("C", ["A"; "B"])].

(** A non-incremental import of [B] on top of [A], with the graph of the
    host: its merge sort of [B] is [B=2, A=1]. *)
Definition graph_AB : KnownGraph :=
  mk_graph
    (λ _, [mk_merge_sorted "B" 0 [2] false; mk_merge_sorted "A" 0 [1] true])
    (λ r, if bool_decide (r = "B") then ["A"] else [])
    (λ r, if bool_decide (r = "B") then 2 else 1).

Definition branch_AB : Branch :=
  mk_branch "B" (repository [("A", NULL_PARENTS); ("B", ["A"])])
            (λ _, graph_AB).

End Scenario.

(** * Specification predicates *)

(** The value of a result, or [a] when there is none. *)
Definition result_or {A} (r : res A) (a : A) : A :=
  match r with
  | Ok x => x
  | _ => a
  end.

(** The rows one call of [_build_one_mainline] adds to
    [mainline_parent_range]: each holds between 1 and 100 revisions, and all
    but the last one added (the newest) hold exactly 100. *)
Definition chunked (new : list schema.mainline_parent_range_row) : Prop :=
  Forall (λ r, 1 ≤ schema.count r ≤ 100) new
  ∧ ∀ i r, new !! i = Some r → (S i < length new)%nat → schema.count r = 100.

(** What [schema.ensure_revisions] and the insertion of a revision leave
    alone: every table but [revision], which only grows. *)
Definition revisions_added (d d' : schema.db) : Prop :=
  schema.t_revision d `prefix_of` schema.t_revision d'
  ∧ schema.t_ghost d' = schema.t_ghost d
  ∧ schema.t_parent d' = schema.t_parent d
  ∧ schema.t_dotted_revno d' = schema.t_dotted_revno d
  ∧ schema.t_mainline_parent_range d' = schema.t_mainline_parent_range d
  ∧ schema.t_mainline_parent d' = schema.t_mainline_parent d.

(** Nothing is deleted or changed: every table of [d] is the beginning of
    the same table of [d']. *)
Definition grows (d d' : schema.db) : Prop :=
  schema.t_revision d `prefix_of` schema.t_revision d'
  ∧ schema.t_ghost d `prefix_of` schema.t_ghost d'
  ∧ schema.t_parent d `prefix_of` schema.t_parent d'
  ∧ schema.t_dotted_revno d `prefix_of` schema.t_dotted_revno d'
  ∧ schema.t_mainline_parent_range d
    `prefix_of` schema.t_mainline_parent_range d'
  ∧ schema.t_mainline_parent d `prefix_of` schema.t_mainline_parent d'.

(** The same for an importer: its transaction only adds rows, and what is
    committed is as it was. *)
Definition importer_grows (s s' : Importer.t) : Prop :=
  grows (Importer._cursor s) (Importer._cursor s')
  ∧ committed (Importer._db_conn s') = committed (Importer._db_conn s).

(** The non-incremental import of [B] into a file that has [A] imported:
    the importer at its start, and as it is when the loop of [_import_tip]
    has run and the last group, the one of [A], is about to be inserted. *)
Definition reimport_start : Importer.t :=
  Importer.init
    (result_or (Scenario.import_tip 20 Scenario.S1 "A" schema.empty)
               schema.empty)
    Scenario.branch_AB None false.

Definition reimport_before_last_insert : res Importer.t :=
  '(merge_sorted, s) ← Importer._get_merge_sorted_tip 20 "B" reimport_start;
  s ← Importer._ensure_revisions (ms_key <$> merge_sorted) s;
  s ← Importer._update_parents merge_sorted s;
  '(_, _, s) ← Importer.import_loop merge_sorted None [] s;
  Ok s.

(** The events of [ensure_branch_tip], from the state it is called in: the
    call; the look at [dotted_revno] when the tip has a db id and is not
    yet known to be imported; and, when the tip is not an imported tip, the
    import, between the acquisition and the release of the lock when one is
    set, followed by the lookup of the db id of the tip. *)
Definition import_events (q : Querier.t) : list Querier.event :=
  match Querier._importer_lock q with
  | Some _ =>
      [Querier.Lock_acquire; Querier.Import_done; Querier.Select "revision";
       Querier.Lock_release]
  | None => [Querier.Import_done; Querier.Select "revision"]
  end.

Definition tip_is_imported (q : Querier.t) : bool :=
  match Querier._branch_tip_db_id q with
  | Some tip_db_id =>
      Querier._tip_is_imported q
      || _is_imported_db_id (Querier._get_cursor q).1 (Some tip_db_id)
  | None => false
  end.

Definition ensure_events (q : Querier.t) : list Querier.event :=
  Querier.Call_ensure_branch_tip
  :: match Querier._branch_tip_db_id q with
     | Some _ =>
         if Querier._tip_is_imported q then []
         else Querier.Select "dotted_revno"
              :: (if tip_is_imported q then [] else import_events q)
     | None => import_events q
     end.

(** Events that are all [SELECT]s. *)
Definition only_selects (evs : list Querier.event) : Prop :=
  Forall (λ e, ∃ tables, e = Querier.Select tables) evs.

(** [q'] is [q] some events later. *)
Definition later (q q' : Querier.t) : Prop :=
  ∃ evs, Querier.log q' = Querier.log q ++ evs ∧ only_selects evs.

(** The incremental sorter as [_get_merge_sorted_tip] sets it to work on
    [tip]: the database it reads, and the sorter with the interesting
    ancestry found, the stacks reset and the tip pushed. *)
Definition sorter_at (fuel : nat) (parents : list (string * list string))
    (tip : string) (file : schema.db)
  : res (schema.db * IncrementalMergeSort.t) :=
  s ← Importer._update_ancestry fuel tip
        (Importer.init file (Scenario.branch_at parents tip) None true);
  s ← Importer._ensure_revisions [tip] s;
  tip_db_id ← getitem (Importer._rev_id_to_db_id s) tip;
  m ← IncrementalMergeSort._find_interesting_ancestry fuel (Importer._cursor s)
        (IncrementalMergeSort.init (Importer._db_parent_map s) tip_db_id);
  m ← IncrementalMergeSort.merge_sort_start (Importer._cursor s) m;
  Ok (Importer._cursor s, m).


(** What a node of the sorter says of a revision: its db id, its revno,
    its merge depth, its left-hand parent and whether it was pushed as a
    first child. *)
Definition numbered (n : MergeSortNode.t)
  : Z * option (list Z) * Z * option Z * bool :=
  (MergeSortNode.key n, MergeSortNode.revno n, MergeSortNode.merge_depth n,
   MergeSortNode._left_parent n, MergeSortNode._is_first n).

(** A revno with its last component incremented. *)
Definition incr_last (revno : list Z) : list Z :=
  match reverse revno with
  | [] => []
  | x :: r => reverse r ++ [x + 1]
  end.

(** Revnos have one component (mainline) or three. *)
Definition one_or_three (revno : list Z) : Prop :=
  length revno = 1%nat ∨ length revno = 3%nat.


(** What loading more of the imported mainline leaves alone. *)
Definition same_walk (s s' : IncrementalMergeSort.t) : Prop :=
  IncrementalMergeSort._depth_first_stack s'
  = IncrementalMergeSort._depth_first_stack s
  ∧ IncrementalMergeSort._scheduled_stack s'
    = IncrementalMergeSort._scheduled_stack s
  ∧ IncrementalMergeSort._seen_parents s'
    = IncrementalMergeSort._seen_parents s
  ∧ IncrementalMergeSort._parent_map s' = IncrementalMergeSort._parent_map s
  ∧ IncrementalMergeSort._ghosts s' = IncrementalMergeSort._ghosts s
  ∧ IncrementalMergeSort._interesting_ancestor_ids s'
    = IncrementalMergeSort._interesting_ancestor_ids s.




(** ** The rows of a tip *)



(** The [dotted_revno] rows that describe [nodes] under the tip [tip_db_id]:
    the db id of the revision, the revno joined by dots, [end_of_merge],
    [merge_depth], and [dist] counting the nodes from [dist] on.  There are
    none when a revision has no db id. *)
Fixpoint rows_from (tip_db_id : Z) (rev_to_db : gmap string Z) (dist : nat)
    (nodes : list merge_sorted_node) : option (list schema.dotted_revno_row) :=
  match nodes with
  | [] => Some []
  | n :: nodes =>
      db_id ← rev_to_db !! ms_key n;
      rows ← rows_from tip_db_id rev_to_db (S dist) nodes;
      Some (schema.mk_dotted tip_db_id db_id (revno_str (ms_revno n))
              (ms_end_of_merge n) (ms_merge_depth n) (Z.of_nat dist) :: rows)
  end.

(** The db ids of the [revision] table, by revision id. *)
Definition db_ids (d : schema.db) : gmap string Z :=
  list_to_map ((λ r, (schema.revision_id r, schema.db_id r))
                 <$> schema.t_revision d).




(** ** The gdfo of the revisions *)

(** [SELECT * FROM revision WHERE db_id = ?] *)
Definition revision_of (d : schema.db) (id : Z) : option schema.revision_row :=
  hd_error (filter (λ r, schema.db_id r = id) (schema.t_revision d)).

(** The gdfo recorded for a db id (0 when the id has no row; a recorded gdfo
    is at least 1). *)
Definition gdfo_of (d : schema.db) (id : Z) : Z :=
  default 0 (schema.gdfo <$> revision_of d id).

(** [SELECT parent FROM parent WHERE child = ?] *)
Definition parents_of (d : schema.db) (c : Z) : list Z :=
  schema.parent <$> filter (λ e, schema.child e = c) (schema.t_parent d).

(** [m] is the largest number of [l]. *)
Definition is_max (m : Z) (l : list Z) : Prop :=
  m ∈ l ∧ Forall (λ x, x ≤ m) l.

(** [g] is 1 when there are no parents, and one more than the largest gdfo
    of the parents otherwise. *)
Definition one_more (g : Z) (parent_gdfos : list Z) : Prop :=
  (parent_gdfos = [] → g = 1)
  ∧ (parent_gdfos ≠ [] → is_max (g - 1) parent_gdfos).

(** What is recorded about gdfo after an import: along every parent edge
    between two revisions that are not ghosts the gdfo grows; a revision
    without parents and a ghost have gdfo 1; every other revision has one
    more than the largest gdfo of its parents. *)
Definition gdfo_recorded (d : schema.db) : Prop :=
  (∀ e, e ∈ schema.t_parent d →
        schema.child e ∉ schema.t_ghost d →
        schema.parent e ∉ schema.t_ghost d →
        ∃ rc rp, revision_of d (schema.child e) = Some rc
                 ∧ revision_of d (schema.parent e) = Some rp
                 ∧ schema.gdfo rc > schema.gdfo rp)
  ∧ (∀ r, r ∈ schema.t_revision d →
          parents_of d (schema.db_id r) = []
          ∨ schema.db_id r ∈ schema.t_ghost d →
          schema.gdfo r = 1)
  ∧ (∀ r, r ∈ schema.t_revision d →
          parents_of d (schema.db_id r) ≠ [] →
          schema.db_id r ∉ schema.t_ghost d →
          is_max (schema.gdfo r - 1)
                 (gdfo_of d <$> parents_of d (schema.db_id r))).

(** The keys of [revision]: [db_id] counts the rows from 1, and no
    [revision_id] is there twice. *)
Definition keyed (d : schema.db) : Prop :=
  (∀ i r, schema.t_revision d !! i = Some r →
          schema.db_id r = Z.of_nat i + 1)
  ∧ NoDup (schema.revision_id <$> schema.t_revision d).

(** The invariant of the store that the imports keep: the keys, both ends
    of every parent edge recorded as revisions, the gdfo of every revision
    one more than the largest of its parents (1 without parents), and
    every ghost with gdfo 1. *)
Definition gdfo_inv (d : schema.db) : Prop :=
  keyed d
  ∧ (∀ e, e ∈ schema.t_parent d →
          is_Some (revision_of d (schema.child e))
          ∧ is_Some (revision_of d (schema.parent e)))
  ∧ (∀ r, r ∈ schema.t_revision d →
          one_more (schema.gdfo r)
                   (gdfo_of d <$> parents_of d (schema.db_id r)))
  ∧ (∀ id, id ∈ schema.t_ghost d →
           ∃ r, revision_of d id = Some r ∧ schema.gdfo r = 1).

(** One incremental import of the tip of a branch (or of [tip]) into the
    file, by an [Importer] of its own, and a sequence of them. *)
Definition import (fuel : nat) (file : schema.db)
    (b : Branch * option string) : res schema.db :=
  s ← Importer.do_import fuel (Importer.init file b.1 b.2 true);
  Ok (committed (Importer._db_conn s)).

Definition imports (fuel : nat) (bs : list (Branch * option string))
    (file : schema.db) : res schema.db :=
  for_each (import fuel) bs file.

(** ** The needed mainline *)

(** [l] is the chain of left-hand parents that starts at [cur] and stops
    before [stop]: each of its db ids is the left-hand parent of the one
    before it, and [stop] is the left-hand parent of the last (or [cur]
    itself when the chain is empty). *)
Fixpoint lh_chain (d : schema.db) (cur : option Z) (l : list Z)
    (stop : option Z) : Prop :=
  match l with
  | [] => cur = stop
  | x :: l => cur = Some x ∧ lh_chain d (_get_lh_parent_db_id d x) l stop
  end.

(** The database of [merged_branch] with [A] imported and [C] (which
    merges [B]) recorded but not numbered, and the db id of [C]. *)
Definition merged_branch_db : schema.db :=
  result_or
    (file ← Scenario.import_tip 30 Scenario.merged_branch "A" schema.empty;
     s ← Importer._update_ancestry 30 "C"
           (Importer.init file
              (Scenario.branch_at Scenario.merged_branch "C") None true);
     Ok (Importer._cursor s))
    schema.empty.

(** ** The counters of the sorter *)

(** No counter of [m] is lost or lowered in [m']. *)
Definition counts_le `{Countable K} (m m' : gmap K Z) : Prop :=
  ∀ k n, m !! k = Some n → ∃ n', m' !! k = Some n' ∧ n ≤ n'.

(** What a loaded [dotted_revno] entry leaves in the sorter: the revno is
    known, the revision has its entry, the counter of its branch is at
    least its number on the branch and, for a dotted revno, the branch
    count of its base revno is at least the number of its branch. *)
Definition loaded (s : IncrementalMergeSort.t)
    (entry : Z * (list Z * bool * Z)) : Prop :=
  let revno := entry.2.1.1 in
  revno ∈ IncrementalMergeSort._known_dotted s
  ∧ is_Some (IncrementalMergeSort._imported_dotted_revno s !! entry.1)
  ∧ (∃ key mini m,
       branch_of revno = Ok (key, mini)
       ∧ IncrementalMergeSort._branch_to_child_count s !! key = Some m
       ∧ mini ≤ m)
  ∧ (∀ base_revno branch_num rest,
       revno = base_revno :: branch_num :: rest →
       ∃ n, IncrementalMergeSort._revno_to_branch_count s !! base_revno
            = Some n
            ∧ branch_num ≤ n).

(** What the loop of [_update_info_from_dotted_revno] keeps: the loaded
    entries and revnos as they are, and every counter at least as high. *)
Definition counters_grow (s s' : IncrementalMergeSort.t) : Prop :=
  IncrementalMergeSort._known_dotted s' = IncrementalMergeSort._known_dotted s
  ∧ IncrementalMergeSort._imported_dotted_revno s'
    = IncrementalMergeSort._imported_dotted_revno s
  ∧ counts_le (IncrementalMergeSort._revno_to_branch_count s)
              (IncrementalMergeSort._revno_to_branch_count s')
  ∧ counts_le (IncrementalMergeSort._branch_to_child_count s)
              (IncrementalMergeSort._branch_to_child_count s').

(** ** The nodes of a merge sort *)

(** A node as [_pop_node] leaves it: it has a revno of one or three
    components and its [end_of_merge], and [_pending_parents] is cleared. *)
Definition is_numbered (n : MergeSortNode.t) : Prop :=
  (∃ revno, MergeSortNode.revno n = Some revno ∧ one_or_three revno)
  ∧ is_Some (MergeSortNode.end_of_merge n)
  ∧ MergeSortNode._pending_parents n = [].

(** ** What the [Querier] reads *)

(** The database a [Querier] reads: its open cursor, or the file it would
    connect to. *)
Definition reads (q : Querier.t) : schema.db := (Querier._get_cursor q).1.

(** The db id the [revision] table has for a revision id, if any. *)
Definition db_id_of (d : schema.db) (revision_id : string) : option Z :=
  schema.db_id <$> schema.select_revision d revision_id.

(** [revno] is what [dotted_revno] has for the revision: a row whose
    merged revision is the db id of [revision_id] holds it. *)
Definition stored_revno (d : schema.db) (revision_id : string)
    (revno : list Z) : Prop :=
  ∃ row, row ∈ schema.t_dotted_revno d
         ∧ db_id_of d revision_id = Some (schema.merged_revision row)
         ∧ parse_revno (schema.revno row) = Ok revno.

(** [dotted_revno] has the revision [revision_id] merged under the tip whose
    revision id is [mainline_revision_id]. *)
Definition merged_under (d : schema.db) (revision_id : string)
    (mainline_revision_id : string) : Prop :=
  ∃ row v, row ∈ schema.t_dotted_revno d
           ∧ v ∈ schema.t_revision d
           ∧ db_id_of d revision_id = Some (schema.merged_revision row)
           ∧ schema.db_id v = schema.tip_revision row
           ∧ schema.revision_id v = mainline_revision_id.

(** [dotted_revno] has the revno [revno] for the revision of the
    [revision] table whose id is [revision_id]. *)
Definition revno_of_revision (d : schema.db) (revno : list Z)
    (revision_id : string) : Prop :=
  ∃ row v, row ∈ schema.t_dotted_revno d
           ∧ v ∈ schema.t_revision d
           ∧ schema.db_id v = schema.merged_revision row
           ∧ schema.revision_id v = revision_id
           ∧ schema.revno row = revno_str revno.

(** ** The gdfo of new revisions *)

(** [g] is the gdfo [_compute_gdfo_and_insert] gives to [rev_id]: its
    parents (those of [parent_map]) all have a known gdfo, all smaller
    than [g], and [g] is one more than one of them (or [0], one more than
    the [-1] the search for the largest starts from, when there is no
    parent to look at). *)
Definition gdfo_from_parents (parent_map : gmap string (list string))
    (known : gmap string Z) (rev_id : string) (g : Z) : Prop :=
  ∃ parent_ids parent_gdfos,
    parent_map !! rev_id = Some parent_ids
    ∧ Forall2 (λ p gp, known !! p = Some gp) parent_ids parent_gdfos
    ∧ Forall (λ gp, gp < g) parent_gdfos
    ∧ (g = 0 ∨ g - 1 ∈ parent_gdfos).

(** The ancestry of [D] in S1, found from an empty database, and the
    importer that found it. *)
Definition S1_ancestors : Importer.ancestors * Importer.t :=
  let s := Importer.init schema.empty (Scenario.branch_at Scenario.S1 "D")
                         None true in
  result_or (Importer._find_known_ancestors 30 "D" s)
            (Importer.mk_ancestors [] ∅ ∅ ∅ ∅, s).

(** What [_compute_gdfo_and_insert] has done when the known gdfos have
    grown from [known0] to [known] and the database from [d0] to [d]: no
    known gdfo has changed; every new one is the gdfo its parents give and
    is that of a row of [revision]; and the rows of [revision] are those
    of [d0] followed by rows for new revisions, with their gdfo. *)
Definition gdfo_added (parent_map : gmap string (list string))
    (known0 : gmap string Z) (d0 d : schema.db) (known : gmap string Z)
  : Prop :=
  known0 ⊆ known
  ∧ (∀ r g, known !! r = Some g → known0 !! r = None →
            gdfo_from_parents parent_map known r g
            ∧ ∃ row, row ∈ schema.t_revision d
                     ∧ schema.revision_id row = r ∧ schema.gdfo row = g)
  ∧ ∃ rows, schema.t_revision d = schema.t_revision d0 ++ rows
            ∧ Forall (λ row, known0 !! schema.revision_id row = None
                             ∧ known !! schema.revision_id row
                               = Some (schema.gdfo row)) rows.

(** ** The ancestry that is found *)

(** What [_find_known_ancestors] has in [parent_map] for a revision: the
    revision was not in the database [d0] it started from, and either the
    repository has no parents for it (it is a ghost, or its parents are
    [NULL_PARENTS]), the entry is empty and the revision is now in the
    database [d] with gdfo 1 (and in [ghost] if it is a ghost); or the
    entry is what the repository gives as its parents, and the revision
    is not in the database yet. *)
Definition found_parents (b : Branch) (d0 d : schema.db) (rev_id : string)
    (parent_ids : list string) : Prop :=
  schema.select_revision d0 rev_id = None
  ∧ ((parent_ids = []
      ∧ (get_parent_map b rev_id = None
         ∨ get_parent_map b rev_id = Some NULL_PARENTS)
      ∧ ∃ row, schema.select_revision d rev_id = Some row
               ∧ schema.gdfo row = 1
               ∧ (get_parent_map b rev_id = None →
                  schema.db_id row ∈ schema.t_ghost d))
     ∨ (get_parent_map b rev_id = Some parent_ids
        ∧ parent_ids ≠ NULL_PARENTS
        ∧ schema.select_revision d rev_id = None)).

(** What [_find_known_ancestors] has found, from the database [d0] to
    [d]: every known gdfo is the one [revision] has; every entry of
    [parent_map] is as [found_parents] says; [children] holds a revision
    under a parent only if the parent is among its parents in
    [parent_map]; and [revision] has got new rows after those it had, all
    with gdfo 1 and for revisions that were not in it and for which the
    repository has no parents, [parent] being as it was. *)
Definition ancestry_found (b : Branch) (d0 d : schema.db)
    (a : Importer.ancestors) : Prop :=
  (∀ r g, Importer.known a !! r = Some g →
          ∃ row, schema.select_revision d r = Some row
                 ∧ schema.gdfo row = g)
  ∧ (∀ r ps, Importer.parent_map a !! r = Some ps → found_parents b d0 d r ps)
  ∧ (∀ p c, c ∈ default [] (Importer.children a !! p) →
            ∃ ps, Importer.parent_map a !! c = Some ps ∧ p ∈ ps)
  ∧ (∃ rows, schema.t_revision d = schema.t_revision d0 ++ rows
             ∧ Forall (λ row,
                 schema.gdfo row = 1
                 ∧ (get_parent_map b (schema.revision_id row) = None
                    ∨ get_parent_map b (schema.revision_id row)
                      = Some NULL_PARENTS)
                 ∧ schema.select_revision d0 (schema.revision_id row) = None)
               rows)
  ∧ schema.t_parent d = schema.t_parent d0.

(** ** The gdfo that is recorded *)

(** The gdfo the [revision] table has for a revision id. *)
Definition recorded_gdfo (d : schema.db) (rev_id : string) : option Z :=
  schema.gdfo <$> schema.select_revision d rev_id.

(** The gdfo of a row of [revision] is the one its parents in the
    repository give: 1 for a ghost and for a revision without parents;
    otherwise every parent is recorded and the gdfo is one more than the
    largest gdfo recorded for a parent. *)
Definition new_revision_gdfo (b : Branch) (d : schema.db)
    (row : schema.revision_row) : Prop :=
  match get_parent_map b (schema.revision_id row) with
  | None => schema.gdfo row = 1
  | Some parent_ids =>
      if decide (parent_ids = NULL_PARENTS) then schema.gdfo row = 1
      else ∃ parent_gdfos,
             Forall2 (λ p gp, recorded_gdfo d p = Some gp)
                     parent_ids parent_gdfos
             ∧ is_max (schema.gdfo row - 1) parent_gdfos
  end.

(** The rows of [revision] from [d0] to [d]: those of [d0], then rows for
    revisions that were not in [d0], each with a gdfo of at least 1 that
    is the one its parents give. *)
Definition revisions_numbered (b : Branch) (d0 d : schema.db) : Prop :=
  ∃ rows, schema.t_revision d = schema.t_revision d0 ++ rows
          ∧ Forall (λ row,
              1 ≤ schema.gdfo row
              ∧ schema.select_revision d0 (schema.revision_id row) = None
              ∧ new_revision_gdfo b d row) rows.

(** The loop of [_compute_gdfo_and_insert] at work on the database [d] with
    the gdfos [known]: each known gdfo is at least 1 and is the one
    [revision] has, and [revision] is as [revisions_numbered] says. *)
Definition gdfo_computed (b : Branch) (d0 d : schema.db)
    (known : gmap string Z) : Prop :=
  (∀ r g, known !! r = Some g → recorded_gdfo d r = Some g ∧ 1 ≤ g)
  ∧ revisions_numbered b d0 d.

(** ** Search tips *)

(** What [_split_search_tips_by_gdfo] decides about a search tip: it is
    already imported and no longer a search tip; or it is interesting, its
    gdfo being at least that of the imported mainline revision; or it is
    still unknown, with a gdfo below it. *)
Definition split_by_gdfo (s s' : IncrementalMergeSort.t)
    (still_unknown : list Z) (db_id : Z) : Prop :=
  (IncrementalMergeSort.already_imported s db_id = true
   ∧ db_id ∉ IncrementalMergeSort._search_tips s')
  ∨ (IncrementalMergeSort.already_imported s db_id = false
     ∧ ∃ gdfo, IncrementalMergeSort._known_gdfo s !! db_id = Some gdfo
               ∧ if ge_opt gdfo (IncrementalMergeSort._imported_gdfo s)
                 then db_id ∈ IncrementalMergeSort._interesting_ancestor_ids s'
                 else db_id ∈ still_unknown).

(** What the loop of [_split_search_tips_by_gdfo] changes: search tips are
    only removed, interesting ancestors only added, and what is loaded
    from the database stays. *)
Definition tips_split (s s' : IncrementalMergeSort.t) : Prop :=
  IncrementalMergeSort._search_tips s' ⊆ IncrementalMergeSort._search_tips s
  ∧ IncrementalMergeSort._interesting_ancestor_ids s
    ⊆ IncrementalMergeSort._interesting_ancestor_ids s'
  ∧ IncrementalMergeSort._imported_dotted_revno s'
    = IncrementalMergeSort._imported_dotted_revno s
  ∧ IncrementalMergeSort._imported_mainline_id s'
    = IncrementalMergeSort._imported_mainline_id s
  ∧ IncrementalMergeSort._known_gdfo s' = IncrementalMergeSort._known_gdfo s
  ∧ IncrementalMergeSort._imported_gdfo s'
    = IncrementalMergeSort._imported_gdfo s.

(** What [_find_known_ancestors] and [_compute_gdfo_and_insert] keep of the
    store, from [d0] to [d]: the keys of [revision]; the [parent] table;
    every row of [revision] that is new is for a revision with an entry in
    [parent_map]; every ghost that is new is a revision recorded with
    gdfo 1. *)
Definition store_extended (parent_map : gmap string (list string))
    (d0 d : schema.db) : Prop :=
  keyed d
  ∧ schema.t_parent d = schema.t_parent d0
  ∧ (∀ row, row ∈ schema.t_revision d →
            row ∈ schema.t_revision d0
            ∨ is_Some (parent_map !! schema.revision_id row))
  ∧ (∀ id, id ∈ schema.t_ghost d →
           id ∈ schema.t_ghost d0
           ∨ ∃ row, row ∈ schema.t_revision d
                    ∧ schema.db_id row = id ∧ schema.gdfo row = 1).

(** The db ids [r_to_d] gives are those of the [revision] table. *)
Definition interned (r_to_d : gmap string Z) (d : schema.db) : Prop :=
  ∀ rev_id db_id, r_to_d !! rev_id = Some db_id →
    ∃ row, schema.select_revision d rev_id = Some row
           ∧ schema.db_id row = db_id.

(** [(child, parent, idx)] is an edge of [parent_map] under the db ids of
    [r_to_d]: the [idx]-th parent of a revision that has an entry. *)
Definition edge_of (r_to_d : gmap string Z)
    (parent_map : gmap string (list string)) (e : Z * Z * Z) : Prop :=
  ∃ rev_id parent_ids (idx : nat) parent_id,
    parent_map !! rev_id = Some parent_ids
    ∧ parent_ids !! idx = Some parent_id
    ∧ r_to_d !! rev_id = Some e.1.1
    ∧ r_to_d !! parent_id = Some e.1.2
    ∧ e.2 = Z.of_nat idx.


(** What the steps of an import after [_update_ancestry] keep: the mode of
    the importer, and the tables [revision], [parent] and [ghost]. *)
Definition ancestry_kept (s s' : Importer.t) : Prop :=
  Importer._incremental s' = Importer._incremental s
  ∧ Importer._graph s' = Importer._graph s
  ∧ schema.t_revision (Importer._cursor s')
    = schema.t_revision (Importer._cursor s)
  ∧ schema.t_parent (Importer._cursor s') = schema.t_parent (Importer._cursor s)
  ∧ schema.t_ghost (Importer._cursor s') = schema.t_ghost (Importer._cursor s).

(** ** Mainline ranges *)

(** The members of a range, as [mainline_parent] has them. *)
Definition range_members (d : schema.db) (range_key : Z) : list Z :=
  schema.revision
    <$> filter (λ m, schema.range m = range_key) (schema.t_mainline_parent d).

(** A range holds the revisions of the mainline from its head down to its
    tail, the tail left out: its members are, in some order, the chain of
    left-hand parents that starts at its head and stops before its tail,
    and its count is their number. *)
Definition range_sound (d : schema.db) (r : schema.mainline_parent_range_row)
  : Prop :=
  ∃ chain, lh_chain d (Some (schema.head r)) chain (schema.tail r)
           ∧ range_members d (schema.pkey r) ≡ₚ chain
           ∧ schema.count r = Z.of_nat (length chain).

(** The ranges of the store: [pkey] counts the rows of
    [mainline_parent_range] from 1, every row of [mainline_parent] belongs
    to one of them, and each of them is sound. *)
Definition ranges_sound (d : schema.db) : Prop :=
  (∀ i r, schema.t_mainline_parent_range d !! i = Some r →
          schema.pkey r = Z.of_nat i + 1)
  ∧ (∀ m, m ∈ schema.t_mainline_parent d →
          1 ≤ schema.range m
            ≤ Z.of_nat (length (schema.t_mainline_parent_range d)))
  ∧ (∀ r, r ∈ schema.t_mainline_parent_range d → range_sound d r).

(** The history [r1 <- r2 <- r3] with [r2] imported, which has given the
    range of [r2] and [r1], and the ancestry of [r3] recorded: the importer
    of [r3] as it is before [_build_one_mainline]. *)
Definition short_range_start : Importer.t :=
  let file := result_or (Scenario.import_tip 50 (Scenario.linear 3)
                           (Scenario.name 2) schema.empty) schema.empty in
  let s := Importer.init file
             (Scenario.branch_at (Scenario.linear 3) (Scenario.name 3))
             None true in
  result_or (Importer._update_ancestry 50 (Scenario.name 3) s) s.

(** The insertion of a group is refused while [insert_merge_sorted] runs on
    [merge_sorted]: the loop has gone through [pre] and holds the group
    [new_nodes] of the mainline revision [last], the importer being [s3];
    what follows is a node of depth 0 (the refused insert is the one of the
    loop) or the end of the list (it is the one after the loop); and
    [_insert_nodes] reports [False], leaving the importer [s4]. *)
Definition refused_insert (merge_sorted : list merge_sorted_node)
    (s s3 s4 : Importer.t) : Prop :=
  ∃ pre rest new_nodes last,
    merge_sorted = pre ++ rest
    ∧ match rest with
      | [] => True
      | node :: _ => ms_merge_depth node = 0
      end
    ∧ Importer.import_loop pre None [] s = Ok (new_nodes, Some last, s3)
    ∧ new_nodes ≠ []
    ∧ Importer._insert_nodes last new_nodes s3 = Ok (false, s4).

(** A database with 450 right-hand parent edges, from the children 450
    down to 1 in table order, and the children in increasing order: more
    parameters than one slice of [_get_result_for_many] holds. *)
Definition sliced_db : schema.db :=
  schema.with_parent
    ((λ i, schema.mk_parent (450 - Z.of_nat i) (Z.of_nat i) 1) <$> seq 0 450)
    (schema.with_revision
       ((λ i, schema.mk_revision (Z.of_nat i) (Scenario.name i) 1)
          <$> seq 0 450) schema.empty).

Definition sliced_params : list Z := Z.of_nat <$> seq 1 450.


(** ** The nodes pushed in a walk *)







(** * Properties *)

(** ** [Querier.get_children] and [Querier.walk_mainline] *)

(** C10: for every [revision_id], [Querier.get_children] fails with the
    unbound name [revid] before its query is executed: the query is given
    [(revid,)], not the parameter [revision_id], so no list of children is
    ever returned. *)
Theorem get_children_unbound_name (revision_id : string) (q : Querier.t) :
  Querier.get_children revision_id q = Raise (NameError "revid").
Proof.
  unfold Querier.get_children. destruct (Querier._get_cursor q) as [d q1].
  reflexivity.
Qed.

(** [walk_mainline] on a tip the [revision] table has: the first range
    lookup reads the unbound name [tip_db_id]. *)
Lemma walk_mainline_loop_unbound_name (fuel : nat) (db_id : Z)
    (all_ids : list Z) (q : Querier.t) :
  Querier.walk_mainline_loop (S fuel) (Some db_id) all_ids q
  = Raise (NameError "tip_db_id").
Proof.
  simpl. unfold Querier._get_mainline_range_starting_at.
  destruct (Querier._get_cursor q) as [d q1]. reflexivity.
Qed.

(** C7: after [A <- B] is imported, [walk_mainline] of the branch at [B]
    returns no sequence of revisions: it stops at the unbound name
    [tip_db_id] of [_get_mainline_range_starting_at]; walking the left-hand
    parents from [B] gives [B] and [A] (db ids 2 and 1). *)
Theorem walk_mainline_fails_on_imported_tip :
  match Scenario.import_tip 20 Scenario.S1 "B" schema.empty with
  | Ok file =>
      _get_lh_parent_db_id file 2 = Some 1
      ∧ _get_lh_parent_db_id file 1 = None
      ∧ Querier.walk_mainline 20
          (Querier.init file (Scenario.branch_at Scenario.S1 "B"))
        = Raise (NameError "tip_db_id")
  | _ => False
  end.
Proof. vm_compute. auto. Qed.

(** ** The mainline ranges *)

Lemma insert_range_rows range_db_ids tail_db_id d d' :
  Importer._insert_range range_db_ids tail_db_id d = Ok d' →
  ∃ r, schema.t_mainline_parent_range d'
       = schema.t_mainline_parent_range d ++ [r]
       ∧ schema.count r = Z.of_nat (length range_db_ids)
       ∧ schema.tail r = tail_db_id
       ∧ range_db_ids !! 0%nat = Some (schema.head r).
Proof.
  unfold Importer._insert_range, index.
  destruct (range_db_ids !! 0%nat) as [h|] eqn:Hh; simpl; [|discriminate].
  intros [= <-]. eexists. simpl. repeat split; reflexivity.
Qed.

Lemma bind_Ok {A B} (m : res A) (f : A → res B) (b : B) :
  m ≫= f = Ok b → ∃ a, m = Ok a ∧ f a = Ok b.
Proof. destruct m; simpl; [eauto|discriminate..]. Qed.

Lemma for_each_inv {A S} (P : S → Prop) (body : S → A → res S) l : ∀ s s',
  (∀ s x s', P s → body s x = Ok s' → P s') →
  P s → for_each body l s = Ok s' → P s'.
Proof.
  induction l as [|x l IH]; intros s s' Hbody Hs; simpl.
  - by intros [= <-].
  - intros H. apply bind_Ok in H as (s1 & H1 & H). eauto.
Qed.

Lemma revisions_added_refl d : revisions_added d d.
Proof. by repeat split. Qed.

Lemma revisions_added_trans d1 d2 d3 :
  revisions_added d1 d2 → revisions_added d2 d3 → revisions_added d1 d3.
Proof.
  intros (? & ? & ? & ? & ? & ?) (? & ? & ? & ? & ? & ?).
  repeat split; [by etrans|congruence..].
Qed.

Lemma insert_revision_added rev_id g d d' :
  schema.insert_revision rev_id g d = Ok d' → revisions_added d d'.
Proof.
  unfold schema.insert_revision. case_bool_decide; [discriminate|].
  intros [= <-]. repeat split. simpl. by apply prefix_app_r.
Qed.

Lemma ensure_revisions_added revision_ids graph_gdfo d m1 m2 d' m1' m2' :
  schema.ensure_revisions revision_ids graph_gdfo (d, m1, m2)
  = Ok (d', m1', m2') →
  revisions_added d d'.
Proof.
  unfold schema.ensure_revisions. intros H.
  apply (for_each_inv (λ st, revisions_added d st.1.1) _ _ _ _) in H;
    [done| |apply revisions_added_refl].
  clear. intros [[d1 a1] b1] rev_id [[d2 a2] b2] Hd. simpl in *.
  destruct (a1 !! rev_id); [by intros [= <- <- <-]|].
  intros H. apply bind_Ok in H as (d3 & H3 & H).
  assert (revisions_added d1 d3) as Hadd.
  { destruct (schema.select_revision d1 rev_id), graph_gdfo;
      try (injection H3 as <-; apply revisions_added_refl);
      [by eapply insert_revision_added|discriminate]. }
  destruct (schema.select_revision d3 rev_id); [|discriminate].
  injection H as <- <- <-. by eapply revisions_added_trans.
Qed.

Lemma importer_ensure_revisions_added revision_ids s s' :
  Importer._ensure_revisions revision_ids s = Ok s' →
  revisions_added (Importer._cursor s) (Importer._cursor s')
  ∧ committed (Importer._db_conn s') = committed (Importer._db_conn s).
Proof.
  unfold Importer._ensure_revisions. intros H.
  apply bind_Ok in H as ([[d a] b] & H & [= <-]).
  apply ensure_revisions_added in H. done.
Qed.

Lemma insert_ranges_step fuel range_db_ids cur_db_id d :
  range_db_ids ≠ [] →
  Importer.insert_ranges (S fuel) range_db_ids cur_db_id d
  = let keep :=
      (length range_db_ids - Importer._MAINLINE_PARENT_RANGE_LEN)%nat in
    d ← Importer._insert_range (drop keep range_db_ids) cur_db_id d;
    head_db_id ← index (drop keep range_db_ids) 0;
    Importer.insert_ranges fuel (take keep range_db_ids) (Some head_db_id) d.
Proof. destruct range_db_ids; [done|reflexivity]. Qed.

Lemma chunked_nil : chunked [].
Proof.
  split; [constructor|]. intros i r Hi. by rewrite lookup_nil in Hi.
Qed.

Lemma insert_ranges_rows fuel : ∀ range_db_ids cur_db_id d d',
  Importer.insert_ranges fuel range_db_ids cur_db_id d = Ok d' →
  ∃ new, schema.t_mainline_parent_range d'
         = schema.t_mainline_parent_range d ++ new
         ∧ chunked new.
Proof.
  induction fuel as [|fuel IH]; intros l cur d d'.
  - destruct l; simpl; [|discriminate].
    intros [= <-]. exists []. rewrite app_nil_r. eauto using chunked_nil.
  - destruct (decide (l = [])) as [->|Hne].
    { simpl. intros [= <-]. exists []. rewrite app_nil_r.
      eauto using chunked_nil. }
    rewrite insert_ranges_step by done. cbv zeta.
    set (keep := (length l - Importer._MAINLINE_PARENT_RANGE_LEN)%nat).
    intros H. apply bind_Ok in H as (d1 & H1 & H).
    apply bind_Ok in H as (h & _ & H2).
    destruct (insert_range_rows _ _ _ _ H1) as (r & Hrows & Hcount & _ & _).
    rewrite length_drop in Hcount.
    assert (Hpos : (0 < length l)%nat) by (destruct l; simpl; [done|lia]).
    unfold Importer._MAINLINE_PARENT_RANGE_LEN in keep.
    destruct (decide (keep = 0%nat)) as [Hk|Hk].
    + rewrite Hk, take_0 in H2.
      assert (d' = d1) as -> by (destruct fuel; simpl in H2; congruence).
      exists [r]. split; [done|]. split.
      * constructor; [lia|constructor].
      * intros [|i] r' Hi Hlt; simpl in Hlt; lia.
    + destruct (IH _ _ _ _ H2) as (new & Hnew & Hall & Hfull).
      exists (r :: new). split.
      { rewrite Hnew, Hrows, <- app_assoc. done. }
      split; [constructor; [lia|done]|].
      intros [|i] r' Hi Hlt; simpl in *.
      * injection Hi as <-. lia.
      * apply (Hfull i r' Hi). lia.
Qed.

Lemma insert_ranges_total fuel : ∀ range_db_ids cur_db_id d,
  (length range_db_ids ≤ fuel)%nat →
  ∃ d', Importer.insert_ranges fuel range_db_ids cur_db_id d = Ok d'.
Proof.
  induction fuel as [|fuel IH]; intros l cur d Hlen.
  - destruct l; simpl in *; [eauto|lia].
  - destruct (decide (l = [])) as [->|Hne]; [simpl; eauto|].
    rewrite insert_ranges_step by done. cbv zeta.
    set (keep := (length l - Importer._MAINLINE_PARENT_RANGE_LEN)%nat).
    assert (Hpos : (0 < length l)%nat) by (destruct l; simpl; [done|lia]).
    assert (Hk : (keep < length l)%nat)
      by (unfold keep, Importer._MAINLINE_PARENT_RANGE_LEN; lia).
    destruct (drop keep l) as [|h tl] eqn:Hd.
    { apply (f_equal length) in Hd. rewrite length_drop in Hd.
      simpl in Hd. lia. }
    unfold Importer._insert_range, index. simpl.
    apply IH. rewrite length_take. lia.
Qed.

(** C6: every row [_build_one_mainline] inserts into
    [mainline_parent_range] has a count of at most 100 (and at least 1), and
    only the newest of the rows of one call can hold fewer than 100; the
    import of a linear history of 250 revisions inserts exactly three
    ranges, the oldest first: 100 revisions up to the end of the mainline,
    100 down to revision 100, and 50 down to revision 200. *)
Theorem mainline_ranges_chunked :
  (∀ fuel head_rev_id s s',
     Importer._build_one_mainline fuel head_rev_id s = Ok s' →
     ∃ new,
       schema.t_mainline_parent_range (Importer._cursor s')
       = schema.t_mainline_parent_range (Importer._cursor s) ++ new
       ∧ chunked new)
  ∧ (schema.t_mainline_parent_range
       <$> Scenario.import_tip 1000 (Scenario.linear 250) (Scenario.name 250)
             schema.empty)
    = Ok [schema.mk_range 1 100 None 100;
          schema.mk_range 2 200 (Some 100) 100;
          schema.mk_range 3 250 (Some 200) 50].
Proof.
  split; [|vm_compute; reflexivity].
  intros fuel head_rev_id s s'. unfold Importer._build_one_mainline.
  intros H. apply bind_Ok in H as (s1 & H1 & H).
  apply bind_Ok in H as (cur & _ & H).
  apply bind_Ok in H as ([range_db_ids cur'] & _ & H).
  apply bind_Ok in H as (d' & H2 & [= <-]).
  apply importer_ensure_revisions_added in H1 as [(_ & _ & _ & _ & <- & _) _].
  by apply insert_ranges_rows in H2.
Qed.

Lemma mainline_ranges_chunked_witness :
  let s := Importer.init
             (schema.mk_db [schema.mk_revision 1 "A" 1;
                            schema.mk_revision 2 "B" 2]
                           [] [schema.mk_parent 2 1 0] [] [] [])
             (Scenario.branch_at Scenario.S1 "B") None true in
  let s' := result_or (Importer._build_one_mainline 10 "B" s) s in
  Importer._build_one_mainline 10 "B" s = Ok s'
  ∧ ∃ new,
      schema.t_mainline_parent_range (Importer._cursor s')
      = schema.t_mainline_parent_range (Importer._cursor s) ++ new
      ∧ chunked new.
Proof.
  split; [vm_compute; reflexivity|].
  apply (proj1 mainline_ranges_chunked 10%nat "B"). vm_compute; reflexivity.
Defined.

(** ** The store only grows *)

Lemma grows_refl d : grows d d.
Proof. by repeat split. Qed.

Lemma grows_trans d1 d2 d3 : grows d1 d2 → grows d2 d3 → grows d1 d3.
Proof.
  intros (? & ? & ? & ? & ? & ?) (? & ? & ? & ? & ? & ?).
  repeat split; by etrans.
Qed.

Lemma revisions_added_grows d d' : revisions_added d d' → grows d d'.
Proof.
  intros (? & Hg & Hp & Hd & Hr & Hm). unfold grows.
  rewrite Hg, Hp, Hd, Hr, Hm. by repeat split.
Qed.

Lemma insert_revision_grows rev_id g d d' :
  schema.insert_revision rev_id g d = Ok d' → grows d d'.
Proof. eauto using revisions_added_grows, insert_revision_added. Qed.

Lemma insert_ghost_grows rev_id d d' :
  schema.insert_ghost rev_id d = Ok d' → grows d d'.
Proof.
  unfold schema.insert_ghost. case_bool_decide; [discriminate|].
  intros [= <-]. repeat split; try done. simpl. by apply prefix_app_r.
Qed.

Lemma insert_or_ignore_parent_grows row d :
  grows d (schema.insert_or_ignore_parent row d).
Proof.
  unfold schema.insert_or_ignore_parent. case_bool_decide.
  - apply grows_refl.
  - repeat split; try done. simpl. by apply prefix_app_r.
Qed.

Lemma create_dotted_revnos_grows revno_entries : ∀ d,
  grows d (schema.create_dotted_revnos d revno_entries).1.
Proof.
  induction revno_entries as [|e rest IH]; intros d; simpl.
  - apply grows_refl.
  - case_bool_decide; simpl; [apply grows_refl|].
    eapply grows_trans; [|apply IH].
    repeat split; try done. simpl. by apply prefix_app_r.
Qed.

Lemma insert_range_grows range_db_ids tail_db_id d d' :
  Importer._insert_range range_db_ids tail_db_id d = Ok d' → grows d d'.
Proof.
  unfold Importer._insert_range. intros H.
  apply bind_Ok in H as (h & _ & [= <-]).
  repeat split; try done; simpl; by apply prefix_app_r.
Qed.

Lemma insert_ranges_grows fuel : ∀ range_db_ids cur_db_id d d',
  Importer.insert_ranges fuel range_db_ids cur_db_id d = Ok d' → grows d d'.
Proof.
  induction fuel as [|fuel IH]; intros l cur d d'.
  - destruct l; simpl; [|discriminate]. intros [= <-]. apply grows_refl.
  - destruct (decide (l = [])) as [->|Hne].
    { simpl. intros [= <-]. apply grows_refl. }
    rewrite insert_ranges_step by done. cbv zeta. intros H.
    apply bind_Ok in H as (d1 & H1 & H).
    apply bind_Ok in H as (h & _ & H2).
    eauto using grows_trans, insert_range_grows.
Qed.

Lemma importer_grows_refl s : importer_grows s s.
Proof. split; [apply grows_refl|done]. Qed.

Lemma importer_grows_trans s1 s2 s3 :
  importer_grows s1 s2 → importer_grows s2 s3 → importer_grows s1 s3.
Proof.
  intros [? ?] [? ?]. split; [by eapply grows_trans|congruence].
Qed.

Lemma importer_grows_set_cursor s d :
  grows (Importer._cursor s) d → importer_grows s (Importer.set_cursor d s).
Proof. intros H. by split. Qed.

Lemma importer_ensure_revisions_grows revision_ids s s' :
  Importer._ensure_revisions revision_ids s = Ok s' → importer_grows s s'.
Proof.
  intros H. apply importer_ensure_revisions_added in H as [H ?].
  split; [by apply revisions_added_grows|done].
Qed.

Lemma find_known_ancestors_loop_grows fuel b : ∀ d a d' a',
  Importer.find_known_ancestors_loop fuel b d a = Ok (d', a') → grows d d'.
Proof.
  induction fuel as [|fuel IH]; intros d a d' a'; simpl.
  - destruct (Importer.needed a); [|discriminate].
    intros [= <- <-]. apply grows_refl.
  - destruct (Importer.needed a) as [|rev_id needed].
    { intros [= <- <-]. apply grows_refl. }
    simpl. case_bool_decide; [by apply IH|].
    destruct (schema.select_revision d rev_id); [by apply IH|].
    destruct (get_parent_map b rev_id) as [ps|].
    + case_bool_decide.
      * intros Hrun. apply bind_Ok in Hrun as (d1 & H1 & Hrun).
        eauto using grows_trans, insert_revision_grows.
      * destruct (foldl _ _ ps) as [[? ?] ?]. by apply IH.
    + intros Hrun. apply bind_Ok in Hrun as (d1 & H1 & Hrun).
      apply bind_Ok in Hrun as (d2 & H2 & Hrun).
      apply IH in Hrun. apply insert_revision_grows in H1.
      apply insert_ghost_grows in H2. eauto using grows_trans.
Qed.

Lemma compute_gdfo_loop_grows fuel children parent_map : ∀ d known pending r,
  Importer.compute_gdfo_loop fuel children parent_map (d, known, pending)
  = Ok r →
  grows d r.1.
Proof.
  induction fuel as [|fuel IH]; intros d known pending r; simpl.
  - destruct pending as [|[? ?] ?]; [|discriminate].
    intros [= <-]. apply grows_refl.
  - destruct pending as [|[gdfo rev_id] pending].
    { intros [= <-]. apply grows_refl. }
    intros Hrun. apply bind_Ok in Hrun as ([[d1 known1] pending1] & H1 & Hrun).
    apply IH in Hrun. eapply grows_trans; [|done].
    apply (for_each_inv (λ st, grows d st.1.1) _ _ _ _) in H1;
      [done| |apply grows_refl].
    clear. intros [[d1 k1] p1] child_id [[d2 k2] p2] Hd. simpl in *.
    destruct (k1 !! child_id).
    { case_match; [|discriminate]. by intros [= <- <- <-]. }
    intros Hrun. apply bind_Ok in Hrun as (ps & _ & Hrun).
    destruct (Importer.max_parent_gdfo k1 ps (-1)); [|by injection Hrun as <- <- <-].
    apply bind_Ok in Hrun as (d3 & H3 & [= <- <- <-]).
    eauto using grows_trans, insert_revision_grows.
Qed.

Lemma insert_parent_map_grows parent_map s s' :
  Importer._insert_parent_map parent_map s = Ok s' → importer_grows s s'.
Proof.
  unfold Importer._insert_parent_map. intros Hrun.
  apply bind_Ok in Hrun as (s1 & H1 & Hrun).
  apply bind_Ok in Hrun as ([data s2] & H2 & [= <-]).
  apply importer_ensure_revisions_grows in H1.
  eapply importer_grows_trans; [done|].
  apply (for_each_inv (λ st, importer_grows s1 st.2) _ _ _ _) in H2;
    [| |apply importer_grows_refl].
  - eapply importer_grows_trans; [done|]. simpl.
    apply importer_grows_set_cursor.
    generalize (sort_with Importer.triple_lt data) (Importer._cursor s2).
    induction l as [|[[c p] i] l IH]; intros d; simpl; [apply grows_refl|].
    eapply grows_trans; [apply insert_or_ignore_parent_grows|apply IH].
  - clear. intros [data s2] [rev_id parent_ids] [data' s3] Hs. simpl in *.
    intros Hrun. apply bind_Ok in Hrun as (db_id & _ & Hrun).
    destruct (Importer._db_parent_map s2 !! db_id); [by injection Hrun as <- <-|].
    apply bind_Ok in Hrun as (ps & _ & [= <- <-]). done.
Qed.

Lemma update_ancestry_grows fuel new_tip_rev_id s s' :
  Importer._update_ancestry fuel new_tip_rev_id s = Ok s' →
  importer_grows s s'.
Proof.
  unfold Importer._update_ancestry, Importer._find_known_ancestors,
    Importer._compute_gdfo_and_insert.
  intros Hrun. apply bind_Ok in Hrun as ([a s1] & H1 & Hrun).
  apply bind_Ok in H1 as ([d1 a1] & H1 & [= <- <-]).
  apply bind_Ok in Hrun as ([k s2] & H2 & Hrun).
  apply bind_Ok in H2 as ([d2 k2] & H2 & H2').
  apply find_known_ancestors_loop_grows in H1.
  apply compute_gdfo_loop_grows in H2. simpl in H2.
  apply insert_parent_map_grows in Hrun.
  eapply importer_grows_trans; [|done].
  assert (s2 = Importer.set_cursor d2 (Importer.set_cursor d1 s)) as ->.
  { destruct (Importer._graph _); [case_bool_decide|]; congruence. }
  split; [|done]. simpl. by eapply grows_trans.
Qed.

Lemma insert_nodes_grows tip_rev_id nodes s inserted s' :
  Importer._insert_nodes tip_rev_id nodes s = Ok (inserted, s') →
  importer_grows s s'.
Proof.
  unfold Importer._insert_nodes. intros Hrun.
  apply bind_Ok in Hrun as (tip_db_id & _ & Hrun).
  apply bind_Ok in Hrun as (revno_entries & _ & Hrun).
  pose proof (create_dotted_revnos_grows revno_entries (Importer._cursor s))
    as Hg.
  destruct (schema.create_dotted_revnos _ _) as [d b].
  injection Hrun as <- <-. by apply importer_grows_set_cursor.
Qed.

Lemma for_each_not_raise {A S} (e : exn) (body : S → A → res S) l :
  (∀ s x, body s x ≠ Raise e) → ∀ s, for_each body l s ≠ Raise e.
Proof.
  intros Hbody. induction l as [|x l IH]; intros s; simpl; [done|].
  specialize (Hbody s x). destruct (body s x); simpl; [apply IH|done..].
Qed.

(** [_insert_nodes] turns the [IntegrityError] of the insertion into its
    result [False]: it never raises it. *)
Lemma bind_not_raise {A B} (e : exn) (m : res A) (f : A → res B) :
  m ≠ Raise e → (∀ a, f a ≠ Raise e) → m ≫= f ≠ Raise e.
Proof.
  intros Hm Hf. destruct m; simpl; [apply Hf| |discriminate].
  intros [= ->]. by apply Hm.
Qed.

Lemma getitem_not_integrity_error `{Countable K} {V} (d : gmap K V) k :
  getitem d k ≠ Raise IntegrityError.
Proof. unfold getitem. by destruct (d !! k). Qed.

Lemma insert_nodes_no_integrity_error tip_rev_id nodes s :
  Importer._insert_nodes tip_rev_id nodes s ≠ Raise IntegrityError.
Proof.
  unfold Importer._insert_nodes.
  apply bind_not_raise; [apply getitem_not_integrity_error|].
  intros tip_db_id. apply bind_not_raise.
  - unfold Importer.build_revno_info.
    apply for_each_not_raise. intros acc [dist node].
    apply bind_not_raise; [apply getitem_not_integrity_error|done].
  - intros revno_entries. by destruct (schema.create_dotted_revnos _ _).
Qed.

Lemma import_loop_grows merge_sorted : ∀ last new_nodes s new_nodes' last' s',
  Importer.import_loop merge_sorted last new_nodes s
  = Ok (new_nodes', last', s') →
  importer_grows s s'.
Proof.
  induction merge_sorted as [|node rest IH]; intros last new s new' last' s';
    simpl.
  - intros [= <- <- <-]. apply importer_grows_refl.
  - destruct last as [last|].
    + destruct (ms_merge_depth node =? 0); [|by apply IH].
      intros Hrun. apply bind_Ok in Hrun as ([inserted s1] & H1 & Hrun).
      apply insert_nodes_grows in H1. destruct inserted.
      * apply IH in Hrun. by eapply importer_grows_trans.
      * by injection Hrun as <- <- <-.
    + case_bool_decide; [discriminate|].
      destruct (negb _); [discriminate|]. by apply IH.
Qed.

Lemma rekey_grows node s node' s' :
  Importer.rekey node s = Ok (node', s') → importer_grows s s'.
Proof.
  unfold Importer.rekey. intros Hrun.
  apply bind_Ok in Hrun as ([rev_id s1] & H1 & Hrun).
  assert (importer_grows s s1) as Hg.
  { destruct (Importer._db_id_to_rev_id s !! MergeSortNode.key node).
    - injection H1 as <- <-. apply importer_grows_refl.
    - destruct (filter _ _); [discriminate|].
      injection H1 as <- <-. split; [apply grows_refl|done]. }
  destruct (MergeSortNode.revno node), (MergeSortNode.end_of_merge node);
    try discriminate.
  by injection Hrun as <- <-.
Qed.

Lemma get_merge_sorted_tip_grows fuel tip_revision_id s merge_sorted s' :
  Importer._get_merge_sorted_tip fuel tip_revision_id s
  = Ok (merge_sorted, s') →
  importer_grows s s'.
Proof.
  unfold Importer._get_merge_sorted_tip.
  destruct (Importer._incremental s).
  - intros Hrun. apply bind_Ok in Hrun as (s1 & H1 & Hrun).
    apply bind_Ok in Hrun as (s2 & H2 & Hrun).
    apply bind_Ok in Hrun as (tip_db_id & _ & Hrun).
    apply bind_Ok in Hrun as ([ms inc_merger] & _ & Hrun).
    apply update_ancestry_grows in H1.
    apply importer_ensure_revisions_grows in H2.
    eapply importer_grows_trans; [done|].
    eapply importer_grows_trans; [done|].
    apply (for_each_inv (λ st, importer_grows s2 st.2) _ _ _ _) in Hrun;
      [done| |by split].
    clear. intros [acc s3] node [acc' s4] Hs. simpl in *. intros Hrun.
    apply bind_Ok in Hrun as ([node' s5] & H5 & [= <- <-]).
    apply rekey_grows in H5. by eapply importer_grows_trans.
  - destruct (Importer._graph s); [|discriminate].
    intros [= <- <-]. apply importer_grows_refl.
Qed.

Lemma build_one_mainline_grows fuel head_rev_id s s' :
  Importer._build_one_mainline fuel head_rev_id s = Ok s' →
  importer_grows s s'.
Proof.
  unfold Importer._build_one_mainline. intros Hrun.
  apply bind_Ok in Hrun as (s1 & H1 & Hrun).
  apply bind_Ok in Hrun as (cur & _ & Hrun).
  apply bind_Ok in Hrun as ([range_db_ids cur'] & _ & Hrun).
  apply bind_Ok in Hrun as (d' & H2 & [= <-]).
  apply importer_ensure_revisions_grows in H1.
  apply insert_ranges_grows in H2.
  eapply importer_grows_trans; [done|].
  by apply importer_grows_set_cursor.
Qed.

Lemma insert_merge_sorted_grows merge_sorted s s' :
  Importer.insert_merge_sorted merge_sorted s = Ok s' → importer_grows s s'.
Proof.
  unfold Importer.insert_merge_sorted. intros Hrun.
  apply bind_Ok in Hrun as ([[new_nodes last] s3] & H3 & H4).
  apply import_loop_grows in H3. simpl in H4.
  eapply importer_grows_trans; [done|].
  destruct new_nodes.
  - injection H4 as <-. apply importer_grows_refl.
  - destruct last; [|discriminate].
    apply bind_Ok in H4 as ([b s6] & H6 & [= <-]).
    by apply insert_nodes_grows in H6.
Qed.

Lemma import_tip_grows fuel tip_revision_id s merge_sorted s' :
  Importer._import_tip fuel tip_revision_id s = Ok (merge_sorted, s') →
  importer_grows s s'.
Proof.
  unfold Importer._import_tip. intros Hrun.
  apply bind_Ok in Hrun as ([ms s1] & H1 & Hrun).
  apply bind_Ok in Hrun as (s2 & H2 & Hrun).
  apply bind_Ok in Hrun as (s4 & H4 & Hrun).
  apply bind_Ok in Hrun as (s5 & H5 & [= <- <-]).
  apply get_merge_sorted_tip_grows in H1.
  apply insert_merge_sorted_grows in H4.
  apply build_one_mainline_grows in H5.
  assert (importer_grows s1 s2) as H2'.
  { destruct (Importer._incremental s1).
    - injection H2 as <-. apply importer_grows_refl.
    - apply bind_Ok in H2 as (s6 & H6 & H2).
      apply importer_ensure_revisions_grows in H6.
      unfold Importer._update_parents in H2.
      destruct (Importer._graph s6); [|discriminate].
      apply insert_parent_map_grows in H2.
      by eapply importer_grows_trans. }
  eauto 10 using importer_grows_trans.
Qed.

(** ** A refused insert *)

Lemma do_import_grows fuel s s' :
  Importer.do_import fuel s = Ok s' →
  Importer.is_null (Importer._branch_tip_rev_id s) = false →
  committed (Importer._db_conn s') = cursor (Importer._db_conn s')
  ∧ grows (Importer._cursor s) (committed (Importer._db_conn s')).
Proof.
  unfold Importer.do_import. intros Hrun Hnull. rewrite Hnull in Hrun.
  apply bind_Ok in Hrun as ([ms s1] & H1 & [= <-]).
  apply import_tip_grows in H1 as [H1 _]. done.
Qed.

(** C8, the counterexample: [A] is imported, then [B] (whose parent is [A])
    by an importer that is not incremental and so gets the merge sort of
    the whole ancestry, [B] and [A].  Inserting the group of [A] violates
    the uniqueness of [(tip, merged)] and is refused; [do_import] returns
    without an error, yet the store is not what it was: the row of [B] that
    this import inserted before is committed. *)
Lemma refused_insert_not_rolled_back :
  match reimport_before_last_insert, Importer.do_import 20 reimport_start with
  | Ok s, Ok s' =>
      fst <$> Importer._insert_nodes "A" [mk_merge_sorted "A" 0 [1] true] s
      = Ok false
      ∧ schema.t_dotted_revno (committed (Importer._db_conn s'))
        = schema.t_dotted_revno (committed (Importer._db_conn reimport_start))
          ++ [schema.mk_dotted 2 2 "2" false 0 0]
      ∧ committed (Importer._db_conn s')
        ≠ committed (Importer._db_conn reimport_start)
  | _, _ => False
  end.
Proof. vm_compute. repeat split; [done..|discriminate]. Qed.

(** ** The events of the [Querier] *)

Lemma later_refl q : later q q.
Proof. exists []. split; [by rewrite app_nil_r|constructor]. Qed.

Lemma later_trans q1 q2 q3 : later q1 q2 → later q2 q3 → later q1 q3.
Proof.
  intros (e1 & H1 & F1) (e2 & H2 & F2). exists (e1 ++ e2). split.
  - by rewrite H2, H1, app_assoc.
  - by apply Forall_app.
Qed.

Lemma get_cursor_log q : Querier.log (Querier._get_cursor q).2 = Querier.log q.
Proof. unfold Querier._get_cursor. by destruct (Querier._db_conn q). Qed.

Lemma get_cursor_later q : later q (Querier._get_cursor q).2.
Proof.
  exists []. rewrite get_cursor_log, app_nil_r. split; [done|constructor].
Qed.

Lemma execute_log tables q :
  Querier.log (Querier.execute tables q).2
  = Querier.log q ++ [Querier.Select tables].
Proof.
  unfold Querier.execute. pose proof (get_cursor_log q) as H.
  destruct (Querier._get_cursor q) as [d q1]. simpl in *. by rewrite H.
Qed.

Lemma execute_later tables q : later q (Querier.execute tables q).2.
Proof.
  exists [Querier.Select tables]. split; [apply execute_log|].
  constructor; [by eexists|constructor].
Qed.

Lemma get_db_id_later revision_id q :
  later q (Querier._get_db_id revision_id q).2.
Proof.
  unfold Querier._get_db_id. pose proof (execute_later "revision" q) as H.
  by destruct (Querier.execute "revision" q).
Qed.

Lemma get_lh_parent_db_id_later revision_db_id q :
  later q (Querier._get_lh_parent_db_id revision_db_id q).2.
Proof.
  unfold Querier._get_lh_parent_db_id.
  pose proof (execute_later "parent" q) as H.
  by destruct (Querier.execute "parent" q).
Qed.

Lemma get_range_key_and_tail_later tip_db_id q :
  later q (Querier._get_range_key_and_tail tip_db_id q).2.
Proof.
  unfold Querier._get_range_key_and_tail.
  pose proof (execute_later "mainline_parent_range" q) as H.
  destruct (Querier.execute "mainline_parent_range" q) as [d q1].
  destruct (Importer._get_mainline_range_count d tip_db_id); [done|].
  pose proof (get_lh_parent_db_id_later tip_db_id q1) as H1.
  destruct (Querier._get_lh_parent_db_id tip_db_id q1). simpl in *.
  by eapply later_trans.
Qed.

(** One step of a walk along the mainline: the range lookup, then the
    query for the rows of the step. *)
Lemma step_later tip_db_id tables q :
  later q (Querier.execute tables
             (Querier._get_range_key_and_tail tip_db_id q).2).2.
Proof.
  eapply later_trans; [apply get_range_key_and_tail_later|].
  apply execute_later.
Qed.

Lemma resolve_ids_later revision_ids q :
  later q (Querier.resolve_ids revision_ids q).2.
Proof.
  unfold Querier.resolve_ids.
  generalize (∅ : gset (option Z)) (∅ : gmap (option Z) string).
  revert q. induction revision_ids as [|rev_id l IH]; intros q s m; simpl.
  - apply later_refl.
  - pose proof (get_db_id_later rev_id q) as H.
    destruct (Querier._get_db_id rev_id q) as [db_id q1]. simpl in *.
    eapply later_trans; [done|apply IH].
Qed.

Lemma get_dotted_revnos_loop_later fuel :
  ∀ tip_db_id db_ids db_id_to_rev_id revnos q r q',
  Querier.get_dotted_revnos_loop fuel tip_db_id db_ids db_id_to_rev_id
                                 revnos q = Ok (r, q') →
  later q q'.
Proof.
  induction fuel as [|fuel IH]; intros [tip|] db_ids m revnos q r q'; simpl;
    try (intros [= <- <-]; apply later_refl);
    (case_bool_decide; [intros [= <- <-]; apply later_refl|]);
    [discriminate|].
  pose proof (get_range_key_and_tail_later tip q) as H1.
  destruct (Querier._get_range_key_and_tail tip q) as [[rk next] q1].
  pose proof (execute_later (Querier.step_tables rk) q1) as H2.
  destruct (Querier.execute (Querier.step_tables rk) q1) as [d q2].
  intros Hrun. apply bind_Ok in Hrun as ([ids' revnos'] & _ & Hrun).
  apply IH in Hrun. eauto using later_trans.
Qed.

Lemma get_revision_ids_loop_later fuel : ∀ tip_db_id revno_strs revno_map q r q',
  Querier.get_revision_ids_loop fuel tip_db_id revno_strs revno_map q
  = Ok (r, q') →
  later q q'.
Proof.
  induction fuel as [|fuel IH]; intros [tip|] strs m q r q'; simpl;
    try (intros [= <- <-]; apply later_refl);
    (case_bool_decide; [intros [= <- <-]; apply later_refl|]);
    [discriminate|].
  pose proof (get_range_key_and_tail_later tip q) as H1.
  destruct (Querier._get_range_key_and_tail tip q) as [[rk next] q1].
  match goal with |- context [Querier.execute ?t q1] =>
    pose proof (execute_later t q1) as H2;
    destruct (Querier.execute t q1) as [d q2] end.
  intros Hrun. apply bind_Ok in Hrun as ([strs' m'] & _ & Hrun).
  apply IH in Hrun. eauto using later_trans.
Qed.

Lemma get_mainline_where_merged_loop_later fuel :
  ∀ tip_db_id db_ids db_id_to_rev_id map q r q',
  Querier.get_mainline_where_merged_loop fuel tip_db_id db_ids
                                         db_id_to_rev_id map q = Ok (r, q') →
  later q q'.
Proof.
  induction fuel as [|fuel IH]; intros [tip|] db_ids m map q r q'; simpl;
    try (intros [= <- <-]; apply later_refl);
    (case_bool_decide; [intros [= <- <-]; apply later_refl|]);
    [discriminate|].
  pose proof (get_range_key_and_tail_later tip q) as H1.
  destruct (Querier._get_range_key_and_tail tip q) as [[rk next] q1].
  match goal with |- context [Querier.execute ?t q1] =>
    pose proof (execute_later t q1) as H2;
    destruct (Querier.execute t q1) as [d q2] end.
  intros Hrun. apply bind_Ok in Hrun as ([ids' map'] & _ & Hrun).
  apply IH in Hrun. eauto using later_trans.
Qed.

Lemma find_tip_containing_later fuel : ∀ tip_db_id merged_db_id q r q',
  Querier._find_tip_containing fuel tip_db_id merged_db_id q = Ok (r, q') →
  later q q'.
Proof.
  induction fuel as [|fuel IH]; intros [tip|] merged q r q'; simpl;
    try (intros [= <- <-]; apply later_refl);
    (case_bool_decide; [intros [= <- <-]; apply later_refl|]);
    [discriminate|].
  pose proof (get_range_key_and_tail_later tip q) as H1.
  destruct (Querier._get_range_key_and_tail tip q) as [[rk next] q1].
  pose proof (execute_later (Querier.step_tables rk) q1) as H2.
  destruct (Querier.execute (Querier.step_tables rk) q1) as [d q2].
  destruct (filter _ _).
  - intros Hrun. apply IH in Hrun. eauto using later_trans.
  - intros [= <- <-]. eauto using later_trans.
Qed.

Lemma get_merge_sorted_range_loop_later fuel :
  ∀ tip_db_id start_db_id stop_db_id found_start yielded q r q',
  Querier.get_merge_sorted_range_loop fuel tip_db_id start_db_id stop_db_id
                                      found_start yielded q = Ok (r, q') →
  later q q'.
Proof.
  induction fuel as [|fuel IH];
    intros [tip|] start stop found yielded q r q'; simpl;
    try (intros [= <- <-]; apply later_refl).
  pose proof (get_range_key_and_tail_later tip q) as H1.
  destruct (Querier._get_range_key_and_tail tip q) as [[rk next] q1].
  match goal with |- context [Querier.execute ?t q1] =>
    pose proof (execute_later t q1) as H2;
    destruct (Querier.execute t q1) as [d q2] end.
  intros Hrun.
  apply bind_Ok in Hrun as ([[found' yielded'] stopped] & _ & Hrun).
  destruct stopped.
  - injection Hrun as <- <-. eauto using later_trans.
  - apply IH in Hrun. eauto using later_trans.
Qed.

Lemma walk_ancestry_loop_later fuel : ∀ db_id all_ancestors q r q',
  Querier.walk_ancestry_loop fuel db_id all_ancestors q = Ok (r, q') →
  later q q'.
Proof.
  induction fuel as [|fuel IH]; intros [id|] all q r q'; simpl;
    try (intros [= <- <-]; apply later_refl).
  pose proof (get_range_key_and_tail_later id q) as H1.
  destruct (Querier._get_range_key_and_tail id q) as [[rk next] q1].
  pose proof (execute_later (Querier.step_tables rk) q1) as H2.
  destruct (Querier.execute (Querier.step_tables rk) q1) as [d q2].
  intros Hrun. apply IH in Hrun. eauto using later_trans.
Qed.

Lemma walk_mainline_loop_later fuel : ∀ db_id all_ids q r q',
  Querier.walk_mainline_loop fuel db_id all_ids q = Ok (r, q') →
  later q q'.
Proof.
  destruct fuel as [|fuel]; intros [id|] all q r q';
    try (simpl; intros [= <- <-]; apply later_refl).
  by rewrite walk_mainline_loop_unbound_name.
Qed.

Lemma get_cursor_emit e q :
  Querier._get_cursor (Querier.emit e q)
  = ((Querier._get_cursor q).1, Querier.emit e (Querier._get_cursor q).2).
Proof.
  unfold Querier._get_cursor. simpl. by destruct (Querier._db_conn q).
Qed.

Lemma get_cursor_lock q :
  Querier._importer_lock (Querier._get_cursor q).2 = Querier._importer_lock q.
Proof. unfold Querier._get_cursor. by destruct (Querier._db_conn q). Qed.

Lemma import_tip_events fuel q q1 :
  Querier._import_tip fuel q = Ok q1 →
  Querier.log q1 = Querier.log q ++ import_events q.
Proof.
  unfold Querier._import_tip, import_events.
  intros Hrun. apply bind_Ok in Hrun as (q2 & H2 & Hrun).
  apply bind_Ok in Hrun as (importer & _ & Hrun).
  unfold Querier._get_db_id, Querier.execute, Querier._get_cursor in Hrun.
  simpl in Hrun. inversion Hrun as [Hq1]. clear Hrun Hq1.
  destruct (Querier._db_conn q); simpl in *;
    destruct (Querier._importer_lock q) as [[|]|] eqn:Hlock;
    simpl in *; try discriminate; injection H2 as <-; simpl;
    rewrite ?Hlock; simpl; by rewrite <- ?app_assoc.
Qed.

(** What [ensure_branch_tip] emits. *)
Lemma ensure_branch_tip_events fuel q q1 :
  Querier.ensure_branch_tip fuel q = Ok q1 →
  Querier.log q1 = Querier.log q ++ ensure_events q.
Proof.
  unfold Querier.ensure_branch_tip, ensure_events, tip_is_imported.
  destruct (Querier._branch_tip_db_id q) as [tip|] eqn:Htip; simpl;
    rewrite Htip.
  - destruct (Querier._tip_is_imported q) eqn:Himp; simpl.
    { by intros [= <-]. }
    unfold Querier._is_imported_db_id, Querier.execute.
    rewrite get_cursor_emit. simpl.
    destruct (_is_imported_db_id (Querier._get_cursor q).1 (Some tip)); simpl.
    + intros [= <-]. simpl. by rewrite get_cursor_log, <- app_assoc.
    + intros Hrun. apply import_tip_events in Hrun. rewrite Hrun. simpl.
      rewrite get_cursor_log, <- !app_assoc. simpl.
      unfold import_events. simpl. by rewrite get_cursor_lock.
  - intros Hrun. apply import_tip_events in Hrun. rewrite Hrun. simpl.
    by rewrite <- app_assoc.
Qed.

Lemma after_ensure fuel q q1 q' :
  Querier.ensure_branch_tip fuel q = Ok q1 →
  later q1 q' →
  ∃ body, Querier.log q' = Querier.log q ++ ensure_events q ++ body
          ∧ only_selects body.
Proof.
  intros H1 (body & Hlog & Hsel). exists body. split; [|done].
  apply ensure_branch_tip_events in H1. by rewrite Hlog, H1, app_assoc.
Qed.

Lemma get_dotted_revnos_events fuel revision_ids q r q' :
  Querier.get_dotted_revnos fuel revision_ids q = Ok (r, q') →
  ∃ body, Querier.log q' = Querier.log q ++ ensure_events q ++ body
          ∧ only_selects body.
Proof.
  unfold Querier.get_dotted_revnos. intros Hrun.
  apply bind_Ok in Hrun as (q1 & H1 & Hrun).
  apply (after_ensure _ _ _ _ H1).
  pose proof (get_cursor_later q1) as H2.
  destruct (Querier._get_cursor q1) as [d q2]. simpl in H2.
  destruct (Querier._branch_tip_db_id q2).
  - pose proof (resolve_ids_later revision_ids q2) as H3.
    destruct (Querier.resolve_ids revision_ids q2) as [[ids m] q3].
    apply get_dotted_revnos_loop_later in Hrun. eauto using later_trans.
  - by injection Hrun as <- <-.
Qed.

Lemma get_revision_ids_events fuel revnos q r q' :
  Querier.get_revision_ids fuel revnos q = Ok (r, q') →
  ∃ body, Querier.log q' = Querier.log q ++ ensure_events q ++ body
          ∧ only_selects body.
Proof.
  unfold Querier.get_revision_ids. intros Hrun.
  apply bind_Ok in Hrun as (q1 & H1 & Hrun).
  apply (after_ensure _ _ _ _ H1).
  pose proof (get_cursor_later q1) as H2.
  destruct (Querier._get_cursor q1) as [d q2]. simpl in H2.
  apply get_revision_ids_loop_later in Hrun. eauto using later_trans.
Qed.

Lemma get_mainline_where_merged_events fuel revision_ids q r q' :
  Querier.get_mainline_where_merged fuel revision_ids q = Ok (r, q') →
  ∃ body, Querier.log q' = Querier.log q ++ ensure_events q ++ body
          ∧ only_selects body.
Proof.
  unfold Querier.get_mainline_where_merged. intros Hrun.
  apply bind_Ok in Hrun as (q1 & H1 & Hrun).
  apply (after_ensure _ _ _ _ H1).
  destruct (Querier._branch_tip_db_id q1).
  - pose proof (get_cursor_later q1) as H2.
    destruct (Querier._get_cursor q1) as [d q2]. simpl in H2.
    pose proof (resolve_ids_later revision_ids q2) as H3.
    destruct (Querier.resolve_ids revision_ids q2) as [[ids m] q3].
    apply get_mainline_where_merged_loop_later in Hrun.
    eauto using later_trans.
  - injection Hrun as <- <-. apply later_refl.
Qed.

Lemma iter_merge_sorted_revisions_events fuel start stop q r q' :
  Querier.iter_merge_sorted_revisions fuel start stop q = Ok (r, q') →
  ∃ body, Querier.log q' = Querier.log q ++ ensure_events q ++ body
          ∧ only_selects body.
Proof.
  unfold Querier.iter_merge_sorted_revisions. intros Hrun.
  apply bind_Ok in Hrun as (q1 & H1 & Hrun).
  apply (after_ensure _ _ _ _ H1).
  destruct (Querier._branch_tip_db_id q1) as [tip|].
  - assert (∃ start_db_id q2, later q1 q2 ∧
              (match start with
               | Some r => Querier._get_db_id r q1
               | None => (Some tip, q1)
               end) = (start_db_id, q2)) as (start_db_id & q2 & H2 & Hs).
    { destruct start as [rev|].
      - pose proof (get_db_id_later rev q1).
        destruct (Querier._get_db_id rev q1); eauto.
      - eauto using later_refl. }
    rewrite Hs in Hrun. clear Hs.
    assert (∃ stop_db_id q3, later q2 q3 ∧
              (match stop with
               | Some r => Querier._get_db_id r q2
               | None => (None, q2)
               end) = (stop_db_id, q3)) as (stop_db_id & q3 & H3 & Hs).
    { destruct stop as [rev|].
      - pose proof (get_db_id_later rev q2).
        destruct (Querier._get_db_id rev q2); eauto.
      - eauto using later_refl. }
    rewrite Hs in Hrun. clear Hs.
    apply bind_Ok in Hrun as ([tip' q4] & H4 & Hrun).
    apply find_tip_containing_later in H4.
    unfold Querier._get_merge_sorted_range in Hrun.
    pose proof (get_cursor_later q4) as H5.
    destruct (Querier._get_cursor q4) as [d q5]. simpl in H5.
    apply get_merge_sorted_range_loop_later in Hrun.
    eauto 10 using later_trans.
  - injection Hrun as <- <-. apply later_refl.
Qed.

Lemma walk_ancestry_later fuel q r q' :
  Querier.walk_ancestry fuel q = Ok (r, q') → later q q'.
Proof.
  unfold Querier.walk_ancestry.
  pose proof (get_db_id_later (Querier._branch_tip_rev_id q) q) as H1.
  destruct (Querier._get_db_id _ q) as [db_id q1]. simpl in H1.
  pose proof (get_cursor_later q1) as H2.
  destruct (Querier._get_cursor q1) as [d q2]. simpl in H2.
  intros Hrun. apply walk_ancestry_loop_later in Hrun.
  eauto using later_trans.
Qed.

Lemma walk_mainline_later fuel q r q' :
  Querier.walk_mainline fuel q = Ok (r, q') → later q q'.
Proof.
  unfold Querier.walk_mainline.
  pose proof (get_db_id_later (Querier._branch_tip_rev_id q) q) as H1.
  destruct (Querier._get_db_id _ q) as [db_id q1]. simpl in H1.
  intros Hrun. apply walk_mainline_loop_later in Hrun.
  eauto using later_trans.
Qed.

(** C9, the counterexample: [C], whose parents are [A] and [B], is
    imported; the branch is then at [B], which has a db id and is not an
    imported tip.  [walk_ancestry] returns without a call of
    [ensure_branch_tip] and without an import: it reads [dotted_revno] as
    it is and finds [A] (db id 1) alone, not [B] (db id 2). *)
Lemma walk_ancestry_does_not_ensure_branch_tip :
  match Scenario.import_tip 30 Scenario.merged_branch "C" schema.empty with
  | Ok file =>
      let q := Querier.init file
                 (Scenario.branch_at Scenario.merged_branch "B") in
      Querier._branch_tip_db_id q = Some 2
      ∧ tip_is_imported q = false
      ∧ (λ r, (elements r.1, Querier.log r.2)) <$> Querier.walk_ancestry 30 q
        = Ok ([1],
              Querier.log q
              ++ [Querier.Select "revision";
                  Querier.Select "mainline_parent_range";
                  Querier.Select "parent"; Querier.Select "dotted_revno";
                  Querier.Select "mainline_parent_range";
                  Querier.Select "parent"; Querier.Select "dotted_revno"])
  | _ => False
  end.
Proof. vm_compute. done. Qed.

(** C9, as amended: [get_dotted_revnos], [get_revision_ids],
    [get_mainline_where_merged] and [iter_merge_sorted_revisions] begin
    with [ensure_branch_tip]: what they do is its events (the call, the
    look at [dotted_revno] to see whether the tip is imported and, when it
    is not, the import, inside the lock when one is set) and only then
    their own queries.  [walk_ancestry] and [walk_mainline] only query:
    they neither call [ensure_branch_tip] nor import. *)
Theorem ensure_branch_tip_first :
  (∀ fuel revision_ids q r q',
     Querier.get_dotted_revnos fuel revision_ids q = Ok (r, q') →
     ∃ body, Querier.log q' = Querier.log q ++ ensure_events q ++ body
             ∧ only_selects body)
  ∧ (∀ fuel revnos q r q',
       Querier.get_revision_ids fuel revnos q = Ok (r, q') →
       ∃ body, Querier.log q' = Querier.log q ++ ensure_events q ++ body
               ∧ only_selects body)
  ∧ (∀ fuel revision_ids q r q',
       Querier.get_mainline_where_merged fuel revision_ids q = Ok (r, q') →
       ∃ body, Querier.log q' = Querier.log q ++ ensure_events q ++ body
               ∧ only_selects body)
  ∧ (∀ fuel start stop q r q',
       Querier.iter_merge_sorted_revisions fuel start stop q = Ok (r, q') →
       ∃ body, Querier.log q' = Querier.log q ++ ensure_events q ++ body
               ∧ only_selects body)
  ∧ (∀ q, tip_is_imported q = false →
          ∃ check, ensure_events q
                   = Querier.Call_ensure_branch_tip :: check ++ import_events q
                   ∧ only_selects check)
  ∧ (∀ fuel q r q',
       Querier.walk_ancestry fuel q = Ok (r, q') →
       ∃ body, Querier.log q' = Querier.log q ++ body ∧ only_selects body)
  ∧ (∀ fuel q r q',
       Querier.walk_mainline fuel q = Ok (r, q') →
       ∃ body, Querier.log q' = Querier.log q ++ body ∧ only_selects body).
Proof.
  split; [apply get_dotted_revnos_events|].
  split; [apply get_revision_ids_events|].
  split; [apply get_mainline_where_merged_events|].
  split; [apply iter_merge_sorted_revisions_events|].
  split; [|split; [apply walk_ancestry_later|apply walk_mainline_later]].
  intros q. unfold tip_is_imported, ensure_events, tip_is_imported.
  destruct (Querier._branch_tip_db_id q) as [tip|].
  - intros Himp. apply orb_false_iff in Himp as [-> ->]. simpl.
    exists [Querier.Select "dotted_revno"]. split; [done|].
    constructor; [by eexists|constructor].
  - intros _. exists []. split; [done|constructor].
Qed.

Lemma ensure_branch_tip_first_witness :
  let q := Querier.init schema.empty (Scenario.branch_at Scenario.S1 "D") in
  let r1 := result_or (Querier.get_dotted_revnos 30 ["A"] q) (∅, q) in
  let r2 := result_or (Querier.get_revision_ids 30 [[2]] q) (∅, q) in
  let r3 := result_or (Querier.get_mainline_where_merged 30 ["A"] q) (∅, q) in
  let r4 := result_or (Querier.iter_merge_sorted_revisions 30 None None q)
                      ([], q) in
  let r6 := result_or (Querier.walk_ancestry 30 q) (∅, q) in
  let r7 := result_or (Querier.walk_mainline 30 q) ([], q) in
  (Querier.get_dotted_revnos 30 ["A"] q = Ok r1
   ∧ ∃ body, Querier.log r1.2 = Querier.log q ++ ensure_events q ++ body
             ∧ only_selects body)
  ∧ (Querier.get_revision_ids 30 [[2]] q = Ok r2
     ∧ ∃ body, Querier.log r2.2 = Querier.log q ++ ensure_events q ++ body
               ∧ only_selects body)
  ∧ (Querier.get_mainline_where_merged 30 ["A"] q = Ok r3
     ∧ ∃ body, Querier.log r3.2 = Querier.log q ++ ensure_events q ++ body
               ∧ only_selects body)
  ∧ (Querier.iter_merge_sorted_revisions 30 None None q = Ok r4
     ∧ ∃ body, Querier.log r4.2 = Querier.log q ++ ensure_events q ++ body
               ∧ only_selects body)
  ∧ (tip_is_imported q = false
     ∧ ∃ check, ensure_events q
                = Querier.Call_ensure_branch_tip :: check ++ import_events q
                ∧ only_selects check)
  ∧ (Querier.walk_ancestry 30 q = Ok r6
     ∧ ∃ body, Querier.log r6.2 = Querier.log q ++ body ∧ only_selects body)
  ∧ (Querier.walk_mainline 30 q = Ok r7
     ∧ ∃ body, Querier.log r7.2 = Querier.log q ++ body ∧ only_selects body).
Proof.
  pose proof ensure_branch_tip_first as (H1 & H2 & H3 & H4 & H5 & H6 & H7).
  intros q r1 r2 r3 r4 r6 r7.
  split; [split; [vm_compute; reflexivity|]|].
  { apply (H1 30%nat ["A"] q r1.1). vm_compute; reflexivity. }
  split; [split; [vm_compute; reflexivity|]|].
  { apply (H2 30%nat [[2]] q r2.1). vm_compute; reflexivity. }
  split; [split; [vm_compute; reflexivity|]|].
  { apply (H3 30%nat ["A"] q r3.1). vm_compute; reflexivity. }
  split; [split; [vm_compute; reflexivity|]|].
  { apply (H4 30%nat None None q r4.1). vm_compute; reflexivity. }
  split; [split; [vm_compute; reflexivity|]|].
  { apply (H5 q). vm_compute; reflexivity. }
  split; [split; [vm_compute; reflexivity|]|].
  { apply (H6 30%nat q r6.1). vm_compute; reflexivity. }
  split; [vm_compute; reflexivity|].
  apply (H7 30%nat q r7.1). vm_compute; reflexivity.
Defined.

(** ** The numbering of the incremental sorter *)

Lemma for_each_Ok {A S} (body : S → A → res S) x l s s' :
  for_each body (x :: l) s = Ok s' →
  ∃ s1, body s x = Ok s1 ∧ for_each body l s1 = Ok s'.
Proof. simpl. apply bind_Ok. Qed.

Ltac same_walk_tac :=
  unfold same_walk; repeat case_match; simpl; repeat split; reflexivity.

Lemma same_walk_refl s : same_walk s s.
Proof. same_walk_tac. Qed.

Lemma same_walk_trans s1 s2 s3 :
  same_walk s1 s2 → same_walk s2 s3 → same_walk s1 s3.
Proof.
  intros (? & ? & ? & ? & ? & ?) (? & ? & ? & ? & ? & ?).
  repeat split; congruence.
Qed.

Lemma update_info_same_walk dotted_info s s' :
  IncrementalMergeSort._update_info_from_dotted_revno dotted_info s = Ok s' →
  same_walk s s'.
Proof.
  unfold IncrementalMergeSort._update_info_from_dotted_revno. intros Hrun.
  apply (for_each_inv (same_walk s) _ _ _ _) in Hrun; [done| |same_walk_tac].
  clear. intros s1 [db_id [[revno eom] depth]] s2 Hs Hrun.
  apply bind_Ok in Hrun as (s3 & H3 & Hrun).
  apply bind_Ok in Hrun as ([key mini] & _ & Hrun).
  assert (same_walk s1 s3) as H13.
  { case_bool_decide.
    - apply bind_Ok in H3 as (b & _ & H3).
      apply bind_Ok in H3 as (n & _ & H3). injection H3 as <-.
      same_walk_tac.
    - injection H3 as <-. same_walk_tac. }
  assert (same_walk s3 s2) as H32.
  { injection Hrun as <-.
    same_walk_tac. }
  eauto using same_walk_trans.
Qed.

Lemma step_mainline_same_walk d s s' :
  IncrementalMergeSort._step_mainline d s = Ok s' → same_walk s s'.
Proof.
  unfold IncrementalMergeSort._step_mainline. intros Hrun.
  apply bind_Ok in Hrun as (info & _ & Hrun).
  apply bind_Ok in Hrun as (s1 & H1 & Hrun).
  apply update_info_same_walk in H1.
  eapply same_walk_trans; [done|].
  destruct (parent_join_gdfo _ _) as [|[p g] ?]; injection Hrun as <-;
    same_walk_tac.
Qed.

Lemma step_to_latest_branch_same_walk fuel d base_revno : ∀ s s',
  IncrementalMergeSort._step_to_latest_branch fuel d base_revno s = Ok s' →
  same_walk s s'.
Proof.
  induction fuel as [|fuel IH]; intros s s'; simpl;
    (destruct (IncrementalMergeSort._imported_mainline_id s);
     [|intros [= <-]; apply same_walk_refl]);
    (case_bool_decide; [intros [= <-]; apply same_walk_refl|]);
    (case_bool_decide; [intros [= <-]; apply same_walk_refl|]);
    [discriminate|].
  intros Hrun. apply bind_Ok in Hrun as (s1 & H1 & Hrun).
  apply step_mainline_same_walk in H1. apply IH in Hrun.
  eauto using same_walk_trans.
Qed.

Lemma get_parents_same_walk d db_id s :
  let s' := (IncrementalMergeSort._get_parents d db_id s).2 in
  IncrementalMergeSort._seen_parents s' = IncrementalMergeSort._seen_parents s
  ∧ IncrementalMergeSort._imported_dotted_revno s'
    = IncrementalMergeSort._imported_dotted_revno s
  ∧ IncrementalMergeSort._branch_to_child_count s'
    = IncrementalMergeSort._branch_to_child_count s
  ∧ IncrementalMergeSort._ghosts s' = IncrementalMergeSort._ghosts s
  ∧ IncrementalMergeSort._depth_first_stack s'
    = IncrementalMergeSort._depth_first_stack s
  ∧ IncrementalMergeSort._interesting_ancestor_ids s'
    = IncrementalMergeSort._interesting_ancestor_ids s.
Proof.
  unfold IncrementalMergeSort._get_parents.
  by destruct (IncrementalMergeSort._parent_map s !! db_id).
Qed.




Lemma incr_last_one a : incr_last [a] = [a + 1].
Proof. reflexivity. Qed.

Lemma incr_last_three a b c : incr_last [a; b; c] = [a; b; c + 1].
Proof. reflexivity. Qed.





(** ** New roots *)

(** A node whose left-hand parent is a ghost is pushed as a node without
    parents is: no left-hand parent, first child, and [_seen_parents] as it
    was. *)
Lemma push_node_ghost_parent d db_id merge_depth s ghost others :
  db_id ∈ IncrementalMergeSort._interesting_ancestor_ids s →
  (IncrementalMergeSort._get_parents d db_id s).1 = ghost :: others →
  ghost ∈ IncrementalMergeSort._ghosts s →
  ∃ s' n,
    IncrementalMergeSort._push_node d db_id merge_depth s = Ok s'
    ∧ IncrementalMergeSort._depth_first_stack s'
      = n :: IncrementalMergeSort._depth_first_stack s
    ∧ MergeSortNode._left_parent n = None
    ∧ MergeSortNode._is_first n = true
    ∧ IncrementalMergeSort._seen_parents s'
      = IncrementalMergeSort._seen_parents s.
Proof.
  intros Hint Hparents Hghost. unfold IncrementalMergeSort._push_node.
  rewrite bool_decide_eq_false_2 by (intros Hn; by apply Hn).
  pose proof (get_parents_same_walk d db_id s)
    as (Hseen & _ & _ & Hgh & Hst & _).
  destruct (IncrementalMergeSort._get_parents d db_id s) as [parent_ids s1].
  simpl in *. subst parent_ids.
  rewrite Hgh, bool_decide_eq_true_2 by done. simpl.
  do 2 eexists. split; [done|]. simpl. by rewrite Hst, Hseen.
Qed.

(** C3: the tip [X] (db id 3) has the ghost [G] (db id 2) as its left-hand
    parent and the root [R] (db id 1) as its other parent, and nothing is
    imported yet.  [X] is pushed without a left-hand parent, as a new root;
    [R] is pushed and popped before [X] is popped, finds no new-root
    counter and takes the revno (1,), so that [X], the very first mainline
    revision of the branch, receives the new-root branch number (0, 1, 1). *)
Theorem first_mainline_revision_after_merged_root :
  match sorter_at 30 Scenario.ghost_and_root "X" schema.empty with
  | Ok (d, m) =>
      schema.t_ghost d = [2]
      ∧ (IncrementalMergeSort._get_parents d 3 m).1 = [2; 1]
      ∧ (IncrementalMergeSort._get_parents d 1 m).1 = []
      ∧ numbered <$> IncrementalMergeSort._depth_first_stack m
        = [(3, None, 0, None, true)]
      ∧ (λ m, numbered <$> IncrementalMergeSort._scheduled_stack m)
          <$> IncrementalMergeSort.compute_loop 30 d m
        = Ok [(3, Some [0; 1; 1], 0, None, true);
              (1, Some [1], 1, None, true)]
  | _ => False
  end.
Proof. vm_compute. done. Qed.

(** C5: the same import, as it is stored: the row of the tip [X] under the
    tip [X] has merge depth 0 and the revno "0.1.1", of three components
    (and the merged root [R], at depth 1, has the revno "1"). *)
Theorem mainline_revno_with_three_components :
  (λ d, Scenario.rows_of_tip d "X")
    <$> Scenario.import_tip 30 Scenario.ghost_and_root "X" schema.empty
  = Ok [schema.mk_dotted 3 3 "0.1.1" false 0 0;
        schema.mk_dotted 3 1 "1" true 1 1]
  ∧ components "0.1.1" = 3%nat.
Proof. split; vm_compute; reflexivity. Qed.

(** ** The rows stored for a tip *)



Lemma rows_from_app tip_db_id rev_to_db l1 : ∀ l2 dist rows,
  rows_from tip_db_id rev_to_db dist (l1 ++ l2) = Some rows →
  is_Some (rows_from tip_db_id rev_to_db dist l1).
Proof.
  induction l1 as [|n l1 IH]; intros l2 dist rows; simpl; [by eexists|].
  destruct (rev_to_db !! ms_key n) as [db_id|]; [simpl|discriminate].
  destruct (rows_from _ _ _ (l1 ++ l2)) as [rows'|] eqn:Hrows;
    [simpl|discriminate].
  intros _. destruct (IH _ _ _ Hrows) as [r ->]. by eexists.
Qed.





Lemma filter_all {A} (P : A → Prop) `{!∀ x, Decision (P x)} (l : list A) :
  Forall P l → filter P l = l.
Proof.
  induction 1 as [|x l Hx _ IH]; [done|].
  rewrite filter_cons_True by done. by rewrite IH.
Qed.

Lemma filter_none {A} (P : A → Prop) `{!∀ x, Decision (P x)} (l : list A) :
  Forall (λ x, ¬ P x) l → filter P l = [].
Proof.
  induction 1 as [|x l Hx _ IH]; [done|].
  by rewrite filter_cons_False.
Qed.








(** ** Revnos as strings *)

Lemma int_str (z : Z) : int (str z) = Ok z.
Proof.
  unfold int, str. rewrite NilZero.isi.
  - by rewrite DecimalZ.of_to.
  - destruct z as [|p|p]; simpl; try discriminate.
    intros [= H]. by apply DecimalPos.Unsigned.to_uint_nonnil in H.
  - destruct z as [|p|p]; simpl; try discriminate.
    intros [= H]. by apply DecimalPos.Unsigned.to_uint_nonnil in H.
Qed.

(** The characters of a string. *)
Lemma no_dot_uint (d : Decimal.uint) :
  "."%char ∉ String.list_ascii_of_string (NilEmpty.string_of_uint d).
Proof.
  induction d; simpl; [apply not_elem_of_nil|..];
    (apply not_elem_of_cons; split; [discriminate|done]).
Qed.

Lemma no_dot_str (z : Z) : "."%char ∉ String.list_ascii_of_string (str z).
Proof.
  unfold str.
  destruct z as [|p|p]; simpl.
  - apply not_elem_of_cons. split; [discriminate|apply not_elem_of_nil].
  - pose proof (DecimalPos.Unsigned.to_uint_nonnil p).
    unfold NilZero.string_of_uint. destruct (Pos.to_uint p) eqn:E; [done|..];
      rewrite <- E; apply no_dot_uint.
  - pose proof (DecimalPos.Unsigned.to_uint_nonnil p).
    apply not_elem_of_cons. split; [discriminate|].
    unfold NilZero.string_of_uint. destruct (Pos.to_uint p) eqn:E; [done|..];
      rewrite <- E; apply no_dot_uint.
Qed.

Lemma split_no_sep (sep : Ascii.ascii) (w : string) :
  sep ∉ String.list_ascii_of_string w → split sep w = [w].
Proof.
  induction w as [|a w IH]; simpl; [done|].
  intros Hnot. apply not_elem_of_cons in Hnot as [Hne Hnot].
  destruct (Ascii.eqb_spec a sep) as [->|_]; [done|].
  by rewrite IH.
Qed.

Lemma split_app_sep (sep : Ascii.ascii) (w s : string) :
  sep ∉ String.list_ascii_of_string w →
  split sep (w +:+ String sep s) = w :: split sep s.
Proof.
  induction w as [|a w IH]; simpl.
  - intros _. by rewrite Ascii.eqb_refl.
  - intros Hnot. apply not_elem_of_cons in Hnot as [Hne Hnot].
    destruct (Ascii.eqb_spec a sep) as [->|_]; [done|].
    by rewrite IH.
Qed.

Lemma split_join (sep : Ascii.ascii) (l : list string) :
  l ≠ [] →
  Forall (λ w, sep ∉ String.list_ascii_of_string w) l →
  split sep (join (String sep EmptyString) l) = l.
Proof.
  induction l as [|x l IH]; [done|]. intros _ Hall.
  inversion_clear Hall as [|? ? Hx Hl].
  destruct l as [|y l]; [by apply split_no_sep|].
  change (join (String sep EmptyString) (x :: y :: l))
    with (x +:+ String sep (join (String sep EmptyString) (y :: l))).
  rewrite split_app_sep by done. by rewrite IH.
Qed.

Lemma for_each_int (l : list Z) : ∀ acc,
  for_each (λ acc w, z ← int w; Ok (acc ++ [z])) (str <$> l) acc
  = Ok (acc ++ l).
Proof.
  induction l as [|z l IH]; intros acc; simpl; [by rewrite app_nil_r|].
  rewrite int_str. simpl. rewrite IH. by rewrite <- app_assoc.
Qed.

(** X1: a revno written to [dotted_revno] as [_insert_nodes] writes it
    (['.'.join(map(str, revno))]) is read back by [_step_mainline] and by
    the [Querier] ([map(int, revno.split('.'))]) as the same tuple of
    numbers, whatever the numbers; the tuple has at least one number. *)
Theorem revno_round_trip (revno : list Z) :
  revno ≠ [] → parse_revno (revno_str revno) = Ok revno.
Proof.
  intros Hne. unfold parse_revno, revno_str.
  rewrite (split_join "."%char).
  - apply (for_each_int revno []).
  - by destruct revno.
  - apply Forall_fmap, Forall_forall. intros z _. apply no_dot_str.
Qed.

Lemma revno_round_trip_witness :
  parse_revno (revno_str [1; 12; 305]) = Ok [1; 12; 305].
Proof. apply revno_round_trip. discriminate. Defined.

(** ** [_get_result_for_many] *)

Lemma mjoin_cons {A} (x : list A) (l : list (list A)) :
  mjoin (x :: l) = x ++ mjoin l.
Proof. done. Qed.

Lemma chunks_join {A} (n : nat) : ∀ fuel (l : list A),
  (0 < n)%nat → (length l ≤ fuel)%nat → mjoin (chunks fuel n l) = l.
Proof.
  induction fuel as [|fuel IH]; intros l Hn Hlen.
  - destruct l; [done|simpl in Hlen; lia].
  - destruct l as [|x l]; [done|].
    change (chunks (S fuel) n (x :: l))
      with (take n (x :: l) :: chunks fuel n (drop n (x :: l))).
    rewrite mjoin_cons, IH; [apply take_drop|done|].
    rewrite length_drop. simpl in *. lia.
Qed.

Lemma chunks_bounds {A} (n : nat) : ∀ fuel (l : list A),
  (0 < n)%nat →
  Forall (λ c, (1 ≤ length c ≤ n)%nat) (chunks fuel n l).
Proof.
  induction fuel as [|fuel IH]; intros l Hn.
  - destruct l; constructor.
  - destruct l as [|x l]; [constructor|].
    change (chunks (S fuel) n (x :: l))
      with (take n (x :: l) :: chunks fuel n (drop n (x :: l))).
    constructor; [|by apply IH].
    rewrite length_take. simpl. lia.
Qed.

(** X2: [_get_result_for_many] passes every parameter to the query once,
    in order, at most 200 at a time and never an empty list: the lists
    the query is run on, put end to end, are [params]. *)
Theorem get_result_for_many_slices {A} (params : list A) :
  _get_result_for_many (λ next_params, [next_params]) params
  = chunks (length params) MAX_COUNT params
  ∧ mjoin (chunks (length params) MAX_COUNT params) = params
  ∧ Forall (λ next_params, (1 ≤ length next_params ≤ 200)%nat)
           (chunks (length params) MAX_COUNT params).
Proof.
  split; [|split].
  - unfold _get_result_for_many.
    induction (chunks _ _ _) as [|c cs IH]; [done|].
    rewrite bind_cons, IH. done.
  - apply chunks_join; [unfold MAX_COUNT; lia|done].
  - apply chunks_bounds. unfold MAX_COUNT. lia.
Qed.

Lemma filter_in_app {B} (f : B → Z) (P : B → Prop) `{∀ r, Decision (P r)}
    (table : list B) (l1 l2 : list Z) :
  (∀ x, x ∈ l1 → x ∉ l2) →
  filter (λ r, P r ∧ f r ∈ l1 ++ l2) table
  ≡ₚ filter (λ r, P r ∧ f r ∈ l1) table ++ filter (λ r, P r ∧ f r ∈ l2) table.
Proof.
  intros Hdisj. induction table as [|r table IH]; [done|].
  rewrite !filter_cons.
  destruct (decide (P r ∧ f r ∈ l1 ++ l2)) as [[HP Hin]|Hnot].
  - apply elem_of_app in Hin as [Hin|Hin].
    + rewrite decide_True by done.
      rewrite (decide_False (P := P r ∧ f r ∈ l2)).
      * simpl. by rewrite IH.
      * intros [_ Hin2]. by apply (Hdisj (f r)).
    + rewrite (decide_False (P := P r ∧ f r ∈ l1)).
      * rewrite decide_True by done. rewrite IH.
        by rewrite Permutation_middle.
      * intros [_ Hin1]. by apply (Hdisj (f r)).
  - rewrite !decide_False; [done| |].
    + intros [HP Hin]. apply Hnot. split; [done|]. apply elem_of_app. by right.
    + intros [HP Hin]. apply Hnot. split; [done|]. apply elem_of_app. by left.
Qed.

(** A query [... WHERE p AND x IN (%s)] read slice by slice. *)
Lemma get_result_for_many_in {B C} (f : B → Z) (P : B → Prop)
    `{∀ r, Decision (P r)} (Q : list Z → B → Prop)
    `{∀ ps r, Decision (Q ps r)} (table : list B) (g : B → list C)
    (params : list Z) :
  (∀ ps r, Q ps r ↔ P r ∧ f r ∈ ps) →
  let query := λ ps, filter (Q ps) table ≫= g in
  (∀ x, x ∈ _get_result_for_many query params ↔ x ∈ query params)
  ∧ (NoDup params → _get_result_for_many query params ≡ₚ query params).
Proof.
  intros HQ query.
  assert (∀ ps, query ps = filter (λ r, P r ∧ f r ∈ ps) table ≫= g) as Hq.
  { intros ps. unfold query. f_equal. apply list_filter_iff, HQ. }
  assert (mjoin (chunks (length params) MAX_COUNT params) = params) as Hjoin.
  { apply chunks_join; [unfold MAX_COUNT; lia|done]. }
  unfold _get_result_for_many. revert Hjoin.
  generalize (chunks (length params) MAX_COUNT params). intros cs <-.
  split.
  - intros x. rewrite Hq. rewrite !list_elem_of_bind. split.
    + intros (c & Hx & Hc). rewrite Hq in Hx.
      apply list_elem_of_bind in Hx as (r & Hx & Hr).
      apply list_elem_of_filter in Hr as [[HP Hin] Hr].
      exists r. split; [done|]. apply list_elem_of_filter.
      split; [|done]. split; [done|].
      apply list_elem_of_join. by exists c.
    + intros (r & Hx & Hr). apply list_elem_of_filter in Hr as [[HP Hin] Hr].
      apply list_elem_of_join in Hin as (c & Hin & Hc).
      exists c. split; [|done]. rewrite Hq. apply list_elem_of_bind.
      exists r. split; [done|]. by apply list_elem_of_filter.
  - induction cs as [|c cs IH]; intros Hnd.
    + rewrite Hq. simpl. rewrite filter_none; [done|].
      apply Forall_forall. intros r _ [_ Hin]. by apply elem_of_nil in Hin.
    + rewrite bind_cons, mjoin_cons. rewrite mjoin_cons in Hnd.
      apply NoDup_app in Hnd as (_ & Hdisj & Hnd).
      rewrite (IH Hnd), !Hq, (filter_in_app f P table c (mjoin cs) Hdisj).
      by rewrite bind_app.
Qed.

(** X3: the slices of [_get_result_for_many] are not seen in what its two
    callers read.  For the query of [_get_initial_search_tips] (the
    right-hand parents of the given children, with their gdfo) and the
    query of [_step_search_tips] (all the parents of the given children),
    on any database and any parameters: a row is in the result if and only
    if it is in the result of the query run once on all the parameters;
    when no parameter is repeated the result is that result in another
    order, every row as often; and this is so for the parameters
    [_step_search_tips] passes, the elements of a set. *)
Theorem get_result_for_many_in_queries (d : schema.db) (params : list Z) :
  let right_hand_parents := λ ps,
    parent_join_gdfo d (λ p, schema.parent_idx p ≠ 0 ∧ schema.child p ∈ ps) in
  let parents := λ ps, parent_join_gdfo d (λ p, schema.child p ∈ ps) in
  (∀ row, row ∈ _get_result_for_many right_hand_parents params
          ↔ row ∈ right_hand_parents params)
  ∧ (∀ row, row ∈ _get_result_for_many parents params ↔ row ∈ parents params)
  ∧ (NoDup params →
     _get_result_for_many right_hand_parents params
     ≡ₚ right_hand_parents params
     ∧ _get_result_for_many parents params ≡ₚ parents params)
  ∧ (∀ s, _get_result_for_many parents
            (elements (IncrementalMergeSort._search_tips s))
          ≡ₚ parents (elements (IncrementalMergeSort._search_tips s))).
Proof.
  intros right_hand_parents parents.
  assert (∀ ps,
    (∀ row, row ∈ _get_result_for_many right_hand_parents ps
            ↔ row ∈ right_hand_parents ps)
    ∧ (NoDup ps → _get_result_for_many right_hand_parents ps
                  ≡ₚ right_hand_parents ps)) as Hright.
  { intros ps.
    apply (get_result_for_many_in schema.child
             (λ p, schema.parent_idx p ≠ 0)
             (λ ps p, schema.parent_idx p ≠ 0 ∧ schema.child p ∈ ps)).
    done. }
  assert (∀ ps,
    (∀ row, row ∈ _get_result_for_many parents ps ↔ row ∈ parents ps)
    ∧ (NoDup ps → _get_result_for_many parents ps ≡ₚ parents ps)) as Hall.
  { intros ps.
    apply (get_result_for_many_in schema.child (λ _, True)
             (λ ps p, schema.child p ∈ ps)).
    intros ps' p. tauto. }
  split; [apply Hright|]. split; [apply Hall|]. split.
  - intros Hnd. split; [by apply Hright|by apply Hall].
  - intros s. apply Hall, NoDup_elements.
Qed.

Lemma get_result_for_many_in_queries_witness :
  NoDup sliced_params
  ∧ _get_result_for_many
      (λ ps, parent_join_gdfo sliced_db
               (λ p, schema.parent_idx p ≠ 0 ∧ schema.child p ∈ ps))
      sliced_params
    ≡ₚ parent_join_gdfo sliced_db
         (λ p, schema.parent_idx p ≠ 0 ∧ schema.child p ∈ sliced_params)
  ∧ _get_result_for_many
      (λ ps, parent_join_gdfo sliced_db
               (λ p, schema.parent_idx p ≠ 0 ∧ schema.child p ∈ ps))
      sliced_params
    ≠ parent_join_gdfo sliced_db
        (λ p, schema.parent_idx p ≠ 0 ∧ schema.child p ∈ sliced_params).
Proof.
  assert (NoDup sliced_params) as Hnd.
  { apply NoDup_fmap; [intros ? ? ?; lia|apply NoDup_seq]. }
  split; [done|].
  pose proof (get_result_for_many_in_queries sliced_db sliced_params) as H.
  cbv zeta in H. destruct H as (_ & _ & Hperm & _).
  split; [exact (proj1 (Hperm Hnd))|].
  intros Heq. apply (f_equal (λ l, fst <$> head l)) in Heq.
  vm_compute in Heq. discriminate.
Defined.


(** ** What the [Querier] does to the file *)

Lemma importer_init_cursor file b tip incremental :
  Importer._cursor (Importer.init file b tip incremental) = file.
Proof. done. Qed.

Lemma do_import_file fuel s s' :
  Importer.do_import fuel s = Ok s' →
  committed (Importer._db_conn s) = Importer._cursor s →
  grows (Importer._cursor s) (committed (Importer._db_conn s')).
Proof.
  intros Hrun Hfile.
  destruct (Importer.is_null (Importer._branch_tip_rev_id s)) eqn:Hnull.
  - unfold Importer.do_import in Hrun. rewrite Hnull in Hrun.
    injection Hrun as <-. rewrite Hfile. apply grows_refl.
  - by apply do_import_grows in Hrun as [_ Hgrows].
Qed.

Lemma querier_import_tip_grows fuel q q' :
  Querier._import_tip fuel q = Ok q' →
  grows (Querier._db_path q) (Querier._db_path q').
Proof.
  unfold Querier._import_tip. intros Hrun.
  apply bind_Ok in Hrun as (q2 & H2 & Hrun).
  apply bind_Ok in Hrun as (importer & Himport & Hrun).
  apply do_import_file in Himport; [|done].
  rewrite importer_init_cursor in Himport.
  assert (Querier._db_path q2 = Querier._db_path q) as Hpath.
  { destruct (Querier._db_conn q); simpl in H2;
      destruct (Querier._importer_lock _) as [[|]|]; simpl in H2;
      try discriminate; by injection H2 as <-. }
  rewrite Hpath in Himport.
  unfold Querier._get_db_id, Querier.execute, Querier._get_cursor in Hrun.
  simpl in Hrun. injection Hrun as <-.
  by destruct (Querier._importer_lock q2).
Qed.

(** X4: the [Querier] never deletes or changes a row.  Whatever
    [ensure_branch_tip] finds, when it returns every table of the database
    file begins with the rows it had before, in the same order; an import
    only adds rows after them. *)
Theorem ensure_branch_tip_grows (fuel : nat) (q q' : Querier.t) :
  Querier.ensure_branch_tip fuel q = Ok q' →
  grows (Querier._db_path q) (Querier._db_path q').
Proof.
  unfold Querier.ensure_branch_tip.
  destruct (Querier._branch_tip_db_id _) as [tip|] eqn:Htip.
  - destruct (Querier._tip_is_imported _).
    { intros [= <-]. apply grows_refl. }
    unfold Querier._is_imported_db_id, Querier.execute, Querier._get_cursor.
    simpl. destruct (Querier._db_conn q); simpl.
    + destruct (_is_imported_db_id _ _).
      * intros [= <-]. apply grows_refl.
      * intros Hrun. by apply querier_import_tip_grows in Hrun.
    + destruct (_is_imported_db_id _ _).
      * intros [= <-]. apply grows_refl.
      * intros Hrun. by apply querier_import_tip_grows in Hrun.
  - intros Hrun. by apply querier_import_tip_grows in Hrun.
Qed.

Lemma ensure_branch_tip_grows_witness :
  let q := Querier.init
             (result_or (Scenario.import_tip 30 Scenario.S1 "B" schema.empty)
                        schema.empty)
             (Scenario.branch_at Scenario.S1 "D") in
  let q' := result_or (Querier.ensure_branch_tip 30 q) q in
  length (schema.t_revision (Querier._db_path q)) = 2%nat
  ∧ length (schema.t_revision (Querier._db_path q')) = 4%nat
  ∧ grows (Querier._db_path q) (Querier._db_path q').
Proof.
  intros q q'.
  split; [vm_compute; reflexivity|].
  split; [vm_compute; reflexivity|].
  apply (ensure_branch_tip_grows 30 q q'). vm_compute; reflexivity.
Defined.

Lemma import_tip_imported fuel q q' :
  Querier._import_tip fuel q = Ok q' → Querier._tip_is_imported q' = true.
Proof.
  unfold Querier._import_tip. intros Hrun.
  apply bind_Ok in Hrun as (q2 & H2 & Hrun).
  apply bind_Ok in Hrun as (importer & Himport & Hrun).
  unfold Querier._get_db_id, Querier.execute, Querier._get_cursor in Hrun.
  simpl in Hrun. injection Hrun as <-.
  by destruct (Querier._importer_lock q2).
Qed.

(** X5: [ensure_branch_tip] does its work once.  When it has returned and
    the tip has a db id, calling it again looks at nothing and imports
    nothing: it returns at once, the state being as it was (but for the
    record of the call). *)
Theorem ensure_branch_tip_again (fuel fuel' : nat) (q q' : Querier.t) :
  Querier.ensure_branch_tip fuel q = Ok q' →
  is_Some (Querier._branch_tip_db_id q') →
  Querier.ensure_branch_tip fuel' q'
  = Ok (Querier.emit Querier.Call_ensure_branch_tip q').
Proof.
  intros Hrun [tip Htip].
  assert (Querier._tip_is_imported q' = true) as Himp.
  { unfold Querier.ensure_branch_tip in Hrun. simpl in Hrun.
    destruct (Querier._branch_tip_db_id q) as [tip0|].
    - destruct (Querier._tip_is_imported q) eqn:Hq.
      { by injection Hrun as <-. }
      unfold Querier._is_imported_db_id, Querier.execute, Querier._get_cursor
        in Hrun.
      simpl in Hrun. destruct (Querier._db_conn q); simpl in Hrun;
        (destruct (_is_imported_db_id _ _);
         [by injection Hrun as <-|by apply import_tip_imported in Hrun]).
    - by apply import_tip_imported in Hrun. }
  unfold Querier.ensure_branch_tip. simpl. by rewrite Htip, Himp.
Qed.

Lemma ensure_branch_tip_again_witness :
  let q := Querier.init schema.empty (Scenario.branch_at Scenario.S1 "D") in
  let q' := result_or (Querier.ensure_branch_tip 30 q) q in
  Querier.ensure_branch_tip 0 q'
  = Ok (Querier.emit Querier.Call_ensure_branch_tip q').
Proof.
  intros q q'. apply (ensure_branch_tip_again 30 0 q q').
  - vm_compute; reflexivity.
  - apply (bool_decide_unpack _); vm_compute; exact I.
Defined.


(** ** The needed mainline *)

Lemma find_needed_mainline_loop_chain fuel d : ∀ cur needed l stop,
  IncrementalMergeSort.find_needed_mainline_loop fuel d cur needed
  = Ok (l, stop) →
  ∃ l', l = needed ++ l'
        ∧ lh_chain d cur l' stop
        ∧ Forall (λ id, _is_imported_db_id d (Some id) = false) l'
        ∧ (∀ id, stop = Some id → _is_imported_db_id d (Some id) = true).
Proof.
  induction fuel as [|fuel IH]; intros cur needed l stop; simpl.
  - destruct cur as [id|].
    + destruct (_is_imported_db_id d (Some id)) eqn:Himp; [|discriminate].
      intros [= <- <-]. exists []. rewrite app_nil_r.
      repeat split; [constructor|]. by intros ? [= <-].
    + intros [= <- <-]. exists []. rewrite app_nil_r.
      repeat split; [constructor|]. discriminate.
  - destruct cur as [id|].
    + destruct (_is_imported_db_id d (Some id)) eqn:Himp.
      * intros [= <- <-]. exists []. rewrite app_nil_r.
        repeat split; [constructor|]. by intros ? [= <-].
      * intros Hrun. apply IH in Hrun as (l' & -> & Hchain & Hall & Hstop).
        exists (id :: l'). rewrite <- app_assoc.
        repeat split; [done|by constructor|done].
    + intros [= <- <-]. exists []. rewrite app_nil_r.
      repeat split; [constructor|]. discriminate.
Qed.

(** X6: what [_find_needed_mainline] finds.  [_mainline_db_ids] is the
    chain of left-hand parents from the tip: it starts at the tip, each
    revision is the left-hand parent of the one before, and none of them
    is an imported tip; [_imported_mainline_id] is the left-hand parent of
    the last one (the tip itself when the chain is empty) and, when there
    is one, it is an imported tip; all of the chain is in
    [_interesting_ancestor_ids]. *)
Theorem find_needed_mainline_chain (fuel : nat) (d : schema.db)
    (s s' : IncrementalMergeSort.t) :
  IncrementalMergeSort._find_needed_mainline fuel d s = Ok s' →
  lh_chain d (Some (IncrementalMergeSort._tip_db_id s))
           (IncrementalMergeSort._mainline_db_ids s')
           (IncrementalMergeSort._imported_mainline_id s')
  ∧ Forall (λ id, _is_imported_db_id d (Some id) = false
                  ∧ id ∈ IncrementalMergeSort._interesting_ancestor_ids s')
           (IncrementalMergeSort._mainline_db_ids s')
  ∧ (∀ id, IncrementalMergeSort._imported_mainline_id s' = Some id →
           _is_imported_db_id d (Some id) = true).
Proof.
  unfold IncrementalMergeSort._find_needed_mainline. intros Hrun.
  apply bind_Ok in Hrun as ([needed stop] & Hloop & [= <-]).
  apply find_needed_mainline_loop_chain in Hloop
    as (l' & -> & Hchain & Hall & Hstop).
  simpl. repeat split; [done| |done].
  apply Forall_forall. intros id Hin. split.
  - by apply (proj1 (Forall_forall _ _) Hall).
  - apply elem_of_union_r, elem_of_list_to_set. done.
Qed.

Lemma find_needed_mainline_chain_witness :
  let s := IncrementalMergeSort.init ∅ 3 in
  let s' := result_or
              (IncrementalMergeSort._find_needed_mainline 30 merged_branch_db s)
              s in
  IncrementalMergeSort._mainline_db_ids s' = [3]
  ∧ IncrementalMergeSort._imported_mainline_id s' = Some 1
  ∧ lh_chain merged_branch_db (Some 3) [3] (Some 1)
  ∧ Forall (λ id, _is_imported_db_id merged_branch_db (Some id) = false
                  ∧ id ∈ IncrementalMergeSort._interesting_ancestor_ids s')
           [3]
  ∧ (∀ id, Some 1 = Some id →
           _is_imported_db_id merged_branch_db (Some id) = true).
Proof.
  intros s s'.
  split; [vm_compute; reflexivity|].
  split; [vm_compute; reflexivity|].
  apply (find_needed_mainline_chain 30 merged_branch_db s s').
  vm_compute; reflexivity.
Defined.


(** ** The counters of the sorter *)

Lemma counts_le_refl `{Countable K} (m : gmap K Z) : counts_le m m.
Proof. intros k n Hk. exists n. split; [done|lia]. Qed.

Lemma counts_le_trans `{Countable K} (m1 m2 m3 : gmap K Z) :
  counts_le m1 m2 → counts_le m2 m3 → counts_le m1 m3.
Proof.
  intros H12 H23 k n Hk.
  destruct (H12 k n Hk) as (n2 & Hk2 & Hle2).
  destruct (H23 k n2 Hk2) as (n3 & Hk3 & Hle3).
  exists n3. split; [done|lia].
Qed.

Lemma counts_le_insert `{Countable K} (m : gmap K Z) (k : K) (v : Z) :
  (∀ n, m !! k = Some n → n ≤ v) → counts_le m (<[k := v]> m).
Proof.
  intros Hle k' n Hk'. destruct (decide (k' = k)) as [->|Hne].
  - exists v. rewrite lookup_insert_eq. split; [done|by apply Hle].
  - exists n. rewrite lookup_insert_ne by done. split; [done|lia].
Qed.

Lemma dict_update_is_Some `{Countable K} {V} (kvs : list (K * V)) :
  ∀ (m : gmap K V) k,
  is_Some (m !! k) ∨ k ∈ kvs.*1 → is_Some (dict_update m kvs !! k).
Proof.
  unfold dict_update.
  induction kvs as [|[k0 v0] kvs IH]; intros m k; simpl.
  - intros [Hm|Hin]; [done|by apply elem_of_nil in Hin].
  - intros Hk. apply IH. destruct (decide (k = k0)) as [->|Hne].
    + left. rewrite lookup_insert_eq. by eexists.
    + rewrite lookup_insert_ne by done.
      destruct Hk as [Hm|Hin]; [by left|].
      apply elem_of_cons in Hin as [->|Hin]; [done|by right].
Qed.

(** One turn of the loop of [_update_info_from_dotted_revno]. *)
Lemma update_info_step (s s' : IncrementalMergeSort.t)
    (entry : Z * (list Z * bool * Z)) :
  (let '(db_id, (revno, eom, depth)) := entry in
   s ← (if bool_decide (1 < length revno)%nat then
          base_revno ← index revno 0;
          branch_num ← index revno 1;
          Ok (match IncrementalMergeSort._revno_to_branch_count s
                    !! base_revno with
              | Some n =>
                  if n <? branch_num
                  then IncrementalMergeSort.set_revno_to_branch_count
                         (<[base_revno := branch_num]>
                            (IncrementalMergeSort._revno_to_branch_count s)) s
                  else s
              | None =>
                  IncrementalMergeSort.set_revno_to_branch_count
                    (<[base_revno := branch_num]>
                       (IncrementalMergeSort._revno_to_branch_count s)) s
              end)
        else
          Ok (match IncrementalMergeSort._revno_to_branch_count s !! 0 with
              | Some _ => s
              | None =>
                  IncrementalMergeSort.set_revno_to_branch_count
                    (<[0 := 0]> (IncrementalMergeSort._revno_to_branch_count s))
                    s
              end));
   '(branch_key, mini_revno) ← branch_of revno;
   Ok (match IncrementalMergeSort._branch_to_child_count s !! branch_key with
       | Some n =>
           if n <? mini_revno
           then IncrementalMergeSort.set_branch_to_child_count
                  (<[branch_key := mini_revno]>
                     (IncrementalMergeSort._branch_to_child_count s)) s
           else s
       | None =>
           IncrementalMergeSort.set_branch_to_child_count
             (<[branch_key := mini_revno]>
                (IncrementalMergeSort._branch_to_child_count s)) s
       end)) = Ok s' →
  IncrementalMergeSort._known_dotted s' = IncrementalMergeSort._known_dotted s
  ∧ IncrementalMergeSort._imported_dotted_revno s'
    = IncrementalMergeSort._imported_dotted_revno s
  ∧ counts_le (IncrementalMergeSort._revno_to_branch_count s)
              (IncrementalMergeSort._revno_to_branch_count s')
  ∧ counts_le (IncrementalMergeSort._branch_to_child_count s)
              (IncrementalMergeSort._branch_to_child_count s')
  ∧ (entry.2.1.1 ∈ IncrementalMergeSort._known_dotted s →
     is_Some (IncrementalMergeSort._imported_dotted_revno s !! entry.1) →
     loaded s' entry).
Proof.
  destruct entry as [db_id [[revno eom] depth]]. intros Hrun.
  apply bind_Ok in Hrun as (s1 & H1 & Hrun).
  apply bind_Ok in Hrun as ([key mini] & Hkey & Hrun).
  assert (IncrementalMergeSort._known_dotted s1
          = IncrementalMergeSort._known_dotted s
          ∧ IncrementalMergeSort._imported_dotted_revno s1
            = IncrementalMergeSort._imported_dotted_revno s
          ∧ IncrementalMergeSort._branch_to_child_count s1
            = IncrementalMergeSort._branch_to_child_count s
          ∧ counts_le (IncrementalMergeSort._revno_to_branch_count s)
                      (IncrementalMergeSort._revno_to_branch_count s1)
          ∧ (∀ base_revno branch_num rest,
               revno = base_revno :: branch_num :: rest →
               ∃ n, IncrementalMergeSort._revno_to_branch_count s1
                      !! base_revno = Some n ∧ branch_num ≤ n))
    as (Hd1 & Hi1 & Hb1 & Hle1 & Hcount1).
  { case_bool_decide as Hlen.
    - destruct revno as [|base [|num rest]]; simpl in Hlen; [lia..|].
      simpl in H1.
      destruct (IncrementalMergeSort._revno_to_branch_count s !! base)
        as [n|] eqn:Hn.
      + destruct (n <? num) eqn:Hlt; injection H1 as <-; simpl.
        * apply Z.ltb_lt in Hlt. repeat split; try done.
          -- apply counts_le_insert. intros n0. rewrite Hn. intros [= <-]. lia.
          -- intros b0 n0 r0 [= <- <- <-]. exists num.
             rewrite lookup_insert_eq. split; [done|lia].
        * apply Z.ltb_ge in Hlt. repeat split; try done.
          -- apply counts_le_refl.
          -- intros b0 n0 r0 [= <- <- <-]. exists n. split; [done|lia].
      + injection H1 as <-. simpl. repeat split; try done.
        * apply counts_le_insert. intros n0. by rewrite Hn.
        * intros b0 n0 r0 [= <- <- <-]. exists num.
          rewrite lookup_insert_eq. split; [done|lia].
    - assert (∀ b n r, revno ≠ b :: n :: r) as Hshort.
      { intros b n r ->. simpl in Hlen. lia. }
      destruct (IncrementalMergeSort._revno_to_branch_count s !! 0) eqn:H0;
        injection H1 as <-; simpl; repeat split; try done.
      + apply counts_le_refl.
      + intros b n r Heq. by destruct (Hshort b n r).
      + apply counts_le_insert. intros n0. by rewrite H0.
      + intros b n r Heq. by destruct (Hshort b n r). }
  assert (IncrementalMergeSort._known_dotted s'
          = IncrementalMergeSort._known_dotted s1
          ∧ IncrementalMergeSort._imported_dotted_revno s'
            = IncrementalMergeSort._imported_dotted_revno s1
          ∧ IncrementalMergeSort._revno_to_branch_count s'
            = IncrementalMergeSort._revno_to_branch_count s1
          ∧ counts_le (IncrementalMergeSort._branch_to_child_count s1)
                      (IncrementalMergeSort._branch_to_child_count s')
          ∧ ∃ m, IncrementalMergeSort._branch_to_child_count s' !! key
                 = Some m ∧ mini ≤ m)
    as (Hd2 & Hi2 & Hr2 & Hle2 & Hcount2).
  { destruct (IncrementalMergeSort._branch_to_child_count s1 !! key)
      as [n|] eqn:Hn.
    - destruct (n <? mini) eqn:Hlt; injection Hrun as <-; simpl.
      + apply Z.ltb_lt in Hlt. repeat split; try done.
        * apply counts_le_insert. intros n0. rewrite Hn. intros [= <-]. lia.
        * exists mini. rewrite lookup_insert_eq. split; [done|lia].
      + apply Z.ltb_ge in Hlt. repeat split; try done.
        * apply counts_le_refl.
        * exists n. split; [done|lia].
    - injection Hrun as <-. simpl. repeat split; try done.
      + apply counts_le_insert. intros n0. by rewrite Hn.
      + exists mini. rewrite lookup_insert_eq. split; [done|lia]. }
  rewrite Hd2, Hd1, Hi2, Hi1. repeat split; try done.
  - by rewrite Hr2.
  - by rewrite <- Hb1.
  - by rewrite Hd2, Hd1.
  - by rewrite Hi2, Hi1.
  - destruct Hcount2 as (m & Hm & Hle). by exists key, mini, m.
  - rewrite Hr2. apply Hcount1.
Qed.


Lemma counters_grow_refl s : counters_grow s s.
Proof. repeat split; apply counts_le_refl. Qed.

Lemma counters_grow_trans s1 s2 s3 :
  counters_grow s1 s2 → counters_grow s2 s3 → counters_grow s1 s3.
Proof.
  intros (Hd1 & Hi1 & Hr1 & Hb1) (Hd2 & Hi2 & Hr2 & Hb2).
  repeat split; [congruence|congruence|..]; by eapply counts_le_trans.
Qed.

Lemma loaded_counters_grow s s' entry :
  counters_grow s s' → loaded s entry → loaded s' entry.
Proof.
  intros (Hd & Hi & Hr & Hb) (Hknown & Hentry & Hbranch & Hbase).
  unfold loaded. rewrite Hd, Hi. repeat split; try done.
  - destruct Hbranch as (key & mini & m & Hkey & Hm & Hle).
    destruct (Hb key m Hm) as (m' & Hm' & Hle').
    exists key, mini, m'. repeat split; [done..|lia].
  - intros base num rest Heq.
    destruct (Hbase base num rest Heq) as (n & Hn & Hle).
    destruct (Hr base n Hn) as (n' & Hn' & Hle').
    exists n'. split; [done|lia].
Qed.

Lemma for_each_rel {A S} (R : S → S → Prop) (Q P : S → A → Prop)
    (body : S → A → res S) (l : list A) :
  (∀ s, R s s) →
  (∀ s1 s2 s3, R s1 s2 → R s2 s3 → R s1 s3) →
  (∀ s x s', body s x = Ok s' → R s s' ∧ (Q s x → P s' x)) →
  (∀ s s' x, R s s' → P s x → P s' x) →
  (∀ s s' x, R s s' → Q s x → Q s' x) →
  ∀ s s', for_each body l s = Ok s' →
          R s s' ∧ (Forall (Q s) l → Forall (P s') l).
Proof.
  intros Hrefl Htrans Hbody HP HQ.
  induction l as [|x l IH]; intros s s'; simpl.
  - intros [= <-]. split; [apply Hrefl|constructor].
  - intros Hrun. apply bind_Ok in Hrun as (s1 & H1 & Hrun).
    destruct (Hbody _ _ _ H1) as [HR1 HP1].
    destruct (IH _ _ Hrun) as [HR HPl].
    split; [by eapply Htrans|].
    intros Hall. inversion_clear Hall as [|? ? Hx Hl]. constructor.
    + eapply HP; [exact HR|]. by apply HP1.
    + apply HPl. eapply Forall_impl; [exact Hl|]. intros y. by apply HQ.
Qed.

(** X7: [_update_info_from_dotted_revno] never lowers a counter, and makes
    the counters cover what it loads.  When it returns, every counter of
    [_revno_to_branch_count] and of [_branch_to_child_count] is at least
    what it was; and for every entry given, the revno is in
    [_known_dotted], the revision has an entry in [_imported_dotted_revno],
    the counter of its branch is at least its number on that branch and,
    for a dotted revno, the branch count of its base revno is at least its
    branch number. *)
Theorem update_info_counters
    (dotted_info : list (Z * (list Z * bool * Z)))
    (s s' : IncrementalMergeSort.t) :
  IncrementalMergeSort._update_info_from_dotted_revno dotted_info s = Ok s' →
  counts_le (IncrementalMergeSort._revno_to_branch_count s)
            (IncrementalMergeSort._revno_to_branch_count s')
  ∧ counts_le (IncrementalMergeSort._branch_to_child_count s)
              (IncrementalMergeSort._branch_to_child_count s')
  ∧ Forall (loaded s') dotted_info.
Proof.
  unfold IncrementalMergeSort._update_info_from_dotted_revno. intros Hrun.
  apply (for_each_rel counters_grow
           (λ s entry,
              entry.2.1.1 ∈ IncrementalMergeSort._known_dotted s
              ∧ is_Some (IncrementalMergeSort._imported_dotted_revno s
                         !! entry.1))
           loaded) in Hrun as [(Hd & Hi & Hr & Hb) Hall].
  - repeat split; [done..|]. apply Hall. apply Forall_forall.
    intros entry Hin. simpl. split.
    + apply elem_of_union_r, elem_of_list_to_set.
      by apply (list_elem_of_fmap_2 (λ i, i.2.1.1)).
    + apply dict_update_is_Some. right. by apply list_elem_of_fmap_2.
  - apply counters_grow_refl.
  - apply counters_grow_trans.
  - intros s0 entry s0' Hstep.
    apply (update_info_step s0 s0' entry) in Hstep
      as (Hd & Hi & Hr & Hb & Hloaded).
    + split; [done|]. intros [? ?]. by apply Hloaded.
  - intros s0 s0' entry. apply loaded_counters_grow.
  - intros s0 s0' entry (Hd & Hi & _) [? ?]. by rewrite Hd, Hi.
Qed.

Lemma update_info_counters_witness :
  let info := [(7, ([2], false, 0)); (5, ([1; 2; 3], true, 1));
               (4, ([1; 1; 1], true, 1))] in
  let s := IncrementalMergeSort.init ∅ 9 in
  let s' := result_or
              (IncrementalMergeSort._update_info_from_dotted_revno info s) s in
  IncrementalMergeSort._branch_to_child_count s'
    = {[mainline_key := 2; branch 1 2 := 3; branch 1 1 := 1]}
  ∧ IncrementalMergeSort._revno_to_branch_count s' = {[0 := 0; 1 := 2]}
  ∧ counts_le (IncrementalMergeSort._revno_to_branch_count s)
              (IncrementalMergeSort._revno_to_branch_count s')
  ∧ counts_le (IncrementalMergeSort._branch_to_child_count s)
              (IncrementalMergeSort._branch_to_child_count s')
  ∧ Forall (loaded s') info.
Proof.
  intros info s s'.
  split; [vm_compute; reflexivity|].
  split; [vm_compute; reflexivity|].
  apply (update_info_counters info s s'). vm_compute; reflexivity.
Defined.


(** ** The nodes of a merge sort *)

Lemma pop_revno_same_walk fuel d node s revno s1 :
  IncrementalMergeSort.pop_revno fuel d node s = Ok (revno, s1) →
  same_walk s s1 ∧ one_or_three revno.
Proof.
  unfold IncrementalMergeSort.pop_revno. intros Hrun.
  destruct (MergeSortNode._left_parent node) as [left_parent|].
  - apply bind_Ok in Hrun as ([[parent_revno eom] depth] & _ & Hrun).
    destruct (MergeSortNode._is_first node).
    + case_bool_decide as Hlen.
      * apply bind_Ok in Hrun as (mini & _ & Hrun).
        apply bind_Ok in Hrun as (seen & _ & Hrun).
        injection Hrun as <- <-. split; [same_walk_tac|by left].
      * apply bind_Ok in Hrun as (mini & Hmini & Hrun).
        injection Hrun as <- <-. split; [apply same_walk_refl|right].
        destruct parent_revno as [|a [|b [|c ?]]]; try discriminate Hmini.
        done.
    + apply bind_Ok in Hrun as (s2 & H2 & Hrun).
      apply bind_Ok in Hrun as (base & _ & Hrun).
      injection Hrun as <- <-. split; [|by right].
      eapply same_walk_trans; [|same_walk_tac].
      case_bool_decide.
      * apply bind_Ok in H2 as (b & _ & H2).
        by apply step_to_latest_branch_same_walk in H2.
      * injection H2 as <-. apply same_walk_refl.
  - apply bind_Ok in Hrun as (s2 & H2 & Hrun).
    apply step_to_latest_branch_same_walk in H2.
    destruct (_ =? 0); injection Hrun as <- <-.
    + split; [|by left]. eapply same_walk_trans; [done|same_walk_tac].
    + split; [|by right]. eapply same_walk_trans; [done|same_walk_tac].
Qed.

Lemma pop_node_scheduled fuel d s s' :
  IncrementalMergeSort._pop_node fuel d s = Ok s' →
  ∃ n, is_numbered n
       ∧ IncrementalMergeSort._scheduled_stack s'
         = n :: IncrementalMergeSort._scheduled_stack s
       ∧ IncrementalMergeSort._depth_first_stack s'
         = tail (IncrementalMergeSort._depth_first_stack s).
Proof.
  unfold IncrementalMergeSort._pop_node. intros Hrun.
  destruct (IncrementalMergeSort._depth_first_stack s) as [|node stack] eqn:Hs;
    [discriminate|].
  apply bind_Ok in Hrun as ([revno s1] & H1 & Hrun).
  apply bind_Ok in Hrun as (eom & _ & Hrun). injection Hrun as <-.
  apply pop_revno_same_walk in H1 as [(Hst & Hsched & _) Hrevno].
  exists (IncrementalMergeSort.numbered_node node revno eom). simpl.
  rewrite Hst, Hsched. simpl. repeat split; [|by eexists].
  by exists revno.
Qed.

Lemma is_first_child_scheduled parent_id s b s' :
  IncrementalMergeSort._is_first_child parent_id s = Ok (b, s') →
  IncrementalMergeSort._scheduled_stack s'
  = IncrementalMergeSort._scheduled_stack s
  ∧ IncrementalMergeSort._depth_first_stack s'
    = IncrementalMergeSort._depth_first_stack s.
Proof.
  unfold IncrementalMergeSort._is_first_child. intros Hrun.
  case_bool_decide; [by injection Hrun as <- <-|].
  simpl in Hrun.
  destruct (IncrementalMergeSort._imported_dotted_revno s !! parent_id)
    as [[[revno eom] depth]|]; [|by injection Hrun as <- <-].
  apply bind_Ok in Hrun as ([key mini] & _ & Hrun).
  by destruct (mini <? _); injection Hrun as <- <-.
Qed.

Lemma push_node_scheduled d db_id merge_depth s s' :
  IncrementalMergeSort._push_node d db_id merge_depth s = Ok s' →
  IncrementalMergeSort._scheduled_stack s'
  = IncrementalMergeSort._scheduled_stack s.
Proof.
  unfold IncrementalMergeSort._push_node. intros Hrun.
  case_bool_decide; [by injection Hrun as <-|].
  assert (IncrementalMergeSort._scheduled_stack
            (IncrementalMergeSort._get_parents d db_id s).2
          = IncrementalMergeSort._scheduled_stack s) as Hget.
  { unfold IncrementalMergeSort._get_parents.
    by destruct (IncrementalMergeSort._parent_map s !! db_id). }
  destruct (IncrementalMergeSort._get_parents d db_id s) as [parent_ids s1].
  simpl in Hget.
  apply bind_Ok in Hrun as ([[left_parent is_first] s2] & H2 & Hrun).
  injection Hrun as <-. simpl. rewrite <- Hget.
  destruct parent_ids as [|left parent_ids]; [by injection H2 as <- <- <-|].
  case_bool_decide; [by injection H2 as <- <- <-|].
  apply bind_Ok in H2 as ([b s3] & H3 & H2). injection H2 as <- <- <-.
  by apply is_first_child_scheduled in H3 as [-> _].
Qed.

Lemma compute_step_scheduled fuel d last stack s s' :
  IncrementalMergeSort.compute_step fuel d last stack s = Ok s' →
  ∃ new, Forall is_numbered new
         ∧ IncrementalMergeSort._scheduled_stack s'
           = new ++ IncrementalMergeSort._scheduled_stack s.
Proof.
  unfold IncrementalMergeSort.compute_step. intros Hrun.
  assert (∀ s0,
    (let '(last, next_db_id) :=
       IncrementalMergeSort.next_parent
         (IncrementalMergeSort._imported_dotted_revno s) last in
     let s := IncrementalMergeSort.set_depth_first_stack (last :: stack) s in
     match next_db_id with
     | None => Ok s
     | Some next_db_id =>
         IncrementalMergeSort._push_node d next_db_id
           (if bool_decide (MergeSortNode._left_parent last = Some next_db_id)
            then MergeSortNode.merge_depth last
            else MergeSortNode.merge_depth last + 1) s
     end) = Ok s0 →
    IncrementalMergeSort._scheduled_stack s0
    = IncrementalMergeSort._scheduled_stack s) as Hpush.
  { intros s0.
    destruct (IncrementalMergeSort.next_parent _ last) as [last' [next|]].
    - intros H. by apply push_node_scheduled in H.
    - by intros [= <-]. }
  destruct (MergeSortNode._left_pending_parent last) as [p|].
  { exists []. split; [constructor|]. by apply Hpush. }
  destruct (MergeSortNode._pending_parents last) as [|p ps].
  - apply pop_node_scheduled in Hrun as (n & Hn & Hsched & _).
    exists [n]. split; [by constructor|done].
  - exists []. split; [constructor|]. by apply Hpush.
Qed.

Lemma compute_loop_scheduled d : ∀ fuel s s',
  IncrementalMergeSort.compute_loop fuel d s = Ok s' →
  IncrementalMergeSort._depth_first_stack s' = []
  ∧ ∃ new, Forall is_numbered new
           ∧ IncrementalMergeSort._scheduled_stack s'
             = new ++ IncrementalMergeSort._scheduled_stack s.
Proof.
  induction fuel as [|fuel IH]; intros s s'; simpl.
  - destruct (IncrementalMergeSort._depth_first_stack s) eqn:Hs;
      [|discriminate].
    intros [= <-]. split; [done|]. by exists [].
  - destruct (IncrementalMergeSort._depth_first_stack s) as [|last stack]
      eqn:Hs.
    { intros [= <-]. split; [done|]. by exists []. }
    intros Hrun. apply bind_Ok in Hrun as (s1 & H1 & Hrun).
    apply compute_step_scheduled in H1 as (new1 & Hnew1 & Hs1).
    apply IH in Hrun as (Hempty & new & Hnew & Hs').
    split; [done|]. exists (new ++ new1).
    split; [by apply Forall_app|]. by rewrite Hs', Hs1, app_assoc.
Qed.

(** X8: the nodes [topo_order] returns are all numbered.  Each has a revno
    of one or three components and its [end_of_merge], and its
    [_pending_parents] are cleared; and the walk is over: the depth-first
    stack is empty. *)
Theorem topo_order_numbered (fuel : nat) (d : schema.db)
    (s s' : IncrementalMergeSort.t) (nodes : list MergeSortNode.t) :
  IncrementalMergeSort.topo_order fuel d s = Ok (nodes, s') →
  Forall is_numbered nodes
  ∧ IncrementalMergeSort._depth_first_stack s' = [].
Proof.
  unfold IncrementalMergeSort.topo_order. intros Hrun.
  apply bind_Ok in Hrun as (s1 & _ & Hrun).
  apply bind_Ok in Hrun as (s2 & H2 & [= <- <-]).
  unfold IncrementalMergeSort._compute_merge_sort in H2.
  apply bind_Ok in H2 as (s3 & H3 & H2).
  apply compute_loop_scheduled in H2 as (Hempty & new & Hnew & Hsched).
  split; [|done]. rewrite Hsched.
  assert (IncrementalMergeSort._scheduled_stack s3 = []) as ->.
  { unfold IncrementalMergeSort.merge_sort_start in H3. simpl in H3.
    destruct (IncrementalMergeSort._mainline_db_ids s1) as [|tip ?].
    - by injection H3 as <-.
    - by apply push_node_scheduled in H3. }
  by rewrite app_nil_r.
Qed.

Lemma topo_order_numbered_witness :
  let s := IncrementalMergeSort.init ∅ 3 in
  let r := result_or (IncrementalMergeSort.topo_order 30 merged_branch_db s)
                     ([], s) in
  (MergeSortNode.key <$> r.1 = [3; 2]
   ∧ MergeSortNode.revno <$> r.1 = [Some [2]; Some [1; 1; 1]])
  ∧ Forall is_numbered r.1
  ∧ IncrementalMergeSort._depth_first_stack r.2 = [].
Proof.
  intros s r.
  split; [split; vm_compute; reflexivity|].
  apply (topo_order_numbered 30 merged_branch_db s). vm_compute; reflexivity.
Defined.


(** ** A range read back *)

Lemma insert_sorted_last {A} (lt : A → A → bool) (x : A) (l : list A) :
  Forall (λ y, lt x y = false) l → insert_sorted lt x l = l ++ [x].
Proof.
  induction 1 as [|y l Hy _ IH]; simpl; [done|]. by rewrite Hy, IH.
Qed.

Lemma order_by_desc_increasing {A} (k : A → Z) (l : list A) :
  Sorted.StronglySorted (λ x y, k x < k y) l → order_by_desc k l = reverse l.
Proof.
  unfold order_by_desc, sort_with.
  induction 1 as [|x l _ IH Hx]; [done|]. simpl.
  rewrite IH, reverse_cons. apply insert_sorted_last.
  apply Forall_reverse. eapply Forall_impl; [exact Hx|].
  simpl. intros y Hlt. apply Z.ltb_ge. lia.
Qed.

Lemma members_increasing (range_key : Z) (ids : list Z) : ∀ o : nat,
  Sorted.StronglySorted (λ x y, schema.mp_dist x < schema.mp_dist y)
    (imap (λ idx db_id, schema.mk_member range_key db_id (Z.of_nat (o + idx)))
          ids)
  ∧ Forall (λ m, Z.of_nat o ≤ schema.mp_dist m ∧ schema.range m = range_key)
      (imap (λ idx db_id,
               schema.mk_member range_key db_id (Z.of_nat (o + idx))) ids).
Proof.
  induction ids as [|id ids IH]; intros o; simpl.
  - split; constructor.
  - destruct (IH (S o)) as [Hsorted Hall].
    rewrite (imap_ext _ (λ idx db_id,
               schema.mk_member range_key db_id (Z.of_nat (S o + idx))));
      [|intros i x _; simpl; do 2 f_equal; lia].
    split.
    + constructor; [done|]. eapply Forall_impl; [exact Hall|].
      simpl. intros m [Hm _]. lia.
    + constructor; [simpl; split; [lia|done]|].
      eapply Forall_impl; [exact Hall|]. simpl. intros m [Hm ?]. split; [lia|done].
Qed.

Lemma members_revision (range_key : Z) (ids : list Z) :
  schema.revision
    <$> imap (λ idx db_id, schema.mk_member range_key db_id (Z.of_nat idx)) ids
  = ids.
Proof.
  rewrite fmap_imap. simpl.
  induction ids as [|id ids IH]; [done|]. simpl. f_equal. exact IH.
Qed.

(** X9: a range read back comes oldest first.  When [_insert_range] has
    stored [range_db_ids] (the newest revision first, as
    [_build_one_mainline] collects them) under a key no [mainline_parent]
    row has yet, the new row of [mainline_parent_range] has the first
    revision as [head], the given [tail] and the length as [count], and
    [_get_mainline_range] of that key ([ORDER BY dist DESC]) is the list
    reversed. *)
Theorem insert_range_read_back (range_db_ids : list Z) (tail_db_id : option Z)
    (d d' : schema.db) :
  let range_key :=
    Z.of_nat (length (schema.t_mainline_parent_range d)) + 1 in
  Forall (λ m, schema.range m ≠ range_key) (schema.t_mainline_parent d) →
  Importer._insert_range range_db_ids tail_db_id d = Ok d' →
  Importer._get_mainline_range d' range_key = reverse range_db_ids
  ∧ ∃ head_db_id,
      range_db_ids !! 0%nat = Some head_db_id
      ∧ schema.t_mainline_parent_range d'
        = schema.t_mainline_parent_range d
          ++ [schema.mk_range range_key head_db_id tail_db_id
                (Z.of_nat (length range_db_ids))].
Proof.
  intros range_key Hfresh. unfold Importer._insert_range, index.
  destruct (range_db_ids !! 0%nat) as [head_db_id|] eqn:Hhead;
    [simpl|discriminate].
  intros [= <-]. split; [|by exists head_db_id].
  unfold Importer._get_mainline_range. simpl. fold range_key.
  rewrite filter_app, (filter_none _ (schema.t_mainline_parent d)) by done.
  simpl.
  destruct (members_increasing range_key range_db_ids 0) as [Hsorted Hall].
  simpl in Hsorted, Hall.
  rewrite filter_all
    by (eapply Forall_impl; [exact Hall|]; simpl; by intros m [_ ?]).
  rewrite order_by_desc_increasing by done.
  by rewrite fmap_reverse, members_revision.
Qed.

Lemma insert_range_read_back_witness :
  let d' := result_or (Importer._insert_range [4; 3; 2; 1] None schema.empty)
                      schema.empty in
  Importer._get_mainline_range d' (Z.of_nat 0 + 1) = reverse [4; 3; 2; 1]
  ∧ ∃ head_db_id,
      [4; 3; 2; 1] !! 0%nat = Some head_db_id
      ∧ schema.t_mainline_parent_range d'
        = [] ++ [schema.mk_range (Z.of_nat 0 + 1) head_db_id None
                   (Z.of_nat 4)].
Proof.
  intros d'.
  apply (insert_range_read_back [4; 3; 2; 1] None schema.empty d').
  - constructor.
  - vm_compute; reflexivity.
Defined.


(** ** What the [Querier] reads *)

Lemma get_cursor_reads q : reads (Querier._get_cursor q).2 = reads q.
Proof.
  unfold reads, Querier._get_cursor.
  destruct (Querier._db_conn q) eqn:Hconn; simpl; by rewrite ?Hconn.
Qed.

Lemma execute_reads tables q :
  (Querier.execute tables q).1 = reads q
  ∧ reads (Querier.execute tables q).2 = reads q.
Proof.
  unfold Querier.execute. pose proof (get_cursor_reads q) as H.
  unfold reads in *. destruct (Querier._get_cursor q) as [d q1] eqn:Hq.
  simpl in *. rewrite get_cursor_emit. simpl. done.
Qed.

Lemma get_db_id_reads revision_id q :
  (Querier._get_db_id revision_id q).1 = db_id_of (reads q) revision_id
  ∧ reads (Querier._get_db_id revision_id q).2 = reads q.
Proof.
  unfold Querier._get_db_id. pose proof (execute_reads "revision" q) as [H1 H2].
  destruct (Querier.execute "revision" q) as [d q1]. simpl in *. by subst d.
Qed.

Lemma get_range_key_and_tail_reads tip_db_id q :
  reads (Querier._get_range_key_and_tail tip_db_id q).2 = reads q.
Proof.
  unfold Querier._get_range_key_and_tail.
  pose proof (execute_reads "mainline_parent_range" q) as [_ H1].
  destruct (Querier.execute "mainline_parent_range" q) as [d q1].
  destruct (Importer._get_mainline_range_count d tip_db_id); [done|].
  unfold Querier._get_lh_parent_db_id.
  pose proof (execute_reads "parent" q1) as [_ H2].
  destruct (Querier.execute "parent" q1) as [d2 q2]. simpl in *. congruence.
Qed.

Lemma step_reads tip_db_id tables q :
  let q1 := (Querier._get_range_key_and_tail tip_db_id q).2 in
  (Querier.execute tables q1).1 = reads q
  ∧ reads (Querier.execute tables q1).2 = reads q.
Proof.
  intros q1. destruct (execute_reads tables q1) as [H1 H2].
  unfold q1 in *. by rewrite H1, H2, get_range_key_and_tail_reads.
Qed.

Lemma step_rows_stored d tip_db_id range_key r :
  r ∈ Querier.step_rows d tip_db_id range_key → r ∈ schema.t_dotted_revno d.
Proof.
  unfold Querier.step_rows. destruct range_key as [k|].
  - intros Hin. apply list_elem_of_bind in Hin as (r0 & Hin & Hr0).
    apply list_elem_of_bind in Hin as (m & Hin & _).
    apply list_elem_of_singleton in Hin. by subst.
  - intros Hin. by apply list_elem_of_filter in Hin as [_ ?].
Qed.

Lemma resolve_ids_fold (P : string → Prop) revision_ids :
  ∀ q (db_ids : gset (option Z)) (m : gmap (option Z) string),
  Forall P revision_ids →
  (∀ o rev, m !! o = Some rev → P rev ∧ o = db_id_of (reads q) rev) →
  let r := foldl (λ '((db_ids, db_id_to_rev_id), q) rev_id,
             let '(db_id, q) := Querier._get_db_id rev_id q in
             ((db_ids ∪ {[db_id]}, <[db_id := rev_id]> db_id_to_rev_id), q))
          ((db_ids, m), q) revision_ids in
  reads r.2 = reads q
  ∧ ∀ o rev, r.1.2 !! o = Some rev → P rev ∧ o = db_id_of (reads q) rev.
Proof.
  induction revision_ids as [|rev_id ids IH]; intros q db_ids m Hall Hm; simpl.
  - done.
  - inversion_clear Hall as [|? ? Hrev Hids].
    pose proof (get_db_id_reads rev_id q) as [Hid Hq].
    destruct (Querier._get_db_id rev_id q) as [db_id q1]. simpl in *.
    destruct (IH q1 (db_ids ∪ {[db_id]}) (<[db_id := rev_id]> m) Hids)
      as [Hreads Hmap].
    + rewrite Hq. intros o rev Hlook.
      destruct (decide (o = db_id)) as [->|Hne].
      * rewrite lookup_insert_eq in Hlook. injection Hlook as <-. done.
      * rewrite lookup_insert_ne in Hlook by done. by apply Hm.
    + rewrite Hq in *. done.
Qed.

Lemma resolve_ids_reads revision_ids q :
  let r := Querier.resolve_ids revision_ids q in
  reads r.2 = reads q
  ∧ ∀ o rev, r.1.2 !! o = Some rev →
             rev ∈ revision_ids ∧ o = db_id_of (reads q) rev.
Proof.
  apply (resolve_ids_fold (λ rev, rev ∈ revision_ids)).
  - by apply Forall_forall.
  - intros o rev Hlook. by rewrite lookup_empty in Hlook.
Qed.

Lemma get_dotted_revnos_loop_stored (P : string → Prop) fuel :
  ∀ tip_db_id db_ids (db_id_to_rev_id : gmap (option Z) string) revnos q r q',
  (∀ o rev, db_id_to_rev_id !! o = Some rev →
            P rev ∧ o = db_id_of (reads q) rev) →
  (∀ rev revno, revnos !! rev = Some revno →
                P rev ∧ stored_revno (reads q) rev revno) →
  Querier.get_dotted_revnos_loop fuel tip_db_id db_ids db_id_to_rev_id
                                 revnos q = Ok (r, q') →
  ∀ rev revno, r !! rev = Some revno →
               P rev ∧ stored_revno (reads q) rev revno.
Proof.
  induction fuel as [|fuel IH];
    intros [tip|] db_ids m revnos q r q' Hm Hrevnos; simpl;
    try (by intros [= <- <-]);
    (case_bool_decide; [by intros [= <- <-]|]); [discriminate|].
  pose proof (λ tables, step_reads tip tables q) as Hstep. simpl in Hstep.
  destruct (Querier._get_range_key_and_tail tip q) as [[rk next] q1].
  destruct (Hstep (Querier.step_tables rk)) as [Hd Hq2]. clear Hstep.
  simpl in Hd, Hq2.
  destruct (Querier.execute (Querier.step_tables rk) q1) as [d q2].
  simpl in Hd, Hq2. subst d.
  intros Hrun. apply bind_Ok in Hrun as ([ids' revnos'] & Hrows & Hrun).
  rewrite <- Hq2. eapply IH; [by rewrite Hq2| |exact Hrun].
  rewrite Hq2.
  set (rows := filter _ _) in Hrows.
  assert (Forall (λ r, r ∈ schema.t_dotted_revno (reads q)) rows) as Hall.
  { apply Forall_forall. intros r0 Hin.
    apply list_elem_of_filter in Hin as [_ Hin].
    by apply step_rows_stored in Hin. }
  clearbody rows. clear - Hm Hrevnos Hrows Hall.
  revert db_ids revnos Hrevnos Hrows.
  induction Hall as [|row rows Hrow _ IHrows]; intros db_ids revnos Hrevnos;
    simpl.
  - by intros [= <- <-].
  - intros Hrows. apply bind_Ok in Hrows as ([ids1 revnos1] & H1 & Hrows).
    apply bind_Ok in H1 as (rev_id & Hrev & H1).
    apply bind_Ok in H1 as (revno & Hparse & [= <- <-]).
    eapply IHrows; [|exact Hrows].
    unfold getitem in Hrev.
    destruct (m !! Some (schema.merged_revision row)) as [rev0|] eqn:Hlook;
      [|discriminate].
    injection Hrev as ->. destruct (Hm _ _ Hlook) as [HP Hid].
    intros rev revno0 Hl. destruct (decide (rev = rev_id)) as [->|Hne].
    + rewrite lookup_insert_eq in Hl. injection Hl as <-.
      split; [done|]. by exists row.
    + rewrite lookup_insert_ne in Hl by done. by apply Hrevnos.
Qed.

(** X10: [get_dotted_revnos] reports only what is stored.  Every revno it
    returns is for one of the revision ids it was asked for, and it is the
    revno of a [dotted_revno] row (read back as numbers) whose merged
    revision is the db id of that revision id, in the database as
    [ensure_branch_tip] left it. *)
Theorem get_dotted_revnos_stored (fuel : nat) (revision_ids : list string)
    (q q' : Querier.t) (revnos : gmap string (list Z)) :
  Querier.get_dotted_revnos fuel revision_ids q = Ok (revnos, q') →
  ∃ q1, Querier.ensure_branch_tip fuel q = Ok q1
        ∧ ∀ rev revno, revnos !! rev = Some revno →
                       rev ∈ revision_ids
                       ∧ stored_revno (reads q1) rev revno.
Proof.
  unfold Querier.get_dotted_revnos. intros Hrun.
  apply bind_Ok in Hrun as (q1 & Hensure & Hrun).
  exists q1. split; [done|].
  pose proof (get_cursor_reads q1) as Hq2.
  destruct (Querier._get_cursor q1) as [d q2] eqn:Hcur.
  assert (Querier._branch_tip_db_id q2 = Querier._branch_tip_db_id q1) as Htip.
  { unfold Querier._get_cursor in Hcur.
    destruct (Querier._db_conn q1); by injection Hcur as <- <-. }
  simpl in Hq2. rewrite Htip in Hrun. clear Htip.
  destruct (Querier._branch_tip_db_id q1) as [tip_db_id|].
  - pose proof (resolve_ids_reads revision_ids q2) as [Hq3 Hm].
    destruct (Querier.resolve_ids revision_ids q2) as [[db_ids m] q3].
    simpl in Hq3, Hm. rewrite Hq2 in *. rewrite <- Hq3.
    eapply (get_dotted_revnos_loop_stored (λ rev, rev ∈ revision_ids));
      [| |exact Hrun].
    + by rewrite Hq3.
    + intros rev revno Hl. by rewrite lookup_empty in Hl.
  - injection Hrun as <- <-. intros rev revno Hl. by rewrite lookup_empty in Hl.
Qed.

Lemma get_dotted_revnos_stored_witness :
  let q := Querier.init schema.empty
             (Scenario.branch_at Scenario.merged_branch "C") in
  let r := result_or (Querier.get_dotted_revnos 30 ["B"; "A"] q) (∅, q) in
  r.1 = {["A" := [1]; "B" := [1; 1; 1]]}
  ∧ ∃ q1, Querier.ensure_branch_tip 30 q = Ok q1
          ∧ ∀ rev revno, r.1 !! rev = Some revno →
                         rev ∈ ["B"; "A"]
                         ∧ stored_revno (reads q1) rev revno.
Proof.
  intros q r. split; [vm_compute; reflexivity|].
  apply (get_dotted_revnos_stored 30 ["B"; "A"] q r.2).
  vm_compute; reflexivity.
Defined.


Lemma get_mainline_where_merged_loop_stored (P : string → Prop) fuel :
  ∀ tip_db_id db_ids (db_id_to_rev_id : gmap (option Z) string)
    (map : gmap string string) q r q',
  (∀ o rev, db_id_to_rev_id !! o = Some rev →
            P rev ∧ o = db_id_of (reads q) rev) →
  (∀ rev mainline, map !! rev = Some mainline →
                   P rev ∧ merged_under (reads q) rev mainline) →
  Querier.get_mainline_where_merged_loop fuel tip_db_id db_ids
    db_id_to_rev_id map q = Ok (r, q') →
  ∀ rev mainline, r !! rev = Some mainline →
                  P rev ∧ merged_under (reads q) rev mainline.
Proof.
  induction fuel as [|fuel IH];
    intros [tip|] db_ids m map q r q' Hm Hmap; simpl;
    try (by intros [= <- <-]);
    (case_bool_decide; [by intros [= <- <-]|]); [discriminate|].
  pose proof (λ tables, step_reads tip tables q) as Hstep. simpl in Hstep.
  destruct (Querier._get_range_key_and_tail tip q) as [[rk next] q1].
  destruct (Hstep (Querier.step_tables rk +:+ ", revision")) as [Hd Hq2].
  clear Hstep. simpl in Hd, Hq2.
  destruct (Querier.execute _ q1) as [d q2]. simpl in Hd, Hq2. subst d.
  intros Hrun. apply bind_Ok in Hrun as ([ids' map'] & Hrows & Hrun).
  rewrite <- Hq2. eapply IH; [by rewrite Hq2| |exact Hrun].
  rewrite Hq2.
  set (rows := mbind _ _) in Hrows.
  assert (Forall (λ '(mainline, merged),
            ∃ row v, row ∈ schema.t_dotted_revno (reads q)
                     ∧ v ∈ schema.t_revision (reads q)
                     ∧ schema.merged_revision row = merged
                     ∧ schema.db_id v = schema.tip_revision row
                     ∧ schema.revision_id v = mainline) rows) as Hall.
  { apply Forall_forall. intros [mainline merged] Hin.
    apply list_elem_of_bind in Hin as (row & Hin & Hrow).
    apply list_elem_of_bind in Hin as (v & Hin & Hv).
    apply list_elem_of_singleton in Hin. injection Hin as -> ->.
    apply list_elem_of_filter in Hv as [Hv Hvin].
    apply list_elem_of_filter in Hrow as [_ Hrow].
    apply step_rows_stored in Hrow. by exists row, v. }
  clearbody rows. clear - Hm Hmap Hrows Hall.
  revert db_ids map Hmap Hrows.
  induction Hall as [|[mainline merged] rows Hrow _ IHrows];
    intros db_ids map Hmap; simpl.
  - by intros [= <- <-].
  - intros Hrows. apply bind_Ok in Hrows as ([ids1 map1] & H1 & Hrows).
    apply bind_Ok in H1 as (rev_id & Hrev & [= <- <-]).
    eapply IHrows; [|exact Hrows].
    unfold getitem in Hrev.
    destruct (m !! Some merged) as [rev0|] eqn:Hlook; [|discriminate].
    injection Hrev as ->. destruct (Hm _ _ Hlook) as [HP Hid].
    destruct Hrow as (row & v & Hrow & Hv & <- & Hdb & Hmain).
    intros rev mainline0 Hl. destruct (decide (rev = rev_id)) as [->|Hne].
    + rewrite lookup_insert_eq in Hl. injection Hl as <-.
      split; [done|]. by exists row, v.
    + rewrite lookup_insert_ne in Hl by done. by apply Hmap.
Qed.

(** X11: [get_mainline_where_merged] reports only what is stored.  Every
    entry it returns is for one of the revision ids it was asked for, and
    maps it to the revision id of the tip of a [dotted_revno] row whose
    merged revision is the db id of that revision id. *)
Theorem get_mainline_where_merged_stored (fuel : nat)
    (revision_ids : list string) (q q' : Querier.t)
    (map : gmap string string) :
  Querier.get_mainline_where_merged fuel revision_ids q = Ok (map, q') →
  ∃ q1, Querier.ensure_branch_tip fuel q = Ok q1
        ∧ ∀ rev mainline, map !! rev = Some mainline →
                          rev ∈ revision_ids
                          ∧ merged_under (reads q1) rev mainline.
Proof.
  unfold Querier.get_mainline_where_merged. intros Hrun.
  apply bind_Ok in Hrun as (q1 & Hensure & Hrun).
  exists q1. split; [done|].
  destruct (Querier._branch_tip_db_id q1) as [tip_db_id|].
  - pose proof (get_cursor_reads q1) as Hq2.
    destruct (Querier._get_cursor q1) as [d q2]. simpl in Hq2.
    pose proof (resolve_ids_reads revision_ids q2) as [Hq3 Hm].
    destruct (Querier.resolve_ids revision_ids q2) as [[db_ids m] q3].
    simpl in Hq3, Hm. rewrite Hq2 in *. rewrite <- Hq3.
    eapply (get_mainline_where_merged_loop_stored
              (λ rev, rev ∈ revision_ids)); [| |exact Hrun].
    + by rewrite Hq3.
    + intros rev mainline Hl. by rewrite lookup_empty in Hl.
  - injection Hrun as <- <-. intros rev mainline Hl.
    by rewrite lookup_empty in Hl.
Qed.

Lemma get_mainline_where_merged_stored_witness :
  let q := Querier.init schema.empty
             (Scenario.branch_at Scenario.merged_branch "C") in
  let r := result_or (Querier.get_mainline_where_merged 30 ["B"; "A"] q)
                     (∅, q) in
  r.1 = {["A" := "A"; "B" := "C"]}
  ∧ ∃ q1, Querier.ensure_branch_tip 30 q = Ok q1
          ∧ ∀ rev mainline, r.1 !! rev = Some mainline →
                            rev ∈ ["B"; "A"]
                            ∧ merged_under (reads q1) rev mainline.
Proof.
  intros q r. split; [vm_compute; reflexivity|].
  apply (get_mainline_where_merged_stored 30 ["B"; "A"] q r.2).
  vm_compute; reflexivity.
Defined.

Lemma parse_revno_str (revno : list Z) (dotted : list Z) :
  parse_revno (revno_str revno) = Ok dotted → dotted = revno.
Proof.
  destruct revno as [|z revno].
  { intros H. vm_compute in H. discriminate. }
  unfold parse_revno, revno_str.
  rewrite (split_join "."%char); [| done |].
  - rewrite (for_each_int (z :: revno) []). by intros [= <-].
  - apply Forall_fmap, Forall_forall. intros z0 _. apply no_dot_str.
Qed.

Lemma get_revision_ids_loop_stored (P : list Z → Prop) fuel :
  ∀ tip_db_id (revno_strs : gset string) (revno_map : gmap (list Z) string)
    q r q',
  (∀ s, s ∈ revno_strs → ∃ revno, P revno ∧ s = revno_str revno) →
  (∀ dotted rid, revno_map !! dotted = Some rid →
                 P dotted
                 ∧ revno_of_revision (reads q) dotted rid) →
  Querier.get_revision_ids_loop fuel tip_db_id revno_strs revno_map q
  = Ok (r, q') →
  ∀ dotted rid, r !! dotted = Some rid →
                P dotted ∧ revno_of_revision (reads q) dotted rid.
Proof.
  induction fuel as [|fuel IH];
    intros [tip|] strs map q r q' Hstrs Hmap; simpl;
    try (by intros [= <- <-]);
    (case_bool_decide; [by intros [= <- <-]|]); [discriminate|].
  pose proof (λ tables, step_reads tip tables q) as Hstep. simpl in Hstep.
  destruct (Querier._get_range_key_and_tail tip q) as [[rk next] q1].
  destruct (Hstep (Querier.step_tables rk +:+ ", revision")) as [Hd Hq2].
  clear Hstep. simpl in Hd, Hq2.
  destruct (Querier.execute _ q1) as [d q2]. simpl in Hd, Hq2. subst d.
  intros Hrun. apply bind_Ok in Hrun as ([strs' map'] & Hrows & Hrun).
  set (rows := mbind _ _) in Hrows.
  assert (Forall (λ '(rid, s),
            ∃ row v, row ∈ schema.t_dotted_revno (reads q)
                     ∧ v ∈ schema.t_revision (reads q)
                     ∧ schema.db_id v = schema.merged_revision row
                     ∧ schema.revision_id v = rid
                     ∧ schema.revno row = s
                     ∧ ∃ revno, P revno ∧ s = revno_str revno)
                 rows) as Hall.
  { apply Forall_forall. intros [rid s] Hin.
    apply list_elem_of_bind in Hin as (row & Hin & Hrow).
    apply list_elem_of_bind in Hin as (v & Hin & Hv).
    apply list_elem_of_singleton in Hin. injection Hin as -> ->.
    apply list_elem_of_filter in Hv as [Hv Hvin].
    apply list_elem_of_filter in Hrow as [Hreq Hrow].
    apply step_rows_stored in Hrow. exists row, v.
    repeat split; try done. by apply Hstrs. }
  clearbody rows.
  assert ((∀ s, s ∈ strs' → ∃ revno, P revno ∧ s = revno_str revno)
          ∧ ∀ dotted rid, map' !! dotted = Some rid →
              P dotted ∧ revno_of_revision (reads q) dotted rid)
    as [Hstrs' Hmap'].
  { clear - Hstrs Hmap Hrows Hall. revert strs map Hstrs Hmap Hrows.
    induction Hall as [|[rid s] rows Hrow _ IHrows];
      intros strs map Hstrs Hmap; simpl.
    - by intros [= <- <-].
    - intros Hrows. apply bind_Ok in Hrows as ([strs1 map1] & H1 & Hrows).
      apply bind_Ok in H1 as (dotted & Hparse & [= <- <-]).
      eapply IHrows; [| |exact Hrows].
      + intros s0 Hin. apply elem_of_difference in Hin as [Hin _].
        by apply Hstrs.
      + destruct Hrow as (row & v & Hrow & Hv & Hdb & Hrid & Hs & revno & HP & ->).
        apply parse_revno_str in Hparse as ->.
        intros dotted rid0 Hl.
        destruct (decide (dotted = revno)) as [->|Hne].
        * rewrite lookup_insert_eq in Hl. injection Hl as <-.
          split; [done|]. by exists row, v.
        * rewrite lookup_insert_ne in Hl by done. by apply Hmap. }
  rewrite <- Hq2. eapply IH; [exact Hstrs'|by rewrite Hq2|exact Hrun].
Qed.

(** X12: [get_revision_ids] reports only what is stored.  Every key of the
    map it returns is one of the revnos it was asked for, and it is mapped
    to the id of a revision of which a [dotted_revno] row holds that
    revno. *)
Theorem get_revision_ids_stored (fuel : nat) (revnos : list (list Z))
    (q q' : Querier.t) (revno_map : gmap (list Z) string) :
  Querier.get_revision_ids fuel revnos q = Ok (revno_map, q') →
  ∃ q1, Querier.ensure_branch_tip fuel q = Ok q1
        ∧ ∀ dotted rid, revno_map !! dotted = Some rid →
                        dotted ∈ revnos
                        ∧ revno_of_revision (reads q1) dotted rid.
Proof.
  unfold Querier.get_revision_ids. intros Hrun.
  apply bind_Ok in Hrun as (q1 & Hensure & Hrun).
  exists q1. split; [done|].
  pose proof (get_cursor_reads q1) as Hq2.
  destruct (Querier._get_cursor q1) as [d q2]. simpl in Hq2.
  rewrite <- Hq2.
  eapply (get_revision_ids_loop_stored (λ revno, revno ∈ revnos));
    [| |exact Hrun].
  - intros s Hin. apply elem_of_list_to_set in Hin.
    apply list_elem_of_fmap_1 in Hin as (revno & -> & Hin).
    by exists revno.
  - intros dotted rid Hl. by rewrite lookup_empty in Hl.
Qed.

Lemma get_revision_ids_stored_witness :
  let q := Querier.init schema.empty
             (Scenario.branch_at Scenario.merged_branch "C") in
  let r := result_or (Querier.get_revision_ids 30 [[1; 1; 1]; [7]] q)
                     (∅, q) in
  r.1 = {[[1; 1; 1] := "B"]}
  ∧ ∃ q1, Querier.ensure_branch_tip 30 q = Ok q1
          ∧ ∀ dotted rid, r.1 !! dotted = Some rid →
                          dotted ∈ [[1; 1; 1]; [7]]
                          ∧ revno_of_revision (reads q1) dotted rid.
Proof.
  intros q r. split; [vm_compute; reflexivity|].
  apply (get_revision_ids_stored 30 [[1; 1; 1]; [7]] q r.2).
  vm_compute; reflexivity.
Defined.


(** ** The gdfo of new revisions *)

Lemma max_parent_gdfo_spec (known : gmap string Z) parent_ids : ∀ m0 m,
  Importer.max_parent_gdfo known parent_ids m0 = Some m →
  ∃ gs, Forall2 (λ p gp, known !! p = Some gp) parent_ids gs
        ∧ m0 ≤ m
        ∧ Forall (λ gp, gp ≤ m) gs
        ∧ (m = m0 ∨ m ∈ gs).
Proof.
  induction parent_ids as [|p ps IH]; intros m0 m; simpl.
  - intros [= <-]. exists []. repeat split; [constructor|lia|constructor|by left].
  - destruct (known !! p) as [g|] eqn:Hp; [|discriminate].
    intros Hrun. apply IH in Hrun as (gs & Hgs & Hle & Hall & Hm).
    exists (g :: gs).
    destruct (m0 <? g) eqn:Hlt;
      [apply Z.ltb_lt in Hlt|apply Z.ltb_ge in Hlt].
    + repeat split; [by constructor|lia|constructor; [lia|done]|].
      destruct Hm as [->|Hm]; right; [by left|by right].
    + repeat split; [by constructor|lia|constructor; [lia|done]|].
      destruct Hm as [->|Hm]; [by left|right; by right].
Qed.

Lemma gdfo_from_parents_weaken parent_map (known known' : gmap string Z) r g :
  known ⊆ known' →
  gdfo_from_parents parent_map known r g →
  gdfo_from_parents parent_map known' r g.
Proof.
  intros Hsub (ps & gs & Hps & Hgs & Hlt & Hg).
  exists ps, gs. repeat split; try done.
  eapply Forall2_impl; [exact Hgs|]. simpl. intros p gp Hp.
  by eapply lookup_weaken.
Qed.


Lemma gdfo_added_refl parent_map known0 d0 :
  gdfo_added parent_map known0 d0 d0 known0.
Proof.
  split; [done|]. split.
  - intros r g Hr Hnone. congruence.
  - exists []. by rewrite app_nil_r.
Qed.

Lemma gdfo_added_child parent_map known0 d0 d known child parent_ids m d' :
  gdfo_added parent_map known0 d0 d known →
  known !! child = None →
  parent_map !! child = Some parent_ids →
  Importer.max_parent_gdfo known parent_ids (-1) = Some m →
  schema.insert_revision child (m + 1) d = Ok d' →
  gdfo_added parent_map known0 d0 d' (<[child := m + 1]> known).
Proof.
  intros (Hsub & Hnew & rows & Hrows & Hall) Hchild Hps Hmax Hins.
  unfold schema.insert_revision in Hins.
  case_bool_decide; [discriminate|]. injection Hins as <-. simpl.
  assert (known ⊆ <[child := m + 1]> known) as Hsub'
    by by apply insert_subseteq.
  split; [by etrans|]. split.
  - intros r g Hr Hnone. destruct (decide (r = child)) as [->|Hne].
    + rewrite lookup_insert_eq in Hr. injection Hr as <-. split.
      * apply (gdfo_from_parents_weaken _ known); [done|].
        apply max_parent_gdfo_spec in Hmax as (gs & Hgs & Hle & Hle' & Hm).
        exists parent_ids, gs. repeat split; [done..| |].
        -- eapply Forall_impl; [exact Hle'|]. simpl. lia.
        -- destruct Hm as [->|Hm]; [by left|right].
           by replace (m + 1 - 1) with m by lia.
      * eexists. split; [apply elem_of_app; right; apply list_elem_of_here|].
        done.
    + rewrite lookup_insert_ne in Hr by done.
      destruct (Hnew r g Hr Hnone) as [Hg (row & Hin & Hrow)]. split.
      * by apply (gdfo_from_parents_weaken _ known).
      * exists row. split; [apply elem_of_app; by left|done].
  - exists (rows ++ [schema.mk_revision
                       (Z.of_nat (length (schema.t_revision d)) + 1)
                       child (m + 1)]).
    split; [by rewrite Hrows, app_assoc|].
    apply Forall_app. split.
    + eapply Forall_impl; [exact Hall|]. simpl. intros row [H0 Hk].
      split; [done|]. by eapply lookup_weaken.
    + constructor; [|constructor]. simpl. split.
      * by eapply lookup_weaken_None.
      * by rewrite lookup_insert_eq.
Qed.

Lemma compute_gdfo_loop_added parent_map known0 d0 children fuel :
  ∀ d known pending d' known',
  gdfo_added parent_map known0 d0 d known →
  Importer.compute_gdfo_loop fuel children parent_map (d, known, pending)
  = Ok (d', known') →
  gdfo_added parent_map known0 d0 d' known'.
Proof.
  induction fuel as [|fuel IH]; intros d known pending d' known' Hinv; simpl.
  - destruct pending as [|[g r] pending]; [|discriminate].
    by intros [= <- <-].
  - destruct pending as [|[g r] pending]; [by intros [= <- <-]|].
    intros Hrun. apply bind_Ok in Hrun as ([[d1 known1] pending1] & H1 & Hrun).
    eapply IH; [|exact Hrun].
    apply (for_each_inv
             (λ st, gdfo_added parent_map known0 d0 st.1.1 st.1.2)
             _ _ _ _) in H1; [done| |done].
    clear. intros [[d known] pending] child [[d' known'] pending'] Hinv.
    simpl in *. destruct (known !! child) as [gc|] eqn:Hchild.
    { destruct (g <? gc); [|discriminate]. by intros [= <- <- <-]. }
    intros Hrun. apply bind_Ok in Hrun as (parent_ids & Hps & Hrun).
    unfold getitem in Hps.
    destruct (parent_map !! child) as [ps|] eqn:Hlook; [|discriminate].
    injection Hps as ->.
    destruct (Importer.max_parent_gdfo known parent_ids (-1)) as [m|] eqn:Hmax;
      [|by injection Hrun as <- <- <-].
    apply bind_Ok in Hrun as (d1 & Hins & [= <- <- <-]).
    by eapply gdfo_added_child.
Qed.

(** X13: [_compute_gdfo_and_insert] changes no gdfo that was known, and
    gives every revision it adds one more than the largest gdfo of its
    parents.  For each revision it adds, all the parents (those of
    [parent_map]) have a known gdfo by then, each smaller than the gdfo
    of the revision, which is one more than one of them; exactly one row
    of [revision] is appended for it, with that gdfo; the rows that were
    there stay as they are. *)
Theorem compute_gdfo_from_parents (fuel : nat) (a : Importer.ancestors)
    (s s' : Importer.t) (known' : gmap string Z) :
  Importer._compute_gdfo_and_insert fuel a s = Ok (known', s') →
  gdfo_added (Importer.parent_map a) (Importer.known a)
             (Importer._cursor s) (Importer._cursor s') known'.
Proof.
  unfold Importer._compute_gdfo_and_insert. intros Hrun.
  apply bind_Ok in Hrun as ([d known1] & Hloop & Hrun).
  apply (compute_gdfo_loop_added _ (Importer.known a) (Importer._cursor s))
    in Hloop; [|apply gdfo_added_refl].
  destruct (Importer._graph s).
  - case_bool_decide; [|discriminate]. by injection Hrun as <- <-.
  - by injection Hrun as <- <-.
Qed.

Lemma compute_gdfo_from_parents_witness :
  let r := result_or
             (Importer._compute_gdfo_and_insert 30 S1_ancestors.1
                                                S1_ancestors.2)
             (∅, S1_ancestors.2) in
  (Importer.known S1_ancestors.1 = {["A" := 1]}
   ∧ r.1 = {["A" := 1; "B" := 2; "C" := 3; "D" := 4]})
  ∧ gdfo_added (Importer.parent_map S1_ancestors.1)
               (Importer.known S1_ancestors.1)
               (Importer._cursor S1_ancestors.2) (Importer._cursor r.2) r.1.
Proof.
  intros r. split; [split; vm_compute; reflexivity|].
  apply (compute_gdfo_from_parents 30 S1_ancestors.1 S1_ancestors.2).
  vm_compute; reflexivity.
Defined.


(** ** The ancestry that is found *)

Lemma select_revision_app d rows rev_id :
  schema.select_revision
    (schema.with_revision (schema.t_revision d ++ rows) d) rev_id
  = match schema.select_revision d rev_id with
    | Some r => Some r
    | None => hd_error (filter (λ r, schema.revision_id r = rev_id) rows)
    end.
Proof.
  unfold schema.select_revision. simpl. rewrite filter_app.
  by destruct (filter _ (schema.t_revision d)).
Qed.

Lemma select_revision_None d rev_id :
  schema.select_revision d rev_id = None
  ↔ ¬ Exists (λ r, schema.revision_id r = rev_id) (schema.t_revision d).
Proof.
  unfold schema.select_revision. rewrite Exists_exists. split.
  - intros Hnone (r & Hin & Hr).
    assert (r ∈ filter (λ r, schema.revision_id r = rev_id)
                       (schema.t_revision d)) as Hf
      by by apply list_elem_of_filter.
    destruct (filter _ _); [by apply elem_of_nil in Hf|done].
  - intros Hnot.
    destruct (filter _ _) as [|r l] eqn:Hf; [done|]. destruct Hnot.
    assert (r ∈ filter (λ r, schema.revision_id r = rev_id)
                       (schema.t_revision d)) as Hin
      by (rewrite Hf; apply list_elem_of_here).
    apply list_elem_of_filter in Hin as [? ?]. by exists r.
Qed.

Lemma select_revision_prefix d0 d rows rev_id :
  schema.t_revision d = schema.t_revision d0 ++ rows →
  schema.select_revision d rev_id = None →
  schema.select_revision d0 rev_id = None.
Proof.
  unfold schema.select_revision. intros ->. rewrite filter_app.
  by destruct (filter _ (schema.t_revision d0)).
Qed.

Lemma insert_revision_row rev_id g d d' :
  schema.insert_revision rev_id g d = Ok d' →
  schema.select_revision d rev_id = None
  ∧ d' = schema.with_revision
           (schema.t_revision d
            ++ [schema.mk_revision
                  (Z.of_nat (length (schema.t_revision d)) + 1) rev_id g]) d.
Proof.
  unfold schema.insert_revision. case_bool_decide as Hex; [discriminate|].
  intros [= <-]. split; [by apply select_revision_None|done].
Qed.

Lemma select_revision_inserted d row rev_id :
  schema.select_revision
    (schema.with_revision (schema.t_revision d ++ [row]) d) rev_id
  = match schema.select_revision d rev_id with
    | Some r => Some r
    | None => if decide (schema.revision_id row = rev_id)
              then Some row else None
    end.
Proof.
  rewrite select_revision_app. destruct (schema.select_revision d rev_id);
    [done|].
  simpl. rewrite filter_cons. by destruct (decide _).
Qed.

Lemma insert_ghost_rows rev_id d d' :
  schema.insert_ghost rev_id d = Ok d' →
  schema.t_revision d' = schema.t_revision d
  ∧ schema.t_parent d' = schema.t_parent d
  ∧ schema.t_ghost d'
    = schema.t_ghost d
      ++ (schema.db_id <$> filter (λ r, schema.revision_id r = rev_id)
                                  (schema.t_revision d)).
Proof.
  unfold schema.insert_ghost. case_bool_decide; [discriminate|].
  by intros [= <-].
Qed.

Lemma found_children_foldl (known : gmap string Z) (rev_id : string)
    (ps : list string) :
  ∀ st : list string * gset string * gmap string (list string),
  let r :=
    foldl (λ '(needed, all_needed, children) parent_id,
      let '(needed, all_needed) :=
        if bool_decide (is_Some (known !! parent_id))
        then (needed, all_needed)
        else if bool_decide (parent_id ∈ all_needed)
        then (needed, all_needed)
        else (parent_id :: needed, all_needed ∪ {[parent_id]}) in
      (needed, all_needed,
       <[parent_id := default [] (children !! parent_id) ++ [rev_id]]>
         children))
      st ps in
  ∀ p c, c ∈ default [] (r.2 !! p) →
         c ∈ default [] (st.2 !! p) ∨ (c = rev_id ∧ p ∈ ps).
Proof.
  induction ps as [|p0 ps IH]; intros st; simpl.
  - intros p c Hin. by left.
  - intros p c Hin. apply IH in Hin as [Hold|[-> Hps]].
    + assert (c ∈ default [] ((<[p0 := default [] (st.2 !! p0) ++ [rev_id]]>
                                 st.2) !! p)) as Hold'.
      { destruct st as [[needed all_needed] children]. simpl.
        destruct (bool_decide (is_Some (known !! p0))); [done|].
        by destruct (bool_decide (p0 ∈ all_needed)). }
      clear Hold. destruct (decide (p = p0)) as [->|Hne].
      * rewrite lookup_insert_eq in Hold'. simpl in Hold'.
        apply elem_of_app in Hold' as [Hold|Hnew]; [by left|].
        apply list_elem_of_singleton in Hnew as ->. right.
        split; [done|apply list_elem_of_here].
      * rewrite lookup_insert_ne in Hold' by done. by left.
    + right. split; [done|by apply list_elem_of_further].
Qed.

Lemma select_revision_rows d d' rows rev_id :
  schema.t_revision d' = schema.t_revision d ++ rows →
  schema.select_revision d' rev_id
  = match schema.select_revision d rev_id with
    | Some r => Some r
    | None => hd_error (filter (λ r, schema.revision_id r = rev_id) rows)
    end.
Proof.
  unfold schema.select_revision. intros ->. rewrite filter_app.
  by destruct (filter _ (schema.t_revision d)).
Qed.

Lemma ancestry_found_select b d0 d needed all_needed children parent_map
    known needed' all_needed' rev_id r :
  schema.select_revision d rev_id = Some r →
  ancestry_found b d0 d
    (Importer.mk_ancestors needed all_needed children parent_map known) →
  ancestry_found b d0 d
    (Importer.mk_ancestors needed' all_needed' children parent_map
       (<[rev_id := schema.gdfo r]> known)).
Proof.
  intros Hsel (Hknown & Hpm & Hch & Hrows & Hparent).
  split; [|done]. simpl in *. intros r0 g Hl.
  destruct (decide (r0 = rev_id)) as [->|Hne].
  - rewrite lookup_insert_eq in Hl. injection Hl as <-. by exists r.
  - rewrite lookup_insert_ne in Hl by done. by apply Hknown.
Qed.

Lemma ancestry_found_inserted b d0 d d' needed all_needed children parent_map
    known needed' all_needed' parent_map' rev_id row :
  schema.select_revision d rev_id = None →
  (get_parent_map b rev_id = None
   ∨ get_parent_map b rev_id = Some NULL_PARENTS) →
  schema.t_revision d' = schema.t_revision d ++ [row] →
  schema.revision_id row = rev_id →
  schema.gdfo row = 1 →
  schema.t_parent d' = schema.t_parent d →
  (∀ id, id ∈ schema.t_ghost d → id ∈ schema.t_ghost d') →
  (get_parent_map b rev_id = None → schema.db_id row ∈ schema.t_ghost d') →
  parent_map' !! rev_id = Some [] →
  (∀ r, r ≠ rev_id → parent_map' !! r = parent_map !! r) →
  ancestry_found b d0 d
    (Importer.mk_ancestors needed all_needed children parent_map known) →
  ancestry_found b d0 d'
    (Importer.mk_ancestors needed' all_needed' children parent_map' known).
Proof.
  intros Hsel Hget Hrev Hid Hgdfo Hpar Hghost Hisghost Hnew Hother
         (Hknown & Hpm & Hch & (rows & Hrows & Hone) & Hparent).
  simpl in *.
  assert (∀ r x, schema.select_revision d r = Some x →
                 schema.select_revision d' r = Some x) as Hstable.
  { intros r x Hr. by rewrite (select_revision_rows d d' [row]), Hr. }
  assert (schema.select_revision d' rev_id = Some row) as Hrow.
  { rewrite (select_revision_rows d d' [row]), Hsel by done.
    simpl. by rewrite filter_cons_True. }
  assert (∀ r, r ≠ rev_id → schema.select_revision d r = None →
               schema.select_revision d' r = None) as Hnone.
  { intros r Hne Hr. rewrite (select_revision_rows d d' [row]), Hr by done.
    simpl. rewrite filter_cons_False; [done|]. congruence. }
  split; [|split; [|split; [|split]]]; simpl.
  - intros r g Hl. destruct (Hknown r g Hl) as (x & Hx & Hg).
    exists x. split; [by apply Hstable|done].
  - intros r ps Hl. destruct (decide (r = rev_id)) as [->|Hne].
    + rewrite Hnew in Hl. injection Hl as <-. split.
      * by eapply select_revision_prefix.
      * left. repeat split; [done|]. by exists row.
    + rewrite Hother in Hl by done.
      destruct (Hpm r ps Hl) as [H0 [(-> & Hg & x & Hx & Hx1 & Hxg)|
                                     (Hg & Hnull & Hx)]].
      * split; [done|]. left. repeat split; [done|].
        exists x. repeat split; [by apply Hstable|done|].
        intros Hn. by apply Hghost, Hxg.
      * split; [done|]. right. repeat split; [done..|]. by apply Hnone.
  - intros p c Hin. destruct (Hch p c Hin) as (ps & Hl & Hp).
    destruct (decide (c = rev_id)) as [->|Hne].
    + destruct (Hpm rev_id ps Hl) as [_ [(-> & _)|(Hg & Hnull & _)]].
      * by apply elem_of_nil in Hp.
      * destruct Hget as [Hget|Hget]; congruence.
    + exists ps. by rewrite Hother.
  - exists (rows ++ [row]). split; [by rewrite Hrev, Hrows, app_assoc|].
    apply Forall_app. split; [done|]. constructor; [|constructor].
    rewrite Hid. repeat split; [done..|]. by eapply select_revision_prefix.
  - congruence.
Qed.

Lemma ancestry_found_parents b d0 d needed all_needed children parent_map
    known needed' all_needed' children' rev_id ps :
  schema.select_revision d rev_id = None →
  get_parent_map b rev_id = Some ps →
  ps ≠ NULL_PARENTS →
  (∀ p c, c ∈ default [] (children' !! p) →
          c ∈ default [] (children !! p) ∨ (c = rev_id ∧ p ∈ ps)) →
  ancestry_found b d0 d
    (Importer.mk_ancestors needed all_needed children parent_map known) →
  ancestry_found b d0 d
    (Importer.mk_ancestors needed' all_needed' children'
       (<[rev_id := ps]> parent_map) known).
Proof.
  intros Hsel Hget Hnull Hch'
         (Hknown & Hpm & Hch & (rows & Hrows & Hone) & Hparent).
  simpl in *. split; [|split; [|split; [|split]]]; simpl;
    [done| | |by exists rows|done].
  - intros r ps0 Hl. destruct (decide (r = rev_id)) as [->|Hne].
    + rewrite lookup_insert_eq in Hl. injection Hl as <-. split.
      * by eapply select_revision_prefix.
      * by right.
    + rewrite lookup_insert_ne in Hl by done. by apply Hpm.
  - intros p c Hin. destruct (Hch' p c Hin) as [Hold|[-> Hp]].
    + destruct (Hch p c Hold) as (ps0 & Hl & Hp).
      destruct (decide (c = rev_id)) as [->|Hne].
      * exists ps. rewrite lookup_insert_eq. split; [done|].
        destruct (Hpm rev_id ps0 Hl) as [_ [(-> & _)|(Hg & _)]].
        -- by apply elem_of_nil in Hp.
        -- congruence.
      * exists ps0. by rewrite lookup_insert_ne.
    + exists ps. by rewrite lookup_insert_eq.
Qed.

Lemma find_known_ancestors_loop_found b d0 fuel : ∀ d a d' a',
  ancestry_found b d0 d a →
  Importer.find_known_ancestors_loop fuel b d a = Ok (d', a') →
  ancestry_found b d0 d' a'.
Proof.
  induction fuel as [|fuel IH];
    intros d [needed all_needed children parent_map known] d' a' Hinv;
    simpl; (destruct needed as [|rev_id needed]; [by intros [= <- <-]|]);
    [discriminate|].
  case_bool_decide as Hknown.
  { apply IH. exact Hinv. }
  destruct (schema.select_revision d rev_id) as [r|] eqn:Hsel.
  { apply IH. by eapply ancestry_found_select. }
  destruct (get_parent_map b rev_id) as [ps|] eqn:Hget.
  - case_bool_decide as Hnull.
    + intros Hrun. apply bind_Ok in Hrun as (d1 & Hins & Hrun).
      apply insert_revision_row in Hins as [_ ->].
      eapply IH; [|exact Hrun].
      eapply (ancestry_found_inserted b d0 d); try exact Hinv; try done.
      * right. by rewrite Hget, Hnull.
      * intros Hnone. congruence.
      * by rewrite lookup_insert_eq.
      * intros r0 Hne. by rewrite !lookup_insert_ne.
    + pose proof (found_children_foldl known rev_id ps
                    (needed, all_needed, children)) as Hfold.
      simpl in Hfold.
      destruct (foldl _ (needed, all_needed, children) ps)
        as [[needed' all_needed'] children'].
      apply IH. by eapply ancestry_found_parents.
  - intros Hrun. apply bind_Ok in Hrun as (d1 & Hins & Hrun).
    apply bind_Ok in Hrun as (d2 & Hghost & Hrun).
    apply insert_revision_row in Hins as [_ ->].
    apply insert_ghost_rows in Hghost as (Hrev2 & Hpar2 & Hgh2).
    simpl in Hrev2, Hpar2, Hgh2.
    eapply IH; [|exact Hrun].
    eapply (ancestry_found_inserted b d0 d); try exact Hinv; try done.
    + by left.
    + intros id Hin. rewrite Hgh2. apply elem_of_app. by left.
    + intros _. rewrite Hgh2. apply elem_of_app. right.
      rewrite filter_app, fmap_app. apply elem_of_app. right.
      rewrite filter_cons_True by done. apply list_elem_of_here.
    + by rewrite lookup_insert_eq.
    + intros r0 Hne. by rewrite lookup_insert_ne.
Qed.

Lemma ancestry_found_start b d needed all_needed :
  ancestry_found b d d (Importer.mk_ancestors needed all_needed ∅ ∅ ∅).
Proof.
  split; [|split; [|split; [|split]]]; simpl.
  - intros r g Hl. by rewrite lookup_empty in Hl.
  - intros r ps Hl. by rewrite lookup_empty in Hl.
  - intros p c Hin. rewrite lookup_empty in Hin. by apply elem_of_nil in Hin.
  - exists []. by rewrite app_nil_r.
  - done.
Qed.

(** X14: what [_find_known_ancestors] returns.  Every known gdfo is the one
    the [revision] table has for the revision.  Every revision with an
    entry in [parent_map] was not in the database before; if the
    repository has no parents for it (a ghost, or [NULL_PARENTS]) its
    entry is empty and it is now recorded with gdfo 1, a ghost in [ghost]
    too; otherwise its entry is the parents the repository gives, and it
    is not recorded yet.  [children] has a revision under a parent only if
    [parent_map] has the parent among its parents.  The [revision] table
    has got rows with gdfo 1 after the ones it had, for revisions that
    were not in it and have no parents in the repository, and [parent] is
    as it was. *)
Theorem find_known_ancestors_found (fuel : nat) (new_tip_rev_id : string)
    (s s' : Importer.t) (a : Importer.ancestors) :
  Importer._find_known_ancestors fuel new_tip_rev_id s = Ok (a, s') →
  ancestry_found (Importer._branch s) (Importer._cursor s)
                 (Importer._cursor s') a.
Proof.
  unfold Importer._find_known_ancestors. intros Hrun.
  apply bind_Ok in Hrun as ([d a0] & Hloop & [= <- <-]).
  eapply find_known_ancestors_loop_found in Hloop; [exact Hloop|].
  apply ancestry_found_start.
Qed.

Lemma find_known_ancestors_found_witness :
  let s := Importer.init schema.empty
             (Scenario.branch_at Scenario.ghost_and_root "X") None true in
  let r := result_or (Importer._find_known_ancestors 30 "X" s)
                     (Importer.mk_ancestors [] ∅ ∅ ∅ ∅, s) in
  (Importer.known r.1 = {["G" := 1; "R" := 1]}
   ∧ Importer.parent_map r.1 = {["G" := []; "R" := []; "X" := ["G"; "R"]]}
   ∧ schema.t_ghost (Importer._cursor r.2) = [2])
  ∧ ancestry_found (Importer._branch s) (Importer._cursor s)
                   (Importer._cursor r.2) r.1.
Proof.
  intros s r.
  split; [split; [|split]; vm_compute; reflexivity|].
  apply (find_known_ancestors_found 30 "X" s r.2 r.1).
  vm_compute; reflexivity.
Defined.


(** ** The gdfo that is recorded *)

Lemma for_each_inv_in {A S} (P : S → Prop) (body : S → A → res S) (l : list A) :
  ∀ s s',
  (∀ s x s', x ∈ l → P s → body s x = Ok s' → P s') →
  P s → for_each body l s = Ok s' → P s'.
Proof.
  induction l as [|x l IH]; intros s s' Hbody Hs; simpl.
  - by intros [= <-].
  - intros H. apply bind_Ok in H as (s1 & H1 & H).
    eapply IH; [|eapply Hbody; [apply list_elem_of_here|done..]|done].
    intros s2 y s3 Hy. apply Hbody. by apply list_elem_of_further.
Qed.

Lemma recorded_gdfo_rows d d' rows rev_id g :
  schema.t_revision d' = schema.t_revision d ++ rows →
  recorded_gdfo d rev_id = Some g → recorded_gdfo d' rev_id = Some g.
Proof.
  unfold recorded_gdfo. intros Hrows Hg.
  rewrite (select_revision_rows d d' rows) by done.
  by destruct (schema.select_revision d rev_id).
Qed.

Lemma new_revision_gdfo_rows b d d' rows row :
  schema.t_revision d' = schema.t_revision d ++ rows →
  new_revision_gdfo b d row → new_revision_gdfo b d' row.
Proof.
  unfold new_revision_gdfo. intros Hrows.
  destruct (get_parent_map b _) as [ps|]; [|done].
  destruct (decide _); [done|]. intros (gs & Hgs & Hmax).
  exists gs. split; [|done]. eapply Forall2_impl; [exact Hgs|].
  simpl. intros p gp. by apply recorded_gdfo_rows with rows.
Qed.

Lemma revisions_numbered_refl b d : revisions_numbered b d d.
Proof. exists []. by rewrite app_nil_r. Qed.

Lemma select_revision_elem d rev_id row :
  schema.select_revision d rev_id = Some row →
  row ∈ schema.t_revision d ∧ schema.revision_id row = rev_id.
Proof.
  unfold schema.select_revision. intros H.
  apply and_comm, (list_elem_of_filter (λ r, schema.revision_id r = rev_id)).
  destruct (filter _ _); [done|]. injection H as ->. apply list_elem_of_here.
Qed.

(** A child gets its gdfo. *)
Lemma gdfo_computed_child b d0 d1 a d known child rev_id parent_ids m d' :
  ancestry_found b d0 d1 a →
  gdfo_computed b d1 d known →
  child ∈ default [] (Importer.children a !! rev_id) →
  known !! child = None →
  Importer.parent_map a !! child = Some parent_ids →
  Importer.max_parent_gdfo known parent_ids (-1) = Some m →
  schema.insert_revision child (m + 1) d = Ok d' →
  gdfo_computed b d1 d' (<[child := m + 1]> known).
Proof.
  intros (_ & Hpm & Hch & _) (Hknown & rows & Hrows & Hall)
         Hchild Hnone Hps Hmax Hins.
  apply insert_revision_row in Hins as [Hsel ->].
  set (row := schema.mk_revision _ child (m + 1)).
  set (d' := schema.with_revision _ d).
  assert (schema.t_revision d' = schema.t_revision d ++ [row]) as Hd' by done.
  destruct (Hch _ _ Hchild) as (ps' & Hps' & Hin).
  rewrite Hps in Hps'. injection Hps' as <-.
  destruct (Hpm _ _ Hps) as [_ [(-> & _)|(Hget & Hnull & Hsel1)]];
    [by apply elem_of_nil in Hin|].
  apply max_parent_gdfo_spec in Hmax as (gs & Hgs & Hle & Hle' & Hm).
  assert (Forall (λ gp, 1 ≤ gp) gs) as Hpos.
  { clear -Hgs Hknown. induction Hgs as [|p gp ps gs Hp _ IH]; constructor;
      [|done]. by destruct (Hknown p gp Hp). }
  assert (is_max m gs) as Hismax.
  { split; [|done]. destruct Hm as [->|Hm]; [|done].
    destruct Hgs as [|p gp ps gs Hp Hgs']; [by apply elem_of_nil in Hin|].
    inversion_clear Hpos as [|? ? Hgp _]. inversion_clear Hle' as [|? ? Hgp' _].
    lia. }
  assert (1 ≤ m) as Hm1.
  { destruct Hismax as [Hmin _]. by apply (proj1 (Forall_forall _ _) Hpos). }
  split.
  - intros r g Hl. destruct (decide (r = child)) as [->|Hne].
    + rewrite lookup_insert_eq in Hl. injection Hl as <-.
      split; [|lia]. unfold recorded_gdfo.
      rewrite (select_revision_rows d d' [row]), Hsel by done.
      simpl. by rewrite filter_cons_True.
    + rewrite lookup_insert_ne in Hl by done.
      destruct (Hknown r g Hl) as [Hrec Hg]. split; [|done].
      by apply recorded_gdfo_rows with d [row].
  - exists (rows ++ [row]). split; [by rewrite Hd', Hrows, app_assoc|].
    apply Forall_app. split.
    + eapply Forall_impl; [exact Hall|]. simpl. intros x (Hx1 & Hx0 & Hx).
      repeat split; [done..|]. by apply new_revision_gdfo_rows with d [row].
    + constructor; [|constructor]. simpl. repeat split; [lia|done|].
      unfold new_revision_gdfo. simpl. rewrite Hget.
      rewrite decide_False by done. exists gs. split.
      * eapply Forall2_impl; [exact Hgs|]. simpl. intros p gp Hp.
        destruct (Hknown p gp Hp) as [Hrec _].
        by apply recorded_gdfo_rows with d [row].
      * by replace (m + 1 - 1) with m by lia.
Qed.

Lemma compute_gdfo_loop_computed b d0 d1 a fuel : ∀ d known pending d' known',
  ancestry_found b d0 d1 a →
  gdfo_computed b d1 d known →
  Importer.compute_gdfo_loop fuel (Importer.children a)
    (Importer.parent_map a) (d, known, pending) = Ok (d', known') →
  gdfo_computed b d1 d' known'.
Proof.
  induction fuel as [|fuel IH]; intros d known pending d' known' Hfound Hinv;
    simpl.
  - destruct pending as [|[g r] pending]; [|discriminate].
    by intros [= <- <-].
  - destruct pending as [|[g r] pending]; [by intros [= <- <-]|].
    intros Hrun. apply bind_Ok in Hrun as ([[d2 known2] pending2] & H2 & Hrun).
    eapply IH; [done| |exact Hrun].
    apply (for_each_inv_in (λ st, gdfo_computed b d1 st.1.1 st.1.2) _ _ _ _)
      in H2; [done| |done].
    clear -Hfound. intros [[d known] pending] child [[d' known'] pending'].
    simpl. intros Hchild Hinv.
    destruct (known !! child) as [gc|] eqn:Hknown.
    { destruct (g <? gc); [|discriminate]. by intros [= <- <- <-]. }
    intros Hrun. apply bind_Ok in Hrun as (parent_ids & Hps & Hrun).
    unfold getitem in Hps.
    destruct (Importer.parent_map a !! child) as [ps|] eqn:Hlook;
      [|discriminate].
    injection Hps as ->.
    destruct (Importer.max_parent_gdfo known parent_ids (-1)) as [m|] eqn:Hmax;
      [|by injection Hrun as <- <- <-].
    apply bind_Ok in Hrun as (d2 & Hins & [= <- <- <-]).
    by eapply gdfo_computed_child.
Qed.

Lemma ensure_revisions_no_graph revision_ids st st' :
  schema.ensure_revisions revision_ids None st = Ok st' →
  st'.1.1 = st.1.1.
Proof.
  unfold schema.ensure_revisions. intros Hrun.
  apply (for_each_inv (λ x, x.1.1 = st.1.1) _ _ _ _) in Hrun; [done| |done].
  clear. intros [[d m1] m2] rev_id [[d' m1'] m2']. simpl. intros Hd.
  destruct (m1 !! rev_id); [by intros [= <- <- <-]|].
  intros Hrun. apply bind_Ok in Hrun as (d1 & H1 & Hrun).
  destruct (schema.select_revision d rev_id); [|discriminate].
  injection H1 as <-.
  destruct (schema.select_revision d rev_id); [|discriminate].
  by injection Hrun as <- <- <-.
Qed.

Lemma insert_parent_map_revisions parent_map s s' :
  Importer._graph s = None →
  Importer._insert_parent_map parent_map s = Ok s' →
  schema.t_revision (Importer._cursor s')
  = schema.t_revision (Importer._cursor s).
Proof.
  unfold Importer._insert_parent_map. intros Hgraph Hrun.
  apply bind_Ok in Hrun as (s1 & H1 & Hrun).
  assert (Importer._cursor s1 = Importer._cursor s) as Hs1.
  { unfold Importer._ensure_revisions in H1. rewrite Hgraph in H1.
    apply bind_Ok in H1 as ([[d m1] m2] & H1 & [= <-]).
    by apply ensure_revisions_no_graph in H1. }
  apply bind_Ok in Hrun as ([data s2] & H2 & [= <-]).
  assert (Importer._cursor s2 = Importer._cursor s1) as Hs2.
  { apply (for_each_inv (λ st, Importer._cursor st.2 = Importer._cursor s1)
             _ _ _ _) in H2; [done| |done].
    clear. intros [data s] [rev_id parent_ids] [data' s']. simpl.
    intros Hs Hrun. apply bind_Ok in Hrun as (db_id & _ & Hrun).
    destruct (Importer._db_parent_map s !! db_id); [by injection Hrun as <- <-|].
    apply bind_Ok in Hrun as (ids & _ & [= <- <-]). done. }
  unfold Importer._cursor, Importer.set_cursor in *. simpl.
  rewrite <- Hs1, <- Hs2.
  generalize (cursor (Importer._db_conn s2)).
  induction (sort_with _ data) as [|[[c p] i] l IH]; intros d; simpl; [done|].
  rewrite IH. unfold schema.insert_or_ignore_parent.
  by case_bool_decide.
Qed.

(** The first two steps of [_update_ancestry]. *)
Lemma ancestry_numbered fuel new_tip_rev_id s a s1 known s2 :
  Importer._graph s = None →
  Forall (λ row, 1 ≤ schema.gdfo row) (schema.t_revision (Importer._cursor s)) →
  Importer._find_known_ancestors fuel new_tip_rev_id s = Ok (a, s1) →
  Importer._compute_gdfo_and_insert fuel a s1 = Ok (known, s2) →
  ancestry_found (Importer._branch s) (Importer._cursor s)
                 (Importer._cursor s1) a
  ∧ revisions_numbered (Importer._branch s) (Importer._cursor s)
                       (Importer._cursor s2)
  ∧ Importer._graph s2 = None
  ∧ Importer._rev_id_to_db_id s2 = Importer._rev_id_to_db_id s
  ∧ Importer._db_parent_map s2 = Importer._db_parent_map s.
Proof.
  intros Hgraph Hpos Hfind Hcompute.
  assert (Importer._graph s1 = None
          ∧ Importer._rev_id_to_db_id s1 = Importer._rev_id_to_db_id s
          ∧ Importer._db_parent_map s1 = Importer._db_parent_map s)
    as (Hgraph1 & Hr1 & Hp1).
  { unfold Importer._find_known_ancestors in Hfind.
    apply bind_Ok in Hfind as ([d a0] & _ & [= _ <-]). done. }
  assert (ancestry_found (Importer._branch s) (Importer._cursor s)
            (Importer._cursor s1) a) as Hfound.
  { unfold Importer._find_known_ancestors in Hfind.
    apply bind_Ok in Hfind as ([d a0] & Hloop & [= <- <-]).
    eapply find_known_ancestors_loop_found; [|exact Hloop].
    apply ancestry_found_start. }
  split; [done|].
  unfold Importer._compute_gdfo_and_insert in Hcompute.
  apply bind_Ok in Hcompute as ([d2 known2] & Hloop & Hcompute).
  rewrite Hgraph1 in Hcompute. injection Hcompute as <- <-.
  split; [|done].
  pose proof Hfound as (Hknown & _ & _ & (rows1 & Hrows1 & Hall1) & _).
  apply (compute_gdfo_loop_computed (Importer._branch s) (Importer._cursor s)
           (Importer._cursor s1)) in Hloop; [|done|].
  - destruct Hloop as (_ & rows2 & Hrows2 & Hall2).
    exists (rows1 ++ rows2).
    assert (Importer._cursor (Importer.set_cursor d2 s1) = d2) as -> by done.
    split; [by rewrite Hrows2, Hrows1, app_assoc|].
    apply Forall_app. split.
    + eapply Forall_impl; [exact Hall1|]. simpl.
      intros row (Hone & Hget & Hnew). repeat split; [lia|done|].
      unfold new_revision_gdfo.
      destruct Hget as [->| ->]; [done|]. by rewrite decide_True.
    + eapply Forall_impl; [exact Hall2|]. simpl.
      intros row (Hone & Hnew & Hgdfo). repeat split; [done| |done].
      by eapply select_revision_prefix.
  - split; [|apply revisions_numbered_refl].
    intros r g Hl. destruct (Hknown r g Hl) as (row & Hsel & <-).
    unfold recorded_gdfo. rewrite Hsel. split; [done|].
    apply select_revision_elem in Hsel as [Hin _].
    rewrite Hrows1 in Hin. apply elem_of_app in Hin as [Hin|Hin].
    + by apply (proj1 (Forall_forall _ _) Hpos).
    + apply (proj1 (Forall_forall _ _) Hall1) in Hin as [-> _]. lia.
Qed.

Lemma revisions_numbered_ext b d0 d d' :
  schema.t_revision d' = schema.t_revision d →
  revisions_numbered b d0 d → revisions_numbered b d0 d'.
Proof.
  intros Heq (rows & Hrows & Hall). exists rows. split; [congruence|].
  eapply Forall_impl; [exact Hall|]. simpl.
  intros row (H1 & H0 & Hnew). repeat split; [done..|].
  apply new_revision_gdfo_rows with d []; [|done]. by rewrite app_nil_r.
Qed.

(** X15: the gdfo [_update_ancestry] records.  In an incremental import (no
    graph), on a database whose recorded gdfos are all at least 1, when
    [_update_ancestry] returns the [revision] table is the one it was
    followed by rows for revisions that were not in it; each new row has
    a gdfo of at least 1, which is 1 for a ghost and for a revision
    without parents, and otherwise one more than the largest gdfo recorded
    for its parents in the repository, all of which are recorded. *)
Theorem update_ancestry_gdfo (fuel : nat) (new_tip_rev_id : string)
    (s s' : Importer.t) :
  Importer._graph s = None →
  Forall (λ row, 1 ≤ schema.gdfo row) (schema.t_revision (Importer._cursor s)) →
  Importer._update_ancestry fuel new_tip_rev_id s = Ok s' →
  revisions_numbered (Importer._branch s) (Importer._cursor s)
                     (Importer._cursor s').
Proof.
  intros Hgraph Hpos. unfold Importer._update_ancestry. intros Hrun.
  apply bind_Ok in Hrun as ([a s1] & Hfind & Hrun).
  apply bind_Ok in Hrun as ([known s2] & Hcompute & Hrun).
  destruct (ancestry_numbered _ _ _ _ _ _ _ Hgraph Hpos Hfind Hcompute)
    as (_ & Hnumbered & Hgraph2 & _).
  apply insert_parent_map_revisions in Hrun; [|done].
  by apply revisions_numbered_ext with (Importer._cursor s2).
Qed.

Lemma update_ancestry_gdfo_witness :
  let s := Importer.init schema.empty
             (Scenario.branch_at Scenario.criss_cross "X") None true in
  let s' := result_or (Importer._update_ancestry 30 "X" s) s in
  schema.t_revision (Importer._cursor s')
  = [schema.mk_revision 1 "P" 1; schema.mk_revision 2 "Y" 2;
     schema.mk_revision 3 "X" 3]
  ∧ revisions_numbered (Importer._branch s) (Importer._cursor s)
                       (Importer._cursor s').
Proof.
  intros s s'. split; [vm_compute; reflexivity|].
  apply (update_ancestry_gdfo 30 "X" s s').
  - reflexivity.
  - constructor.
  - vm_compute; reflexivity.
Defined.


(** ** First children *)

(** X16: a parent has at most one first child in a walk.  Whatever
    [_is_first_child] answers for a parent, the parent is then among
    [_seen_parents] and asking again answers [False], changing nothing
    more. *)
Theorem is_first_child_once (parent_id : Z) (s s' : IncrementalMergeSort.t)
    (b : bool) :
  IncrementalMergeSort._is_first_child parent_id s = Ok (b, s') →
  parent_id ∈ IncrementalMergeSort._seen_parents s'
  ∧ IncrementalMergeSort._is_first_child parent_id s' = Ok (false, s').
Proof.
  unfold IncrementalMergeSort._is_first_child at 1. intros Hrun.
  assert (parent_id ∈ IncrementalMergeSort._seen_parents s') as Hseen.
  { case_bool_decide as Hin; [by injection Hrun as <- <-|].
    simpl in Hrun.
    destruct (IncrementalMergeSort._imported_dotted_revno s !! parent_id)
      as [[[revno eom] depth]|].
    - apply bind_Ok in Hrun as ([key mini] & _ & Hrun).
      destruct (mini <? _); injection Hrun as <- <-; simpl;
        apply elem_of_union_r, elem_of_singleton; reflexivity.
    - injection Hrun as <- <-. simpl.
      apply elem_of_union_r, elem_of_singleton; reflexivity. }
  split; [done|]. unfold IncrementalMergeSort._is_first_child.
  by rewrite bool_decide_eq_true_2.
Qed.

Lemma is_first_child_once_witness :
  let s := IncrementalMergeSort.init ∅ 9 in
  let r := result_or (IncrementalMergeSort._is_first_child 5 s) (false, s) in
  r.1 = true
  ∧ 5 ∈ IncrementalMergeSort._seen_parents r.2
  ∧ IncrementalMergeSort._is_first_child 5 r.2 = Ok (false, r.2).
Proof.
  intros s r. split; [vm_compute; reflexivity|].
  apply (is_first_child_once 5 s r.2 r.1). vm_compute; reflexivity.
Defined.


(** ** Search tips *)

Lemma tips_split_refl s : tips_split s s.
Proof. by repeat split. Qed.

Lemma tips_split_trans s1 s2 s3 :
  tips_split s1 s2 → tips_split s2 s3 → tips_split s1 s3.
Proof.
  intros (Ht1 & Hi1 & Hd1 & Hm1 & Hk1 & Hg1) (Ht2 & Hi2 & Hd2 & Hm2 & Hk2 & Hg2).
  repeat split; try congruence; by etrans.
Qed.

Lemma already_imported_split s s' db_id :
  tips_split s s' →
  IncrementalMergeSort.already_imported s' db_id
  = IncrementalMergeSort.already_imported s db_id.
Proof.
  intros (_ & _ & Hd & Hm & _). unfold IncrementalMergeSort.already_imported.
  by rewrite Hd, Hm.
Qed.

Lemma split_by_gdfo_later s s1 s2 still still' db_id :
  tips_split s s1 → tips_split s1 s2 → still ⊆ still' →
  split_by_gdfo s s1 still db_id → split_by_gdfo s s2 still' db_id.
Proof.
  intros _ (Ht & Hi & _) Hstill [[Himp Hnot]|[Himp (g & Hg & Hdec)]].
  - left. split; [done|]. intros Hin. apply Hnot. by apply Ht.
  - right. split; [done|]. exists g. split; [done|].
    destruct (ge_opt g _); [by apply Hi|by apply Hstill].
Qed.

Lemma split_search_tips_loop unknown : ∀ acc s still s',
  for_each (λ '(still_unknown, s) db_id,
    if IncrementalMergeSort.already_imported s db_id then
      if bool_decide (db_id ∈ IncrementalMergeSort._search_tips s)
      then Ok (still_unknown,
               IncrementalMergeSort.set_search_tips
                 (IncrementalMergeSort._search_tips s ∖ {[db_id]}) s)
      else Raise KeyError
    else
      gdfo ← getitem (IncrementalMergeSort._known_gdfo s) db_id;
      if ge_opt gdfo (IncrementalMergeSort._imported_gdfo s)
      then Ok (still_unknown,
               IncrementalMergeSort.set_interesting_ancestor_ids
                 (IncrementalMergeSort._interesting_ancestor_ids s ∪ {[db_id]})
                 s)
      else Ok (still_unknown ++ [db_id], s))
    unknown (acc, s) = Ok (still, s') →
  tips_split s s'
  ∧ ∃ new, still = acc ++ new
           ∧ new `sublist_of` unknown
           ∧ Forall (split_by_gdfo s s' new) unknown.
Proof.
  induction unknown as [|x unknown IH]; intros acc s still s'; simpl.
  - intros [= <- <-]. split; [apply tips_split_refl|].
    exists []. by rewrite app_nil_r.
  - intros Hrun. apply bind_Ok in Hrun as ([acc1 s1] & H1 & Hrun).
    apply IH in Hrun as (Hsplit & new & -> & Hsub & Hall).
    assert (tips_split s s1
            ∧ ∃ new1, acc1 = acc ++ new1 ∧ new1 `sublist_of` [x]
                      ∧ split_by_gdfo s s1 new1 x) as (Hs1 & new1 & -> & Hsub1 & Hx).
    { destruct (IncrementalMergeSort.already_imported s x) eqn:Himp.
      - case_bool_decide; [|discriminate]. injection H1 as <- <-. split.
        + repeat split; simpl; try done. apply subseteq_difference_l. done.
        + exists []. rewrite app_nil_r. split; [done|].
          split; [apply sublist_nil_l|]. left. split; [done|]. simpl.
          intros Hin. apply elem_of_difference in Hin as [_ Hin].
          apply Hin. by apply elem_of_singleton.
      - apply bind_Ok in H1 as (g & Hg & H1). unfold getitem in Hg.
        destruct (IncrementalMergeSort._known_gdfo s !! x) as [g0|] eqn:Hlook;
          [|discriminate].
        injection Hg as ->.
        destruct (ge_opt g _) eqn:Hge; injection H1 as <- <-.
        + split.
          * repeat split; simpl; try done. apply union_subseteq_l.
          * exists []. rewrite app_nil_r. split; [done|].
            split; [apply sublist_nil_l|]. right. split; [done|].
            exists g. split; [done|]. rewrite Hge. simpl.
            apply elem_of_union_r. by apply elem_of_singleton.
        + split; [apply tips_split_refl|].
          exists [x]. split; [done|]. split; [done|]. right.
          split; [done|]. exists g. split; [done|]. rewrite Hge.
          apply list_elem_of_here. }
    split; [by eapply tips_split_trans|].
    exists (new1 ++ new). split; [by rewrite app_assoc|]. split.
    + change (x :: unknown) with ([x] ++ unknown). by apply sublist_app.
    + constructor.
      * eapply split_by_gdfo_later; [done|done| |done].
        intros y Hy. apply elem_of_app. by left.
      * eapply Forall_impl; [exact Hall|]. simpl.
        intros y [[Himp Hnot]|[Himp (g & Hg & Hdec)]].
        -- left. split; [|done]. by rewrite <- (already_imported_split s s1).
        -- right. rewrite <- (already_imported_split s s1) by done.
           destruct Hs1 as (_ & _ & _ & _ & Hk & Hgd).
           rewrite <- Hk, <- Hgd. split; [done|]. exists g. split; [done|].
           destruct (ge_opt g _); [done|]. apply elem_of_app. by right.
Qed.

(** X17: [_split_search_tips_by_gdfo] decides every search tip it is given
    and forgets none.  The tips returned as still unknown are some of
    those given, in the same order; each tip given is already imported and
    has been taken out of [_search_tips], or has a gdfo at least that of
    the imported mainline and is now interesting, or has a smaller gdfo
    and is returned; search tips are only removed and interesting
    ancestors only added. *)
Theorem split_search_tips_by_gdfo_decides (unknown still_unknown : list Z)
    (s s' : IncrementalMergeSort.t) :
  IncrementalMergeSort._split_search_tips_by_gdfo unknown s
  = Ok (still_unknown, s') →
  still_unknown `sublist_of` unknown
  ∧ Forall (split_by_gdfo s s' still_unknown) unknown
  ∧ tips_split s s'.
Proof.
  unfold IncrementalMergeSort._split_search_tips_by_gdfo. intros Hrun.
  apply split_search_tips_loop in Hrun as (Hsplit & new & -> & Hsub & Hall).
  done.
Qed.

Lemma split_search_tips_by_gdfo_decides_witness :
  let s := IncrementalMergeSort.set_search_tips {[1; 2; 3]}
             (IncrementalMergeSort.set_known_gdfo {[2 := 7; 3 := 4]}
                (IncrementalMergeSort.set_imported_gdfo (Some 5)
                   (IncrementalMergeSort.set_imported_mainline_id (Some 1)
                      (IncrementalMergeSort.init ∅ 9)))) in
  let r := result_or
             (IncrementalMergeSort._split_search_tips_by_gdfo [1; 2; 3] s)
             ([], s) in
  (r.1 = [3]
   ∧ IncrementalMergeSort._search_tips r.2 = {[2; 3]}
   ∧ IncrementalMergeSort._interesting_ancestor_ids r.2 = {[2]})
  ∧ r.1 `sublist_of` [1; 2; 3]
  ∧ Forall (split_by_gdfo s r.2 r.1) [1; 2; 3]
  ∧ tips_split s r.2.
Proof.
  intros s r. split; [split; [|split]; vm_compute; reflexivity|].
  apply (split_search_tips_by_gdfo_decides [1; 2; 3] r.1 s r.2).
  vm_compute; reflexivity.
Defined.


(** ** The gdfo invariant of the store *)

Lemma revision_of_index d i row :
  keyed d → schema.t_revision d !! i = Some row →
  revision_of d (schema.db_id row) = Some row.
Proof.
  intros [Hdense _]. unfold revision_of.
  generalize (schema.t_revision d) i row Hdense. clear.
  intros l. induction l as [|x l IH] using rev_ind; intros i row Hdense Hi.
  { by rewrite lookup_nil in Hi. }
  rewrite filter_app.
  destruct (decide (i < length l)%nat) as [Hlt|Hge].
  - rewrite lookup_app_l in Hi by done.
    assert (hd_error (filter (λ r, schema.db_id r = schema.db_id row) l)
            = Some row) as Hl.
    { apply (IH i row); [|done]. intros j r Hj. apply Hdense.
      rewrite lookup_app_l; [done|]. by eapply lookup_lt_Some. }
    by destruct (filter _ l).
  - assert (i = length l) as ->.
    { apply lookup_lt_Some in Hi. rewrite length_app in Hi. simpl in Hi. lia. }
    rewrite lookup_app_r, Nat.sub_diag in Hi by done. injection Hi as ->.
    rewrite filter_none.
    + simpl. by rewrite filter_cons_True.
    + apply Forall_forall. intros y Hy Heq.
      apply list_elem_of_lookup in Hy as [j Hj].
      pose proof (lookup_lt_Some _ _ _ Hj) as Hlt.
      rewrite (Hdense j y) in Heq by (by rewrite lookup_app_l).
      rewrite (Hdense (length l) row) in Heq
        by (by rewrite lookup_app_r, Nat.sub_diag).
      lia.
Qed.

Lemma revision_of_elem d row :
  keyed d → row ∈ schema.t_revision d →
  revision_of d (schema.db_id row) = Some row.
Proof.
  intros Hkeyed Hin. apply list_elem_of_lookup in Hin as [i Hi].
  by eapply revision_of_index.
Qed.

Lemma revision_of_Some d id row :
  revision_of d id = Some row →
  row ∈ schema.t_revision d ∧ schema.db_id row = id.
Proof.
  unfold revision_of. intros H.
  apply and_comm, (list_elem_of_filter (λ r, schema.db_id r = id)).
  destruct (filter _ _); [done|]. injection H as ->. apply list_elem_of_here.
Qed.

Lemma revision_of_bound d id row :
  keyed d → revision_of d id = Some row →
  1 ≤ id ≤ Z.of_nat (length (schema.t_revision d)).
Proof.
  intros [Hdense _] Hrow. apply revision_of_Some in Hrow as [Hin <-].
  apply list_elem_of_lookup in Hin as [i Hi].
  rewrite (Hdense i row Hi). apply lookup_lt_Some in Hi. lia.
Qed.

Lemma revision_of_rows d d' rows id row :
  schema.t_revision d' = schema.t_revision d ++ rows →
  revision_of d id = Some row → revision_of d' id = Some row.
Proof.
  unfold revision_of. intros -> H. rewrite filter_app.
  by destruct (filter _ (schema.t_revision d)).
Qed.

Lemma keyed_insert d rev_id g :
  keyed d → schema.select_revision d rev_id = None →
  keyed (schema.with_revision
           (schema.t_revision d
            ++ [schema.mk_revision
                  (Z.of_nat (length (schema.t_revision d)) + 1) rev_id g]) d).
Proof.
  intros [Hdense Hnodup] Hsel. split; simpl.
  - intros i r Hi. destruct (decide (i < length (schema.t_revision d))%nat).
    + rewrite lookup_app_l in Hi by done. by apply Hdense.
    + pose proof (lookup_lt_Some _ _ _ Hi) as Hlt.
      rewrite length_app in Hlt. simpl in Hlt.
      assert (i = length (schema.t_revision d)) as -> by lia.
      rewrite lookup_app_r, Nat.sub_diag in Hi by done. by injection Hi as <-.
  - rewrite fmap_app. apply NoDup_app. split; [done|]. split.
    + intros x Hx Hx'. simpl in Hx'. apply list_elem_of_singleton in Hx' as ->.
      apply select_revision_None in Hsel. apply Hsel.
      apply list_elem_of_fmap_1 in Hx as (y & Hy & Hin).
      apply Exists_exists. by exists y.
    + simpl. apply NoDup_singleton.
Qed.

Lemma select_revision_of d rev_id row :
  keyed d → schema.select_revision d rev_id = Some row →
  revision_of d (schema.db_id row) = Some row.
Proof.
  intros Hkeyed Hsel. apply select_revision_elem in Hsel as [Hin _].
  by apply revision_of_elem.
Qed.

Lemma select_revision_unique d row :
  keyed d → row ∈ schema.t_revision d →
  schema.select_revision d (schema.revision_id row) = Some row.
Proof.
  intros [_ Hnodup] Hin. unfold schema.select_revision.
  generalize (schema.t_revision d) Hnodup Hin. clear. intros l.
  induction l as [|a l IH]; simpl; intros Hnd Hin;
    [by apply elem_of_nil in Hin|].
  apply NoDup_cons in Hnd as [Hnotin Hnd].
  apply elem_of_cons in Hin as [->|Hin].
  - by rewrite filter_cons_True.
  - rewrite filter_cons_False; [by apply IH|].
    intros Heq. apply Hnotin. rewrite Heq. by apply list_elem_of_fmap_2.
Qed.


Lemma store_extended_refl parent_map d : keyed d → store_extended parent_map d d.
Proof. intros Hk. split; [done|]. split; [done|]. split; intros; by left. Qed.

Lemma store_extended_parent_map parent_map parent_map' d0 d :
  (∀ r, is_Some (parent_map !! r) → is_Some (parent_map' !! r)) →
  store_extended parent_map d0 d → store_extended parent_map' d0 d.
Proof.
  intros Hpm (Hk & Hp & Hrows & Hgh). split; [done|]. split; [done|].
  split; [|done]. intros row Hin.
  destruct (Hrows row Hin) as [?|?]; [by left|right; by apply Hpm].
Qed.

Lemma store_extended_insert parent_map d0 d rev_id g d' :
  is_Some (parent_map !! rev_id) →
  store_extended parent_map d0 d →
  schema.insert_revision rev_id g d = Ok d' →
  store_extended parent_map d0 d'.
Proof.
  intros Hpm (Hk & Hp & Hrows & Hgh) Hins.
  apply insert_revision_row in Hins as [Hsel ->].
  split; [by apply keyed_insert|]. split; [done|]. split; simpl.
  - intros row Hin. apply elem_of_app in Hin as [Hin|Hin]; [by apply Hrows|].
    apply list_elem_of_singleton in Hin as ->. by right.
  - intros id Hin. destruct (Hgh id Hin) as [?|(row & Hrow & ? & ?)];
      [by left|right].
    exists row. split; [|done]. apply elem_of_app. by left.
Qed.

Lemma store_extended_ghost parent_map d0 d rev_id row d' :
  schema.select_revision d rev_id = Some row →
  schema.gdfo row = 1 →
  store_extended parent_map d0 d →
  schema.insert_ghost rev_id d = Ok d' →
  store_extended parent_map d0 d'.
Proof.
  intros Hsel Hone (Hk & Hp & Hrows & Hgh) Hins.
  apply insert_ghost_rows in Hins as (Hrev & Hpar & Hghost).
  split; [|split; [congruence|split]].
  - destruct Hk as [Hdense Hnodup]. split; by rewrite Hrev.
  - rewrite Hrev. done.
  - rewrite Hrev, Hghost. intros id Hin.
    apply elem_of_app in Hin as [Hin|Hin]; [by apply Hgh|].
    apply list_elem_of_fmap_1 in Hin as (x & -> & Hx).
    apply list_elem_of_filter in Hx as [Hid Hx].
    apply (select_revision_unique d x Hk) in Hx as Hselx.
    rewrite Hid, Hsel in Hselx. injection Hselx as <-.
    right. by exists row.
Qed.

Lemma find_known_ancestors_loop_extended b d0 fuel : ∀ d a d' a',
  store_extended (Importer.parent_map a) d0 d →
  Importer.find_known_ancestors_loop fuel b d a = Ok (d', a') →
  store_extended (Importer.parent_map a') d0 d'.
Proof.
  induction fuel as [|fuel IH];
    intros d [needed all_needed children parent_map known] d' a' Hinv;
    simpl; (destruct needed as [|rev_id needed]; [by intros [= <- <-]|]);
    [discriminate|].
  case_bool_decide as Hknown.
  { apply IH. exact Hinv. }
  destruct (schema.select_revision d rev_id) as [r|] eqn:Hsel.
  { apply IH. exact Hinv. }
  assert (∀ (pm : gmap string (list string)) ps r,
            is_Some (pm !! r) → is_Some (<[rev_id := ps]> pm !! r)) as Hins.
  { intros pm ps r Hr. destruct (decide (r = rev_id)) as [->|Hne].
    - rewrite lookup_insert_eq. by eexists.
    - by rewrite lookup_insert_ne. }
  destruct (get_parent_map b rev_id) as [ps|] eqn:Hget.
  - case_bool_decide as Hnull.
    + intros Hrun. apply bind_Ok in Hrun as (d1 & Hrev & Hrun).
      eapply IH; [|exact Hrun]. simpl.
      eapply store_extended_insert; [|  |exact Hrev].
      * rewrite lookup_insert_eq. by eexists.
      * eapply store_extended_parent_map; [|exact Hinv]. simpl.
        intros r Hr. by apply Hins, Hins.
    + destruct (foldl _ (needed, all_needed, children) ps)
        as [[needed' all_needed'] children'].
      apply IH. simpl. eapply store_extended_parent_map; [|exact Hinv].
      simpl. intros r Hr. by apply Hins.
  - intros Hrun. apply bind_Ok in Hrun as (d1 & Hrev & Hrun).
    apply bind_Ok in Hrun as (d2 & Hghost & Hrun).
    eapply IH; [|exact Hrun]. simpl.
    assert (store_extended (<[rev_id := []]> parent_map) d0 d1) as Hd1.
    { eapply store_extended_insert; [| |exact Hrev].
      - rewrite lookup_insert_eq. by eexists.
      - eapply store_extended_parent_map; [|exact Hinv]. simpl.
        intros r Hr. by apply Hins. }
    apply insert_revision_row in Hrev as [Hnone ->].
    eapply store_extended_ghost; [| |exact Hd1|exact Hghost].
    + rewrite select_revision_inserted, Hnone. simpl.
      by rewrite decide_True.
    + done.
Qed.

Lemma compute_gdfo_loop_extended parent_map d0 children fuel :
  ∀ d known pending d' known',
  store_extended parent_map d0 d →
  Importer.compute_gdfo_loop fuel children parent_map (d, known, pending)
  = Ok (d', known') →
  store_extended parent_map d0 d'.
Proof.
  induction fuel as [|fuel IH]; intros d known pending d' known' Hinv; simpl.
  - destruct pending as [|[g r] pending]; [|discriminate].
    by intros [= <- <-].
  - destruct pending as [|[g r] pending]; [by intros [= <- <-]|].
    intros Hrun. apply bind_Ok in Hrun as ([[d1 known1] pending1] & H1 & Hrun).
    eapply IH; [|exact Hrun].
    apply (for_each_inv (λ st, store_extended parent_map d0 st.1.1) _ _ _ _)
      in H1; [done| |done].
    clear. intros [[d known] pending] child [[d' known'] pending'] Hinv.
    simpl in *. destruct (known !! child) as [gc|].
    { destruct (g <? gc); [|discriminate]. by intros [= <- <- <-]. }
    intros Hrun. apply bind_Ok in Hrun as (parent_ids & Hps & Hrun).
    unfold getitem in Hps.
    destruct (parent_map !! child) as [ps|] eqn:Hlook; [|discriminate].
    injection Hps as ->.
    destruct (Importer.max_parent_gdfo known parent_ids (-1)) as [m|];
      [|by injection Hrun as <- <- <-].
    apply bind_Ok in Hrun as (d1 & Hins & [= <- <- <-]).
    eapply store_extended_insert; [|exact Hinv|exact Hins]. by eexists.
Qed.


Lemma interned_inj r_to_d d x y id :
  keyed d → interned r_to_d d →
  r_to_d !! x = Some id → r_to_d !! y = Some id → x = y.
Proof.
  intros Hk Hint Hx Hy.
  destruct (Hint x id Hx) as (rx & Hsx & Hrx).
  destruct (Hint y id Hy) as (ry & Hsy & Hry).
  pose proof (select_revision_of d x rx Hk Hsx) as Hox.
  pose proof (select_revision_of d y ry Hk Hsy) as Hoy.
  rewrite Hrx in Hox. rewrite Hry, Hox in Hoy. injection Hoy as ->.
  apply select_revision_elem in Hsx as [_ <-].
  by apply select_revision_elem in Hsy as [_ <-].
Qed.

Lemma ensure_revisions_interned revision_ids d m1 m2 st' :
  interned m1 d →
  schema.ensure_revisions revision_ids None (d, m1, m2) = Ok st' →
  st'.1.1 = d ∧ interned st'.1.2 d.
Proof.
  unfold schema.ensure_revisions. intros Hint Hrun.
  apply (for_each_inv (λ x, x.1.1 = d ∧ interned x.1.2 d) _ _ _ _) in Hrun;
    [done| |done].
  clear. intros [[d0 m1] m2] rev_id [[d' m1'] m2']. simpl. intros [-> Hint].
  destruct (m1 !! rev_id); [by intros [= <- <- <-]|].
  intros Hrun. apply bind_Ok in Hrun as (d1 & H1 & Hrun).
  destruct (schema.select_revision d rev_id) as [r|] eqn:Hsel; [|discriminate].
  injection H1 as <-. rewrite Hsel in Hrun. injection Hrun as <- <- <-.
  split; [done|]. intros x id Hl. destruct (decide (x = rev_id)) as [->|Hne].
  - rewrite lookup_insert_eq in Hl. injection Hl as <-. by exists r.
  - rewrite lookup_insert_ne in Hl by done. by apply Hint.
Qed.

Lemma parent_db_ids_spec (r_to_d : gmap string Z) parent_ids : ∀ acc l,
  for_each (λ acc p_id, p ← getitem r_to_d p_id; Ok (acc ++ [p]))
           parent_ids acc = Ok l →
  ∃ ids, l = acc ++ ids
         ∧ Forall2 (λ p id, r_to_d !! p = Some id) parent_ids ids.
Proof.
  induction parent_ids as [|p ps IH]; intros acc l; simpl.
  - intros [= <-]. exists []. by rewrite app_nil_r.
  - intros Hrun. apply bind_Ok in Hrun as (acc1 & H1 & Hrun).
    apply bind_Ok in H1 as (id & Hid & [= <-]). unfold getitem in Hid.
    destruct (r_to_d !! p) as [id0|] eqn:Hp; [|discriminate].
    injection Hid as ->.
    apply IH in Hrun as (ids & -> & Hids).
    exists (id :: ids). rewrite <- app_assoc. split; [done|by constructor].
Qed.

Lemma elem_of_sort_with {A} (lt : A → A → bool) (l : list A) (x : A) :
  x ∈ sort_with lt l ↔ x ∈ l.
Proof.
  assert (∀ y l', x ∈ insert_sorted lt y l' ↔ x = y ∨ x ∈ l') as Hins.
  { intros y l'. induction l' as [|z l' IH]; simpl.
    - rewrite list_elem_of_singleton, elem_of_nil. tauto.
    - destruct (lt y z).
      + by rewrite elem_of_cons.
      + rewrite !elem_of_cons, IH. tauto. }
  unfold sort_with. induction l as [|y l IH]; simpl; [done|].
  by rewrite Hins, elem_of_cons, IH.
Qed.


(** The loop of [_insert_parent_map] that gathers the rows to insert. *)
Lemma parent_rows_loop (r_to_d : gmap string Z) d
    (entries : list (string * list string)) :
  keyed d → interned r_to_d d →
  ∀ data s data' s',
  NoDup entries.*1 →
  (∀ rev_id parent_ids db_id,
     (rev_id, parent_ids) ∈ entries → r_to_d !! rev_id = Some db_id →
     Importer._db_parent_map s !! db_id = None) →
  for_each (λ '(data, s) '(rev_id, parent_ids),
      db_id ← getitem r_to_d rev_id;
      match Importer._db_parent_map s !! db_id with
      | Some _ => Ok (data, s)
      | None =>
          parent_db_ids ← for_each (λ acc p_id,
              p ← getitem r_to_d p_id; Ok (acc ++ [p])) parent_ids [];
          Ok (data ++ imap (λ idx parent_db_id,
                              (db_id, parent_db_id, Z.of_nat idx))
                           parent_db_ids,
              Importer.set_db_parent_map
                (<[db_id := parent_db_ids]> (Importer._db_parent_map s)) s)
      end)
    entries (data, s) = Ok (data', s') →
  Importer._cursor s' = Importer._cursor s
  ∧ ∃ new, data' = data ++ new
      ∧ (∀ e, e ∈ new ↔
           ∃ rev_id parent_ids (idx : nat) parent_id,
             (rev_id, parent_ids) ∈ entries
             ∧ parent_ids !! idx = Some parent_id
             ∧ r_to_d !! rev_id = Some e.1.1
             ∧ r_to_d !! parent_id = Some e.1.2
             ∧ e.2 = Z.of_nat idx)
      ∧ (∀ rev_id parent_ids,
           (rev_id, parent_ids) ∈ entries →
           is_Some (r_to_d !! rev_id)
           ∧ Forall (λ p, is_Some (r_to_d !! p)) parent_ids).
Proof.
  intros Hk Hint.
  induction entries as [|[rev_id parent_ids] entries IH];
    intros data s data' s' Hnodup Hfresh; simpl.
  - intros [= <- <-]. split; [done|]. exists []. rewrite app_nil_r.
    split; [done|]. split.
    + intros e. split; [by intros ?%elem_of_nil|].
      by intros (? & ? & ? & ? & ?%elem_of_nil & _).
    + by intros ? ? ?%elem_of_nil.
  - intros Hrun. apply bind_Ok in Hrun as ([data1 s1] & H1 & Hrun).
    apply bind_Ok in H1 as (db_id & Hid & H1). unfold getitem in Hid.
    destruct (r_to_d !! rev_id) as [c|] eqn:Hrev; [|discriminate].
    injection Hid as ->.
    rewrite (Hfresh rev_id parent_ids db_id) in H1;
      [|apply list_elem_of_here|done].
    apply bind_Ok in H1 as (ids & Hids & [= <- <-]).
    apply parent_db_ids_spec in Hids as (ids' & -> & Hids). simpl in Hids.
    simpl in Hnodup. apply NoDup_cons in Hnodup as [Hnotin Hnodup].
    apply IH in Hrun as (Hcur & new & -> & Hnew & Hok); [|done|].
    + split; [done|].
      exists (imap (λ idx p, (db_id, p, Z.of_nat idx)) ids' ++ new).
      split; [by rewrite app_assoc|]. split.
      * intros e. rewrite elem_of_app, Hnew, elem_of_lookup_imap. split.
        -- intros [(k & p & -> & Hp)|(r & ps & k & pid & Hin & Hrest)].
           ++ destruct (Forall2_lookup_r _ _ _ _ _ Hids Hp)
                as (pid & Hpid & Hpp).
              exists rev_id, parent_ids, k, pid. simpl.
              split; [apply list_elem_of_here|done].
           ++ exists r, ps, k, pid. split; [by apply list_elem_of_further|done].
        -- intros (r & ps & k & pid & Hin & Hpid & Hr & Hp & Hi).
           apply elem_of_cons in Hin as [[= -> ->]|Hin].
           ++ left. destruct e as [[c p] i]. simpl in *.
              destruct (Forall2_lookup_l _ _ _ _ _ Hids Hpid)
                as (p' & Hp' & Hpp).
              exists k, p. rewrite Hrev in Hr. rewrite Hpp in Hp.
              injection Hr as <-. injection Hp as <-. by subst.
           ++ right. by exists r, ps, k, pid.
      * intros r ps Hin. apply elem_of_cons in Hin as [[= -> ->]|Hin].
        -- split; [by eexists|]. apply Forall_forall. intros p Hp.
           apply list_elem_of_lookup_1 in Hp as [k Hk'].
           destruct (Forall2_lookup_l _ _ _ _ _ Hids Hk') as (p' & _ & Hpp).
           by eexists.
        -- by apply Hok.
    + intros r ps id Hin Hr. simpl.
      assert (r ≠ rev_id) as Hne.
      { intros ->. apply Hnotin.
        by apply (list_elem_of_fmap_2 fst _ (rev_id, ps)). }
      rewrite lookup_insert_ne.
      * eapply Hfresh; [by apply list_elem_of_further|done].
      * intros <-. apply Hne. by eapply interned_inj.
Qed.

(** [executemany("INSERT OR IGNORE INTO parent ...")]. *)
Lemma insert_parents_rows (data : list (Z * Z * Z)) : ∀ d,
  let d' := foldl (λ d '(c, p, i), schema.insert_or_ignore_parent
                                      (schema.mk_parent c p i) d) d data in
  schema.t_revision d' = schema.t_revision d
  ∧ schema.t_ghost d' = schema.t_ghost d
  ∧ (∀ e, e ∈ schema.t_parent d' →
          e ∈ schema.t_parent d
          ∨ (schema.child e, schema.parent e, schema.parent_idx e) ∈ data)
  ∧ (∀ e, e ∈ schema.t_parent d → e ∈ schema.t_parent d')
  ∧ (∀ c p i, (c, p, i) ∈ data →
       ∃ e, e ∈ schema.t_parent d'
            ∧ schema.child e = c ∧ schema.parent_idx e = i).
Proof.
  induction data as [|[[c p] i] data IH]; intros d; simpl.
  - repeat split; try done.
    + intros e He. by left.
    + by intros ? ? ? ?%elem_of_nil.
  - set (d1 := schema.insert_or_ignore_parent (schema.mk_parent c p i) d).
    destruct (IH d1) as (Hrev & Hgh & Hin & Hold & Hnew).
    assert (schema.t_revision d1 = schema.t_revision d
            ∧ schema.t_ghost d1 = schema.t_ghost d
            ∧ (∀ e, e ∈ schema.t_parent d1 →
                    e ∈ schema.t_parent d ∨ e = schema.mk_parent c p i)
            ∧ (∀ e, e ∈ schema.t_parent d → e ∈ schema.t_parent d1)
            ∧ ∃ e, e ∈ schema.t_parent d1
                   ∧ schema.child e = c ∧ schema.parent_idx e = i)
      as (Hrev1 & Hgh1 & Hin1 & Hold1 & Hnew1).
    { unfold d1, schema.insert_or_ignore_parent. case_bool_decide as Hex.
      - repeat split; try done.
        + intros e He. by left.
        + apply Exists_exists in Hex as (e & He & Hc & Hi). by exists e.
      - simpl. repeat split; try done.
        + intros e He. apply elem_of_app in He as [He|He]; [by left|right].
          by apply list_elem_of_singleton in He.
        + intros e He. apply elem_of_app. by left.
        + exists (schema.mk_parent c p i). split; [|done].
          apply elem_of_app. right. apply list_elem_of_here. }
    split; [congruence|]. split; [congruence|]. split; [|split].
    + intros e He. destruct (Hin e He) as [He1|He1].
      * destruct (Hin1 e He1) as [He0| ->]; [by left|right]. simpl.
        apply list_elem_of_here.
      * right. by apply list_elem_of_further.
    + intros e He. by apply Hold, Hold1.
    + intros c0 p0 i0 He. apply elem_of_cons in He as [[= -> -> ->]|He].
      * destruct Hnew1 as (e & He1 & Hc & Hi). exists e.
        split; [by apply Hold|done].
      * by apply (Hnew c0 p0 i0).
Qed.

(** [_insert_parent_map] of an importer that has no parents in memory yet:
    the rows it adds to [parent] are the edges of [parent_map], under the
    db ids of the [revision] table. *)
Lemma insert_parent_map_edges parent_map s s' :
  Importer._graph s = None →
  Importer._db_parent_map s = ∅ →
  keyed (Importer._cursor s) →
  interned (Importer._rev_id_to_db_id s) (Importer._cursor s) →
  Importer._insert_parent_map parent_map s = Ok s' →
  ∃ r_to_d,
    interned r_to_d (Importer._cursor s)
    ∧ schema.t_revision (Importer._cursor s')
      = schema.t_revision (Importer._cursor s)
    ∧ schema.t_ghost (Importer._cursor s') = schema.t_ghost (Importer._cursor s)
    ∧ (∀ e, e ∈ schema.t_parent (Importer._cursor s') →
         e ∈ schema.t_parent (Importer._cursor s)
         ∨ edge_of r_to_d parent_map
             (schema.child e, schema.parent e, schema.parent_idx e))
    ∧ (∀ e, e ∈ schema.t_parent (Importer._cursor s) →
            e ∈ schema.t_parent (Importer._cursor s'))
    ∧ (∀ e, edge_of r_to_d parent_map e →
         ∃ row, row ∈ schema.t_parent (Importer._cursor s')
                ∧ schema.child row = e.1.1 ∧ schema.parent_idx row = e.2)
    ∧ (∀ rev_id parent_ids, parent_map !! rev_id = Some parent_ids →
         is_Some (r_to_d !! rev_id)
         ∧ Forall (λ p, is_Some (r_to_d !! p)) parent_ids).
Proof.
  unfold Importer._insert_parent_map. intros Hgraph Hdpm Hk Hint Hrun.
  apply bind_Ok in Hrun as (s1 & H1 & Hrun).
  unfold Importer._ensure_revisions in H1. rewrite Hgraph in H1. simpl in H1.
  apply bind_Ok in H1 as ([[d m1] m2] & H1 & [= <-]).
  apply ensure_revisions_interned in H1 as [Hd Hint1]; [|done].
  simpl in Hd, Hint1. subst d.
  apply bind_Ok in Hrun as ([data s2] & H2 & [= <-]).
  simpl in H2.
  apply (parent_rows_loop m1 (Importer._cursor s)) in H2
    as (Hcur & new & Hdata & Hnew & Hok);
    [|done|done|apply NoDup_fst_map_to_list|].
  2:{ intros rev_id ps db_id _ _. simpl. rewrite Hdpm. apply lookup_empty. }
  simpl in Hdata. subst data.
  assert (Importer._cursor s2 = Importer._cursor s) as Hcur2.
  { rewrite Hcur. unfold Importer._cursor, Importer.set_cursor. by simpl. }
  pose proof (insert_parents_rows (sort_with Importer.triple_lt new)
                (Importer._cursor s2)) as Hfold.
  simpl in Hfold. rewrite Hcur2 in Hfold.
  destruct Hfold as (Hrev & Hgh & Hin & Hold & Hall).
  exists m1. unfold Importer._cursor at 1 4 6 8 10. 
  unfold Importer.set_cursor. simpl.
  fold (Importer._cursor s2). rewrite Hcur2.
  split; [done|]. split; [done|]. split; [done|].
  split; [|split; [done|split]].
  - intros e He. destruct (Hin e He) as [He0|He1]; [by left|right].
    apply elem_of_sort_with, Hnew in He1
      as (r & ps & k & pid & Hent & Hrest).
    apply elem_of_map_to_list in Hent. by exists r, ps, k, pid.
  - intros [[c p] i] (r & ps & k & pid & Hent & Hrest).
    apply (Hall c p i). apply elem_of_sort_with, Hnew.
    exists r, ps, k, pid. split; [by apply elem_of_map_to_list|done].
  - intros r ps Hent. apply Hok. by apply elem_of_map_to_list.
Qed.

Lemma one_more_equiv g l l' :
  (∀ x, x ∈ l ↔ x ∈ l') → one_more g l → one_more g l'.
Proof.
  intros Heq [Hnil Hmax]. split.
  - intros ->. apply Hnil. destruct l as [|x l]; [done|].
    exfalso. eapply elem_of_nil. apply Heq. apply list_elem_of_here.
  - intros Hne. destruct Hmax as [Hin Hall].
    + intros ->. apply Hne. destruct l' as [|x l']; [done|].
      exfalso. eapply elem_of_nil. apply Heq. apply list_elem_of_here.
    + split; [by apply Heq|]. apply Forall_forall. intros x Hx.
      apply (proj1 (Forall_forall _ _) Hall). by apply Heq.
Qed.

Lemma revision_of_ext d d' id :
  schema.t_revision d' = schema.t_revision d →
  revision_of d' id = revision_of d id.
Proof. unfold revision_of. by intros ->. Qed.

Lemma keyed_ext d d' :
  schema.t_revision d' = schema.t_revision d → keyed d → keyed d'.
Proof. unfold keyed. by intros ->. Qed.

Lemma elem_of_parent_gdfos d c x :
  x ∈ gdfo_of d <$> parents_of d c
  ↔ ∃ e, e ∈ schema.t_parent d ∧ schema.child e = c
         ∧ gdfo_of d (schema.parent e) = x.
Proof.
  unfold parents_of. split.
  - intros Hx. apply list_elem_of_fmap_1 in Hx as (p & -> & Hp).
    apply list_elem_of_fmap_1 in Hp as (e & -> & He).
    apply list_elem_of_filter in He as [Hc He]. by exists e.
  - intros (e & He & Hc & <-). apply list_elem_of_fmap_2.
    apply list_elem_of_fmap_2. by apply list_elem_of_filter.
Qed.

Lemma interned_select r_to_d d rev_id id :
  keyed d → interned r_to_d d → r_to_d !! rev_id = Some id →
  ∃ row, schema.select_revision d rev_id = Some row
         ∧ revision_of d id = Some row
         ∧ row ∈ schema.t_revision d
         ∧ schema.revision_id row = rev_id
         ∧ schema.db_id row = id.
Proof.
  intros Hk Hint Hl. destruct (Hint _ _ Hl) as (row & Hsel & Hid).
  exists row. split; [done|]. split.
  - rewrite <- Hid. by eapply select_revision_of.
  - by apply select_revision_elem in Hsel as [? ?].
Qed.

Lemma elem_of_revision_selected d row :
  row ∈ schema.t_revision d →
  schema.select_revision d (schema.revision_id row) ≠ None.
Proof.
  intros Hin Hnone. apply select_revision_None in Hnone. apply Hnone.
  apply Exists_exists. by exists row.
Qed.

Lemma revision_of_inj d row row' :
  keyed d → row ∈ schema.t_revision d → row' ∈ schema.t_revision d →
  schema.db_id row = schema.db_id row' → row = row'.
Proof.
  intros Hk Hin Hin' Heq.
  apply (revision_of_elem d row Hk) in Hin.
  apply (revision_of_elem d row' Hk) in Hin'.
  rewrite Heq, Hin' in Hin. by injection Hin.
Qed.

Section gdfo_extended.

(** The store [d0] has the invariant; [d2] is what the first two steps of
    [_update_ancestry] make of it, with the entries [parent_map] of the
    revisions found; [d'] is [d2] with the edges of [parent_map] added to
    [parent], under the db ids [r_to_d]. *)
Variables (b : Branch) (parent_map : gmap string (list string))
          (r_to_d : gmap string Z) (d0 d1 d2 d' : schema.db).
Hypothesis Hinv : gdfo_inv d0.
Hypothesis Hnumbered : revisions_numbered b d0 d2.
Hypothesis Hext : store_extended parent_map d0 d2.
Hypothesis Hfound : ∀ r ps, parent_map !! r = Some ps → found_parents b d0 d1 r ps.
Hypothesis Hint : interned r_to_d d2.
Hypothesis Hrev : schema.t_revision d' = schema.t_revision d2.
Hypothesis Hghost : schema.t_ghost d' = schema.t_ghost d2.
Hypothesis Hin : ∀ e, e ∈ schema.t_parent d' →
  e ∈ schema.t_parent d2
  ∨ edge_of r_to_d parent_map
      (schema.child e, schema.parent e, schema.parent_idx e).
Hypothesis Hold : ∀ e, e ∈ schema.t_parent d2 → e ∈ schema.t_parent d'.
Hypothesis Hall : ∀ e, edge_of r_to_d parent_map e →
  ∃ row, row ∈ schema.t_parent d'
         ∧ schema.child row = e.1.1 ∧ schema.parent_idx row = e.2.
Hypothesis Hok : ∀ rev_id parent_ids, parent_map !! rev_id = Some parent_ids →
  is_Some (r_to_d !! rev_id) ∧ Forall (λ p, is_Some (r_to_d !! p)) parent_ids.

Lemma extended_keyed : keyed d2.
Proof. by destruct Hext. Qed.

Lemma extended_parent : schema.t_parent d2 = schema.t_parent d0.
Proof. by destruct Hext as (_ & ? & _). Qed.

Lemma old_row row :
  row ∈ schema.t_revision d0 → row ∈ schema.t_revision d2.
Proof.
  destruct Hnumbered as (rows & -> & _). intros ?. apply elem_of_app. by left.
Qed.

Lemma revision_of_old id row :
  revision_of d0 id = Some row → revision_of d' id = Some row.
Proof.
  destruct Hnumbered as (rows & Hrows & _). intros H.
  rewrite (revision_of_ext d2 d') by done. by eapply revision_of_rows.
Qed.

(** The child of an edge of [parent_map] is a row of [revision] that [d0]
    does not have. *)
Lemma edge_child e :
  edge_of r_to_d parent_map e →
  ∃ row parent_ids (idx : nat) parent_id,
    row ∈ schema.t_revision d2 ∧ schema.db_id row = e.1.1
    ∧ (row ∉ schema.t_revision d0)
    ∧ parent_map !! schema.revision_id row = Some parent_ids
    ∧ parent_ids !! idx = Some parent_id
    ∧ r_to_d !! parent_id = Some e.1.2
    ∧ e.2 = Z.of_nat idx.
Proof.
  intros (rev_id & ps & k & pid & Hps & Hk & Hr & Hp & Hi).
  destruct (interned_select _ _ _ _ extended_keyed Hint Hr)
    as (row & Hsel & Hof & Hrow & Hid & Hdb).
  exists row, ps, k, pid. subst rev_id. repeat split; try done.
  intros Hrow0. destruct (Hfound _ _ Hps) as [Hnone _].
  by apply elem_of_revision_selected in Hrow0.
Qed.

Lemma old_edge_child e :
  e ∈ schema.t_parent d2 →
  ∃ row, row ∈ schema.t_revision d0 ∧ schema.db_id row = schema.child e.
Proof.
  rewrite extended_parent. intros He.
  destruct Hinv as (_ & Hends & _). destruct (Hends e He) as [[rc Hrc] _].
  apply revision_of_Some in Hrc. by exists rc.
Qed.

(** The edges of [d'] under a row that [d0] has are those of [d0]. *)
Lemma old_row_edges row e :
  row ∈ schema.t_revision d0 → e ∈ schema.t_parent d' →
  schema.child e = schema.db_id row → e ∈ schema.t_parent d0.
Proof.
  intros Hrow He Hc. destruct (Hin e He) as [He2|Hedge].
  { by rewrite <- extended_parent. }
  apply edge_child in Hedge as (row' & _ & _ & _ & Hrow' & Hdb & Hnew & _).
  simpl in Hdb. destruct Hnew.
  rewrite (revision_of_inj d2 row' row); [done|apply extended_keyed|done| |congruence].
  by apply old_row.
Qed.

(** The edges of [d'] under a new row are edges of its entry. *)
Lemma new_row_edges row parent_ids e :
  row ∈ schema.t_revision d2 → row ∉ schema.t_revision d0 →
  parent_map !! schema.revision_id row = Some parent_ids →
  e ∈ schema.t_parent d' → schema.child e = schema.db_id row →
  ∃ (idx : nat) parent_id,
    parent_ids !! idx = Some parent_id
    ∧ r_to_d !! parent_id = Some (schema.parent e)
    ∧ schema.parent_idx e = Z.of_nat idx.
Proof.
  intros Hrow Hnew Hps He Hc. destruct (Hin e He) as [He2|Hedge].
  { apply old_edge_child in He2 as (row0 & Hrow0 & Hdb).
    destruct Hnew.
    rewrite (revision_of_inj d2 row row0); [done|apply extended_keyed|done| |congruence].
    by apply old_row. }
  apply edge_child in Hedge
    as (row' & ps & k & pid & Hrow' & Hdb & _ & Hps' & Hk & Hp & Hi).
  simpl in *.
  assert (row' = row) as ->.
  { apply (revision_of_inj d2); [apply extended_keyed|done..|congruence]. }
  rewrite Hps in Hps'. injection Hps' as <-. by exists k, pid.
Qed.

Lemma gdfo_of_selected rev_id id row :
  r_to_d !! rev_id = Some id →
  schema.select_revision d2 rev_id = Some row →
  gdfo_of d' id = schema.gdfo row.
Proof.
  intros Hl Hsel.
  destruct (interned_select _ _ _ _ extended_keyed Hint Hl) as (row' & Hsel' & Hof & _).
  rewrite Hsel in Hsel'. injection Hsel' as <-.
  unfold gdfo_of. rewrite (revision_of_ext d2 d') by done. by rewrite Hof.
Qed.

Lemma old_row_one_more row :
  row ∈ schema.t_revision d0 →
  one_more (schema.gdfo row) (gdfo_of d' <$> parents_of d' (schema.db_id row)).
Proof.
  intros Hrow. destruct Hinv as (_ & Hends & Hone & _).
  apply one_more_equiv with (gdfo_of d0 <$> parents_of d0 (schema.db_id row));
    [|by apply Hone].
  assert (∀ e, e ∈ schema.t_parent d0 →
               gdfo_of d' (schema.parent e) = gdfo_of d0 (schema.parent e))
    as Hgdfo.
  { intros e He. destruct (Hends e He) as [_ [rp Hrp]].
    unfold gdfo_of. by rewrite (revision_of_old _ _ Hrp), Hrp. }
  intros x. rewrite !elem_of_parent_gdfos. split.
  - intros (e & He & Hc & <-). exists e. split; [|split; [done|]].
    + apply Hold. by rewrite extended_parent.
    + by apply Hgdfo.
  - intros (e & He & Hc & <-).
    assert (e ∈ schema.t_parent d0) as He0 by by eapply old_row_edges.
    exists e. split; [done|]. split; [done|]. symmetry. by apply Hgdfo.
Qed.

Lemma new_row_one_more row :
  row ∈ schema.t_revision d2 → row ∉ schema.t_revision d0 →
  new_revision_gdfo b d2 row →
  one_more (schema.gdfo row) (gdfo_of d' <$> parents_of d' (schema.db_id row)).
Proof.
  intros Hrow Hnew Hgdfo.
  destruct Hext as (_ & _ & Hrows & _).
  destruct (Hrows row Hrow) as [?|[ps Hps]]; [done|].
  destruct (Hok _ _ Hps) as [[c Hc] Hpids].
  assert (schema.select_revision d2 (schema.revision_id row) = Some row)
    as Hsel by (apply select_revision_unique; [apply extended_keyed|done]).
  assert (c = schema.db_id row) as ->.
  { destruct (Hint _ _ Hc) as (row' & Hsel' & <-). congruence. }
  unfold new_revision_gdfo in Hgdfo.
  destruct (Hfound _ _ Hps)
    as [_ [(-> & Hget & _)|(Hget & Hnull & _)]].
  - assert (schema.gdfo row = 1) as ->.
    { destruct Hget as [Hget|Hget]; rewrite Hget in Hgdfo; [done|].
      by rewrite decide_True in Hgdfo. }
    apply one_more_equiv with []; [|by split].
    intros x. rewrite elem_of_parent_gdfos. split; [by intros ?%elem_of_nil|].
    intros (e & He & Hce & _).
    destruct (new_row_edges row [] e Hrow Hnew Hps He Hce)
      as (k & pid & Hk & _).
    by rewrite lookup_nil in Hk.
  - rewrite Hget, decide_False in Hgdfo by done.
    destruct Hgdfo as (gs & Hgs & Hmax).
    apply one_more_equiv with gs.
    2:{ split; [|done]. intros ->. destruct Hmax as [Hm _].
        by apply elem_of_nil in Hm. }
    intros x. rewrite elem_of_parent_gdfos. split.
    + intros Hx. apply list_elem_of_lookup_1 in Hx as [k Hk].
      destruct (Forall2_lookup_r _ _ _ _ _ Hgs Hk) as (pid & Hpid & Hrec).
      unfold recorded_gdfo in Hrec.
      destruct (schema.select_revision d2 pid) as [rowp|] eqn:Hselp;
        [|done].
      injection Hrec as <-.
      destruct (proj1 (Forall_forall _ _) Hpids pid) as [p Hp].
      { by eapply list_elem_of_lookup_2. }
      destruct (Hall (schema.db_id row, p, Z.of_nat k)) as (e & He & Hce & Hie).
      { by exists (schema.revision_id row), ps, k, pid. }
      simpl in Hce, Hie. exists e. split; [done|]. split; [done|].
      destruct (new_row_edges row ps e Hrow Hnew Hps He Hce)
        as (k' & pid' & Hk' & Hp' & Hi').
      assert (k' = k) as -> by lia.
      rewrite Hpid in Hk'. injection Hk' as <-.
      by apply gdfo_of_selected with pid.
    + intros (e & He & Hce & <-).
      destruct (new_row_edges row ps e Hrow Hnew Hps He Hce)
        as (k & pid & Hk & Hp & Hi).
      destruct (Forall2_lookup_l _ _ _ _ _ Hgs Hk) as (gp & Hgp & Hrec).
      unfold recorded_gdfo in Hrec.
      destruct (schema.select_revision d2 pid) as [rowp|] eqn:Hselp;
        [|done].
      injection Hrec as <-.
      rewrite (gdfo_of_selected pid (schema.parent e) rowp) by done.
      by eapply list_elem_of_lookup_2.
Qed.

Lemma gdfo_inv_extended : gdfo_inv d'.
Proof.
  split; [by apply (keyed_ext d2); [|apply extended_keyed]|]. split; [|split].
  - intros e He. destruct (Hin e He) as [He2|Hedge].
    + rewrite extended_parent in He2. destruct Hinv as (_ & Hends & _).
      destruct (Hends e He2) as [[rc Hrc] [rp Hrp]].
      split; eexists; by eapply revision_of_old.
    + destruct Hedge as (rev_id & ps & k & pid & _ & _ & Hr & Hp & _).
      simpl in Hr, Hp.
      destruct (interned_select _ _ _ _ extended_keyed Hint Hr) as (rc & _ & Hrc & _).
      destruct (interned_select _ _ _ _ extended_keyed Hint Hp) as (rp & _ & Hrp & _).
      rewrite !(revision_of_ext d2 d') by done. split; by eexists.
  - intros row Hrow. rewrite Hrev in Hrow.
    destruct Hnumbered as (rows & Hrows & Hforall).
    pose proof Hrow as Hrow2.
    rewrite Hrows in Hrow. apply elem_of_app in Hrow as [Hrow0|Hrow].
    + by apply old_row_one_more.
    + apply (proj1 (Forall_forall _ _) Hforall) in Hrow as (_ & Hnone & ?).
      apply new_row_one_more; [done| |done].
      intros Hrow0. by apply elem_of_revision_selected in Hrow0.
  - intros id Hid. rewrite Hghost in Hid.
    destruct Hext as (_ & _ & _ & Hgh).
    destruct (Hgh id Hid) as [Hid0|(row & Hrow & <- & Hone)].
    + destruct Hinv as (_ & _ & _ & Hghosts).
      destruct (Hghosts id Hid0) as (r & Hr & Hg). exists r.
      split; [by apply revision_of_old|done].
    + exists row. split; [|done].
      rewrite (revision_of_ext d2 d') by done.
      apply revision_of_elem; [apply extended_keyed|done].
Qed.

End gdfo_extended.

Lemma gdfo_inv_positive d :
  gdfo_inv d → Forall (λ row, 1 ≤ schema.gdfo row) (schema.t_revision d).
Proof.
  intros (Hk & Hends & Hone & _).
  assert (∀ l : list schema.revision_row, l ≠ [] →
            ∃ m, m ∈ l ∧ ∀ x, x ∈ l → schema.gdfo m ≤ schema.gdfo x) as Hmin.
  { induction l as [|a l IH]; [done|]. intros _. destruct l as [|a' l'].
    - exists a. split; [apply list_elem_of_here|]. intros x Hx.
      apply list_elem_of_singleton in Hx as ->. lia.
    - destruct IH as (m & Hm & Hle); [done|].
      destruct (decide (schema.gdfo a ≤ schema.gdfo m)).
      + exists a. split; [apply list_elem_of_here|]. intros x Hx.
        apply elem_of_cons in Hx as [->|Hx]; [lia|].
        specialize (Hle x Hx). lia.
      + exists m. split; [by apply list_elem_of_further|]. intros x Hx.
        apply elem_of_cons in Hx as [->|Hx]; [lia|by apply Hle]. }
  apply Forall_forall. intros row Hrow.
  destruct (Hmin (schema.t_revision d)) as (m & Hm & Hle).
  { intros Hnil. rewrite Hnil in Hrow. by apply elem_of_nil in Hrow. }
  enough (1 ≤ schema.gdfo m) by (specialize (Hle row Hrow); lia).
  destruct (Hone m Hm) as [Hnil Hmax].
  remember (gdfo_of d <$> parents_of d (schema.db_id m)) as l eqn:Hl.
  destruct l as [|g gs].
  - rewrite Hnil; [lia|done].
  - destruct Hmax as [Hin _]; [done|]. rewrite Hl in Hin.
    apply elem_of_parent_gdfos in Hin as (e & He & Hc & Hg).
    destruct (Hends e He) as [_ [rp Hrp]].
    unfold gdfo_of in Hg. rewrite Hrp in Hg. simpl in Hg.
    apply revision_of_Some in Hrp as [Hrp _]. specialize (Hle rp Hrp). lia.
Qed.

Lemma gdfo_inv_recorded d : gdfo_inv d → gdfo_recorded d.
Proof.
  intros (Hk & Hends & Hone & Hghosts). split; [|split].
  - intros e He _ _. destruct (Hends e He) as [[rc Hrc] [rp Hrp]].
    exists rc, rp. split; [done|]. split; [done|].
    apply revision_of_Some in Hrc as [Hrc Hid].
    destruct (Hone rc Hrc) as [_ Hmax].
    assert (schema.gdfo rp ∈ gdfo_of d <$> parents_of d (schema.db_id rc))
      as Hin.
    { apply elem_of_parent_gdfos. exists e. split; [done|]. split; [done|].
      unfold gdfo_of. by rewrite Hrp. }
    destruct Hmax as [_ Hall].
    { intros Hnil. rewrite Hnil in Hin. by apply elem_of_nil in Hin. }
    apply (proj1 (Forall_forall _ _) Hall) in Hin. lia.
  - intros r Hr [Hnil|Hgh].
    + destruct (Hone r Hr) as [H1 _]. apply H1. by rewrite Hnil.
    + destruct (Hghosts _ Hgh) as (r' & Hr' & Hg).
      rewrite (revision_of_elem d r Hk Hr) in Hr'. by injection Hr' as <-.
  - intros r Hr Hne _. destruct (Hone r Hr) as [_ Hmax]. apply Hmax.
    intros Hnil. apply Hne. by apply fmap_nil_inv in Hnil.
Qed.

Lemma gdfo_inv_tables d d' :
  schema.t_revision d' = schema.t_revision d →
  schema.t_parent d' = schema.t_parent d →
  schema.t_ghost d' = schema.t_ghost d →
  gdfo_inv d → gdfo_inv d'.
Proof.
  unfold gdfo_inv, keyed, gdfo_of, parents_of, revision_of.
  by intros -> -> ->.
Qed.

Lemma gdfo_inv_empty : gdfo_inv schema.empty.
Proof.
  split; [split|split; [|split]]; simpl.
  - intros i r Hi. by rewrite lookup_nil in Hi.
  - constructor.
  - by intros e ?%elem_of_nil.
  - by intros r ?%elem_of_nil.
  - by intros id ?%elem_of_nil.
Qed.

(** [_update_ancestry] of a new importer keeps the invariant. *)
Lemma update_ancestry_inv fuel new_tip_rev_id s s' :
  Importer._graph s = None →
  Importer._rev_id_to_db_id s = ∅ →
  Importer._db_parent_map s = ∅ →
  gdfo_inv (Importer._cursor s) →
  Importer._update_ancestry fuel new_tip_rev_id s = Ok s' →
  gdfo_inv (Importer._cursor s').
Proof.
  intros Hgraph Hr2d Hdpm Hinv. unfold Importer._update_ancestry. intros Hrun.
  apply bind_Ok in Hrun as ([a s1] & Hfind & Hrun).
  apply bind_Ok in Hrun as ([known s2] & Hcompute & Hrun).
  destruct (ancestry_numbered _ _ _ _ _ _ _ Hgraph (gdfo_inv_positive _ Hinv)
              Hfind Hcompute)
    as (Hfound & Hnumbered & Hgraph2 & Hr2 & Hp2).
  assert (store_extended (Importer.parent_map a) (Importer._cursor s)
            (Importer._cursor s2)) as Hext.
  { unfold Importer._find_known_ancestors in Hfind.
    apply bind_Ok in Hfind as ([d1 a1] & Hloop1 & [= <- <-]).
    unfold Importer._compute_gdfo_and_insert in Hcompute.
    apply bind_Ok in Hcompute as ([d2 known2] & Hloop2 & Hcompute).
    simpl in Hcompute. rewrite Hgraph in Hcompute.
    injection Hcompute as <- <-.
    assert (Importer._cursor
              (Importer.set_cursor d2 (Importer.set_cursor d1 s)) = d2)
      as -> by done.
    eapply compute_gdfo_loop_extended; [|exact Hloop2].
    assert (Importer._cursor (Importer.set_cursor d1 s) = d1) as -> by done.
    eapply find_known_ancestors_loop_extended; [|exact Hloop1].
    apply store_extended_refl. by destruct Hinv. }
  apply insert_parent_map_edges in Hrun
    as (r_to_d & Hint & Hrev & Hghost & Hin & Hold & Hall & Hok);
    [|done|by rewrite Hp2|by destruct Hext|].
  2:{ rewrite Hr2, Hr2d. intros r id Hl. by rewrite lookup_empty in Hl. }
  destruct Hfound as (_ & Hpm & _).
  by eapply (gdfo_inv_extended (Importer._branch s) (Importer.parent_map a)
               r_to_d (Importer._cursor s) (Importer._cursor s1)
               (Importer._cursor s2)).
Qed.

Lemma ancestry_kept_refl s : ancestry_kept s s.
Proof. by repeat split. Qed.

Lemma ancestry_kept_trans s1 s2 s3 :
  ancestry_kept s1 s2 → ancestry_kept s2 s3 → ancestry_kept s1 s3.
Proof.
  intros (? & ? & ? & ? & ?) (? & ? & ? & ? & ?).
  repeat split; congruence.
Qed.

Lemma ancestry_kept_set_cursor d s :
  schema.t_revision d = schema.t_revision (Importer._cursor s) →
  schema.t_parent d = schema.t_parent (Importer._cursor s) →
  schema.t_ghost d = schema.t_ghost (Importer._cursor s) →
  ancestry_kept s (Importer.set_cursor d s).
Proof. intros ? ? ?. by repeat split. Qed.

Lemma ensure_revisions_kept revision_ids s s' :
  Importer._graph s = None →
  Importer._ensure_revisions revision_ids s = Ok s' → ancestry_kept s s'.
Proof.
  unfold Importer._ensure_revisions. intros Hgraph Hrun. rewrite Hgraph in Hrun.
  apply bind_Ok in Hrun as ([[d m1] m2] & H1 & [= <-]).
  apply ensure_revisions_no_graph in H1. simpl in H1. subst d.
  by repeat split.
Qed.

Lemma create_dotted_revnos_kept revno_entries : ∀ d,
  schema.t_revision (schema.create_dotted_revnos d revno_entries).1
  = schema.t_revision d
  ∧ schema.t_parent (schema.create_dotted_revnos d revno_entries).1
    = schema.t_parent d
  ∧ schema.t_ghost (schema.create_dotted_revnos d revno_entries).1
    = schema.t_ghost d.
Proof.
  induction revno_entries as [|e rest IH]; intros d; simpl; [done|].
  case_bool_decide; [done|].
  destruct (IH (schema.with_dotted_revno (schema.t_dotted_revno d ++ [e]) d))
    as (-> & -> & ->).
  done.
Qed.

Lemma insert_nodes_kept tip_rev_id nodes s inserted s' :
  Importer._insert_nodes tip_rev_id nodes s = Ok (inserted, s') →
  ancestry_kept s s'.
Proof.
  unfold Importer._insert_nodes. intros Hrun.
  apply bind_Ok in Hrun as (tip_db_id & _ & Hrun).
  apply bind_Ok in Hrun as (revno_entries & _ & Hrun).
  pose proof (create_dotted_revnos_kept revno_entries (Importer._cursor s))
    as (Hrev & Hpar & Hgh).
  destruct (schema.create_dotted_revnos _ _) as [d b].
  injection Hrun as <- <-. by apply ancestry_kept_set_cursor.
Qed.

Lemma import_loop_kept merge_sorted : ∀ last new_nodes s new_nodes' last' s',
  Importer.import_loop merge_sorted last new_nodes s
  = Ok (new_nodes', last', s') →
  ancestry_kept s s'.
Proof.
  induction merge_sorted as [|node rest IH]; intros last new s new' last' s';
    simpl.
  - intros [= <- <- <-]. apply ancestry_kept_refl.
  - destruct last as [last|].
    + destruct (ms_merge_depth node =? 0); [|by apply IH].
      intros Hrun. apply bind_Ok in Hrun as ([inserted s1] & H1 & Hrun).
      apply insert_nodes_kept in H1. destruct inserted.
      * apply IH in Hrun. by eapply ancestry_kept_trans.
      * by injection Hrun as <- <- <-.
    + case_bool_decide; [discriminate|].
      destruct (negb _); [discriminate|]. by apply IH.
Qed.

Lemma insert_merge_sorted_kept merge_sorted s s' :
  Importer.insert_merge_sorted merge_sorted s = Ok s' → ancestry_kept s s'.
Proof.
  unfold Importer.insert_merge_sorted. intros Hrun.
  apply bind_Ok in Hrun as ([[new_nodes last] s3] & H3 & H4).
  apply import_loop_kept in H3. simpl in H4.
  eapply ancestry_kept_trans; [done|].
  destruct new_nodes.
  - injection H4 as <-. apply ancestry_kept_refl.
  - destruct last; [|discriminate].
    apply bind_Ok in H4 as ([b s6] & H6 & [= <-]).
    by apply insert_nodes_kept in H6.
Qed.

Lemma rekey_kept node s node' s' :
  Importer.rekey node s = Ok (node', s') → ancestry_kept s s'.
Proof.
  unfold Importer.rekey. intros Hrun.
  apply bind_Ok in Hrun as ([rev_id s1] & H1 & Hrun).
  assert (ancestry_kept s s1) as Hg.
  { destruct (Importer._db_id_to_rev_id s !! MergeSortNode.key node).
    - injection H1 as <- <-. apply ancestry_kept_refl.
    - destruct (filter _ _); [discriminate|].
      injection H1 as <- <-. by repeat split. }
  destruct (MergeSortNode.revno node), (MergeSortNode.end_of_merge node);
    try discriminate.
  by injection Hrun as <- <-.
Qed.

Lemma insert_ranges_kept fuel : ∀ range_db_ids cur_db_id d d',
  Importer.insert_ranges fuel range_db_ids cur_db_id d = Ok d' →
  schema.t_revision d' = schema.t_revision d
  ∧ schema.t_parent d' = schema.t_parent d
  ∧ schema.t_ghost d' = schema.t_ghost d.
Proof.
  induction fuel as [|fuel IH]; intros l cur d d'.
  - destruct l; simpl; [|discriminate]. by intros [= <-].
  - destruct (decide (l = [])) as [->|Hne].
    { simpl. by intros [= <-]. }
    rewrite insert_ranges_step by done. cbv zeta. intros H.
    apply bind_Ok in H as (d1 & H1 & H).
    apply bind_Ok in H as (h & _ & H2).
    apply IH in H2 as (-> & -> & ->).
    unfold Importer._insert_range in H1.
    apply bind_Ok in H1 as (h' & _ & [= <-]). done.
Qed.

Lemma build_one_mainline_kept fuel head_rev_id s s' :
  Importer._graph s = None →
  Importer._build_one_mainline fuel head_rev_id s = Ok s' →
  ancestry_kept s s'.
Proof.
  unfold Importer._build_one_mainline. intros Hgraph Hrun.
  apply bind_Ok in Hrun as (s1 & H1 & Hrun).
  apply bind_Ok in Hrun as (cur & _ & Hrun).
  apply bind_Ok in Hrun as ([range_db_ids cur'] & _ & Hrun).
  apply bind_Ok in Hrun as (d' & H2 & [= <-]).
  apply ensure_revisions_kept in H1; [|done].
  apply insert_ranges_kept in H2 as (Hrev & Hpar & Hgh).
  eapply ancestry_kept_trans; [done|].
  by apply ancestry_kept_set_cursor.
Qed.

Lemma ancestry_kept_inv s s' :
  ancestry_kept s s' →
  gdfo_inv (Importer._cursor s) → gdfo_inv (Importer._cursor s').
Proof. intros (_ & _ & ? & ? & ?). by apply gdfo_inv_tables. Qed.

(** An incremental import of a tip by a new importer keeps the
    invariant. *)
Lemma import_tip_inv fuel tip_revision_id s merge_sorted s' :
  Importer._incremental s = true →
  Importer._graph s = None →
  Importer._rev_id_to_db_id s = ∅ →
  Importer._db_parent_map s = ∅ →
  gdfo_inv (Importer._cursor s) →
  Importer._import_tip fuel tip_revision_id s = Ok (merge_sorted, s') →
  gdfo_inv (Importer._cursor s').
Proof.
  intros Hinc Hgraph Hr2d Hdpm Hinv. unfold Importer._import_tip. intros Hrun.
  apply bind_Ok in Hrun as ([ms s1] & H1 & Hrun).
  apply bind_Ok in Hrun as (s2 & H2 & Hrun).
  apply bind_Ok in Hrun as (s4 & H4 & Hrun).
  apply bind_Ok in Hrun as (s5 & H5 & [= <- <-]).
  assert (gdfo_inv (Importer._cursor s1)
          ∧ Importer._incremental s1 = true ∧ Importer._graph s1 = None)
    as (Hinv1 & Hinc1 & Hgraph1).
  { unfold Importer._get_merge_sorted_tip in H1. rewrite Hinc in H1.
    apply bind_Ok in H1 as (sa & Ha & H1).
    apply bind_Ok in H1 as (sb & Hb & H1).
    apply bind_Ok in H1 as (tip_db_id & _ & H1).
    apply bind_Ok in H1 as ([nodes inc_merger] & _ & H1).
    pose proof (update_ancestry_inv _ _ _ _ Hgraph Hr2d Hdpm Hinv Ha) as Hinva.
    assert (Importer._incremental sa = true ∧ Importer._graph sa = None)
      as [Hinca Hgrapha].
    { unfold Importer._update_ancestry in Ha.
      apply bind_Ok in Ha as ([a sx] & Hx & Ha).
      apply bind_Ok in Ha as ([known sy] & Hy & Ha).
      unfold Importer._find_known_ancestors in Hx.
      apply bind_Ok in Hx as ([dx ax] & _ & [= _ <-]).
      unfold Importer._compute_gdfo_and_insert in Hy.
      apply bind_Ok in Hy as ([dy ky] & _ & Hy). simpl in Hy.
      rewrite Hgraph in Hy. injection Hy as _ <-.
      unfold Importer._insert_parent_map in Ha.
      apply bind_Ok in Ha as (sz & Hz & Ha).
      apply ensure_revisions_kept in Hz as (Hzi & Hzg & _); [|done].
      apply bind_Ok in Ha as ([data sw] & Hw & [= <-]). simpl.
      apply (for_each_inv
               (λ st, Importer._incremental st.2 = true
                      ∧ Importer._graph st.2 = None) _ _ _ _) in Hw; [done| |].
      - clear. intros [data s] [rev_id parent_ids] [data' s']. simpl.
        intros Hs Hrun. apply bind_Ok in Hrun as (db_id & _ & Hrun).
        destruct (Importer._db_parent_map s !! db_id);
          [by injection Hrun as <- <-|].
        apply bind_Ok in Hrun as (ids & _ & [= <- <-]). done.
      - simpl. by rewrite Hzi, Hzg. }
    apply ensure_revisions_kept in Hb; [|done].
    assert (ancestry_kept sb s1) as Hk1.
    { apply (for_each_inv (λ st, ancestry_kept sb st.2) _ _ _ _) in H1;
        [done| |by repeat split].
      clear. intros [acc s3] node [acc' s4] Hs. simpl in *. intros Hrun.
      apply bind_Ok in Hrun as ([node' s5] & H5 & [= <- <-]).
      apply rekey_kept in H5. by eapply ancestry_kept_trans. }
    pose proof (ancestry_kept_trans _ _ _ Hb Hk1) as Hk.
    split; [by eapply ancestry_kept_inv|].
    destruct Hk as (-> & -> & _). done. }
  rewrite Hinc1 in H2. injection H2 as <-.
  apply insert_merge_sorted_kept in H4.
  apply build_one_mainline_kept in H5.
  - eapply ancestry_kept_inv; [exact H5|]. by eapply ancestry_kept_inv.
  - destruct H4 as (_ & -> & _). done.
Qed.

Lemma import_inv fuel file b d :
  gdfo_inv file → import fuel file b = Ok d → gdfo_inv d.
Proof.
  unfold import, Importer.do_import. intros Hinv Hrun.
  apply bind_Ok in Hrun as (s & Hrun & [= <-]).
  destruct (Importer.is_null _); [by injection Hrun as <-|].
  apply bind_Ok in Hrun as ([ms s1] & H1 & [= <-]). simpl.
  by apply import_tip_inv in H1.
Qed.

(** X18: the gdfo of the store.  If the store has the invariant (as the
    empty store does), then after any sequence of incremental imports that
    all return it still has it: the ids of [revision] count its rows and
    no revision is there twice; both ends of every row of [parent] are
    revisions; every revision has gdfo 1 if it has no parents in [parent],
    and otherwise one more than the largest gdfo of its parents; every
    ghost is a revision with gdfo 1.  So the gdfo grows along every parent
    edge. *)
Theorem imports_keep_gdfo (fuel : nat) (bs : list (Branch * option string))
    (file d : schema.db) :
  gdfo_inv file → imports fuel bs file = Ok d →
  gdfo_inv d ∧ gdfo_recorded d.
Proof.
  intros Hinv Hrun.
  assert (gdfo_inv d) as Hd.
  { unfold imports in Hrun.
    apply (for_each_inv gdfo_inv _ _ _ _) in Hrun; [done| |done].
    intros d1 b d2. apply import_inv. }
  split; [done|by apply gdfo_inv_recorded].
Qed.

Lemma imports_keep_gdfo_witness :
  let bs := [(Scenario.branch_at Scenario.merged_branch "B", None);
             (Scenario.branch_at Scenario.ghost_and_root "X", None);
             (Scenario.branch_at Scenario.merged_branch "C", None)] in
  let d := result_or (imports 40 bs schema.empty) schema.empty in
  (schema.t_revision d
   = [schema.mk_revision 1 "A" 1; schema.mk_revision 2 "B" 2;
      schema.mk_revision 3 "R" 1; schema.mk_revision 4 "G" 1;
      schema.mk_revision 5 "X" 2; schema.mk_revision 6 "C" 3]
   ∧ schema.t_ghost d = [4])
  ∧ gdfo_inv d ∧ gdfo_recorded d.
Proof.
  intros bs d. split; [split; vm_compute; reflexivity|].
  apply (imports_keep_gdfo 40 bs schema.empty d).
  - apply gdfo_inv_empty.
  - vm_compute; reflexivity.
Defined.


(** ** The soundness of the mainline ranges *)

Lemma lh_chain_app d l1 : ∀ l2 a b c,
  lh_chain d a l1 b → lh_chain d b l2 c → lh_chain d a (l1 ++ l2) c.
Proof.
  induction l1 as [|x l1 IH]; intros l2 a b c; simpl.
  - by intros ->.
  - intros [-> H1] H2. split; [done|]. by eapply IH.
Qed.

Lemma lh_chain_split d l1 : ∀ l2 a c,
  lh_chain d a (l1 ++ l2) c →
  ∃ b, lh_chain d a l1 b ∧ lh_chain d b l2 c.
Proof.
  induction l1 as [|x l1 IH]; intros l2 a c; simpl.
  - intros H. by exists a.
  - intros [-> H]. apply IH in H as (b & H1 & H2). by exists b.
Qed.

Lemma lh_chain_ext d d' l : ∀ a b,
  schema.t_parent d' = schema.t_parent d →
  lh_chain d a l b → lh_chain d' a l b.
Proof.
  induction l as [|x l IH]; intros a b Heq; simpl; [done|].
  intros [-> H]. split; [done|].
  unfold _get_lh_parent_db_id in *. rewrite Heq. by apply IH.
Qed.

Lemma insert_sorted_perm {A} (lt : A → A → bool) x l :
  insert_sorted lt x l ≡ₚ x :: l.
Proof.
  induction l as [|y l IH]; simpl; [done|].
  destruct (lt x y); [done|]. rewrite IH. apply perm_swap.
Qed.

Lemma sort_with_perm {A} (lt : A → A → bool) l : sort_with lt l ≡ₚ l.
Proof.
  unfold sort_with. induction l as [|x l IH]; simpl; [done|].
  by rewrite insert_sorted_perm, IH.
Qed.

Lemma get_mainline_range_perm d range_key :
  Importer._get_mainline_range d range_key ≡ₚ range_members d range_key.
Proof.
  unfold Importer._get_mainline_range, range_members, order_by_desc.
  by rewrite sort_with_perm.
Qed.

Lemma get_mainline_range_count_elem d head_db_id r :
  Importer._get_mainline_range_count d head_db_id = Some r →
  r ∈ schema.t_mainline_parent_range d ∧ schema.head r = head_db_id.
Proof.
  unfold Importer._get_mainline_range_count, order_by_desc. intros H.
  assert (r ∈ sort_with (λ x y, schema.count y <? schema.count x)
                (filter (λ r, schema.head r = head_db_id)
                        (schema.t_mainline_parent_range d))) as Hin.
  { destruct (sort_with _ _); [done|]. injection H as ->.
    apply list_elem_of_here. }
  apply elem_of_sort_with, list_elem_of_filter in Hin as [? ?]. done.
Qed.

Lemma ranges_sound_tables d d' :
  schema.t_parent d' = schema.t_parent d →
  schema.t_mainline_parent_range d' = schema.t_mainline_parent_range d →
  schema.t_mainline_parent d' = schema.t_mainline_parent d →
  ranges_sound d → ranges_sound d'.
Proof.
  intros Hp Hr Hm (Hkeys & Hbound & Hsound).
  unfold ranges_sound. rewrite Hr, Hm. split; [done|]. split; [done|].
  intros r Hin. destruct (Hsound r Hin) as (chain & Hchain & Hperm & Hcount).
  exists chain. split; [by apply (lh_chain_ext d)|]. split; [|done].
  unfold range_members in *. by rewrite Hm.
Qed.

(** What the first loop of [_build_one_mainline] collects: the chain of
    left-hand parents from the head, followed, when it has met a short
    range, by the members of that range. *)
Lemma collect_mainline_chain d start fuel : ∀ cur acc l cur',
  ranges_sound d →
  lh_chain d start acc cur →
  Importer.collect_mainline fuel d cur acc = Ok (l, cur') →
  ∃ main extra chain_x,
    l = main ++ extra
    ∧ lh_chain d start (main ++ chain_x) cur'
    ∧ extra ≡ₚ chain_x
    ∧ (length extra < Importer._MAINLINE_PARENT_RANGE_LEN)%nat
    ∧ (extra ≠ [] → main ≠ []).
Proof.
  assert (∀ acc cur, lh_chain d start acc cur →
            ∃ main extra chain_x,
              acc = main ++ extra
              ∧ lh_chain d start (main ++ chain_x) cur
              ∧ extra ≡ₚ chain_x
              ∧ (length extra < Importer._MAINLINE_PARENT_RANGE_LEN)%nat
              ∧ (extra ≠ [] → main ≠ [])) as Hplain.
  { intros acc cur Hacc. exists acc, [], []. rewrite app_nil_r.
    repeat split; try done. unfold Importer._MAINLINE_PARENT_RANGE_LEN.
    simpl. lia. }
  induction fuel as [|fuel IH]; intros cur acc l cur' Hsound Hacc; simpl.
  - destruct cur as [c|]; [|intros [= <- <-]; by apply Hplain].
    destruct (Importer._get_mainline_range_count d c) as [r|] eqn:Hr;
      [|discriminate].
    apply get_mainline_range_count_elem in Hr as [Hin Hhead].
    destruct (bool_decide (acc ≠ []) && _) eqn:Hcond;
      intros [= <- <-]; [|by apply Hplain].
    apply andb_prop in Hcond as [Hne Hlt].
    apply bool_decide_eq_true in Hne. apply Z.ltb_lt in Hlt.
    destruct Hsound as (_ & _ & Hsound).
    destruct (Hsound r Hin) as (chain & Hchain & Hperm & Hcount).
    exists acc, (Importer._get_mainline_range d (schema.pkey r)), chain.
    split; [done|]. split; [|split; [|split]].
    + eapply lh_chain_app; [exact Hacc|]. by rewrite <- Hhead.
    + by rewrite get_mainline_range_perm.
    + rewrite get_mainline_range_perm, Hperm. lia.
    + done.
  - destruct cur as [c|]; [|intros [= <- <-]; by apply Hplain].
    destruct (Importer._get_mainline_range_count d c) as [r|] eqn:Hr.
    + apply get_mainline_range_count_elem in Hr as [Hin Hhead].
      destruct (bool_decide (acc ≠ []) && _) eqn:Hcond;
        intros [= <- <-]; [|by apply Hplain].
      apply andb_prop in Hcond as [Hne Hlt].
      apply bool_decide_eq_true in Hne. apply Z.ltb_lt in Hlt.
      destruct Hsound as (_ & _ & Hsound).
      destruct (Hsound r Hin) as (chain & Hchain & Hperm & Hcount).
      exists acc, (Importer._get_mainline_range d (schema.pkey r)), chain.
      split; [done|]. split; [|split; [|split]].
      * eapply lh_chain_app; [exact Hacc|]. by rewrite <- Hhead.
      * by rewrite get_mainline_range_perm.
      * rewrite get_mainline_range_perm, Hperm. lia.
      * done.
    + apply IH; [done|]. eapply lh_chain_app; [exact Hacc|]. by simpl.
Qed.

Lemma imap_members_revision key (l : list Z) : ∀ g : nat → Z,
  schema.revision <$> imap (λ idx db_id, schema.mk_member key db_id (g idx)) l
  = l.
Proof.
  induction l as [|x l IH]; intros g; simpl; [done|]. f_equal.
  apply (IH (g ∘ S)).
Qed.

(** [_insert_range] of the revisions of a chain adds a sound range. *)
Lemma insert_range_sound range_db_ids tail_db_id d d' chain h :
  ranges_sound d →
  range_db_ids ≡ₚ chain →
  range_db_ids !! 0%nat = Some h →
  lh_chain d (Some h) chain tail_db_id →
  Importer._insert_range range_db_ids tail_db_id d = Ok d' →
  ranges_sound d' ∧ schema.t_parent d' = schema.t_parent d.
Proof.
  intros (Hkeys & Hbound & Hsound) Hperm Hh Hchain.
  unfold Importer._insert_range, index. rewrite Hh. simpl. intros [= <-].
  split; [|done].
  set (key := Z.of_nat (length (schema.t_mainline_parent_range d)) + 1).
  set (row := schema.mk_range key h tail_db_id
                (Z.of_nat (length range_db_ids))).
  set (rows := imap (λ idx db_id, schema.mk_member key db_id (Z.of_nat idx))
                    range_db_ids).
  assert (∀ k, k ≠ key →
            filter (λ m, schema.range m = k) rows = []) as Hother.
  { intros k Hk. apply filter_none. apply Forall_forall. intros m Hm.
    apply elem_of_lookup_imap in Hm as (i & x & -> & _). simpl. congruence. }
  assert (filter (λ m, schema.range m = key) (schema.t_mainline_parent d) = [])
    as Hfresh.
  { apply filter_none. apply Forall_forall. intros m Hm.
    specialize (Hbound m Hm). unfold key. lia. }
  assert (schema.revision <$> filter (λ m, schema.range m = key) rows
          = range_db_ids) as Hnew.
  { rewrite filter_all.
    - exact (imap_members_revision key range_db_ids Z.of_nat).
    - apply Forall_forall. intros m Hm.
      by apply elem_of_lookup_imap in Hm as (i & x & -> & _). }
  split; [|split]; simpl.
  - intros i r Hi. destruct (decide (i < length (schema.t_mainline_parent_range d))%nat).
    + rewrite lookup_app_l in Hi by done. by apply Hkeys.
    + pose proof (lookup_lt_Some _ _ _ Hi) as Hlt.
      rewrite length_app in Hlt. simpl in Hlt.
      assert (i = length (schema.t_mainline_parent_range d)) as -> by lia.
      rewrite lookup_app_r, Nat.sub_diag in Hi by done. by injection Hi as <-.
  - intros m Hm. rewrite length_app. simpl.
    apply elem_of_app in Hm as [Hm|Hm].
    + specialize (Hbound m Hm). lia.
    + apply elem_of_lookup_imap in Hm as (i & x & -> & _). simpl.
      unfold key. lia.
  - intros r Hr. apply elem_of_app in Hr as [Hr|Hr].
    + destruct (Hsound r Hr) as (ch & Hch & Hp & Hc).
      exists ch. split; [by apply (lh_chain_ext d)|]. split; [|done].
      unfold range_members in *. simpl. rewrite filter_app, Hother.
      * by rewrite app_nil_r.
      * apply list_elem_of_lookup in Hr as [i Hi].
        rewrite (Hkeys i r Hi). apply lookup_lt_Some in Hi. unfold key. lia.
    + apply list_elem_of_singleton in Hr as ->.
      exists chain. simpl. split; [by apply (lh_chain_ext d)|]. split.
      * unfold range_members. simpl.
        by rewrite filter_app, Hfresh, fmap_app, Hnew.
      * by rewrite (Permutation_length Hperm).
Qed.

(** The second loop of [_build_one_mainline]: what it inserts are sound
    ranges. *)
Lemma insert_ranges_sound start fuel : ∀ main extra chain_x cur d d',
  ranges_sound d →
  lh_chain d start (main ++ chain_x) cur →
  extra ≡ₚ chain_x →
  (length extra < Importer._MAINLINE_PARENT_RANGE_LEN)%nat →
  (extra ≠ [] → main ≠ []) →
  Importer.insert_ranges fuel (main ++ extra) cur d = Ok d' →
  ranges_sound d' ∧ schema.t_parent d' = schema.t_parent d.
Proof.
  induction fuel as [|fuel IH];
    intros main extra chain_x cur d d' Hsound Hchain Hperm Hlen Hmain.
  - destruct (main ++ extra); simpl; [|discriminate]. by intros [= <-].
  - destruct (decide (main ++ extra = [])) as [Hnil|Hne].
    { rewrite Hnil. simpl. by intros [= <-]. }
    rewrite insert_ranges_step by done. cbv zeta.
    assert (main ≠ []) as Hmain'.
    { destruct extra; [by rewrite app_nil_r in Hne|by apply Hmain]. }
    set (keep := (length (main ++ extra)
                  - Importer._MAINLINE_PARENT_RANGE_LEN)%nat).
    assert (keep < length main)%nat as Hkeep.
    { assert (0 < length main)%nat by (destruct main; [done|simpl; lia]).
      unfold keep, Importer._MAINLINE_PARENT_RANGE_LEN in *.
      rewrite length_app. lia. }
    rewrite drop_app_le, take_app_le by lia.
    intros Hrun. apply bind_Ok in Hrun as (d1 & H1 & Hrun).
    apply bind_Ok in Hrun as (h & Hh & Hrun).
    rewrite <- (take_drop keep main), <- app_assoc in Hchain.
    apply lh_chain_split in Hchain as (mid & Hpre & Hpost).
    unfold index in Hh.
    destruct ((drop keep main ++ extra) !! 0%nat) as [h0|] eqn:Hh0;
      [|discriminate].
    injection Hh as ->.
    assert (mid = Some h) as ->.
    { destruct (drop keep main) as [|x rest] eqn:Hdrop.
      - apply (f_equal length) in Hdrop. rewrite length_drop in Hdrop.
        simpl in Hdrop. lia.
      - simpl in Hh0. injection Hh0 as ->. simpl in Hpost.
        by destruct Hpost. }
    eapply insert_range_sound in H1 as [Hsound1 Hparent1];
      [|done| |exact Hh0|exact Hpost].
    2:{ by rewrite Hperm. }
    rewrite <- (app_nil_r (take keep main)) in Hrun.
    apply (IH _ [] [] (Some h) d1 d') in Hrun as [Hsound' Hparent'].
    + split; [done|congruence].
    + done.
    + rewrite app_nil_r. by apply (lh_chain_ext d).
    + done.
    + unfold Importer._MAINLINE_PARENT_RANGE_LEN. simpl. lia.
    + done.
Qed.

(** X19: the mainline ranges stay sound.  If every range of the store holds,
    in some order, the revisions of the mainline from its head down to its
    tail (the tail left out) and counts them, then so does every range
    after [_build_one_mainline], the ones it has inserted included; the
    [parent] table is as it was. *)
Theorem build_one_mainline_sound (fuel : nat) (head_rev_id : string)
    (s s' : Importer.t) :
  ranges_sound (Importer._cursor s) →
  Importer._build_one_mainline fuel head_rev_id s = Ok s' →
  ranges_sound (Importer._cursor s')
  ∧ schema.t_parent (Importer._cursor s') = schema.t_parent (Importer._cursor s).
Proof.
  intros Hsound. unfold Importer._build_one_mainline. intros Hrun.
  apply bind_Ok in Hrun as (s1 & H1 & Hrun).
  apply bind_Ok in Hrun as (cur & _ & Hrun).
  apply bind_Ok in Hrun as ([range_db_ids cur'] & Hcollect & Hrun).
  apply bind_Ok in Hrun as (d' & Hinsert & [= <-]).
  apply importer_ensure_revisions_added in H1
    as [(_ & _ & Hparent & _ & Hranges & Hmembers) _].
  assert (ranges_sound (Importer._cursor s1)) as Hsound1
    by by apply (ranges_sound_tables (Importer._cursor s)).
  apply (collect_mainline_chain _ (Some cur)) in Hcollect
    as (main & extra & chain_x & -> & Hchain & Hperm & Hlen & Hmain);
    [|done|done].
  apply (insert_ranges_sound (Some cur)) with (chain_x := chain_x) in Hinsert
    as [Hsound' Hparent']; [|done..].
  split; [done|]. unfold Importer._cursor at 1. simpl. congruence.
Qed.


(** ** A refused insert, in an import *)

Lemma import_loop_app pre rest : ∀ last new_nodes s new_nodes' last' s',
  Importer.import_loop pre last new_nodes s = Ok (new_nodes', last', s') →
  new_nodes' ≠ [] →
  Importer.import_loop (pre ++ rest) last new_nodes s
  = Importer.import_loop rest last' new_nodes' s'.
Proof.
  induction pre as [|node pre IH]; intros last new s new' last' s'; simpl.
  - by intros [= <- <- <-].
  - destruct last as [last|].
    + destruct (ms_merge_depth node =? 0); [|by apply IH].
      destruct (Importer._insert_nodes last new s) as [[[] s1]| |];
        simpl; try discriminate.
      * by apply IH.
      * by intros [= <- <- <-].
    + case_bool_decide; [discriminate|].
      destruct (negb _); [discriminate|]. by apply IH.
Qed.

(** After a refused insert nothing more is inserted. *)
Lemma refused_insert_result merge_sorted s s3 s4 :
  refused_insert merge_sorted s s3 s4 →
  Importer.insert_merge_sorted merge_sorted s = Ok s4
  ∧ importer_grows s s3 ∧ importer_grows s3 s4.
Proof.
  intros (pre & rest & new_nodes & last & -> & Hrest & Hloop & Hne & Hins).
  split; [|split; [by eapply import_loop_grows|by eapply insert_nodes_grows]].
  unfold Importer.insert_merge_sorted.
  rewrite (import_loop_app pre rest _ _ _ _ _ _ Hloop Hne).
  destruct rest as [|node rest]; simpl.
  - destruct new_nodes; [done|]. by rewrite Hins.
  - rewrite Hrest. simpl. by rewrite Hins.
Qed.

Lemma ensure_revisions_known rev_id db_id s :
  Importer._rev_id_to_db_id s !! rev_id = Some db_id →
  ∃ s', Importer._ensure_revisions [rev_id] s = Ok s'
        ∧ Importer._cursor s' = Importer._cursor s
        ∧ committed (Importer._db_conn s') = committed (Importer._db_conn s)
        ∧ Importer._rev_id_to_db_id s' = Importer._rev_id_to_db_id s.
Proof.
  intros Hl. unfold Importer._ensure_revisions, schema.ensure_revisions.
  simpl. rewrite Hl. simpl. eexists. split; [done|]. done.
Qed.

(** The first loop of [_build_one_mainline] returns when the left-hand
    ancestry it walks is a chain that ends. *)
Lemma collect_mainline_total d chain : ∀ fuel cur acc,
  lh_chain d cur chain None → (length chain ≤ fuel)%nat →
  ∃ l cur', Importer.collect_mainline fuel d cur acc = Ok (l, cur').
Proof.
  induction chain as [|x chain IH]; intros fuel cur acc; simpl.
  - intros -> _. destruct fuel; simpl; eauto.
  - intros [-> Hchain] Hlen.
    destruct fuel as [|fuel]; [lia|]. simpl.
    destruct (Importer._get_mainline_range_count d x) as [r|].
    + destruct (_ && _); eauto.
    + apply IH; [done|lia].
Qed.

(** When it starts at a revision [c], what it collects starts with [c],
    unless [c] heads a range already and nothing is collected. *)
Lemma collect_mainline_head d fuel : ∀ cur acc l cur' c,
  hd_error (acc ++ match cur with Some x => [x] | None => [] end) = Some c →
  (acc = [] → cur = Some c) →
  Importer.collect_mainline fuel d cur acc = Ok (l, cur') →
  hd_error l = Some c
  ∨ (l = [] ∧ ∃ r, r ∈ schema.t_mainline_parent_range d ∧ schema.head r = c).
Proof.
  induction fuel as [|fuel IH]; intros cur acc l cur' c Hhd Hcur; simpl.
  - destruct cur as [x|].
    + destruct (Importer._get_mainline_range_count d x) as [r|] eqn:Hr;
        [|discriminate].
      apply get_mainline_range_count_elem in Hr as [Hin Hhead].
      destruct acc as [|a acc].
      * simpl. intros [= <- <-]. right. split; [done|].
        specialize (Hcur eq_refl). injection Hcur as ->. by exists r.
      * simpl in Hhd. injection Hhd as ->.
        destruct (_ && _); intros [= <- <-]; by left.
    + intros [= <- <-]. left. destruct acc; [by specialize (Hcur eq_refl)|].
      by rewrite app_nil_r in Hhd.
  - destruct cur as [x|].
    + destruct (Importer._get_mainline_range_count d x) as [r|] eqn:Hr.
      * apply get_mainline_range_count_elem in Hr as [Hin Hhead].
        destruct acc as [|a acc].
        -- simpl. intros [= <- <-]. right. split; [done|].
           specialize (Hcur eq_refl). injection Hcur as ->. by exists r.
        -- simpl in Hhd. injection Hhd as ->.
           destruct (_ && _); intros [= <- <-]; by left.
      * intros Hrun. eapply IH in Hrun; [exact Hrun| |].
        -- destruct acc as [|a acc]; simpl in *; [done|].
           by destruct (_get_lh_parent_db_id d x).
        -- intros Hnil. by destruct acc.
    + intros [= <- <-]. left. destruct acc; [by specialize (Hcur eq_refl)|].
      by rewrite app_nil_r in Hhd.
Qed.

(** The second loop gives the first of the revisions it is given a range
    of which it is the head, and leaves [dotted_revno] alone. *)
Lemma insert_ranges_head fuel : ∀ range_db_ids cur_db_id d d' h,
  hd_error range_db_ids = Some h →
  Importer.insert_ranges fuel range_db_ids cur_db_id d = Ok d' →
  (∃ r, r ∈ schema.t_mainline_parent_range d' ∧ schema.head r = h)
  ∧ schema.t_dotted_revno d' = schema.t_dotted_revno d.
Proof.
  induction fuel as [|fuel IH]; intros l cur d d' h Hh.
  - destruct l; simpl; [done|discriminate].
  - destruct (decide (l = [])) as [->|Hne]; [done|].
    rewrite insert_ranges_step by done. cbv zeta.
    set (keep := (length l - Importer._MAINLINE_PARENT_RANGE_LEN)%nat).
    intros Hrun. apply bind_Ok in Hrun as (d1 & H1 & Hrun).
    apply bind_Ok in Hrun as (h1 & Hh1 & Hrun).
    destruct (insert_range_rows _ _ _ _ H1) as (r & Hrows & _ & _ & Hhead).
    assert (schema.t_dotted_revno d1 = schema.t_dotted_revno d) as Hdot.
    { unfold Importer._insert_range in H1.
      apply bind_Ok in H1 as (h' & _ & [= <-]). done. }
    destruct (decide (keep = 0%nat)) as [Hk|Hk].
    + rewrite Hk, take_0 in Hrun. rewrite Hk, drop_0 in Hhead.
      assert (d' = d1) as -> by (destruct fuel; simpl in Hrun; congruence).
      split; [|done]. exists r. split.
      * rewrite Hrows. apply elem_of_app. right. apply list_elem_of_here.
      * destruct l; simpl in *; congruence.
    + apply (IH _ _ _ _ h) in Hrun as [Hr Hdot']; [split; [done|congruence]|].
      destruct l as [|x l]; [done|]. destruct keep; [done|].
      simpl in *. done.
Qed.

(** [_build_one_mainline] after the insertion: it returns when the tip has
    a db id and its left-hand ancestry is a chain that ends within the
    fuel; it leaves [dotted_revno] alone, adds ranges to those there are,
    and the tip is the head of a range afterwards. *)
Lemma build_one_mainline_returns fuel tip s tip_db_id chain :
  Importer._rev_id_to_db_id s !! tip = Some tip_db_id →
  lh_chain (Importer._cursor s) (Some tip_db_id) chain None →
  (length chain ≤ fuel)%nat →
  ∃ s', Importer._build_one_mainline fuel tip s = Ok s'
        ∧ schema.t_dotted_revno (Importer._cursor s')
          = schema.t_dotted_revno (Importer._cursor s)
        ∧ (∃ new, schema.t_mainline_parent_range (Importer._cursor s')
                  = schema.t_mainline_parent_range (Importer._cursor s) ++ new
                  ∧ chunked new)
        ∧ (∃ r, r ∈ schema.t_mainline_parent_range (Importer._cursor s')
                ∧ schema.head r = tip_db_id).
Proof.
  intros Hid Hchain Hlen. unfold Importer._build_one_mainline.
  destruct (ensure_revisions_known tip tip_db_id s Hid)
    as (s1 & -> & Hcur & _ & Hmap).
  simpl. unfold getitem. rewrite Hmap, Hid. simpl. rewrite Hcur.
  destruct (collect_mainline_total (Importer._cursor s) chain fuel
              (Some tip_db_id) [] Hchain Hlen) as (l & cur' & Hcollect).
  rewrite Hcollect. simpl.
  destruct (insert_ranges_total (length l) l cur' (Importer._cursor s))
    as [d' Hinsert]; [done|].
  rewrite Hinsert. simpl. eexists. split; [done|].
  assert (Importer._cursor (Importer.set_cursor d' s1) = d') as -> by done.
  apply collect_mainline_head with (c := tip_db_id) in Hcollect;
    [|done|done].
  pose proof (insert_ranges_rows _ _ _ _ _ Hinsert) as Hrows.
  destruct Hcollect as [Hhd|[-> (r & Hr & Hhead)]].
  - apply (insert_ranges_head _ _ _ _ _ tip_db_id) in Hinsert as [Hr Hdot];
      [|done].
    done.
  - simpl in Hinsert. injection Hinsert as <-.
    split; [done|]. split; [done|]. by exists r.
Qed.

(** C8, as amended: a uniqueness violation on [(tip, merged)] never leaves
    [_insert_nodes] as an error, it is its result [False].  And when, in an
    import, the insertion of a group is refused (in the loop of
    [_import_tip] or after it), the tip having a db id and its left-hand
    ancestry being a chain that ends within the fuel: [do_import] returns;
    what it has committed is its transaction; the [dotted_revno] table
    that is committed is the table as the refused insert has left it,
    which begins with the table as it was before that insert, rows
    inserted by this import included, which begins with the table the
    import started from (nothing is rolled back, and nothing is inserted
    after the refusal); the mainline ranges are built, the tip being the
    head of a range; and no table has lost a row. *)
Theorem refused_insert_is_kept_and_committed :
  (∀ tip_rev_id nodes s,
     Importer._insert_nodes tip_rev_id nodes s ≠ Raise IntegrityError)
  ∧ (∀ fuel s merge_sorted s1 s2 s3 s4 tip_db_id chain,
       Importer.is_null (Importer._branch_tip_rev_id s) = false →
       Importer._get_merge_sorted_tip fuel (Importer._branch_tip_rev_id s) s
       = Ok (merge_sorted, s1) →
       (if Importer._incremental s1 then Ok s1
        else s ← Importer._ensure_revisions (ms_key <$> merge_sorted) s1;
             Importer._update_parents merge_sorted s) = Ok s2 →
       refused_insert merge_sorted s2 s3 s4 →
       Importer._rev_id_to_db_id s4 !! Importer._branch_tip_rev_id s
       = Some tip_db_id →
       lh_chain (Importer._cursor s4) (Some tip_db_id) chain None →
       (length chain ≤ fuel)%nat →
       ∃ s',
         Importer.do_import fuel s = Ok s'
         ∧ committed (Importer._db_conn s') = cursor (Importer._db_conn s')
         ∧ schema.t_dotted_revno (committed (Importer._db_conn s'))
           = schema.t_dotted_revno (Importer._cursor s4)
         ∧ schema.t_dotted_revno (Importer._cursor s3)
           `prefix_of` schema.t_dotted_revno (Importer._cursor s4)
         ∧ schema.t_dotted_revno (Importer._cursor s)
           `prefix_of` schema.t_dotted_revno (Importer._cursor s3)
         ∧ (∃ new,
              schema.t_mainline_parent_range (committed (Importer._db_conn s'))
              = schema.t_mainline_parent_range (Importer._cursor s4) ++ new
              ∧ chunked new)
         ∧ (∃ r,
              r ∈ schema.t_mainline_parent_range
                    (committed (Importer._db_conn s'))
              ∧ schema.head r = tip_db_id)
         ∧ grows (Importer._cursor s) (committed (Importer._db_conn s'))).
Proof.
  split; [apply insert_nodes_no_integrity_error|].
  intros fuel s ms s1 s2 s3 s4 tip_db_id chain
    Hnull Hsort Hparents Hrefused Hid Hchain Hlen.
  apply refused_insert_result in Hrefused as (Hinsert & [H23 _] & [H34 _]).
  destruct (build_one_mainline_returns fuel _ s4 tip_db_id chain Hid Hchain
              Hlen) as (s5 & Hbuild & Hdot & Hranges & Hhead).
  assert (Importer._import_tip fuel (Importer._branch_tip_rev_id s) s
          = Ok (ms, s5)) as Himport.
  { unfold Importer._import_tip. rewrite Hsort. simpl.
    rewrite Hparents. simpl. rewrite Hinsert. simpl. by rewrite Hbuild. }
  exists (Importer.set_db_conn (commit (Importer._db_conn s5)) s5).
  split; [unfold Importer.do_import; by rewrite Hnull, Himport|].
  assert (grows (Importer._cursor s) (Importer._cursor s2)) as H02.
  { apply get_merge_sorted_tip_grows in Hsort as [Hg1 _].
    eapply grows_trans; [exact Hg1|].
    destruct (Importer._incremental s1).
    - injection Hparents as <-. apply grows_refl.
    - apply bind_Ok in Hparents as (s6 & H6 & Hparents).
      apply importer_ensure_revisions_grows in H6 as [H6 _].
      unfold Importer._update_parents in Hparents.
      destruct (Importer._graph s6); [|discriminate].
      apply insert_parent_map_grows in Hparents as [Hp _].
      by eapply grows_trans. }
  simpl. fold (Importer._cursor s5).
  split; [done|]. split; [done|].
  split; [by destruct H34 as (_ & _ & _ & ? & _)|].
  split.
  { destruct H02 as (_ & _ & _ & H02 & _).
    destruct H23 as (_ & _ & _ & H23 & _). by etrans. }
  split; [done|]. split; [done|].
  apply import_tip_grows in Himport as [Hg _]. done.
Qed.

Lemma refused_insert_is_kept_and_committed_witness :
  let s := reimport_start in
  let node_B := mk_merge_sorted "B" 0 [2] false in
  let node_A := mk_merge_sorted "A" 0 [1] true in
  let s3 := result_or reimport_before_last_insert s in
  ∃ s',
    Importer.do_import 20 s = Ok s'
    ∧ committed (Importer._db_conn s') = cursor (Importer._db_conn s')
    ∧ schema.t_dotted_revno (committed (Importer._db_conn s'))
      = schema.t_dotted_revno (Importer._cursor s3)
    ∧ schema.t_dotted_revno (Importer._cursor s3)
      `prefix_of` schema.t_dotted_revno (Importer._cursor s3)
    ∧ schema.t_dotted_revno (Importer._cursor s)
      `prefix_of` schema.t_dotted_revno (Importer._cursor s3)
    ∧ (∃ new,
         schema.t_mainline_parent_range (committed (Importer._db_conn s'))
         = schema.t_mainline_parent_range (Importer._cursor s3) ++ new
         ∧ chunked new)
    ∧ (∃ r,
         r ∈ schema.t_mainline_parent_range (committed (Importer._db_conn s'))
         ∧ schema.head r = 2)
    ∧ grows (Importer._cursor s) (committed (Importer._db_conn s')).
Proof.
  intros s node_B node_A s3.
  apply (proj2 refused_insert_is_kept_and_committed 20%nat s
           [node_B; node_A] s
           (result_or
              (s1 ← Importer._ensure_revisions ["B"; "A"] s;
               Importer._update_parents [node_B; node_A] s1) s)
           s3 s3 2 [2; 1]).
  - vm_compute; reflexivity.
  - vm_compute; reflexivity.
  - vm_compute; reflexivity.
  - exists [node_B; node_A], [], [node_A], "A".
    split; [done|]. split; [done|].
    split; [vm_compute; reflexivity|]. split; [done|].
    vm_compute; reflexivity.
  - vm_compute; reflexivity.
  - split; [done|]. split; [vm_compute; reflexivity|].
    vm_compute; reflexivity.
  - simpl. lia.
Defined.


(** ** The walk of [_compute_merge_sort] *)












